(** * biominserter: motifs, loop energies, partition functions and the
      bi-objective integer program

    A shallow embedding of [Motif.cpp] (motif catalogue readers and the
    [RNA] thermodynamic engine that shares the file) and of [MOIP.cpp]
    (model builder and Pareto walker), with the properties of the
    specification stated over it.

    Conventions.
    - [std::string] is [string]; [size_t] results of [find] are [option nat]
      with [None] for [npos], and the one place where the source relies on
      [npos + 1] wrapping to [0] is written out ([succ_size_t]).
    - [int]/[uint] loop counters are [Z]; 32-bit unsigned arithmetic that can
      wrap in the source is written with [wrap32].
    - [std::vector] is [list]; an access the source performs unchecked
      ([operator[]]) is a lookup whose failure is kept visible where a
      property depends on it.
    - [float]/[double] quantities are exact numbers: rationals [Q] in the
      integer program (whose inputs are data), reals [R] in the
      thermodynamic engine (which needs [exp] and [log]).  Rounding,
      overflow and NaN are outside the model. *)

From Stdlib Require Import ZArith List Bool Lia Ascii String Sorted.
From Stdlib Require Import QArith.
From Stdlib Require Import Reals Lra.
Import ListNotations.

Set Implicit Arguments.

(* ================================================================== *)
(** * Strings, as the catalogue readers use them *)
(* ================================================================== *)

Module Str.

Local Open Scope string_scope.
Local Open Scope nat_scope.

(** [s.find(c)] for a one-character pattern: position of the first
    occurrence, [None] for [std::string::npos]. *)
Fixpoint find (s : string) (c : ascii) : option nat :=
  match s with
  | EmptyString => None
  | String a s' =>
      if Ascii.eqb a c then Some 0
      else match find s' c with
           | Some k => Some (S k)
           | None => None
           end
  end.

Fixpoint take (n : nat) (s : string) : string :=
  match n, s with
  | S n', String a s' => String a (take n' s')
  | _, _ => EmptyString
  end.

Fixpoint drop (n : nat) (s : string) : string :=
  match n, s with
  | S n', String _ s' => drop n' s'
  | _, _ => s
  end.

(** [idx + 1] on a [size_t]: [npos + 1] wraps around to [0]. *)
Definition succ_size_t (idx : option nat) : nat :=
  match idx with
  | Some k => S k
  | None => 0
  end.

(** [s.substr(0, idx)]: the count is clamped to the length, so [npos]
    yields the whole string. *)
Definition substr0 (s : string) (idx : option nat) : string :=
  match idx with
  | Some k => take k s
  | None => s
  end.

(** [s.erase(0, count)]. *)
Definition erase0 (s : string) (count : nat) : string := drop count s.

Definition isspace (c : ascii) : bool :=
  match nat_of_ascii c with
  | 9 | 10 | 11 | 12 | 13 | 32 => true
  | _ => false
  end.

Definition digit_of (c : ascii) : option Z :=
  let n := nat_of_ascii c in
  if (48 <=? n) && (n <=? 57) then Some (Z.of_nat (n - 48)) else None.

Fixpoint skip_ws (s : string) : string :=
  match s with
  | String c s' => if isspace c then skip_ws s' else s
  | EmptyString => s
  end.

(** Longest prefix of decimal digits; [acc] is [None] until a digit is read. *)
Fixpoint read_digits (s : string) (acc : option Z) : option Z :=
  match s with
  | String c s' =>
      match digit_of c with
      | Some d =>
          read_digits s' (Some (10 * match acc with Some a => a | None => 0 end + d)%Z)
      | None => acc
      end
  | EmptyString => acc
  end.

Definition INT_MIN : Z := (- 2 ^ 31)%Z.
Definition INT_MAX : Z := (2 ^ 31 - 1)%Z.

(** [std::stoi(s)]: leading white space, an optional sign, at least one
    digit; what follows the digits is ignored.  [None] stands for the
    exception thrown ([invalid_argument] when there is no digit,
    [out_of_range] when the value does not fit an [int]). *)
Definition stoi (s : string) : option Z :=
  let s1 := skip_ws s in
  let '(neg, s2) :=
    match s1 with
    | String "-" r => (true, r)
    | String "+" r => (false, r)
    | _ => (false, s1)
    end in
  match read_digits s2 None with
  | None => None
  | Some v =>
      let v' := if neg then (- v)%Z else v in
      if ((INT_MIN <=? v') && (v' <=? INT_MAX))%Z then Some v' else None
  end.

(** Number of occurrences of a character. *)
Fixpoint count (c : ascii) (s : string) : nat :=
  match s with
  | EmptyString => 0
  | String a s' => (if Ascii.eqb a c then 1 else 0) + count c s'
  end.

(** The last character, when there is one. *)
Fixpoint last_char (s : string) : option ascii :=
  match s with
  | EmptyString => None
  | String a EmptyString => Some a
  | String _ s' => last_char s'
  end.

(** ** Primitives of the catalogue readers *)

(** [s.find(pat)] for a pattern of any length. *)
Fixpoint find_str (pat s : string) : option nat :=
  if String.prefix pat s then Some 0
  else match s with
       | EmptyString => None
       | String _ s' => match find_str pat s' with
                        | Some k => Some (S k)
                        | None => None
                        end
       end.

(** [boost::split(tokens, s, boost::is_any_of(c))] for a one-character
    set: the fields between the separators, empty fields included; a
    string without separator is one field. *)
Fixpoint split (c : ascii) (s : string) : list string :=
  match s with
  | EmptyString => [EmptyString]
  | String a s' =>
      if Ascii.eqb a c then EmptyString :: split c s'
      else match split c s' with
           | t :: ts => String a t :: ts
           | [] => [String a EmptyString]
           end
  end.

(** The lines successive calls of [std::getline(file, line)] return on a
    stream that holds [file]: each line without its newline; characters
    after the last newline are a last line; nothing is left after a final
    newline. *)
Fixpoint getlines (file : string) : list string :=
  match file with
  | EmptyString => []
  | String a f' =>
      if Ascii.eqb a "010" then EmptyString :: getlines f'
      else match getlines f' with
           | l :: ls => String a l :: ls
           | [] => [String a EmptyString]
           end
  end.

(** [std::stoi] after the leading white space. *)
Definition stoi_from (s1 : string) : option Z :=
  let '(neg, s2) :=
    match s1 with
    | String "-" r => (true, r)
    | String "+" r => (false, r)
    | _ => (false, s1)
    end in
  match read_digits s2 None with
  | None => None
  | Some v =>
      let v' := if neg then (- v)%Z else v in
      if ((INT_MIN <=? v') && (v' <=? INT_MAX))%Z then Some v' else None
  end.

(** [s.find(c, start)]. *)
Definition find_from (s : string) (c : ascii) (start : nat) : option nat :=
  match find (drop start s) c with
  | Some k => Some (start + k)%nat
  | None => None
  end.

(** The first [count] characters of [s], for a count that may exceed any
    length. *)
Fixpoint take_upto (count : Z) (s : string) : string :=
  match s with
  | EmptyString => EmptyString
  | String a s' => if (0 <? count)%Z then String a (take_upto (count - 1)%Z s') else EmptyString
  end.

(** [s.substr(pos, count)], for [pos <= s.size()]. *)
Definition substr (s : string) (pos : nat) (count : Z) : string :=
  take_upto count (drop pos s).

End Str.

(* ================================================================== *)
(** * Counted loops and machine integers *)
(* ================================================================== *)

Module Loop.

Local Open Scope Z_scope.

(** The integers [a, a+1, ..., b]; empty when [b < a]. *)
Definition zrange (a b : Z) : list Z :=
  map (fun k => a + Z.of_nat k) (seq 0 (Z.to_nat (b - a + 1))).

(** [for (k = a; k <= b; k++) s = body(k, s);] *)
Definition for_ {S : Type} (a b : Z) (body : Z -> S -> S) (s : S) : S :=
  fold_left (fun s k => body k s) (zrange a b) s.

(** [for (k = b; k >= a; k--) s = body(k, s);] *)
Definition for_down {S : Type} (b a : Z) (body : Z -> S -> S) (s : S) : S :=
  fold_left (fun s k => body k s) (rev (zrange a b)) s.

(** 32-bit unsigned wrap-around. *)
Definition wrap32 (z : Z) : Z := z mod 2 ^ 32.

End Loop.

(* ================================================================== *)
(** * Motif.cpp: motifs and their catalogue readers *)
(* ================================================================== *)

Module MotifModel.

Import Str.
Local Open Scope string_scope.

(** [Component]: an interval of the RNA, its length [k] and its sequence. *)
Record Component : Type := mkComponent {
  pos : Z * Z;
  k : Z;
  seq_ : string
}.

(** [Component(pair)] as the CSV readers and the locator call it; [k] is
    the number of positions of the interval. *)
Definition Component_of_pos (p : Z * Z) : Component :=
  mkComponent p (snd p - fst p + 1) "".

Record Link : Type := mkLink {
  nts : Z * Z;
  long_range : bool
}.

Inductive source_t : Type := RNA3DMOTIF | RNAMOTIFATLAS | CARNAVAL.

Record Motif : Type := mkMotif {
  comp : list Component;
  links_ : list Link;
  atlas_id : string;
  PDBID : string;
  carnaval_id : string;
  score_ : Z;
  reversed_ : bool;
  is_model_ : bool;
  source_ : source_t
}.

(** [Motif::get_identifier]. *)
Definition get_identifier (m : Motif) : string :=
  match source_ m with
  | RNAMOTIFATLAS => atlas_id m
  | CARNAVAL => "RIN" ++ carnaval_id m
  | RNA3DMOTIF => PDBID m
  end.

(** [operator==(const Component&, const Component&)]. *)
Definition Component_eq (c1 c2 : Component) : bool :=
  if negb (fst (pos c1) =? fst (pos c2))%Z then false
  else if negb (snd (pos c1) =? snd (pos c2))%Z then false
  else true.

Definition Component_neq (c1 c2 : Component) : bool := negb (Component_eq c1 c2).

(** The loop of [operator==(const Motif&, const Motif&)]:
    [for (i = 0; i < m1.comp.size(); i++) if (m1.comp[i] != m2.comp[i]) return false;]
    [i] is the current index, [todo] the number of iterations left.  Each
    [comp[i]] is a checked lookup here; [None] records that the source
    indexed a vector outside its bounds. *)
Fixpoint Motif_eq_loop (c1 c2 : list Component) (i todo : nat) : option bool :=
  match todo with
  | O => Some true
  | S todo' =>
      match nth_error c1 i, nth_error c2 i with
      | Some a, Some b =>
          if Component_neq a b then Some false
          else Motif_eq_loop c1 c2 (S i) todo'
      | _, _ => None
      end
  end.

(** [operator==(const Motif&, const Motif&)]. *)
Definition Motif_eq (m1 m2 : Motif) : option bool :=
  if negb (get_identifier m1 =? get_identifier m2) then Some false
  else if negb (score_ m1 =? score_ m2)%Z then Some false
  else if negb (Bool.eqb (reversed_ m1) (reversed_ m2)) then Some false
  else Motif_eq_loop (comp m1) (comp m2) 0 (List.length (comp m1)).

(** ** The links line of a Carnaval RIN file *)

(** One pass of the body of [while (line != "")] in the RIN constructor:
    the link read and the line left for the next pass; [None] when a
    [stoi] throws. *)
Definition read_link (line : string) : option (Link * string) :=
  let index := find line ";" in
  let link_str := substr0 line index in
  let line := erase0 line (succ_size_t index) in
  let sub_index := find link_str "," in
  let nt_str := substr0 link_str sub_index in
  let link_str := erase0 link_str (succ_size_t sub_index) in
  match stoi nt_str with
  | None => None
  | Some first =>
      let sub_index := find link_str "," in
      let nt_str := substr0 link_str sub_index in
      let link_str := erase0 link_str (succ_size_t sub_index) in
      match stoi nt_str with
      | None => None
      | Some second =>
          Some (mkLink (first, second) (link_str =? "True"), line)
      end
  end.

(** How a run of the loop stands after a number of passes. *)
Inductive loop_outcome : Type :=
  | Finished (links : list Link)   (* [line] became empty *)
  | Threw                          (* a [stoi] raised *)
  | Running.                       (* the passes allowed are used up *)

(** [while (line != "") { ...; links_.push_back(link); }], at most [fuel]
    passes. *)
Fixpoint links_loop (fuel : nat) (line : string) (links : list Link) : loop_outcome :=
  if line =? "" then Finished links
  else
    match fuel with
    | O => Running
    | S fuel' =>
        match read_link line with
        | None => Threw
        | Some (link, line') => links_loop fuel' line' (links ++ [link])
        end
    end.

(** Whether every record of a links line is closed by [';']. *)
Definition records_closed (line : string) : bool :=
  match last_char line with
  | None => true
  | Some c => Ascii.eqb c ";"
  end.

(** Two catalogue entries of one motif that differ in the number of
    components kept. *)
Definition motif_two_components : Motif :=
  mkMotif [Component_of_pos (1, 5)%Z; Component_of_pos (10, 15)%Z] []
          "IL_0001" "" "" 10 false true RNAMOTIFATLAS.

Definition motif_one_component : Motif :=
  mkMotif [Component_of_pos (1, 5)%Z] []
          "IL_0001" "" "" 10 false true RNAMOTIFATLAS.

(** ** The CSV and RIN readers *)

(** How a constructor ends: with the object, with an exception
    ([std::stoi]), or in an access to a vector outside its bounds. *)
Inductive result (A : Type) : Type :=
  | Built (a : A)
  | Thrown
  | OutOfRange.
Arguments Built {A} a.
Arguments Thrown {A}.
Arguments OutOfRange {A}.

Definition rbind {A B : Type} (x : result A) (f : A -> result B) : result B :=
  match x with
  | Built a => f a
  | Thrown => Thrown
  | OutOfRange => OutOfRange
  end.

Declare Scope result_scope.
Delimit Scope result_scope with result.
Notation "x <- c1 ;; c2" := (rbind c1 (fun x => c2))
  (at level 61, c1 at next level, right associativity) : result_scope.
Local Open Scope result_scope.

(** [tokens[i]]. *)
Definition token (tokens : list string) (i : nat) : result string :=
  match nth_error tokens i with
  | Some t => Built t
  | None => OutOfRange
  end.

(** [stoi(s)], with its exception. *)
Definition rstoi (s : string) : result Z :=
  match stoi s with
  | Some z => Built z
  | None => Thrown
  end.

(** [stoi(tokens[i])]. *)
Definition stoi_token (tokens : list string) (i : nat) : result Z :=
  t <- token tokens i ;; rstoi t.

(** The loop of the BayesPairing branch of [Motif::Motif(string csv_line)]:
    [while (i < tokens.size()-1) { if (stoi(tokens[i]) < stoi(tokens[i+1]))
    comp.push_back(...); i += 2; }], at most [fuel] passes.  [comp] holds
    the pairs passed to [Component]. *)
Fixpoint csv_pairs (fuel : nat) (tokens : list string) (i : nat) (comp : list (Z * Z))
  : result (list (Z * Z)) :=
  match fuel with
  | O => Built comp
  | S fuel' =>
      if (i <? List.length tokens - 1)%nat then
        a <- stoi_token tokens i ;;
        b <- stoi_token tokens (i + 1) ;;
        if (a <? b)%Z then csv_pairs fuel' tokens (i + 2) (comp ++ [(a, b)])
        else csv_pairs fuel' tokens (i + 2) comp
      else Built comp
  end.

(** [Motif::Motif(string csv_line)].  [reversed0] is what the member
    [reversed_] holds when the constructor does not assign it. *)
Definition Motif_of_csv (reversed0 : bool) (csv_line : string) : result Motif :=
  let tokens := split "," csv_line in
  if negb (match find_str "True" csv_line with None => true | Some _ => false end)
     || negb (match find_str "False" csv_line with None => true | Some _ => false end)
  then
    atlas_id <- token tokens 0 ;;
    score_ <- stoi_token tokens 2 ;;
    a <- stoi_token tokens 3 ;;
    b <- stoi_token tokens 4 ;;
    let comp := [Component_of_pos (a, b)] in
    t5 <- token tokens 5 ;;
    comp <- (if negb (t5 =? "-") then
               a <- stoi_token tokens 5 ;;
               b <- stoi_token tokens 6 ;;
               Built (comp ++ [Component_of_pos (a, b)])%list
             else Built comp) ;;
    t1 <- token tokens 1 ;;
    Built (mkMotif comp [] atlas_id "" "" score_ (t1 =? "True") true RNAMOTIFATLAS)
  else
    score_ <- stoi_token tokens 1 ;;
    t0 <- token tokens 0 ;;
    pairs <- csv_pairs (List.length tokens) tokens 2 [] ;;
    let comp := map Component_of_pos pairs in
    match find_str "rna3dmotif" t0 with
    | None => Built (mkMotif comp [] t0 "" "" score_ reversed0 true RNAMOTIFATLAS)
    | Some _ => Built (mkMotif comp [] "" t0 "" score_ reversed0 false RNA3DMOTIF)
    end.

(** The body of the loop over the component lines of a RIN file
    ([pos;k;seq]): the component read from [line]. *)
Definition read_component (line : string) : result Component :=
  let index := find line ";" in
  let pos_str := substr0 line index in
  let line := erase0 line (succ_size_t index) in
  let sub_index := find pos_str "," in
  let sub_pos_str := substr0 pos_str sub_index in
  let pos_str := erase0 pos_str (succ_size_t sub_index) in
  first <- rstoi sub_pos_str ;;
  second <- rstoi pos_str ;;
  let index := find line ";" in
  let k_str := substr0 line index in
  let line := erase0 line (succ_size_t index) in
  k <- rstoi k_str ;;
  Built (mkComponent (first, second) k line).

(** [while (std::getline(file, line)) { if (line == "\n") break; ...;
    comp.push_back(c); }] over the lines left in the file. *)
Fixpoint read_components (lines : list string) (comp : list Component)
  : result (list Component) :=
  match lines with
  | [] => Built comp
  | line :: rest =>
      if line =? String "010" "" then Built comp
      else c <- read_component line ;; read_components rest (comp ++ [c])
  end.

(** A [size_t] result of [find] stored in a [uint]. *)
Definition to_uint (idx : option nat) : Z :=
  match idx with
  | Some k => Loop.wrap32 (Z.of_nat k)
  | None => (2 ^ 32 - 1)%Z
  end.

(** What one component line adds to [motif_length] in
    [Motif::is_valid_RIN]: [stoi(line.substr(line.find(";")+1, index))]
    with [index = line.find(";", start)]; [None] when [stoi] throws. *)
Definition rin_line_length (line : string) : option Z :=
  let start := succ_size_t (find line ";") in
  let index := to_uint (find_from line ";" start) in
  stoi (substr line (succ_size_t (find line ";")) index).

(** The loop over the component lines: [motif_length] at the end. *)
Fixpoint rin_motif_length (lines : list string) (motif_length : Z) : option Z :=
  match lines with
  | [] => Some motif_length
  | line :: rest =>
      if line =? String "010" "" then Some motif_length
      else match rin_line_length line with
           | Some k => rin_motif_length rest (Loop.wrap32 (motif_length + k))
           | None => None
           end
  end.

(** [Motif::is_valid_RIN] on a file whose second line is [links_line] and
    whose lines after the third are [comp_lines]: the character returned
    (['l'], ['x'] or 0), [None] when [stoi] throws. *)
Definition is_valid_RIN (links_line : string) (comp_lines : list string) : option ascii :=
  let n_basepairs := Loop.wrap32 (Z.of_nat (count ";" links_line)) in
  match rin_motif_length comp_lines 0 with
  | None => None
  | Some motif_length =>
      if (motif_length <? 5)%Z then Some "l"%char
      else if (n_basepairs =? 0)%Z then Some "x"%char
      else Some "000"%char
  end.

End MotifModel.

(* ================================================================== *)
(** * Motif.cpp, second unit: the [RNA] class *)
(* ================================================================== *)

Module RNAModel.

Import Loop.
Local Open Scope Z_scope.

(** ** Matrices *)

(** A dense matrix of numbers ([Eigen::MatrixXf]), read and written by
    index.  The numbers are exact here: they are not rounded, never leave
    the range of a [float] and are never a NaN, so that what is proved
    over these matrices is about the recursions in exact arithmetic.  The
    floating-point side of the back-recursion has a model of its own
    ([posterior_float] below). *)
Definition Matrix : Type := Z -> Z -> R.

Definition mzero : Matrix := fun _ _ => 0%R.

(** [M(i, j) = v]. *)
Definition mset (M : Matrix) (i j : Z) (v : R) : Matrix :=
  fun i' j' => if (i' =? i) && (j' =? j) then v else M i' j'.

(** [M(i, j) += v]. *)
Definition madd (M : Matrix) (i j : Z) (v : R) : Matrix :=
  mset M i j (M i j + v)%R.

(** The file's own [uint max(uint a, uint b)]. *)
Definition uint_max (a b : Z) : Z :=
  if wrap32 b <? wrap32 a then wrap32 a else wrap32 b.

(** ** Nucleotides, pair types, parameters *)

Inductive base_t : Type := BASE_N | BASE_A | BASE_C | BASE_G | BASE_U.

Inductive pair_t : Type :=
  PAIR_AU | PAIR_CG | PAIR_GC | PAIR_UA | PAIR_GU | PAIR_UG | PAIR_OTHER.

Definition base_t_eqb (x y : base_t) : bool :=
  match x, y with
  | BASE_N, BASE_N | BASE_A, BASE_A | BASE_C, BASE_C
  | BASE_G, BASE_G | BASE_U, BASE_U => true
  | _, _ => false
  end.

(** What [rna.h] declares and this unit only uses: the integer values of
    the [base_t] enumerators (they index the parameter tables as
    [bseq_[i] - 1] and the 5x5 [pair_map]) and the physical constants. *)
Record Header : Type := mkHeader {
  base_code : base_t -> Z;
  kB : R;
  AVOGADRO : R;
  ZERO_C_IN_KELVIN : R
}.

(** The enumerators index [pair_map], a [Matrix<pair_t, 5, 5>]. *)
Definition base_codes_fit (hdr : Header) : Prop :=
  forall b, 0 <= base_code hdr b < 5.

(** The usual numbering, [BASE_N = 0] and A, C, G, U from 1 to 4, with
    constants whose product [kB * AVOGADRO] is the gas constant in
    kcal/(mol K). *)
Definition usual_header : Header :=
  mkHeader
    (fun b => match b with
              | BASE_N => 0 | BASE_A => 1 | BASE_C => 2 | BASE_G => 3 | BASE_U => 4
              end)
    (1987 / 1000000)%R 1%R (27315 / 100)%R.

(** [nrjp_]: the nearest-neighbour parameter set.  The tables are total
    functions of their indices; the values come from [rna1995.h]. *)
Record energy_params : Type := mkParams {
  stack37 : pair_t -> pair_t -> R;
  hairpin37 : Z -> R;
  bulge37 : Z -> R;
  interior37 : Z -> R;
  asymmetry_penalty : Z -> R;
  max_asymmetry : R;
  mismatch_hairpin37 : Z -> Z -> pair_t -> R;
  mismatch_interior37 : Z -> Z -> pair_t -> R;
  a1 : R;
  a2 : R;
  a3 : R;
  at_penalty : R;
  int11_37 : pair_t -> pair_t -> Z -> Z -> R;
  int21_37 : pair_t -> Z -> Z -> pair_t -> Z -> R;
  int22_37 : pair_t -> pair_t -> Z -> Z -> Z -> Z -> R;
  polyC_penalty : R;
  polyC_slope : R;
  polyC_int : R;
  triloop37 : Z -> Z -> Z -> Z -> Z -> R;
  tloop37 : Z -> Z -> Z -> Z -> Z -> Z -> R;
  salt_correction : R;
  loop_greater30 : R;
  hairpin_GGG : R;
  pk_stack_span : R;
  pk_interior_span : R
}.

(** A parameter set for examples: flat tables, with the poly-C values
    of the Turner rules. *)
Definition example_params : energy_params :=
  mkParams (fun _ _ => 0%R) (fun _ => (57 / 10)%R) (fun _ => (38 / 10)%R)
           (fun _ => (17 / 10)%R) (fun _ => (5 / 10)%R) 3%R
           (fun _ _ _ => 0%R) (fun _ _ _ => 0%R)
           (34 / 10)%R 0%R (4 / 10)%R (5 / 10)%R
           (fun _ _ _ _ => 0%R) (fun _ _ _ _ _ => 0%R) (fun _ _ _ _ _ _ => 0%R)
           (14 / 10)%R (3 / 10)%R (16 / 10)%R
           (fun _ _ _ _ _ => 0%R) (fun _ _ _ _ _ _ => 0%R)
           0%R (1079 / 1000)%R 0%R 1%R 1%R.

(** [RNA::base_type(char)]. *)
Definition base_type (x : ascii) : base_t :=
  if (Ascii.eqb x "a" || Ascii.eqb x "A")%bool then BASE_A
  else if (Ascii.eqb x "c" || Ascii.eqb x "C")%bool then BASE_C
  else if (Ascii.eqb x "g" || Ascii.eqb x "G")%bool then BASE_G
  else if (Ascii.eqb x "u" || Ascii.eqb x "U")%bool then BASE_U
  else BASE_N.

(** [pair_map] as the constructor fills it: [PAIR_OTHER] everywhere but
    at the six pairs. *)
Definition pair_map (x y : base_t) : pair_t :=
  match x, y with
  | BASE_A, BASE_U => PAIR_AU
  | BASE_U, BASE_A => PAIR_UA
  | BASE_C, BASE_G => PAIR_CG
  | BASE_G, BASE_C => PAIR_GC
  | BASE_G, BASE_U => PAIR_GU
  | BASE_U, BASE_G => PAIR_UG
  | _, _ => PAIR_OTHER
  end.

(** The members of [RNA] the engine reads: [seq_] is the sequence as
    given, [bseq_] its nucleotide codes, [n_] its length. *)
Record RNA : Type := mkRNA {
  seq_ : string;
  bseq_ : list base_t;
  n_ : Z;
  nrjp_ : energy_params
}.

(** The loop of the constructor over the characters of [seq]: T becomes U
    before the code is taken. *)
Fixpoint bseq_of (seq : string) : list base_t :=
  match seq with
  | EmptyString => []
  | String c s =>
      let c := if (Ascii.eqb c "T" || Ascii.eqb c "t")%bool then "U"%char else c in
      base_type c :: bseq_of s
  end.

(** The parameter set after the constructor and its call of
    [load_default_parameters]: the tables as loaded, and the five members
    that the two set to constants. *)
Definition loaded_params (tables : energy_params) : energy_params :=
  mkParams (stack37 tables) (hairpin37 tables) (bulge37 tables) (interior37 tables)
           (asymmetry_penalty tables) (max_asymmetry tables)
           (mismatch_hairpin37 tables) (mismatch_interior37 tables)
           (a1 tables) (a2 tables) (a3 tables) (at_penalty tables)
           (int11_37 tables) (int21_37 tables) (int22_37 tables)
           (polyC_penalty tables) (polyC_slope tables) (polyC_int tables)
           (triloop37 tables) (tloop37 tables)
           0%R               (* salt_correction = 0.0 *)
           (1079 / 1000)%R   (* loop_greater30 = 1.079 *)
           0%R               (* hairpin_GGG = 0.0 *)
           1%R               (* pk_stack_span = 1.0 *)
           1%R.              (* pk_interior_span = 1.0 *)

(** [RNA::RNA(name, seq)], up to the computation of [pij_]. *)
Definition RNA_of (tables : energy_params) (seq : string) : RNA :=
  mkRNA seq (bseq_of seq) (Z.of_nat (String.length seq)) (loaded_params tables).

(** A [char] promoted to [int] (signed characters). *)
Definition char_code (c : ascii) : Z :=
  let n := Z.of_nat (nat_of_ascii c) in
  if n <? 128 then n else n - 256.

Section Energies.

Variable hdr : Header.
Variable rna : RNA.

#[local] Abbreviation prm := (nrjp_ rna).

(** [bseq_[i]]. *)
Definition bseq (i : Z) : base_t := nth (Z.to_nat i) (bseq_ rna) BASE_N.

(** [bseq_[i] - 1], the index of a nucleotide in a parameter table. *)
Definition bidx (i : Z) : Z := base_code hdr (bseq i) - 1.

(** [seq_[k]] as an integer; [0] past the end, where the string holds its
    terminator. *)
Definition seq_at (k : Z) : Z :=
  match String.get (Z.to_nat k) (seq_ rna) with
  | Some c => char_code c
  | None => 0
  end.

(** Modelled from the spec: [pair_type(i, j)], declared in rna.h (not
    among the sources read here): the pair type derived from the ordered
    nucleotide pair, that is the entry of [pair_map]. *)
Definition pair_type (i j : Z) : pair_t := pair_map (bseq i) (bseq j).

Definition pair_t_is (p q : pair_t) : bool :=
  match p, q with
  | PAIR_AU, PAIR_AU | PAIR_CG, PAIR_CG | PAIR_GC, PAIR_GC
  | PAIR_UA, PAIR_UA | PAIR_GU, PAIR_GU | PAIR_UG, PAIR_UG
  | PAIR_OTHER, PAIR_OTHER => true
  | _, _ => false
  end.

(** [RNA::GIL_mismatch(i, j, k, l)]. *)
Definition GIL_mismatch (i j k l : Z) : R :=
  mismatch_interior37 prm (bidx k) (bidx l) (pair_type i j).

(** [RNA::GIL_mismatch(i, j)]. *)
Definition GIL_mismatch2 (i j : Z) : R :=
  mismatch_interior37 prm (base_code hdr BASE_N) (base_code hdr BASE_N) (pair_type i j).

(** [RNA::Gpenalty]. *)
Definition Gpenalty (i j : Z) : R :=
  if (pair_t_is (pair_type i j) PAIR_AU || pair_t_is (pair_type i j) PAIR_UA)%bool
  then at_penalty prm else 0%R.

(** [RNA::Gloop]. *)
Definition Gloop (l : Z) : R :=
  if l <=? 30 then interior37 prm (l - 1)
  else (interior37 prm (30 - 1) + loop_greater30 prm * ln (IZR l / 30))%R.

(** [RNA::GIL_asymmetry]. *)
Definition GIL_asymmetry (l1 l2 : Z) : R :=
  (Gloop (l1 + l2) +
   Rmin (max_asymmetry prm)
        (IZR (Z.abs (l1 - l2)) *
         asymmetry_penalty prm (Z.min 4 (Z.min l1 l2) - 1)))%R.

(** [RNA::allowed_basepair]. *)
Definition allowed_basepair (u v : Z) : bool :=
  let a := if u <? v then u else v in
  let b := if u <? v then v else u in
  if b - a <? 4 then false
  else if n_ rna - 4 <=? a then false
  else if n_ rna <=? b then false
  else true.

(** The first loop of [GHL]: [polyC] stays true when no [seq_[k]], for
    [i < k < j], differs from [BASE_C]. *)
Definition polyC (i j : Z) : bool :=
  forallb (fun k => seq_at k =? base_code hdr BASE_C) (zrange (i + 1) (j - 1)).

(** The hairpin energy without any poly-C term: what [GHL] adds to [e]
    outside its three [if (polyC)] statements. *)
Definition GHL_plain (i j : Z) : R :=
  let size := j - i - 1 in
  let e := 0%R in
  let e := (e + if size <=? 30 then hairpin37 prm (size - 1)
                else hairpin37 prm (30 - 1) + loop_greater30 prm * ln (IZR size / 30))%R in
  if size =? 3 then
    let e := (e + Gpenalty i j)%R in
    let e := (e + triloop37 prm (bidx i) (bidx (i + 1)) (bidx (i + 2)) (bidx (j - 1)) (bidx j))%R in
    let e := if (base_t_eqb (bseq (i + 1)) BASE_G && base_t_eqb (bseq (i + 2)) BASE_G
                 && base_t_eqb (bseq (j - 1)) BASE_G)%bool
             then (e + hairpin_GGG prm)%R else e in
    e
  else if size =? 4 then
    let e := (e + tloop37 prm (bidx i) (bidx (i + 1)) (bidx (i + 2))
                          (bidx (j - 2)) (bidx (j - 1)) (bidx j))%R in
    let e := (e + mismatch_hairpin37 prm (bidx (i + 1)) (bidx (j - 1)) (pair_type i j))%R in
    e
  else
    let e := (e + mismatch_hairpin37 prm (bidx (i + 1)) (bidx (j - 1)) (pair_type i j))%R in
    e.

(** The poly-C term of the specification for a loop of [size] unpaired
    nucleotides. *)
Definition polyC_term (size : Z) : R :=
  if size =? 3 then polyC_penalty prm
  else (polyC_slope prm * IZR size + polyC_int prm)%R.

(** [RNA::GHL(i, j)].  (The two assertions, [size >= 3] and
    [allowed_basepair(i, j)], are [GHL_asserts] below.) *)
Definition GHL (i j : Z) : R :=
  let e := 0%R in
  let polyC := polyC i j in
  let size := j - i - 1 in
  let e := (e + if size <=? 30 then hairpin37 prm (size - 1)
                else hairpin37 prm (30 - 1) + loop_greater30 prm * ln (IZR size / 30))%R in
  if size =? 3 then
    let e := (e + Gpenalty i j)%R in
    let e := (e + triloop37 prm (bidx i) (bidx (i + 1)) (bidx (i + 2)) (bidx (j - 1)) (bidx j))%R in
    let e := if polyC then (e + polyC_penalty prm)%R else e in
    let e := if (base_t_eqb (bseq (i + 1)) BASE_G && base_t_eqb (bseq (i + 2)) BASE_G
                 && base_t_eqb (bseq (j - 1)) BASE_G)%bool
             then (e + hairpin_GGG prm)%R else e in
    e
  else if size =? 4 then
    let e := (e + tloop37 prm (bidx i) (bidx (i + 1)) (bidx (i + 2))
                          (bidx (j - 2)) (bidx (j - 1)) (bidx j))%R in
    let e := (e + mismatch_hairpin37 prm (bidx (i + 1)) (bidx (j - 1)) (pair_type i j))%R in
    let e := if polyC then (e + (polyC_slope prm * IZR size + polyC_int prm))%R else e in
    e
  else
    let e := (e + mismatch_hairpin37 prm (bidx (i + 1)) (bidx (j - 1)) (pair_type i j))%R in
    let e := if polyC then (e + (polyC_slope prm * IZR size + polyC_int prm))%R else e in
    e.

Definition GHL_asserts (i j : Z) : bool :=
  (3 <=? j - i - 1) && allowed_basepair i j.

(** Whether [GIL(i, h, m, j)] runs into one of its three
    [assert(!"..."); exit(...)] branches. *)
Definition GIL_aborts (i h m j : Z) : bool :=
  let l1 := h - i - 1 in
  let l2 := j - m - 1 in
  let size := l1 + l2 in
  if size =? 0 then false
  else if (l1 =? 0) || (l2 =? 0) then false
  else if (0 <? l1) && (0 <? l2) then
    let asymmetry := Z.abs (l1 - l2) in
    if (1 <? asymmetry) || (4 <? size) then
      if (1 <? l1) && (1 <? l2) then false
      else if (l1 =? 1) || (l2 =? 1) then false
      else true
    else if (l1 =? 1) && (l2 =? 1) then false
    else if (l1 =? 2) && (l2 =? 2) then false
    else if (l1 =? 1) && (l2 =? 2) then false
    else if (l1 =? 2) && (l2 =? 1) then false
    else true
  else true.

(** [RNA::GIL(i, h, m, j, pk)].  The value in an aborting branch is
    immaterial ([0] here): see [GIL_aborts]. *)
Definition GIL (i h m j : Z) (pk : bool) : R :=
  let l1 := h - i - 1 in
  let l2 := j - m - 1 in
  let size := l1 + l2 in
  let e := 0%R in
  if size =? 0 then
    (stack37 prm (pair_type i j) (pair_type h m) * (if pk then pk_stack_span prm else 1))%R
  else
    let e :=
      if (l1 =? 0) || (l2 =? 0) then
        let e := (e + if size <=? 30 then bulge37 prm (size - 1)
                      else bulge37 prm (30 - 1) + loop_greater30 prm * ln (IZR size / 30))%R in
        if l1 + l2 =? 1 then
          let e := (e + stack37 prm (pair_type i j) (pair_type h m))%R in
          (e - salt_correction prm)%R
        else
          let e := (e + Gpenalty i j)%R in
          (e + Gpenalty h m)%R
      else if (0 <? l1) && (0 <? l2) then
        let asymmetry := Z.abs (l1 - l2) in
        if (1 <? asymmetry) || (4 <? size) then
          let e := (e + GIL_asymmetry l1 l2)%R in
          if (1 <? l1) && (1 <? l2) then
            let e := (e + GIL_mismatch m h (m + 1) (h - 1))%R in
            (e + GIL_mismatch i j (i + 1) (j - 1))%R
          else if (l1 =? 1) || (l2 =? 1) then
            let e := (e + GIL_mismatch2 m h)%R in
            (e + GIL_mismatch2 i j)%R
          else 0%R
        else if (l1 =? 1) && (l2 =? 1) then
          (e + int11_37 prm (pair_type i j) (pair_type h m) (bidx (i + 1)) (bidx (j - 1)))%R
        else if (l1 =? 2) && (l2 =? 2) then
          (e + int22_37 prm (pair_type i j) (pair_type h m)
                        (bidx (i + 1)) (bidx (j - 1)) (bidx (i + 2)) (bidx (j - 2)))%R
        else if (l1 =? 1) && (l2 =? 2) then
          (e + int21_37 prm (pair_type i j) (bidx (j - 2)) (bidx (i + 1))
                        (pair_type h m) (bidx (j - 1)))%R
        else if (l1 =? 2) && (l2 =? 1) then
          (e + int21_37 prm (pair_type m h) (bidx (i + 1)) (bidx (j - 1))
                        (pair_type j i) (bidx (i + 2)))%R
        else 0%R
      else 0%R in
    (e * (if pk then pk_interior_span prm else 1))%R.

End Energies.

(** ** Signs *)

(** Every entry is non-negative. *)
Definition nonneg (M : Matrix) : Prop := forall a b, (0 <= M a b)%R.

(** Every entry is non-negative and the entries of [S] are positive. *)
Definition good (S : Z -> Z -> Prop) (M : Matrix) : Prop :=
  nonneg M /\ forall a b, S a b -> (0 < M a b)%R.

(** The subsequences [a..b] of at least five nucleotides that the loops
    of the engines have been through when they reach length [l] and
    start [i]. *)
Definition cells (n l i a b : Z) : Prop :=
  0 <= a /\ a + 4 <= b /\ b < n /\
  (b - a + 1 < l \/ (b - a + 1 = l /\ a < i)).

(** ** Partition functions and posterior *)

(** The three matrices both engines return ([partition_functions[0..2]]). *)
Record PF : Type := mkPF {
  pfQ : Matrix;
  pfQb : Matrix;
  pfQm : Matrix
}.

(** The working set of the O(N^3) engine. *)
Record PF3 : Type := mkPF3 {
  Q3 : Matrix;
  Qb3 : Matrix;
  Qm3 : Matrix;
  Qs3 : Matrix;
  Qms3 : Matrix;
  Qx : Matrix;
  Qx1 : Matrix;
  Qx2 : Matrix
}.

(** The three matrices of the back-recursion. *)
Record Post : Type := mkPost {
  P : Matrix;
  Pb : Matrix;
  Pm : Matrix
}.

(** The state of the O(N^4) engine when the cells of [S] are done. *)
Definition PF_good (S : Z -> Z -> Prop) (st : PF) : Prop :=
  good S (pfQ st) /\ good S (pfQb st) /\ good S (pfQm st).

(** The same for the working set of the O(N^3) engine. *)
Definition PF3_good (S : Z -> Z -> Prop) (st : PF3) : Prop :=
  good S (Q3 st) /\ good S (Qb3 st) /\ good S (Qm3 st) /\ nonneg (Qs3 st) /\
  good S (Qms3 st) /\ nonneg (Qx st) /\ nonneg (Qx1 st) /\ nonneg (Qx2 st).

(** The matrices of the back-recursion: non-negative, [P] positive on
    [SP] and [Pb] on [SB]. *)
Definition Post_good (SP SB : Z -> Z -> Prop) (st : Post) : Prop :=
  good SP (P st) /\ good SB (Pb st) /\ nonneg (Pm st).

(** A division whose denominator is zero has no value.  (With exact
    numbers this is the only way to a quotient without a value; the test
    [std::isnan(dP)] of the program is in [post_step1_float] and
    [post_step2_float] below.) *)
Definition fdiv (x y : R) : option R :=
  if Req_dec_T y 0%R then None else Some (x / y)%R.

Definition bind {A B : Type} (x : option A) (f : A -> option B) : option B :=
  match x with
  | Some a => f a
  | None => None
  end.

(** [for (k = a; k <= b; k++)] over a body that may fail. *)
Definition forM {S : Type} (a b : Z) (body : Z -> S -> option S) (s : S) : option S :=
  fold_left (fun s k => bind s (body k)) (zrange a b) (Some s).

(** [for (k = b; k >= a; k--)] over a body that may fail. *)
Definition forM_down {S : Type} (b a : Z) (body : Z -> S -> option S) (s : S) : option S :=
  fold_left (fun s k => bind s (body k)) (rev (zrange a b)) (Some s).

Section Engines.

Variable hdr : Header.
Variable rna : RNA.

#[local] Abbreviation prm := (nrjp_ rna).
#[local] Abbreviation n := (n_ rna).
Local Open Scope R_scope.

Definition RT : R := kB hdr * AVOGADRO hdr * (ZERO_C_IN_KELVIN hdr + 37).

(** The seeds shared by both engines: [Q(i, i+1) = 1], then
    [Q(i, i+l-1) = 1] for [l = 3, 4]. *)
Definition Q_seed : Matrix :=
  let Q := for_ 0 (n - 1 - 1) (fun i Q => mset Q i (i + 1) 1) mzero in
  for_ 3 4 (fun l Q => for_ 0 (n - l) (fun i Q => mset Q i (i + l - 1) 1) Q) Q.

(** *** The O(N^4) engine *)

(** [Qb] recursion for the subsequence [i..j] of length [l]. *)
Definition ON4_Qb (Qm : Matrix) (i j l : Z) (Qb : Matrix) : Matrix :=
  let Qb := mset Qb i j (exp (- GHL hdr rna i j / RT)) in
  if (7 <=? l)%Z then
    for_ (i + 1) (j - 5) (fun d Qb =>
      for_ (d + 4) (j - 1) (fun e Qb =>
        let Qb := madd Qb i j (Qb d e * exp (- GIL hdr rna i d e j false / RT)) in
        if (2 <=? d - i)%Z then
          madd Qb i j (Qb d e * Qm (i + 1)%Z (d - 1)%Z
                       * exp (- (a1 prm + 2 * a2 prm + IZR (j - e - 1) * a3 prm) / RT))
        else Qb) Qb) Qb
  else Qb.

(** [Qm] recursion. *)
Definition ON4_Qm (Qb : Matrix) (i j : Z) (Qm : Matrix) : Matrix :=
  for_ i (j - 4) (fun d Qm =>
    for_ (d + 4) j (fun e Qm =>
      let Qm := madd Qm i j (Qb d e * exp (- (a2 prm + a3 prm * IZR (d - i + j - e)) / RT)) in
      if (0 <? d - i)%Z then
        madd Qm i j (Qb d e * Qm i (d - 1)%Z * exp (- (a2 prm + a3 prm * IZR (j - e)) / RT))
      else Qm) Qm) Qm.

(** [Q] recursion. *)
Definition ON4_Q (Qb : Matrix) (i j : Z) (Q : Matrix) : Matrix :=
  let Q := mset Q i j 1 in
  for_ i (j - 4) (fun d Q =>
    for_ (d + 4) j (fun e Q =>
      if (0 <? d - i)%Z then madd Q i j (Q i (d - 1)%Z * Qb d e)
      else madd Q i j (Qb d e)) Q) Q.

(** The body of the loop over [i], for subsequences of length [l]. *)
Definition ON4_cell (l i : Z) (st : PF) : PF :=
  let j := (i + l - 1)%Z in
  let Qb := ON4_Qb (pfQm st) i j l (pfQb st) in
  let Qm := ON4_Qm Qb i j (pfQm st) in
  let Q := ON4_Q Qb i j (pfQ st) in
  mkPF Q Qb Qm.

(** [RNA::compute_partition_function_noPK_ON4]. *)
Definition compute_partition_function_noPK_ON4 : PF :=
  for_ 5 n (fun l st => for_ 0 (n - l) (ON4_cell l) st)
       (mkPF Q_seed mzero mzero).

(** *** The O(N^3) engine *)

(** The increment both [Qx] sweeps add for the inner pair [(d, e)]. *)
Definition Qx_term (Qb : Matrix) (d e L1 L2 : Z) : R :=
  Qb d e * exp (- (GIL_asymmetry rna L1 L2 + GIL_mismatch hdr rna d e (d + 1) (e - 1)) / RT).

(** The block guarded by [if (l >= 15)]. *)
Definition ON3_Qx (l i j : Z) (st : PF3) : PF3 :=
  if (15 <=? l)%Z then
    let Qb := Qb3 st in
    let d := (i + 5)%Z in
    let L1 := (d - i - 1)%Z in
    let qx := for_ (d + 4) (j - 5) (fun e qx =>
                let L2 := (j - e - 1)%Z in
                madd qx i (L1 + L2) (Qx_term Qb d e L1 L2)) (Qx st) in
    let e := (j - 5)%Z in
    let L2 := (j - e - 1)%Z in
    let qx := for_ (i + 6) (e - 4) (fun d qx =>
                let L1 := (d - i - 1)%Z in
                madd qx i (L1 + L2) (Qx_term Qb d e L1 L2)) qx in
    let qx2 :=
      if ((0 <? i) && negb (j =? n))%Z%bool then
        for_ 8 (l - 7) (fun s qx2 =>
          mset qx2 (i - 1) (s + 2)
               (qx i s * exp (- (Gloop rna (s + 2) - Gloop rna s) / RT))) (Qx2 st)
      else Qx2 st in
    mkPF3 (Q3 st) (Qb3 st) (Qm3 st) (Qs3 st) (Qms3 st) qx (Qx1 st) qx2
  else st.

(** [Qb] recursion of the O(N^3) engine. *)
Definition ON3_Qb (Qm Qms qx : Matrix) (l i j : Z) (Qb : Matrix) : Matrix :=
  let Qb := mset Qb i j (exp (- GHL hdr rna i j / RT)) in
  let Qb := for_ 8 (l - 7) (fun s Qb =>
              madd Qb i j (qx i s * exp (- GIL_mismatch hdr rna i j (i + 1) (j - 1) / RT))) Qb in
  let Qb := for_ (i + 1) (i + 4) (fun d Qb =>
              for_ (uint_max (d + 4) (j - 4)) (j - 1) (fun e Qb =>
                madd Qb i j (Qb d e * exp (- GIL hdr rna i d e j false / RT))) Qb) Qb in
  let Qb := for_ (i + 1) (i + 4) (fun d Qb =>
              for_ (d + 4) (j - 5) (fun e Qb =>
                madd Qb i j (Qb d e * exp (- GIL hdr rna i d e j false / RT))) Qb) Qb in
  let Qb := for_ (j - 4) (j - 1) (fun e Qb =>
              for_ (i + 5) (e - 4) (fun d Qb =>
                madd Qb i j (exp (- GIL hdr rna i d e j false / RT) * Qb d e)) Qb) Qb in
  for_ (i + 6) (j - 5) (fun d Qb =>
    madd Qb i j (Qm (i + 1)%Z (d - 1)%Z * Qms d (j - 1)%Z * exp (- (a1 prm + a2 prm) / RT))) Qb.

Definition ON3_Qs (Qb : Matrix) (i j : Z) (Qs : Matrix) : Matrix :=
  for_ (i + 4) j (fun d Qs => madd Qs i j (Qb i d)) Qs.

Definition ON3_Qms (Qb : Matrix) (i j : Z) (Qms : Matrix) : Matrix :=
  for_ (i + 4) j (fun d Qms =>
    madd Qms i j (Qb i d * exp (- (a2 prm + a3 prm * IZR (j - d)) / RT))) Qms.

Definition ON3_Qm (Qms : Matrix) (i j : Z) (Qm : Matrix) : Matrix :=
  for_ i (j - 4) (fun d Qm =>
    let Qm := madd Qm i j (Qms d j * exp (- a3 prm * IZR (d - i) / RT)) in
    if (0 <? d - i)%Z then madd Qm i j (Qms d j * Qm i (d - 1)%Z) else Qm) Qm.

Definition ON3_Q (Qs : Matrix) (i j : Z) (Q : Matrix) : Matrix :=
  let Q := mset Q i j 1 in
  for_ i (j - 4) (fun d Q =>
    if (0 <? d - i)%Z then madd Q i j (Q i (d - 1)%Z * Qs d j)
    else madd Q i j (Qs d j)) Q.

(** The body of the loop over [i], for subsequences of length [l]. *)
Definition ON3_cell (l i : Z) (st : PF3) : PF3 :=
  let j := (i + l - 1)%Z in
  let st := ON3_Qx l i j st in
  let Qb := ON3_Qb (Qm3 st) (Qms3 st) (Qx st) l i j (Qb3 st) in
  let Qs := ON3_Qs Qb i j (Qs3 st) in
  let Qms := ON3_Qms Qb i j (Qms3 st) in
  let Qm := ON3_Qm Qms i j (Qm3 st) in
  let Q := ON3_Q Qs i j (Q3 st) in
  mkPF3 Q Qb Qm Qs Qms (Qx st) (Qx1 st) (Qx2 st).

(** [Qx = Qx1; Qx1 = Qx2; Qx2.setZero();] *)
Definition ON3_shift (st : PF3) : PF3 :=
  mkPF3 (Q3 st) (Qb3 st) (Qm3 st) (Qs3 st) (Qms3 st) (Qx1 st) (Qx2 st) mzero.

Definition ON3_run : PF3 :=
  for_ 5 n (fun l st => for_ 0 (n - l + 1 - 1) (ON3_cell l) (ON3_shift st))
       (mkPF3 Q_seed mzero mzero mzero mzero mzero mzero mzero).

(** [RNA::compute_partition_function_noPK_ON3]. *)
Definition compute_partition_function_noPK_ON3 : PF :=
  let st := ON3_run in mkPF (Q3 st) (Qb3 st) (Qm3 st).

(** *** The back-recursion *)

Notation "x <- c1 ;; c2" := (bind c1 (fun x => c2))
  (at level 61, c1 at next level, right associativity).

(** The body of the [P], [Pm] recursion for one pair [(d, e)]. *)
Definition post_step1 (pf : PF) (i j d e : Z) (st : Post) : option Post :=
  let Q := pfQ pf in
  let Qb := pfQb pf in
  let Qm := pfQm pf in
  let '(mkPost P Pb Pm) := st in
  r <- (if (i <? d)%Z then
          dP <- fdiv (P i j * Q i (d - 1)%Z * Qb d e) (Q i j) ;;
          Some (dP, madd P i (d - 1) dP)
        else
          dP <- fdiv (P i j * Qb d e) (Q i j) ;;
          Some (dP, P)) ;;
  let '(dP, P) := r in
  let Pb := madd Pb d e dP in
  t <- fdiv (Pm i j * exp (- (a2 prm + a3 prm * IZR (d - i + j - e) / RT)) * Qb d e) (Qm i j) ;;
  let Pb := madd Pb d e t in
  r <- (if (i <? d)%Z then
          dP <- fdiv (Pm i j * Qm i (d - 1)%Z * Qb d e
                      * exp (- (a2 prm + a3 prm * IZR (j - e)) / RT)) (Qm i j) ;;
          Some (dP, madd Pm i (d - 1) dP)
        else
          dP <- fdiv (Pm i j * Qb d e * exp (- (a2 prm + a3 prm * IZR (j - e)) / RT)) (Qm i j) ;;
          Some (dP, Pm)) ;;
  let '(dP, Pm) := r in
  let Pb := madd Pb d e dP in
  Some (mkPost P Pb Pm).

(** The body of the [Pb] recursion for one pair [(d, e)]. *)
Definition post_step2 (pf : PF) (i j d e : Z) (st : Post) : option Post :=
  let Qb := pfQb pf in
  let Qm := pfQm pf in
  let '(mkPost P Pb Pm) := st in
  if Rlt_dec 0 (Qb i j) then
    t <- fdiv (Pb i j * Qb d e * exp (- GIL hdr rna i d e j false / RT)) (Qb i j) ;;
    let Pb := madd Pb d e t in
    dP <- fdiv (Pb i j * Qm (i + 1)%Z (d - 1)%Z * Qb d e
                * exp (- (a1 prm + 2 * a2 prm + IZR (j - e - 1) * a3 prm) / RT)) (Qb i j) ;;
    let Pm := madd Pm (i + 1) (d - 1) dP in
    let Pb := madd Pb d e dP in
    Some (mkPost P Pb Pm)
  else Some st.

(** The body of the loop over [i], for subsequences of length [l]. *)
Definition post_cell (pf : PF) (l i : Z) (st : Post) : option Post :=
  let j := (i + l - 1)%Z in
  st <- forM i (j - 4) (fun d st => forM (d + 4) j (fun e st => post_step1 pf i j d e st) st) st ;;
  forM (i + 1) (j - 5) (fun d st => forM (d + 4) (j - 1) (fun e st => post_step2 pf i j d e st) st) st.

(** The back-recursion over given partition functions. *)
Definition posterior_of (pf : PF) : option Matrix :=
  let P := mset mzero 0 (n - 1) 1 in
  st <- forM_down n 1 (fun l st => forM 0 (n - l) (post_cell pf l) st)
                  (mkPost P mzero mzero) ;;
  Some (Pb st).

(** [RNA::compute_posterior_noPK_ON4(fast)]: [None] when a division by
    zero is met. *)
Definition compute_posterior_noPK_ON4 (fast : bool) : option Matrix :=
  posterior_of (if fast then compute_partition_function_noPK_ON3
                else compute_partition_function_noPK_ON4).

(** [RNA::compute_basepair_probabilities(pk, fast)] with [pk = false], as
    the constructor calls it ([fast = true]). *)
Definition pij_default : option Matrix := compute_posterior_noPK_ON4 true.

End Engines.

(** ** The back-recursion in floating point

    The matrices of the program hold [float]s: a sum or a product can
    leave their range and become an infinity, and an operation without a
    value ([0 * inf], [inf / inf], [inf - inf]) gives a NaN, which the
    back-recursion tests with [assert(!std::isnan(dP))].  The matrices
    above, over exact numbers, have neither.  Here the arithmetic is a
    parameter: what is proved of this model holds for the [float]s of the
    program, whatever the precision each operation is evaluated in. *)

(** The values, and the operations the back-recursion uses: [0.0], [1.0],
    sum, product, quotient, opposite, [exp], the conversion of an [int],
    [std::isnan] and the test [x > 0]. *)
Record float_ops : Type := mkFloatOps {
  num : Type;
  f_zero : num;
  f_one : num;
  f_add : num -> num -> num;
  f_mul : num -> num -> num;
  f_div : num -> num -> num;
  f_neg : num -> num;
  f_exp : num -> num;
  f_int : Z -> num;
  f_isnan : num -> bool;
  f_gt0 : num -> bool
}.

(** What IEEE 754 arithmetic does with zeros, infinities and NaNs, as far
    as the facts about the back-recursion need it; [is_zero] and
    [is_inf] recognise the zeros and the infinities.  A zero times a
    number is a zero or a NaN, a zero times an infinity is a NaN, a NaN
    on the left of a product or of a quotient gives a NaN, and so does a
    NaN in a sum. *)
Record ieee_rules (ops : float_ops) (is_zero is_inf : num ops -> bool) : Prop := mkRules {
  zero_is_zero : is_zero (f_zero ops) = true;
  zero_mul : forall x y, is_zero x = true ->
             is_zero (f_mul ops x y) = true \/ f_isnan ops (f_mul ops x y) = true;
  zero_mul_inf : forall x y, is_zero x = true -> is_inf y = true ->
                 f_isnan ops (f_mul ops x y) = true;
  nan_mul : forall x y, f_isnan ops x = true -> f_isnan ops (f_mul ops x y) = true;
  nan_div : forall x y, f_isnan ops x = true -> f_isnan ops (f_div ops x y) = true;
  nan_add_l : forall x y, f_isnan ops x = true -> f_isnan ops (f_add ops x y) = true;
  nan_add_r : forall x y, f_isnan ops y = true -> f_isnan ops (f_add ops x y) = true
}.

Section FloatPosterior.

Variable ops : float_ops.

#[local] Abbreviation F := (num ops).
Local Infix "+." := (f_add ops) (at level 50, left associativity).
Local Infix "*." := (f_mul ops) (at level 40, left associativity).
Local Infix "/." := (f_div ops) (at level 40, left associativity).

(** [Eigen::MatrixXf]. *)
Definition FMatrix : Type := Z -> Z -> F.

(** [MatrixXf::Zero(n_, n_)]. *)
Definition fmzero : FMatrix := fun _ _ => f_zero ops.

(** [M(i, j) = v]. *)
Definition fmset (M : FMatrix) (i j : Z) (v : F) : FMatrix :=
  fun i' j' => if (i' =? i) && (j' =? j) then v else M i' j'.

(** [M(i, j) += v]. *)
Definition fmadd (M : FMatrix) (i j : Z) (v : F) : FMatrix :=
  fmset M i j (M i j +. v).

(** The matrices an engine returns, and those of the back-recursion. *)
Record FPF : Type := mkFPF {
  fQ : FMatrix;
  fQb : FMatrix;
  fQm : FMatrix
}.

Record FPost : Type := mkFPost {
  fP : FMatrix;
  fPb : FMatrix;
  fPm : FMatrix
}.

(** [n_], the parameters [a1], [a2], [a3] and [RT] as the [float]s the
    function reads, and [GIL(i, d, e, j, false)]. *)
Variable n : Z.
Variables a1 a2 a3 RT : F.
Variable GIL_f : Z -> Z -> Z -> Z -> F.

(** Whether the build keeps the assertions ([NDEBUG] not defined). *)
Variable asserts : bool.

(** The matrices returned by the engine. *)
Variable pf : FPF.

(** The body of the [P], [Pm] recursion for one pair [(d, e)]; [None]
    when [assert(!std::isnan(dP))] fails. *)
Definition post_step1_float (i j d e : Z) (st : FPost) : option FPost :=
  let Q := fQ pf in
  let Qb := fQb pf in
  let Qm := fQm pf in
  let '(mkFPost P Pb Pm) := st in
  let '(dP, P) :=
    if i <? d then
      let dP := P i j *. Q i (d - 1) *. Qb d e /. Q i j in
      (dP, fmadd P i (d - 1) dP)
    else (P i j *. Qb d e /. Q i j, P) in
  let Pb := fmadd Pb d e dP in
  let Pb := fmadd Pb d e
              (Pm i j *. f_exp ops (f_neg ops (a2 +. a3 *. f_int ops (d - i + j - e) /. RT))
               *. Qb d e /. Qm i j) in
  let '(dP, Pm) :=
    if i <? d then
      let dP := Pm i j *. Qm i (d - 1) *. Qb d e
                *. f_exp ops (f_neg ops (a2 +. a3 *. f_int ops (j - e)) /. RT) /. Qm i j in
      (dP, fmadd Pm i (d - 1) dP)
    else (Pm i j *. Qb d e
          *. f_exp ops (f_neg ops (a2 +. a3 *. f_int ops (j - e)) /. RT) /. Qm i j, Pm) in
  let Pb := fmadd Pb d e dP in
  if asserts && f_isnan ops dP then None else Some (mkFPost P Pb Pm).

(** The body of the [Pb] recursion for one pair [(d, e)]. *)
Definition post_step2_float (i j d e : Z) (st : FPost) : option FPost :=
  let Qb := fQb pf in
  let Qm := fQm pf in
  let '(mkFPost P Pb Pm) := st in
  if f_gt0 ops (Qb i j) then
    let Pb := fmadd Pb d e
                (Pb i j *. Qb d e *. f_exp ops (f_neg ops (GIL_f i d e j) /. RT) /. Qb i j) in
    let dP := Pb i j *. Qm (i + 1) (d - 1) *. Qb d e
              *. f_exp ops (f_neg ops (a1 +. f_int ops 2 *. a2 +. f_int ops (j - e - 1) *. a3)
                            /. RT)
              /. Qb i j in
    let Pm := fmadd Pm (i + 1) (d - 1) dP in
    let Pb := fmadd Pb d e dP in
    if asserts && f_isnan ops dP then None else Some (mkFPost P Pb Pm)
  else Some st.

(** The body of the loop over [i], for subsequences of length [l]. *)
Definition post_cell_float (l i : Z) (st : FPost) : option FPost :=
  let j := i + l - 1 in
  bind (forM i (j - 4)
             (fun d st => forM (d + 4) j (fun e st => post_step1_float i j d e st) st) st)
       (fun st =>
          forM (i + 1) (j - 5)
               (fun d st => forM (d + 4) (j - 1) (fun e st => post_step2_float i j d e st) st)
               st).

(** The back-recursion of [RNA::compute_posterior_noPK_ON4] over the
    matrices of the engine: the matrix [Pb] returned, or [None] when an
    assertion fails. *)
Definition posterior_float : option FMatrix :=
  let P := fmset fmzero 0 (n - 1) (f_one ops) in
  bind (forM_down n 1 (fun l st => forM 0 (n - l) (post_cell_float l) st)
                  (mkFPost P fmzero fmzero))
       (fun st => Some (fPb st)).

End FloatPosterior.

(** An arithmetic with the special values of IEEE 754 and the range of
    [float], without rounding: a finite number, an infinity with its
    sign, or a NaN. *)
Inductive xreal : Type :=
  | XFin (r : R)
  | XInf (negative : bool)
  | XNaN.

(** The largest finite [float]. *)
Definition FLT_MAX : R := ((2 - / 2 ^ 23) * 2 ^ 127)%R.

(** A result that leaves the range becomes an infinity. *)
Definition xround (r : R) : xreal :=
  if Rlt_dec FLT_MAX r then XInf false
  else if Rlt_dec r (- FLT_MAX) then XInf true
  else XFin r.

Definition rneg (r : R) : bool := if Rlt_dec r 0 then true else false.

Definition xadd (x y : xreal) : xreal :=
  match x, y with
  | XNaN, _ | _, XNaN => XNaN
  | XFin a, XFin b => xround (a + b)
  | XFin _, XInf s | XInf s, XFin _ => XInf s
  | XInf s, XInf t => if Bool.eqb s t then XInf s else XNaN
  end.

Definition xmul (x y : xreal) : xreal :=
  match x, y with
  | XNaN, _ | _, XNaN => XNaN
  | XFin a, XFin b => xround (a * b)
  | XFin a, XInf s | XInf s, XFin a =>
      if Req_dec_T a 0 then XNaN else XInf (xorb s (rneg a))
  | XInf s, XInf t => XInf (xorb s t)
  end.

Definition xdiv (x y : xreal) : xreal :=
  match x, y with
  | XNaN, _ | _, XNaN => XNaN
  | XFin a, XFin b =>
      if Req_dec_T b 0 then (if Req_dec_T a 0 then XNaN else XInf (rneg a))
      else xround (a / b)
  | XFin _, XInf _ => XFin 0
  | XInf s, XFin b => XInf (xorb s (rneg b))
  | XInf _, XInf _ => XNaN
  end.

Definition xneg (x : xreal) : xreal :=
  match x with
  | XFin a => XFin (- a)
  | XInf s => XInf (negb s)
  | XNaN => XNaN
  end.

Definition xexp (x : xreal) : xreal :=
  match x with
  | XFin a => xround (exp a)
  | XInf false => XInf false
  | XInf true => XFin 0
  | XNaN => XNaN
  end.

Definition xisnan (x : xreal) : bool :=
  match x with XNaN => true | _ => false end.

Definition xisinf (x : xreal) : bool :=
  match x with XInf _ => true | _ => false end.

Definition xiszero (x : xreal) : bool :=
  match x with
  | XFin a => if Req_dec_T a 0 then true else false
  | _ => false
  end.

Definition xgt0 (x : xreal) : bool :=
  match x with
  | XFin a => if Rlt_dec 0 a then true else false
  | XInf s => negb s
  | XNaN => false
  end.

Definition xreal_ops : float_ops :=
  mkFloatOps (XFin 0) (XFin 1) xadd xmul xdiv xneg xexp (fun z => xround (IZR z))
             xisnan xgt0.

(** What an engine leaves on five nucleotides when the weight of the
    hairpin, [exp(-GHL(0,4)/RT)], has left the range: [Qb(0,4)], and with
    it [Qm(0,4)] and [Q(0,4) = 1 + Qb(0,4)], are infinite; [Q] is 1 on
    the shorter subsequences, and every other entry is 0. *)
Definition overflowed_pf : FPF xreal_ops :=
  let top (rest : Z -> Z -> R) : FMatrix xreal_ops :=
    fun a b => if (a =? 0) && (b =? 4) then XInf false else XFin (rest a b) in
  @mkFPF xreal_ops (top (fun a b => if a <? b then 1%R else 0%R))
         (top (fun _ _ => 0%R)) (top (fun _ _ => 0%R)).

End RNAModel.

(* ================================================================== *)
(** * MOIP.cpp: the integer program and the Pareto walker *)
(* ================================================================== *)

Module MOIPModel.

Import Loop MotifModel.
Local Open Scope Z_scope.

(** ** The solver's vocabulary *)

(** A decision variable, by the array that owns it and its rank there. *)
Inductive IloNumVar : Type :=
  | insertion_dv (d : Z)    (* [insertion_dv_[d]], some C(x,i) *)
  | basepair_dv (d : Z).    (* [basepair_dv_[d]], some y(u,v) *)

Definition IloNumVar_eqb (x y : IloNumVar) : bool :=
  match x, y with
  | insertion_dv a, insertion_dv b => a =? b
  | basepair_dv a, basepair_dv b => a =? b
  | _, _ => false
  end.

(** A linear expression: a constant and weighted variables, in the order
    in which [+=] and [-=] added them. *)
Record IloExpr : Type := mkExpr {
  constant : Q;
  terms : list (Q * IloNumVar)
}.

Definition expr_empty : IloExpr := mkExpr 0 [].
Definition expr_const (q : Q) : IloExpr := mkExpr q [].
Definition expr_var (x : IloNumVar) : IloExpr := mkExpr 0 [(1%Q, x)].
Definition expr_scaled (q : Q) (x : IloNumVar) : IloExpr := mkExpr 0 [(q, x)].

(** [e += q * x]. *)
Definition plus_term (e : IloExpr) (q : Q) (x : IloNumVar) : IloExpr :=
  mkExpr (constant e) (terms e ++ [(q, x)]).

(** [e += x] and [e -= x]. *)
Definition plus_var (e : IloExpr) (x : IloNumVar) : IloExpr := plus_term e 1 x.
Definition minus_var (e : IloExpr) (x : IloNumVar) : IloExpr := plus_term e (-1) x.

(** [e += IloNum(1) - x]. *)
Definition plus_one_minus_var (e : IloExpr) (x : IloNumVar) : IloExpr :=
  mkExpr (constant e + 1)%Q (terms e ++ [((-1)%Q, x)]).

Inductive IloConstraint : Type :=
  | Le (lhs rhs : IloExpr)                   (* lhs <= rhs *)
  | Ge (lhs rhs : IloExpr)                   (* lhs >= rhs *)
  | EqC (lhs rhs : IloExpr)                  (* lhs == rhs *)
  | IloRange (lb : Q) (e : IloExpr) (ub : Q). (* lb <= e <= ub *)

Inductive IloExtractable : Type :=
  | Constraint (c : IloConstraint)
  | IloMaximize (e : IloExpr).

(** An assignment of the Boolean variables, as [cplex_.getValue] reports
    it after a successful [solve]. *)
Definition Assignment : Type := IloNumVar -> bool.

(** [cplex_.getValue(x)] for a variable. *)
Definition getValue (a : Assignment) (x : IloNumVar) : Q := if a x then 1%Q else 0%Q.

Fixpoint sum_terms (a : Assignment) (ts : list (Q * IloNumVar)) : Q :=
  match ts with
  | [] => 0%Q
  | (q, x) :: ts' => (q * getValue a x + sum_terms a ts')%Q
  end.

(** [cplex_.getValue(e)] for an expression. *)
Definition eval (a : Assignment) (e : IloExpr) : Q :=
  (constant e + sum_terms a (terms e))%Q.

(** [v > 0.5], the test the source applies to a reported value. *)
Definition above_half (v : Q) : bool := negb (Qle_bool v (1 # 2)).

Definition holds (a : Assignment) (c : IloConstraint) : bool :=
  match c with
  | Le l r => Qle_bool (eval a l) (eval a r)
  | Ge l r => Qle_bool (eval a r) (eval a l)
  | EqC l r => Qeq_bool (eval a l) (eval a r)
  | IloRange lb e ub => Qle_bool lb (eval a e) && Qle_bool (eval a e) ub
  end.

(** The constraints among the elements of a model. *)
Fixpoint constraints (m : list IloExtractable) : list IloConstraint :=
  match m with
  | [] => []
  | Constraint c :: m' => c :: constraints m'
  | IloMaximize _ :: m' => constraints m'
  end.

(** An assignment is feasible for a model when every constraint holds. *)
Definition feasible (m : list IloExtractable) (a : Assignment) : Prop :=
  forall c, In c (constraints m) -> holds a c = true.

(** ** Secondary structures *)

(** Modelled from the spec: the class [SecondaryStructure]
    (SecondaryStructure.h and .cpp are not among the sources read here).
    A structure is its pairs, its inserted motifs and its two objective
    values; [is_empty_structure] is the member [extend_pareto] tests. *)

Record SecondaryStructure : Type := mkSS {
  objective_scores_ : Q * Q;          (* obj1, obj2 *)
  basepairs_ : list (Z * Z);
  motif_info_ : list Motif;
  is_empty_structure : bool
}.

(** [SecondaryStructure(true)]: the mark of "no solution". *)
Definition SecondaryStructure_empty : SecondaryStructure :=
  mkSS (0, 0)%Q [] [] true.

(** [SecondaryStructure(rna_)]: a structure with nothing set yet. *)
Definition SecondaryStructure_new : SecondaryStructure :=
  mkSS (0, 0)%Q [] [] false.

Definition get_objective_score (s : SecondaryStructure) (i : Z) : Q :=
  if i =? 1 then fst (objective_scores_ s) else snd (objective_scores_ s).

Definition set_objective_score (s : SecondaryStructure) (i : Z) (v : Q) : SecondaryStructure :=
  mkSS (if i =? 1 then (v, snd (objective_scores_ s)) else (fst (objective_scores_ s), v))
       (basepairs_ s) (motif_info_ s) (is_empty_structure s).

Definition insert_motif (s : SecondaryStructure) (m : Motif) : SecondaryStructure :=
  mkSS (objective_scores_ s) (basepairs_ s) (motif_info_ s ++ [m]) (is_empty_structure s).

Definition set_basepair (s : SecondaryStructure) (u v : Z) : SecondaryStructure :=
  mkSS (objective_scores_ s) (basepairs_ s ++ [(u, v)]) (motif_info_ s) (is_empty_structure s).

Definition pair_leb (p q : Z * Z) : bool :=
  (fst p <? fst q) || ((fst p =? fst q) && (snd p <=? snd q)).

Fixpoint insert_pair (p : Z * Z) (l : list (Z * Z)) : list (Z * Z) :=
  match l with
  | [] => [p]
  | q :: l' => if pair_leb p q then p :: l else q :: insert_pair p l'
  end.

(** [SecondaryStructure::sort]: "order the basepairs in the vector". *)
Definition sort (s : SecondaryStructure) : SecondaryStructure :=
  mkSS (objective_scores_ s) (fold_right insert_pair [] (basepairs_ s))
       (motif_info_ s) (is_empty_structure s).

(** Modelled from the spec: [operator>] on [SecondaryStructure], defined
    in SecondaryStructure.cpp, which is not among the sources read here.
    A structure dominates another iff it is at least as good on both
    objectives and strictly better on one. *)
Definition dominates (s t : SecondaryStructure) : bool :=
  let s1 := get_objective_score s 1 in
  let s2 := get_objective_score s 2 in
  let t1 := get_objective_score t 1 in
  let t2 := get_objective_score t 2 in
  Qle_bool t1 s1 && Qle_bool t2 s2 && (negb (Qle_bool s1 t1) || negb (Qle_bool s2 t2)).

(** ** The MOIP object *)

(** The input of the model builder, as it reads it through
    [rna_.get_RNA_length()] and [rna_.get_pij(u, v)]: the length of the
    RNA and its pairing probabilities. *)
Record RNAData : Type := mkRNAData {
  get_RNA_length : Z;
  get_pij : Z -> Z -> Q
}.

Record MOIP : Type := mkMOIP {
  rna_ : RNAData;
  insertion_sites_ : list Motif;
  theta_ : Q;
  basepair_dv_size : Z;               (* basepair_dv_.getSize() *)
  insertion_dv_size : Z;              (* insertion_dv_.getSize() *)
  index_of_yuv_ : list (list Z);
  index_of_first_components : list Z;
  index_of_Cxip_ : list (list Z);
  model_ : list (nat * IloExtractable);  (* elements, each under its handle *)
  next_handle : nat;                  (* handles given out by env_ so far *)
  obj1 : IloExpr;
  obj2 : IloExpr;
  pareto_ : list SecondaryStructure
}.

(** [s - 1] on a [size_t] that holds a vector's size: [0 - 1] wraps
    around. *)
Definition size_pred (s : Z) : Z := if s =? 0 then 2 ^ 64 - 1 else s - 1.

(** [v[i]] on a vector of vectors, then [[j]]. *)
Definition at2 (t : list (list Z)) (i j : Z) : Z :=
  nth (Z.to_nat j) (nth (Z.to_nat i) t []) 0.

Section Indexing.

Variable n : Z.                          (* rna_.get_RNA_length() *)
Variable yuv : list (list Z).            (* index_of_yuv_ *)
Variable Cxip : list (list Z).           (* index_of_Cxip_ *)

(** The mark of a pair left without variable. *)
Definition no_yuv : Z := wrap32 (n * n + 1).

(** [MOIP::get_yuv_index]. *)
Definition get_yuv_index (u v : Z) : Z :=
  let a := if u <? v then u else v in
  let b := if v <? u then u else v in
  at2 yuv a (b - 4 - a).

(** [MOIP::get_Cpxi_index]. *)
Definition get_Cpxi_index (x_i i_on_j : Z) : Z := at2 Cxip x_i i_on_j.

(** [MOIP::allowed_basepair]. *)
Definition allowed_basepair (u v : Z) : bool :=
  let a := if u <? v then u else v in
  let b := if u <? v then v else u in
  if b - a <? 4 then false
  else if wrap32 (n - 6) <=? a then false
  else if n <=? b then false
  else if get_yuv_index a b =? no_yuv then false
  else true.

(** Modelled from the spec: [y(u, v)] and [C(x, i)], declared in MOIP.h
    (not among the sources read here): the decision variables of a pair
    and of a component, found through the two index tables. *)
Definition y (u v : Z) : IloNumVar := basepair_dv (get_yuv_index u v).
Definition C (x i : Z) : IloNumVar := insertion_dv (get_Cpxi_index x i).

End Indexing.

(** ** The constructor *)

(** The rows of [index_of_yuv_] and the number of y variables: row [u]
    holds, for [v = u+4 .. n-1], the rank of y(u,v) or the mark.  (For an
    RNA of at least 6 nucleotides.  On a shorter one the unsigned [n - 6]
    wraps around and the program asks for a table of some 2^32 rows,
    which it cannot allocate.) *)
Definition build_yuv (rna : RNAData) (theta : Q) : list (list Z) * Z :=
  let n := get_RNA_length rna in
  for_ 0 (wrap32 (n - 6) - 1) (fun u acc =>
    for_ (u + 4) (n - 1) (fun v '(rows, c) =>
      let row := nth (Z.to_nat u) rows [] in
      let put x := firstn (Z.to_nat u) rows ++ [row ++ [x]] ++ skipn (S (Z.to_nat u)) rows in
      if negb (Qle_bool (get_pij rna u v) theta)
      then (put c, c + 1)
      else (put (no_yuv n), c)) acc)
    (repeat [] (Z.to_nat (wrap32 (n - 6))), 0).

(** The tables of the C variables: for each site the rank of its first
    component, and the ranks of all its components. *)
Definition build_Cxip (sites : list Motif) : list Z * list (list Z) * Z :=
  fold_left (fun '(firsts, table, i) m =>
               let '(row, i') :=
                 fold_left (fun '(row, i) (_ : Component) => (row ++ [i], i + 1))
                           (comp m) ([], i) in
               (firsts ++ [i], table ++ [row], i'))
            sites ([], [], 0).

(** The tables that [build_Cxip] produces, in closed form: for each
    site, the rank of its first component and the ranks of all of them,
    counted from [i0]. *)
Fixpoint Cxip_rows (i0 : Z) (sites : list Motif) : list (Z * list Z) :=
  match sites with
  | [] => []
  | m :: rest =>
      (i0, map (fun k => i0 + Z.of_nat k) (seq 0 (List.length (comp m))))
        :: Cxip_rows (i0 + Z.of_nat (List.length (comp m))) rest
  end.

Definition site (sites : list Motif) (i : Z) : Motif :=
  nth (Z.to_nat i) sites (mkMotif [] [] "" "" "" 0 false false RNA3DMOTIF).

Definition component (x : Motif) (j : Z) : Component :=
  nth (Z.to_nat j) (comp x) (mkComponent (0, 0) 0 "").

(** [x.comp.size()] *)
Definition comp_size (x : Motif) : Z := Z.of_nat (List.length (comp x)).

(** [x.comp.back()] *)
Definition comp_back (x : Motif) : Component := component x (comp_size x - 1).

Section Constraints.

Variable n : Z.
Variable sites : list Motif.
Variable yuv : list (list Z).
Variable Cxip : list (list Z).

#[local] Abbreviation allowed := (allowed_basepair n yuv).
#[local] Abbreviation yv := (y yuv).
#[local] Abbreviation Cv := (C Cxip).
#[local] Abbreviation nsites := (Z.of_nat (List.length sites)).

(** An expression under construction and the count kept beside it. *)
Definition acc : Type := (IloExpr * Z)%type.

(** "ensure there only is 0 or 1 pairing by nucleotide" *)
Definition K1 (m : list IloConstraint) : list IloConstraint :=
  for_ 0 (n - 1) (fun u m =>
    let a : acc := (expr_empty, 0) in
    let a := for_ 0 (u - 1) (fun v '(c1, count) =>
               if allowed v u then (plus_var c1 (yv v u), count + 1) else (c1, count)) a in
    let a := for_ (u + 4) (n - 1) (fun v '(c1, count) =>
               if allowed u v then (plus_var c1 (yv u v), count + 1) else (c1, count)) a in
    let '(c1, count) := a in
    if 1 <? count then m ++ [Le c1 (expr_const 1)] else m) m.

(** "forbid lonely basepairs", pairs seen from their left end *)
Definition K2 (m : list IloConstraint) : list IloConstraint :=
  for_ 0 (n - 1) (fun u m =>
    let c2 := for_ u (n - 1) (fun v c2 =>
                if allowed (wrap32 (u - 1)) v then plus_var c2 (yv (wrap32 (u - 1)) v) else c2)
                expr_empty in
    let a := for_ (u + 1) (n - 1) (fun v '(c2, count) =>
               if allowed u v then (minus_var c2 (yv u v), count + 1) else (c2, count))
               (c2, 0) in
    let '(c2, count) := a in
    let c2 := for_ (u + 2) (n - 1) (fun v c2 =>
                if allowed (u + 1) v then plus_var c2 (yv (u + 1) v) else c2) c2 in
    if negb (count =? 0) then m ++ [Ge c2 (expr_const 0)] else m) m.

(** "forbid lonely basepairs", pairs seen from their right end *)
Definition K2p (m : list IloConstraint) : list IloConstraint :=
  for_ 2 (n - 1) (fun v m =>
    let c2p := for_ 0 (v - 2) (fun u c2p =>
                 if allowed u (v - 1) then plus_var c2p (yv u (v - 1)) else c2p)
                 expr_empty in
    let a := for_ 0 (v - 1) (fun u '(c2p, count) =>
               if allowed u v then (minus_var c2p (yv u v), count + 1) else (c2p, count))
               (c2p, 0) in
    let '(c2p, count) := a in
    let c2p := for_ 0 v (fun u c2p =>
                 if allowed u (v + 1) then plus_var c2p (yv u (v + 1)) else c2p) c2p in
    if negb (count =? 0) then m ++ [Ge c2p (expr_const 0)] else m) m.

(** "Forbid pairings inside every motif component if included" *)
Definition K3 (m : list IloConstraint) : list IloConstraint :=
  for_ 0 (nsites - 1) (fun i m =>
    let x := site sites i in
    for_ 0 (comp_size x - 1) (fun j m =>
      let c := component x j in
      let kxi := inject_Z (k c) in
      let c3 := plus_term expr_empty (kxi - 2)%Q (Cv i j) in
      let a := for_ (wrap32 (fst (pos c) + 1)) (wrap32 (snd (pos c) - 1) - 1)
                 (fun u a =>
                    for_ 0 (n - 1) (fun v '(c3, count) =>
                      if allowed u v then (plus_var c3 (yv u v), count + 1)
                      else (c3, count)) a)
                 (c3, 0) in
      let '(c3, count) := a in
      if 1 <? count then m ++ [Le c3 (expr_const (kxi - 2)%Q)] else m) m) m.

(** "Forbid component overlap" *)
Definition K4 (m : list IloConstraint) : list IloConstraint :=
  for_ 0 (n - 1) (fun u m =>
    let a := for_ 0 (nsites - 1) (fun i a =>
               let x := site sites i in
               for_ 0 (comp_size x - 1) (fun j '(c4, nterms) =>
                 let c := component x j in
                 if (wrap32 (fst (pos c)) <=? u) && (u <=? wrap32 (snd (pos c)))
                 then (plus_var c4 (Cv i j), nterms + 1)
                 else (c4, nterms)) a)
               (expr_empty, 0) in
    let '(c4, nterms) := a in
    if 1 <? nterms then m ++ [Le c4 (expr_const 1)] else m) m.

(** "Component completeness" *)
Definition K5 (m : list IloConstraint) : list IloConstraint :=
  for_ 0 (nsites - 1) (fun i m =>
    let x := site sites i in
    if comp_size x =? 1 then m
    else
      let jm1 := inject_Z (size_pred (comp_size x)) in
      let c5 := for_ 1 (comp_size x - 1) (fun j c5 => plus_var c5 (Cv i j)) expr_empty in
      m ++ [EqC c5 (expr_scaled jm1 (Cv i 0))]) m.

(** The closing pair of site [i]: [C(i,0) <= c6p].  (The positions are
    passed as they are: they are positions on the RNA, not negative.) *)
Definition K6_closing (i : Z) : IloConstraint :=
  let x := site sites i in
  let first := fst (pos (component x 0)) in
  let last := snd (pos (comp_back x)) in
  let c6p := expr_empty in
  let c6p := if allowed first last then plus_var c6p (yv first last) else c6p in
  Le (expr_var (Cv i 0)) c6p.

(** The pair between components [j] and [j+1] of site [i]: [C(i,j) <= c6]
    (positions passed as they are, as for the closing pair). *)
Definition K6_between (i j : Z) : IloConstraint :=
  let x := site sites i in
  let second := snd (pos (component x j)) in
  let first := fst (pos (component x (j + 1))) in
  let c6 := expr_empty in
  let c6 := if allowed second first then plus_var c6 (yv second first) else c6 in
  Le (expr_var (Cv i j)) c6.

(** "Force basepairs between the end of a component and the beginning of
    the next" *)
Definition K6 (m : list IloConstraint) : list IloConstraint :=
  for_ 0 (nsites - 1) (fun i m =>
    let x := site sites i in
    let m := m ++ [K6_closing i] in
    if comp_size x =? 1 then m
    else for_ 0 (size_pred (comp_size x) - 1) (fun j m => m ++ [K6_between i j]) m) m.

(** [MOIP::define_problem_constraints]: the constraints, in the order of
    their [model_.add]. *)
Definition define_problem_constraints : list IloConstraint :=
  K6 (K5 (K4 (K3 (K2p (K2 (K1 [])))))).

(** The motif objective: [obj1 += score * insertion_dv_[first component]]. *)
Definition build_obj1 (firsts : list Z) : IloExpr :=
  for_ 0 (nsites - 1) (fun i obj1 =>
    plus_term obj1 (inject_Z (score_ (site sites i)))
              (insertion_dv (nth (Z.to_nat i) firsts 0))) expr_empty.

(** The expected-accuracy objective. *)
Definition build_obj2 (pij : Z -> Z -> Q) : IloExpr :=
  for_ 0 (wrap32 (n - 6) - 1) (fun u obj2 =>
    for_ (u + 4) (n - 1) (fun v obj2 =>
      if allowed u v then plus_term obj2 (pij u v) (yv u v) else obj2) obj2) expr_empty.

End Constraints.

(** Elements added to a model from handle [h] on. *)
Fixpoint with_handles (h : nat) (cs : list IloConstraint) : list (nat * IloExtractable) :=
  match cs with
  | [] => []
  | c :: cs' => (h, Constraint c) :: with_handles (S h) cs'
  end.

(** [MOIP::MOIP(rna, insertionSites, pthreshold, verbose)]. *)
Definition MOIP_new (rna : RNAData) (insertionSites : list Motif) (pthreshold : Q) : MOIP :=
  let n := get_RNA_length rna in
  let '(yuv, c) := build_yuv rna pthreshold in
  let '(firsts, Cxip, i) := build_Cxip insertionSites in
  let cs := define_problem_constraints n insertionSites yuv Cxip in
  mkMOIP rna insertionSites pthreshold c i yuv firsts Cxip
         (with_handles 0 cs) (List.length cs)
         (build_obj1 insertionSites firsts)
         (build_obj2 n yuv (get_pij rna))
         [].

(** ** Solving *)

Definition elements (m : list (nat * IloExtractable)) : list IloExtractable := map snd m.

(** [model_.add(e)]: the element gets a fresh handle. *)
Definition model_add (st : MOIP) (e : IloExtractable) : MOIP * nat :=
  (mkMOIP (rna_ st) (insertion_sites_ st) (theta_ st) (basepair_dv_size st)
          (insertion_dv_size st) (index_of_yuv_ st) (index_of_first_components st)
          (index_of_Cxip_ st) (model_ st ++ [(next_handle st, e)]) (S (next_handle st))
          (obj1 st) (obj2 st) (pareto_ st),
   next_handle st).

(** [model_.remove(h)]. *)
Definition model_remove (st : MOIP) (h : nat) : MOIP :=
  mkMOIP (rna_ st) (insertion_sites_ st) (theta_ st) (basepair_dv_size st)
         (insertion_dv_size st) (index_of_yuv_ st) (index_of_first_components st)
         (index_of_Cxip_ st)
         (filter (fun p => negb (Nat.eqb (fst p) h)) (model_ st)) (next_handle st)
         (obj1 st) (obj2 st) (pareto_ st).

Definition set_pareto (st : MOIP) (p : list SecondaryStructure) : MOIP :=
  mkMOIP (rna_ st) (insertion_sites_ st) (theta_ st) (basepair_dv_size st)
         (insertion_dv_size st) (index_of_yuv_ st) (index_of_first_components st)
         (index_of_Cxip_ st) (model_ st) (next_handle st)
         (obj1 st) (obj2 st) p.

(** The sites whose first component the assignment selects, in order. *)
Definition inserted_sites (st : MOIP) (a : Assignment) : list Z :=
  filter (fun i => above_half
                     (getValue a (insertion_dv (nth (Z.to_nat i) (index_of_first_components st) 0))))
         (zrange 0 (Z.of_nat (List.length (insertion_sites_ st)) - 1)).

(** The structure [solve_objective] builds from the values it reads. *)
Definition build_structure (st : MOIP) (a : Assignment) : SecondaryStructure :=
  let n := get_RNA_length (rna_ st) in
  let best_ss := SecondaryStructure_new in
  let best_ss := fold_left (fun ss i => insert_motif ss (site (insertion_sites_ st) i))
                           (inserted_sites st a) best_ss in
  let best_ss :=
    for_ 0 (wrap32 (n - 6) - 1) (fun u ss =>
      for_ (u + 4) (n - 1) (fun v ss =>
        if allowed_basepair n (index_of_yuv_ st) u v then
          if above_half (getValue a (y (index_of_yuv_ st) u v)) then set_basepair ss u v
          else ss
        else ss) ss) best_ss in
  let best_ss := sort best_ss in
  let best_ss := set_objective_score best_ss 2 (eval a (obj2 st)) in
  set_objective_score best_ss 1 (eval a (obj1 st)).

(** The step of the two loops that build the forbidding expression. *)
Definition forbid_step (a : Assignment) (x : IloNumVar) (c : IloExpr) : IloExpr :=
  if above_half (getValue a x) then plus_one_minus_var c x else plus_var c x.

(** "Forbidding to find best_ss later": the expression [c] of
    [solve_objective], over every [insertion_dv_[d]] then every
    [basepair_dv_[d]]. *)
Definition forbid_expr (st : MOIP) (a : Assignment) : IloExpr :=
  let c := expr_empty in
  let c := for_ 0 (insertion_dv_size st - 1) (fun d c => forbid_step a (insertion_dv d) c) c in
  for_ 0 (basepair_dv_size st - 1) (fun d c => forbid_step a (basepair_dv d) c) c.

(** [c >= IloNum(1)]. *)
Definition forbid_clause (st : MOIP) (a : Assignment) : IloConstraint :=
  Ge (forbid_expr st a) (expr_const 1).

(** No element of the set dominates an element of the set. *)
Definition pareto_ok (p : list SecondaryStructure) : Prop :=
  forall s t, In s p -> In t p -> dominates s t = false.

(** The decision variables of the object: every [insertion_dv_[d]] and
    every [basepair_dv_[d]]. *)
Definition is_dv (st : MOIP) (x : IloNumVar) : Prop :=
  match x with
  | insertion_dv d => 0 <= d < insertion_dv_size st
  | basepair_dv d => 0 <= d < basepair_dv_size st
  end.

Definition all_dvs (st : MOIP) : list IloNumVar :=
  map insertion_dv (zrange 0 (insertion_dv_size st - 1))
  ++ map basepair_dv (zrange 0 (basepair_dv_size st - 1)).

(** Two assignments agree on all decision variables. *)
Definition same_assignment (st : MOIP) (a b : Assignment) : Prop :=
  forall x, is_dv st x -> b x = a x.

(** Handles in use are below the next one to be given out. *)
Definition handles_fresh (st : MOIP) : Prop :=
  forall h e, In (h, e) (model_ st) -> (h < next_handle st)%nat.

(** What [solve_objective(o, min, max)] hands to the solver. *)
Definition solver_input (o : Z) (min max : Q) (st : MOIP) : list IloExtractable :=
  elements (model_ st) ++
  (if o =? 1 then [IloMaximize (obj1 st); Constraint (IloRange min (obj2 st) max)]
   else if o =? 2 then [IloMaximize (obj2 st); Constraint (IloRange min (obj1 st) max)]
   else []).

Section Walker.

(** [IloCplex(model_).solve()] followed by the reading of the values: an
    assignment, or [None] when the solver finds no solution. *)
Variable cplex_solve : list IloExtractable -> option Assignment.

(** [MOIP::solve_objective(o, min, max)]: the structure returned, the
    assignment it was read from, and the object afterwards.  (For an [o]
    other than 1 and 2 the [switch] sets neither [obj] nor [bounds];
    nothing is added to the model then.  When the solver fails the
    function returns at once, leaving [obj] and [bounds] in the model.) *)
Definition solve_objective (o : Z) (min max : Q) (st : MOIP)
  : SecondaryStructure * option Assignment * MOIP :=
  let added :=
    if o =? 1 then
      let '(st, obj) := model_add st (IloMaximize (obj1 st)) in
      let '(st, bounds) := model_add st (Constraint (IloRange min (obj2 st) max)) in
      (st, [obj; bounds])
    else if o =? 2 then
      let '(st, obj) := model_add st (IloMaximize (obj2 st)) in
      let '(st, bounds) := model_add st (Constraint (IloRange min (obj1 st) max)) in
      (st, [obj; bounds])
    else (st, []) in
  let '(st, handles) := added in
  match cplex_solve (elements (model_ st)) with
  | None => (SecondaryStructure_empty, None, st)
  | Some a =>
      let best_ss := build_structure st a in
      let '(st, _) := model_add st (Constraint (forbid_clause st a)) in
      let st := fold_left model_remove handles st in
      (best_ss, Some a, st)
  end.

(** [MOIP::is_undominated_yet]. *)
Definition is_undominated_yet (st : MOIP) (s : SecondaryStructure) : bool :=
  forallb (fun p => negb (dominates p s)) (pareto_ st).

(** [pareto_.erase(pareto_.begin() + k)]. *)
Fixpoint erase (l : list SecondaryStructure) (k : nat) : list SecondaryStructure :=
  match l, k with
  | [], _ => []
  | _ :: t, O => t
  | h :: t, S k' => h :: erase t k'
  end.

(** The first loop of [add_solution]: the indices [i], from [i0] on, of
    the structures that [s] dominates. *)
Fixpoint to_remove_from (s : SecondaryStructure) (l : list SecondaryStructure) (i0 : nat)
  : list nat :=
  match l with
  | [] => []
  | p :: t =>
      if dominates s p then i0 :: to_remove_from s t (S i0)
      else to_remove_from s t (S i0)
  end.

(** [for (i = to_remove.size() - 1; i != 0; i--) pareto_.erase(... + to_remove[i]);]
    with [i] starting at [i0]. *)
Fixpoint erase_down (to_remove : list nat) (i0 : nat) (l : list SecondaryStructure)
  : list SecondaryStructure :=
  match i0 with
  | O => l
  | S i' => erase_down to_remove i' (erase l (nth i0 to_remove O))
  end.

(** [MOIP::add_solution]. *)
Definition add_solution (st : MOIP) (s : SecondaryStructure) : MOIP :=
  let to_remove := to_remove_from s (pareto_ st) 0 in
  let p :=
    if negb (Nat.eqb (List.length to_remove) 0) then
      let p := erase_down to_remove (List.length to_remove - 1) (pareto_ st) in
      erase p (nth 0 to_remove O)
    else pareto_ st in
  set_pareto st (p ++ [s]).

(** What a run of [extend_pareto] leaves behind: the object, the calls of
    [add_solution] in order (the structure passed, [pareto_] after the
    call), and whether the outermost call has returned. *)
Record Run : Type := mkRun {
  final : MOIP;
  calls : list (SecondaryStructure * list SecondaryStructure);
  returned : bool
}.

(** [MOIP::extend_pareto(lambdaMin, lambdaMax)], to a depth of [fuel]
    nested calls. *)
Fixpoint extend_pareto (fuel : nat) (lambdaMin lambdaMax : Q) (st : MOIP) : Run :=
  match fuel with
  | O => mkRun st [] false
  | S fuel' =>
      let '(s, _, st) := solve_objective 2 lambdaMin lambdaMax st in
      if negb (is_empty_structure s) then
        if is_undominated_yet st s then
          let st := add_solution st s in
          let r := extend_pareto fuel' (get_objective_score s 1) lambdaMax st in
          mkRun (final r) ((s, pareto_ st) :: calls r) (returned r)
        else mkRun st [] true
      else mkRun st [] true
  end.

(** The states an object goes through after [st]: any number of calls of
    [solve_objective] and [add_solution]. *)
Inductive later (st : MOIP) : MOIP -> Prop :=
  | later_here : later st st
  | later_solve (st1 : MOIP) (o : Z) (min max : Q) :
      later st st1 -> later st (snd (solve_objective o min max st1))
  | later_add (st1 : MOIP) (s : SecondaryStructure) :
      later st st1 -> later st (add_solution st1 s).

(** The solver only returns assignments that satisfy the constraints it
    was given. *)
Definition solver_sound : Prop :=
  forall m a, cplex_solve m = Some a -> feasible m a.

End Walker.

(** A solver good for examples: the first feasible assignment of a list
    of candidates. *)
Definition holds_all (m : list IloExtractable) (a : Assignment) : bool :=
  forallb (holds a) (constraints m).

Definition first_feasible (candidates : list Assignment) (m : list IloExtractable)
  : option Assignment :=
  List.find (holds_all m) candidates.

(** ** A small instance

    Twelve nucleotides whose only likely pairs are the four of the stem
    (0,11), (1,10), (2,9), (3,8); two candidate sites, a hairpin motif on
    [3..8], closed by the pair (3,8), and one on [4..7], whose ends are
    too close to pair. *)

Definition example_rna : RNAData :=
  mkRNAData 12 (fun u v =>
    if (u =? 0) && (v =? 11) then (9 # 10)%Q
    else if (u =? 1) && (v =? 10) then (9 # 10)%Q
    else if (u =? 2) && (v =? 9) then (8 # 10)%Q
    else if (u =? 3) && (v =? 8) then (7 # 10)%Q
    else 0%Q).

Definition example_sites : list Motif :=
  [mkMotif [mkComponent (3, 8) 6 ""] [] "HL_1" "" "" 10 false true RNAMOTIFATLAS;
   mkMotif [mkComponent (4, 7) 4 ""] [] "HL_2" "" "" 5 false true RNAMOTIFATLAS].

Abbreviation example_moip := (MOIP_new example_rna example_sites (1 # 100)%Q).

(** The assignment that sets the listed C and y variables. *)
Definition assignment_of (cs ys : list Z) : Assignment :=
  fun x =>
    match x with
    | insertion_dv d => existsb (Z.eqb d) cs
    | basepair_dv d => existsb (Z.eqb d) ys
    end.

Definition example_candidates : list Assignment :=
  [assignment_of [] [0; 1; 2; 3];
   assignment_of [0] [0; 1; 2; 3];
   assignment_of [0] [2; 3];
   assignment_of [] [0; 1; 2];
   assignment_of [] []].

Definition example_solver : list IloExtractable -> option Assignment :=
  first_feasible example_candidates.

(** ** Vocabulary for the facts about the model

    The lists the loops of the constructor and of
    [define_problem_constraints] range over, and the members nothing
    writes after the constructor. *)

(** [rna_.get_pij(u, v) > theta_], the test of the constructor. *)
Definition likely (rna : RNAData) (theta : Q) (u v : Z) : bool :=
  negb (Qle_bool (get_pij rna u v) theta).

(** The pairs the two loops of the constructor have been through when
    they reach [(u, v)]. *)
Definition seen (u v u' v' : Z) : Prop := u' < u \/ (u' = u /\ v' < v).

(** The table and the counter when the loops reach [(u, v)]. *)
Definition yuv_upto (n : Z) (above : Z -> Z -> bool) (u v : Z) (st : list (list Z) * Z) : Prop :=
  let '(rows, c) := st in
  List.length rows = Z.to_nat (n - 6) /\
  0 <= c <= u * n + (v - u - 4) /\
  (forall u', 0 <= u' < n - 6 ->
     Z.of_nat (List.length (nth (Z.to_nat u') rows [])) =
     if u' <? u then n - u' - 4 else if u' =? u then v - u - 4 else 0) /\
  (forall u' v', 0 <= u' < n - 6 -> u' + 4 <= v' < n -> seen u v u' v' ->
     if above u' v' then 0 <= at2 rows u' (v' - 4 - u') < c
     else at2 rows u' (v' - 4 - u') = n * n + 1) /\
  (forall u1 v1 u2 v2,
     0 <= u1 < n - 6 -> u1 + 4 <= v1 < n -> 0 <= u2 < n - 6 -> u2 + 4 <= v2 < n ->
     seen u v u2 v2 -> seen u2 v2 u1 v1 ->
     above u1 v1 = true -> above u2 v2 = true ->
     at2 rows u1 (v1 - 4 - u1) < at2 rows u2 (v2 - 4 - u2)).

(** How many of the variables [X v], [v] in [L], the assignment sets. *)
Definition count_set {A : Type} (a : Assignment) (X : A -> IloNumVar) (L : list A) : Z :=
  Z.of_nat (List.length (filter (fun v => a (X v)) L)).

(** The index pairs two nested loops go through, the inner one from [lo i]
    to [hi i], keeping those that pass [P]. *)
Definition chosen (P : Z -> Z -> bool) (a b : Z) (lo hi : Z -> Z) : list (Z * Z) :=
  flat_map (fun i => map (pair i) (filter (P i) (zrange (lo i) (hi i)))) (zrange a b).

(** The nucleotides [u] may pair with, in the order of the two loops of
    the first block of constraints. *)
Definition partners (n : Z) (yuv : list (list Z)) (u : Z) : list Z :=
  filter (fun v => allowed_basepair n yuv v u) (zrange 0 (u - 1)) ++
  filter (fun v => allowed_basepair n yuv u v) (zrange (u + 4) (n - 1)).

(** Whether component [j] of site [i] contains nucleotide [u], as the
    fourth block tests it. *)
Definition covers (sites : list Motif) (u i j : Z) : bool :=
  let c := component (site sites i) j in
  (wrap32 (fst (pos c)) <=? u) && (u <=? wrap32 (snd (pos c))).

(** The allowed pairs [(u, v)] the third block collects for a component:
    [u] from [pos.first + 1] to [pos.second - 2], [v] any nucleotide. *)
Definition inner_pairs (n : Z) (yuv : list (list Z)) (c : Component) : list (Z * Z) :=
  chosen (fun u v => allowed_basepair n yuv u v)
         (wrap32 (fst (pos c) + 1)) (wrap32 (snd (pos c) - 1) - 1)
         (fun _ => 0) (fun _ => n - 1).

(** The members the constructor sets and nothing writes afterwards. *)
Definition tables (st : MOIP) :=
  (rna_ st, insertion_sites_ st, theta_ st, basepair_dv_size st, insertion_dv_size st,
   index_of_yuv_ st, index_of_first_components st, index_of_Cxip_ st, obj1 st, obj2 st).

(** The pairs [build_structure] sets, in the order of its two loops. *)
Definition pairs_set (st : MOIP) (a : Assignment) : list (Z * Z) :=
  let n := get_RNA_length (rna_ st) in
  filter (fun p => a (y (index_of_yuv_ st) (fst p) (snd p)))
         (chosen (allowed_basepair n (index_of_yuv_ st)) 0 (wrap32 (n - 6) - 1)
                 (fun u => u + 4) (fun _ => n - 1)).

(** ** A second instance

    Twenty nucleotides with a stem (0,19), (1,18), (2,17), an internal
    loop closed by (2,17) and (5,14), and a hairpin closed by (6,13);
    three candidate sites: the internal loop, with its two components
    [2..5] and [14..17], the hairpin [6..13], and a motif on [5..9] that
    overlaps both. *)

Definition loop_rna : RNAData :=
  mkRNAData 20 (fun u v =>
    if (u =? 0) && (v =? 19) then (9 # 10)%Q
    else if (u =? 1) && (v =? 18) then (9 # 10)%Q
    else if (u =? 2) && (v =? 17) then (8 # 10)%Q
    else if (u =? 5) && (v =? 14) then (7 # 10)%Q
    else if (u =? 6) && (v =? 13) then (6 # 10)%Q
    else if (u =? 7) && (v =? 12) then (2 # 10)%Q
    else if (u =? 8) && (v =? 12) then (2 # 10)%Q
    else 0%Q).

Definition loop_sites : list Motif :=
  [mkMotif [mkComponent (2, 5) 4 ""; mkComponent (14, 17) 4 ""] [] "IL_1" "" "" 12 false true
           RNAMOTIFATLAS;
   mkMotif [mkComponent (6, 13) 8 ""] [] "HL_3" "" "" 7 false true RNAMOTIFATLAS;
   mkMotif [mkComponent (5, 9) 5 ""] [] "HL_4" "" "" 3 false true RNAMOTIFATLAS].

(** Two assignments for this instance: the pairs (0,19), (1,18),
    (2,17), (5,14) and (6,13) with the internal loop inserted; the same
    pairs with the hairpin inserted instead. *)
Definition loop_inserted : Assignment := assignment_of [0; 1] [0; 1; 2; 3; 4].

Definition hairpin_inserted : Assignment := assignment_of [2] [0; 1; 2; 3; 4].

(** A solver that finds nothing. *)
Definition no_solver : list IloExtractable -> option Assignment := fun _ => None.

End MOIPModel.

(* ================================================================== *)
(** * Facts about counted loops *)
(* ================================================================== *)

Module LoopFacts.

Import Loop.
Local Open Scope Z_scope.

Lemma zrange_empty (a b : Z) : b < a -> zrange a b = [].
Proof.
  intro H. unfold zrange. replace (Z.to_nat (b - a + 1)) with 0%nat by lia.
  reflexivity.
Qed.

Lemma zrange_cons (a b : Z) : a <= b -> zrange a b = a :: zrange (a + 1) b.
Proof.
  intro H. unfold zrange.
  replace (Z.to_nat (b - a + 1)) with (S (Z.to_nat (b - (a + 1) + 1))) by lia.
  simpl. f_equal; [lia|].
  rewrite <- seq_shift, map_map. apply map_ext. intro k. lia.
Qed.

Lemma zrange_snoc (a b : Z) : a <= b -> zrange a b = zrange a (b - 1) ++ [b].
Proof.
  intro H. unfold zrange.
  replace (Z.to_nat (b - a + 1)) with (Z.to_nat (b - 1 - a + 1) + 1)%nat by lia.
  rewrite seq_app, map_app. simpl. do 2 f_equal. lia.
Qed.

Lemma zrange_In (a b k : Z) : In k (zrange a b) <-> a <= k <= b.
Proof.
  unfold zrange. rewrite in_map_iff. split.
  - intros [x [Hx Hin]]. apply in_seq in Hin. lia.
  - intro H. exists (Z.to_nat (k - a)). split; [lia|]. apply in_seq. lia.
Qed.

Lemma for_empty {S : Type} (a b : Z) (body : Z -> S -> S) (s : S) :
  b < a -> for_ a b body s = s.
Proof. intro H. unfold for_. rewrite zrange_empty by exact H. reflexivity. Qed.

Lemma for_first {S : Type} (a b : Z) (body : Z -> S -> S) (s : S) :
  a <= b -> for_ a b body s = for_ (a + 1) b body (body a s).
Proof. intro H. unfold for_. rewrite zrange_cons by exact H. reflexivity. Qed.

Lemma for_last {S : Type} (a b : Z) (body : Z -> S -> S) (s : S) :
  a <= b -> for_ a b body s = body b (for_ a (b - 1) body s).
Proof.
  intro H. unfold for_. rewrite zrange_snoc by exact H.
  rewrite fold_left_app. reflexivity.
Qed.

(** A property kept by every iteration is kept by the loop. *)
Lemma for_inv {S : Type} (I : S -> Prop) (a b : Z) (body : Z -> S -> S) (s : S) :
  I s ->
  (forall k s, a <= k <= b -> I s -> I (body k s)) ->
  I (for_ a b body s).
Proof.
  intros H0 Hstep. unfold for_.
  assert (Hin : forall k, In k (zrange a b) -> a <= k <= b)
    by (intro k; apply zrange_In).
  revert s H0. induction (zrange a b) as [|k l IH]; intros s H0; simpl.
  - exact H0.
  - apply IH.
    + intros k' Hk'. apply Hin. right. exact Hk'.
    + apply Hstep; [apply Hin; left; reflexivity|exact H0].
Qed.

(** A property indexed by the loop counter: it holds of [a] at the start,
    each iteration takes it from [k] to [k + 1], so it holds of [b + 1] at
    the end. *)
Lemma for_ind {S : Type} (I : Z -> S -> Prop) (a b : Z) (body : Z -> S -> S) (s : S) :
  a <= b + 1 ->
  I a s ->
  (forall k s, a <= k <= b -> I k s -> I (k + 1) (body k s)) ->
  I (b + 1) (for_ a b body s).
Proof.
  intros Hab H0 Hstep.
  remember (Z.to_nat (b + 1 - a)) as m eqn:Hm.
  revert b Hab Hm Hstep. induction m as [|m IH]; intros b Hab Hm Hstep.
  - assert (b + 1 = a) by lia. rewrite for_empty by lia. subst a. exact H0.
  - rewrite for_last by lia.
    apply Hstep; [lia|].
    replace b with (b - 1 + 1) at 1 by lia.
    apply IH; [lia|lia|].
    intros k s' Hk. apply Hstep. lia.
Qed.

Lemma wrap32_small (z : Z) : 0 <= z < 2 ^ 32 -> wrap32 z = z.
Proof. intro H. unfold wrap32. apply Z.mod_small. exact H. Qed.

End LoopFacts.

(* ================================================================== *)
(** * Facts about the catalogue readers *)
(* ================================================================== *)

Module MotifFacts.

Import Str MotifModel.
Local Open Scope string_scope.

(** ** Properties of the string primitives used by the links loop *)

Lemma find_none_count (s : string) (c : ascii) :
  find s c = None <-> count c s = 0%nat.
Proof.
  induction s as [|a s IH]; simpl.
  - tauto.
  - destruct (Ascii.eqb a c).
    + split; discriminate.
    + destruct (find s c); simpl.
      * split; [discriminate|]. intro H. apply IH in H. discriminate.
      * tauto.
Qed.

Lemma find_some_count (s : string) (c : ascii) (i : nat) :
  find s c = Some i -> count c s = S (count c (drop (S i) s)).
Proof.
  revert i. induction s as [|a s IH]; simpl; intros i H.
  - discriminate.
  - destruct (Ascii.eqb a c) eqn:E.
    + inversion H; subst. simpl. destruct s; reflexivity.
    + destruct (find s c) as [j|] eqn:F; [|discriminate].
      inversion H; subst. simpl. apply IH. reflexivity.
Qed.

Lemma find_some_length (s : string) (c : ascii) (i : nat) :
  find s c = Some i -> (i < String.length s)%nat.
Proof.
  revert i. induction s as [|a s IH]; simpl; intros i H.
  - discriminate.
  - destruct (Ascii.eqb a c).
    + inversion H. lia.
    + destruct (find s c) as [j|]; [|discriminate].
      inversion H; subst. specialize (IH j eq_refl). lia.
Qed.

Lemma last_char_cons (a : ascii) (s : string) :
  s <> "" -> last_char (String a s) = last_char s.
Proof. destruct s; [congruence|reflexivity]. Qed.

Lemma last_char_count (s : string) (c : ascii) :
  last_char s = Some c -> (0 < count c s)%nat.
Proof.
  induction s as [|a s IH]; simpl; [discriminate|].
  destruct s as [|b s'].
  - intro H. inversion H; subst. rewrite Ascii.eqb_refl. simpl. lia.
  - intro H. specialize (IH H). lia.
Qed.

(** Erasing through the first [c] keeps the last character, unless that
    first [c] is the last character (then nothing is left). *)
Lemma drop_find_last (s : string) (c : ascii) (i : nat) :
  find s c = Some i ->
  drop (S i) s = "" \/ (drop (S i) s <> "" /\ last_char (drop (S i) s) = last_char s).
Proof.
  revert i. induction s as [|a s IH]; simpl; intros i H.
  - discriminate.
  - destruct (Ascii.eqb a c) eqn:E.
    + inversion H; subst. simpl.
      destruct s as [|b s']; [left; reflexivity|right].
      split; [discriminate|reflexivity].
    + destruct (find s c) as [j|] eqn:F; [|discriminate].
      inversion H; subst.
      destruct (IH j eq_refl) as [Hd|[Hd Hl]].
      * left. exact Hd.
      * right. split; [exact Hd|].
        rewrite Hl. destruct s; [discriminate|reflexivity].
Qed.

(** When the first [c] is also the last character of [s] and more text
    follows it, impossible; when text follows, [s] does not end there. *)
Lemma drop_find_empty_last (s : string) (c : ascii) (i : nat) :
  find s c = Some i -> drop (S i) s = "" -> last_char s = Some c.
Proof.
  revert i. induction s as [|a s IH]; simpl; intros i H Hd.
  - discriminate.
  - destruct (Ascii.eqb a c) eqn:E.
    + inversion H; subst i. simpl in Hd.
      apply Ascii.eqb_eq in E. rewrite E.
      destruct s; [reflexivity|discriminate].
    + destruct (find s c) as [j|] eqn:F; [|discriminate].
      inversion H; subst i. simpl in Hd.
      specialize (IH j eq_refl Hd).
      destruct s; [discriminate|exact IH].
Qed.

(** What one pass leaves of the line. *)
Lemma read_link_line (line : string) (l : Link) (line' : string) :
  read_link line = Some (l, line') ->
  line' = erase0 line (succ_size_t (find line ";")).
Proof.
  unfold read_link. intro H.
  destruct (stoi _); [|discriminate].
  destruct (stoi _); [|discriminate].
  inversion H. reflexivity.
Qed.

Lemma eqb_empty_false (s : string) : s <> "" -> (s =? "") = false.
Proof. intro H. apply String.eqb_neq. exact H. Qed.

(** A line all of whose records are closed by [';'] leaves the loop after
    at most one pass per [';']. *)
Lemma links_loop_terminated (line : string) :
  forall fuel links,
    (line = "" \/ last_char line = Some ";"%char) ->
    (count ";" line <= fuel)%nat ->
    links_loop fuel line links <> Running.
Proof.
  remember (count ";" line) as n eqn:Hn.
  revert line Hn. induction n as [|n IH]; intros line Hn fuel links Hend Hfuel.
  - destruct Hend as [->|Hl].
    + destruct fuel; simpl; discriminate.
    + apply last_char_count in Hl. lia.
  - destruct Hend as [->|Hl]; [discriminate|].
    destruct fuel as [|fuel]; [lia|].
    assert (Hne : line <> "") by (intros ->; discriminate).
    simpl. rewrite (eqb_empty_false Hne).
    destruct (read_link line) as [[l line']|] eqn:R; [|discriminate].
    apply read_link_line in R.
    destruct (find line ";") as [i|] eqn:F.
    + unfold erase0 in R. cbn [succ_size_t] in R.
      pose proof (find_some_count _ _ F) as Hc.
      apply IH.
      * subst line'. lia.
      * destruct (drop_find_last _ _ F) as [Hd|[Hd Hlast]].
        -- left. subst line'. exact Hd.
        -- right. subst line'. rewrite Hlast. exact Hl.
      * subst line'. lia.
    + apply find_none_count in F. lia.
Qed.

(** A non-empty line that does not end in [';'] never leaves the loop
    through its test. *)
Lemma links_loop_unterminated (fuel : nat) :
  forall line links ls,
    line <> "" -> last_char line <> Some ";"%char ->
    links_loop fuel line links <> Finished ls.
Proof.
  induction fuel as [|fuel IH]; intros line links ls Hne Hl; simpl;
    rewrite (eqb_empty_false Hne); [discriminate|].
  destruct (read_link line) as [[l line']|] eqn:R; [|discriminate].
  apply read_link_line in R.
  destruct (find line ";") as [i|] eqn:F.
  - unfold erase0 in R. cbn [succ_size_t] in R.
    destruct (drop_find_last _ _ F) as [Hd|[Hd Hlast]].
    + exfalso. apply Hl. eapply drop_find_empty_last; eassumption.
    + subst line'. apply IH; [exact Hd|]. rewrite Hlast. exact Hl.
  - simpl in R. unfold erase0 in R. simpl in R. subst line'.
    apply IH; assumption.
Qed.

(** The number of links read when the loop ends by its test. *)
Lemma links_loop_finished_length (fuel : nat) :
  forall line links ls,
    links_loop fuel line links = Finished ls ->
    List.length ls = (List.length links + count ";" line)%nat.
Proof.
  induction fuel as [|fuel IH]; intros line links ls; simpl.
  - destruct (line =? "") eqn:E; [|discriminate].
    apply String.eqb_eq in E. subst. intro H. inversion H. simpl. lia.
  - destruct (line =? "") eqn:E.
    + apply String.eqb_eq in E. subst. intro H. inversion H. simpl. lia.
    + destruct (read_link line) as [[l line']|] eqn:R; [|discriminate].
      intro H0. pose proof (IH _ _ _ H0) as H. rewrite H, length_app. simpl.
      apply read_link_line in R.
      destruct (find line ";") as [i|] eqn:F.
      * unfold erase0 in R. cbn [succ_size_t] in R.
        rewrite (find_some_count _ _ F). subst line'. lia.
      * exfalso.
        assert (Hne : line <> "") by (apply String.eqb_neq; exact E).
        simpl in R. unfold erase0 in R. simpl in R. subst line'.
        assert (Hl : last_char line <> Some ";"%char).
        { intro Hl. apply last_char_count in Hl.
          apply find_none_count in F. lia. }
        exact (links_loop_unterminated fuel (links ++ [l]) Hne Hl H0).
Qed.

(** Once no [';'] is left in a non-empty line, a pass that parses leaves
    the line as it was: the loop spins. *)
Lemma links_loop_spins (line : string) (l : Link) (line' : string) :
  line <> "" -> find line ";" = None -> read_link line = Some (l, line') ->
  forall fuel links, links_loop fuel line links = Running.
Proof.
  intros Hne F R.
  assert (Hline : line' = line).
  { apply read_link_line in R. rewrite F in R. exact R. }
  subst line'.
  induction fuel as [|fuel IH]; intro links; simpl;
    rewrite (eqb_empty_false Hne); [reflexivity|].
  rewrite R. apply IH.
Qed.

Example links_loop_spins_example :
  forall fuel, links_loop fuel "3,4,False" [] = Running.
Proof.
  intro fuel.
  apply (@links_loop_spins "3,4,False" (mkLink (3, 4)%Z false) "3,4,False");
    [discriminate|reflexivity|reflexivity].
Qed.

Lemma records_closed_true (line : string) :
  records_closed line = true -> line = "" \/ last_char line = Some ";"%char.
Proof.
  unfold records_closed. destruct (last_char line) as [c|] eqn:E.
  - intro H. apply Ascii.eqb_eq in H. subst. right. reflexivity.
  - intros _. left. destruct line as [|a s]; [reflexivity|].
    exfalso. revert a E. induction s as [|b s IH]; intros a E.
    + discriminate.
    + apply (IH b). exact E.
Qed.

Lemma records_closed_false (line : string) :
  records_closed line = false -> line <> "" /\ last_char line <> Some ";"%char.
Proof.
  unfold records_closed. destruct (last_char line) as [c|] eqn:E; [|discriminate].
  intro H. split.
  - intros ->. discriminate.
  - intro H'. inversion H'; subst. rewrite Ascii.eqb_refl in H. discriminate.
Qed.

(** C9, counterexample: on a links line holding two link records the loop
    reads both and ends after two passes. *)
Example rin_links_two_records_terminate :
  links_loop 2 "1,2,True;3,4,False;" [] =
  Finished [mkLink (1, 2)%Z true; mkLink (3, 4)%Z false].
Proof. reflexivity. Qed.

(** C9, as amended: each pass of the links loop erases the line through
    its first [';'].  A line whose records are all closed by [';'] is
    therefore used up after one pass per record: the loop has ended (by
    its test, or by a [stoi] exception) within that many passes, and when
    it ended by its test it has read one link per record.  A non-empty
    line whose last record is not closed by [';'] never makes the loop end
    by its test, whatever the number of passes. *)
Theorem rin_links_loop_progress (line : string) (links : list Link) :
  if records_closed line then
    links_loop (count ";" line) line links <> Running /\
    (forall fuel ls,
        links_loop fuel line links = Finished ls ->
        List.length ls = (List.length links + count ";" line)%nat)
  else
    forall fuel ls, links_loop fuel line links <> Finished ls.
Proof.
  destruct (records_closed line) eqn:E.
  - apply records_closed_true in E. split.
    + apply links_loop_terminated; [exact E|apply Nat.le_refl].
    + intros fuel ls. apply links_loop_finished_length.
  - apply records_closed_false in E. destruct E as [Hne Hl].
    intros fuel ls. apply links_loop_unterminated; assumption.
Qed.

(** ** Motif comparison *)

(** When the second vector is a strict prefix of the first, component by
    component, the loop runs off its end. *)
Lemma Motif_eq_loop_short (c2 : list Component) :
  forall (c1 : list Component) (i todo : nat),
    (i <= List.length c2)%nat ->
    (List.length c2 < i + todo)%nat ->
    (i + todo <= List.length c1)%nat ->
    (forall j a b, (i <= j)%nat -> nth_error c1 j = Some a ->
                   nth_error c2 j = Some b -> Component_eq a b = true) ->
    Motif_eq_loop c1 c2 i todo = None.
Proof.
  intros c1 i todo. revert i.
  induction todo as [|todo IH]; intros i Hi Hlt Hle Heq; [lia|].
  simpl.
  destruct (nth_error c1 i) as [a|] eqn:E1.
  - destruct (nth_error c2 i) as [b|] eqn:E2; [|reflexivity].
    unfold Component_neq. rewrite (Heq i a b (Nat.le_refl i) E1 E2). simpl.
    assert (i < List.length c2)%nat
      by (apply nth_error_Some; rewrite E2; discriminate).
    apply IH; try lia.
    intros j a' b' Hj. apply Heq. lia.
  - reflexivity.
Qed.

(** C10, the comparison at the failing input: the two motifs agree on
    identifier, score, orientation and first component, and the second
    has one component fewer; the loop then reads [m2.comp[1]], which does
    not exist. *)
Theorem Motif_eq_reads_past_shorter :
  Motif_eq motif_two_components motif_one_component = None.
Proof. reflexivity. Qed.

(** * Facts about the CSV and RIN readers *)

Import Loop LoopFacts.
Local Open Scope result_scope.

(** ** Fields *)

Lemma find_app_sep (x y : string) (c : ascii) :
  find x c = None -> find (x ++ String c y) c = Some (String.length x).
Proof.
  induction x as [|a x IH]; cbn [append find String.length]; intro H.
  - rewrite Ascii.eqb_refl. reflexivity.
  - destruct (Ascii.eqb a c); [discriminate|].
    destruct (find x c); [discriminate|]. rewrite IH by reflexivity. reflexivity.
Qed.

Lemma find_app_none (x y : string) (c : ascii) :
  find x c = None -> find y c = None -> find (x ++ y) c = None.
Proof.
  induction x as [|a x IH]; cbn [append find]; intros Hx Hy; [exact Hy|].
  destruct (Ascii.eqb a c); [discriminate|].
  destruct (find x c); [discriminate|]. rewrite IH by (reflexivity || exact Hy). reflexivity.
Qed.

Lemma take_app (x y : string) : take (String.length x) (x ++ y) = x.
Proof.
  induction x as [|a x IH]; cbn [append String.length take].
  - destruct y; reflexivity.
  - rewrite IH. reflexivity.
Qed.

Lemma drop_app_sep (x y : string) (c : ascii) :
  drop (S (String.length x)) (x ++ String c y) = y.
Proof.
  induction x as [|a x IH]; cbn [append String.length drop].
  - destruct y; reflexivity.
  - exact IH.
Qed.

(** Cutting at the first separator [c]: the field before it and the text
    after it. *)
Lemma cut_field (x y : string) (c : ascii) :
  find x c = None ->
  substr0 (x ++ String c y) (find (x ++ String c y) c) = x /\
  erase0 (x ++ String c y) (succ_size_t (find (x ++ String c y) c)) = y.
Proof.
  intro H. rewrite (@find_app_sep x y c H). cbn [substr0 succ_size_t erase0].
  split; [apply take_app|apply drop_app_sep].
Qed.

(** Without separator nothing is cut and nothing is erased. *)
Lemma cut_last (x : string) (c : ascii) :
  find x c = None ->
  substr0 x (find x c) = x /\ erase0 x (succ_size_t (find x c)) = x.
Proof.
  intro H. rewrite H. cbn [substr0 succ_size_t erase0]. split; [reflexivity|].
  destruct x; reflexivity.
Qed.

Lemma append_assoc' (x y z : string) : (x ++ y) ++ z = x ++ (y ++ z).
Proof. induction x as [|a x IH]; cbn [append]; [reflexivity|]. rewrite IH. reflexivity. Qed.

(** ** One link record, one component line *)

(** X2: one pass of the links loop on a line that starts with the record
    [a,b,flag;] reads the link [(stoi a, stoi b)] with [long_range] true
    exactly for the flag [True], and leaves the text after the record;
    it throws exactly when [stoi] does on [a] or on [b]. *)
Theorem read_link_fields (a b flag rest : string) :
  find a "," = None -> find a ";" = None ->
  find b "," = None -> find b ";" = None ->
  find flag ";" = None ->
  read_link (a ++ "," ++ b ++ "," ++ flag ++ ";" ++ rest)
  = match stoi a, stoi b with
    | Some x, Some y => Some (mkLink (x, y) (flag =? "True"), rest)
    | _, _ => None
    end.
Proof.
  intros Ha1 Ha2 Hb1 Hb2 Hf.
  set (rec := a ++ "," ++ b ++ "," ++ flag).
  assert (Hline : a ++ "," ++ b ++ "," ++ flag ++ ";" ++ rest = rec ++ String ";" rest).
  { unfold rec. cbn [append]. rewrite !append_assoc'. cbn [append].
    rewrite !append_assoc'. reflexivity. }
  assert (Hrec : find rec ";" = None).
  { unfold rec. apply find_app_none; [exact Ha2|]. cbn [append find].
    replace (Ascii.eqb "," ";") with false by reflexivity.
    rewrite find_app_none; [reflexivity|exact Hb2|]. cbn [append find].
    replace (Ascii.eqb "," ";") with false by reflexivity. rewrite Hf. reflexivity. }
  unfold read_link. rewrite Hline.
  destruct (@cut_field rec rest ";" Hrec) as [-> ->].
  unfold rec. cbn [append].
  destruct (@cut_field a (b ++ String "," flag) "," Ha1) as [-> ->].
  destruct (@cut_field b flag "," Hb1) as [-> ->].
  destruct (stoi a); [|reflexivity]. destruct (stoi b); reflexivity.
Qed.

(** X3: the body of the components loop on a line [a,b;k;seq] builds the
    component with [pos = (stoi a, stoi b)], [k = stoi k] and
    [seq_ = seq]; it throws exactly when [stoi] does on one of the three
    numbers. *)
Theorem read_component_fields (a b k seq : string) :
  find a "," = None -> find a ";" = None ->
  find b ";" = None -> find k ";" = None ->
  read_component (a ++ "," ++ b ++ ";" ++ k ++ ";" ++ seq)
  = match stoi a, stoi b, stoi k with
    | Some first, Some second, Some k' => Built (mkComponent (first, second) k' seq)
    | _, _, _ => Thrown
    end.
Proof.
  intros Ha1 Ha2 Hb Hk.
  set (p := a ++ "," ++ b).
  assert (Hline : a ++ "," ++ b ++ ";" ++ k ++ ";" ++ seq
                  = p ++ String ";" (k ++ String ";" seq)).
  { unfold p. cbn [append]. rewrite !append_assoc'. cbn [append]. reflexivity. }
  assert (Hp : find p ";" = None).
  { unfold p. apply find_app_none; [exact Ha2|]. cbn [append find].
    replace (Ascii.eqb "," ";") with false by reflexivity. rewrite Hb. reflexivity. }
  unfold read_component. rewrite Hline.
  destruct (@cut_field p (k ++ String ";" seq) ";" Hp) as [-> ->].
  unfold p. cbn [append].
  destruct (@cut_field a b "," Ha1) as [-> ->].
  destruct (@cut_field k seq ";" Hk) as [-> ->].
  unfold rstoi. destruct (stoi a); cbn [rbind]; [|reflexivity].
  destruct (stoi b); cbn [rbind]; [|reflexivity].
  destruct (stoi k); reflexivity.
Qed.

(** ** Lines of a file *)

Lemma getlines_no_newline (file : string) :
  forall l, In l (getlines file) -> find l "010" = None.
Proof.
  induction file as [|a f IH]; cbn [getlines]; intros l Hin; [destruct Hin|].
  destruct (Ascii.eqb a "010") eqn:E.
  - destruct Hin as [<-|Hin]; [reflexivity|apply IH, Hin].
  - destruct (getlines f) as [|l0 ls] eqn:G.
    + destruct Hin as [<-|[]]. cbn [find]. rewrite E. reflexivity.
    + destruct Hin as [<-|Hin].
      * cbn [find]. rewrite E. rewrite (IH l0 (or_introl eq_refl)). reflexivity.
      * apply IH. right. exact Hin.
Qed.

Lemma read_component_throws (line : string) :
  read_component line <> OutOfRange.
Proof.
  unfold read_component. cbv zeta. unfold rstoi.
  repeat match goal with
         | |- context [stoi ?s] => destruct (stoi s); cbn [rbind]
         end; discriminate.
Qed.

Lemma read_components_empty_line (lines : list string) :
  (forall l, In l lines -> find l "010" = None) ->
  In "" lines ->
  forall comp, read_components lines comp = Thrown.
Proof.
  induction lines as [|line rest IH]; intros Hnl Hin comp; [destruct Hin|].
  cbn [read_components].
  assert (Hne : (line =? String "010" "") = false).
  { apply String.eqb_neq. intro E. specialize (Hnl line (or_introl eq_refl)).
    rewrite E in Hnl. discriminate. }
  rewrite Hne.
  destruct Hin as [->|Hin]; [reflexivity|].
  destruct (read_component line) as [c| |] eqn:E; cbn [rbind].
  - apply IH; [|exact Hin]. intros l Hl. apply Hnl. right. exact Hl.
  - reflexivity.
  - exfalso. exact (@read_component_throws line E).
Qed.

(** X4: an empty line among the component lines of a RIN file makes the
    loop over these lines end with the exception of [stoi], whatever the
    other lines hold: [getline] strips the newline, so the guard
    [line == "\n"] never holds on a line of the file. *)
Theorem rin_blank_line_throws (rest : string) (comp0 : list Component) :
  In "" (getlines rest) ->
  read_components (getlines rest) comp0 = Thrown.
Proof.
  intro H. apply read_components_empty_line; [apply getlines_no_newline|exact H].
Qed.

(** ** The CSV constructor *)

Lemma split_hd (c : ascii) (s : string) :
  exists ts, split c s = substr0 s (find s c) :: ts.
Proof.
  induction s as [|a s IH]; cbn [split find].
  - exists []. reflexivity.
  - destruct (Ascii.eqb a c).
    + eexists. reflexivity.
    + destruct IH as [ts ->]. exists ts.
      destruct (find s c); reflexivity.
Qed.

Lemma split_none (c : ascii) (s : string) : find s c = None -> split c s = [s].
Proof.
  induction s as [|a s IH]; cbn [split find]; intro H; [reflexivity|].
  destruct (Ascii.eqb a c); [discriminate|].
  destruct (find s c); [discriminate|]. rewrite IH by reflexivity. reflexivity.
Qed.

Lemma split_length (c : ascii) (s : string) :
  List.length (split c s) = S (count c s).
Proof.
  induction s as [|a s IH]; cbn [split count]; [reflexivity|].
  destruct (Ascii.eqb a c); cbn [List.length]; [rewrite IH; reflexivity|].
  destruct (split c s); cbn [List.length] in *; lia.
Qed.

Lemma csv_pairs_spec (tokens : list string) :
  forall fuel i comp ps,
    csv_pairs fuel tokens i comp = Built ps ->
    Forall (fun p => (fst p < snd p)%Z) comp ->
    Forall (fun p => (fst p < snd p)%Z) ps /\
    (2 * List.length ps <= 2 * List.length comp + (List.length tokens - i))%nat.
Proof.
  induction fuel as [|fuel IH]; intros i comp ps H Hc; cbn [csv_pairs] in H.
  - inversion H; subst. split; [exact Hc|lia].
  - destruct (Nat.ltb_spec i (List.length tokens - 1)) as [Hi|Hi].
    + destruct (stoi_token tokens i) as [a| |]; cbn [rbind] in H; try discriminate.
      destruct (stoi_token tokens (i + 1)) as [b| |]; cbn [rbind] in H; try discriminate.
      destruct (Z.ltb_spec a b) as [Hab|Hab].
      * apply IH in H.
        -- destruct H as [H1 H2]. split; [exact H1|]. rewrite length_app in H2.
           cbn [List.length] in H2. lia.
        -- apply Forall_app. split; [exact Hc|]. constructor; [exact Hab|constructor].
      * apply IH in H; [|exact Hc]. destruct H as [H1 H2]. split; [exact H1|lia].
    + inversion H; subst. split; [exact Hc|lia].
Qed.

Lemma csv_pairs_fuel (tokens : list string) :
  forall fuel i comp extra,
    (List.length tokens <= i + 2 * fuel + 1)%nat ->
    csv_pairs (fuel + extra) tokens i comp = csv_pairs fuel tokens i comp.
Proof.
  induction fuel as [|fuel IH]; intros i comp extra Hlen.
  - cbn [Nat.add csv_pairs]. destruct extra as [|extra]; [reflexivity|].
    cbn [csv_pairs].
    destruct (Nat.ltb_spec i (List.length tokens - 1)) as [Hi|Hi]; [lia|reflexivity].
  - cbn [Nat.add csv_pairs].
    destruct (i <? List.length tokens - 1)%nat; [|reflexivity].
    destruct (stoi_token tokens i); cbn [rbind]; try reflexivity.
    destruct (stoi_token tokens (i + 1)); cbn [rbind]; try reflexivity.
    destruct (_ <? _)%Z; apply IH; lia.
Qed.

Lemma token0 (c : ascii) (s : string) :
  token (split c s) 0 = Built (substr0 s (find s c)).
Proof. destruct (split_hd c s) as [ts ->]. reflexivity. Qed.

(** X5: whenever the CSV constructor builds a motif, in either branch,
    [get_identifier()] of the motif is the text of the line before its
    first comma. *)
Theorem csv_identifier_is_first_field (reversed0 : bool) (line : string) (m : Motif) :
  Motif_of_csv reversed0 line = Built m ->
  get_identifier m = substr0 line (find line ",").
Proof.
  unfold Motif_of_csv. cbv zeta. rewrite token0.
  destruct (negb _ || negb _); cbn [rbind].
  - repeat match goal with
           | |- context [rbind ?x _] =>
               destruct x; cbn [rbind]; try discriminate
           | |- context [if ?b then _ else _] =>
               destruct b; cbn [rbind]; try discriminate
           end; intro H; inversion H; reflexivity.
  - destruct (stoi_token _ 1); cbn [rbind]; try discriminate.
    destruct (csv_pairs _ _ _ _); cbn [rbind]; try discriminate.
    destruct (find_str _ _); intro H; inversion H; reflexivity.
Qed.

(** X6: a CSV line without comma is one token, and either branch of the
    constructor indexes the vector of tokens outside its bounds. *)
Theorem csv_without_comma_out_of_range (reversed0 : bool) (line : string) :
  find line "," = None -> Motif_of_csv reversed0 line = OutOfRange.
Proof.
  intro H. unfold Motif_of_csv. cbv zeta. rewrite (split_none _ _ H).
  destruct (negb _ || negb _); reflexivity.
Qed.

(** X7: on a BayesPairing line (no [True], no [False]) from which a motif
    is built, every component has [pos.first < pos.second], there are at
    most [(tokens.size() - 2) / 2] components, no link, and [reversed_]
    is what it was before the constructor ran. *)
Theorem csv_bayespairing_components (reversed0 : bool) (line : string) (m : Motif) :
  find_str "True" line = None -> find_str "False" line = None ->
  Motif_of_csv reversed0 line = Built m ->
  Forall (fun c => (fst (pos c) < snd (pos c))%Z) (comp m) /\
  (2 * List.length (comp m) + 2 <= List.length (split "," line))%nat /\
  reversed_ m = reversed0 /\ links_ m = [].
Proof.
  intros HT HF. unfold Motif_of_csv. cbv zeta. rewrite HT, HF. cbn [negb orb].
  destruct (stoi_token _ 1) as [sc| |] eqn:E1; cbn [rbind]; try discriminate.
  destruct (token _ 0) as [t0| |]; cbn [rbind]; try discriminate.
  destruct (csv_pairs _ _ _ _) as [ps| |] eqn:E; cbn [rbind]; try discriminate.
  apply csv_pairs_spec in E; [|constructor]. destruct E as [Hord Hlen].
  assert (Hn : (2 <= List.length (split "," line))%nat).
  { unfold stoi_token, token in E1.
    destruct (split "," line) as [|x [|y l]]; cbn in E1; try discriminate. cbn. lia. }
  assert (Hcomp : Forall (fun c => (fst (pos c) < snd (pos c))%Z) (map Component_of_pos ps)).
  { apply Forall_map. eapply Forall_impl; [|exact Hord]. intros [a b] H. exact H. }
  destruct (find_str _ t0); intro H; inversion H; cbn [comp reversed_ links_];
    rewrite length_map; (split; [exact Hcomp|]); (split; [cbn [List.length] in Hlen; lia|]);
    split; reflexivity.
Qed.

(** ** Equality of motifs *)

Lemma Motif_eq_loop_spec (c1 c2 : list Component) :
  forall todo i,
    (i + todo = List.length c1)%nat ->
    (List.length c1 <= List.length c2)%nat ->
    exists b, Motif_eq_loop c1 c2 i todo = Some b /\
              (b = true <->
               forall k, (i <= k < List.length c1)%nat ->
                         option_map pos (nth_error c1 k) = option_map pos (nth_error c2 k)).
Proof.
  induction todo as [|todo IH]; intros i Hi Hlen; cbn [Motif_eq_loop].
  - exists true. split; [reflexivity|]. split; [|reflexivity]. intros _ k Hk. lia.
  - destruct (nth_error c1 i) as [x|] eqn:E1;
      [|apply nth_error_None in E1; lia].
    destruct (nth_error c2 i) as [y|] eqn:E2;
      [|apply nth_error_None in E2; lia].
    unfold Component_neq, Component_eq.
    destruct (Z.eqb_spec (fst (pos x)) (fst (pos y))) as [Ef|Ef]; cbn [negb].
    + destruct (Z.eqb_spec (snd (pos x)) (snd (pos y))) as [Es|Es]; cbn [negb].
      * destruct (IH (S i) ltac:(lia) Hlen) as [b [Hb Hiff]].
        exists b. split; [exact Hb|]. rewrite Hiff. split.
        -- intros H k Hk. destruct (Nat.eq_dec k i) as [->|Hne].
           ++ rewrite E1, E2. cbn. destruct (pos x), (pos y). cbn in *. congruence.
           ++ apply H. lia.
        -- intros H k Hk. apply H. lia.
      * exists false. split; [reflexivity|]. split; [discriminate|].
        intro H. specialize (H i ltac:(lia)). rewrite E1, E2 in H. cbn in H.
        inversion H as [H']. rewrite H' in Es. contradiction.
    + exists false. split; [reflexivity|]. split; [discriminate|].
      intro H. specialize (H i ltac:(lia)). rewrite E1, E2 in H. cbn in H.
      inversion H as [H']. rewrite H' in Ef. contradiction.
Qed.

Lemma prefix_positions (c1 : list Component) :
  forall c2, (List.length c1 <= List.length c2)%nat ->
    ((forall k, (0 <= k < List.length c1)%nat ->
                option_map pos (nth_error c1 k) = option_map pos (nth_error c2 k))
     <-> map pos c1 = map pos (firstn (List.length c1) c2)).
Proof.
  induction c1 as [|x c1 IH]; intros c2 Hlen.
  - cbn. split; [reflexivity|]. intros _ k Hk. lia.
  - destruct c2 as [|y c2]; [cbn in Hlen; lia|].
    cbn [List.length firstn map]. cbn [List.length] in Hlen.
    specialize (IH c2 ltac:(lia)). split.
    + intro H. f_equal.
      * specialize (H 0%nat ltac:(lia)). cbn in H. inversion H. reflexivity.
      * apply IH. intros k Hk. apply (H (S k)). lia.
    + intros E k Hk. inversion E as [[E1 E2]]. destruct k as [|k]; cbn [nth_error option_map].
      * rewrite E1. reflexivity.
      * apply IH; [exact E2|lia].
Qed.

(** X8: when the second motif has at least as many components as the
    first, the comparison is defined and is true exactly when identifier,
    score and orientation agree and the positions of the components of
    the first equal those of the first [m1.comp.size()] components of the
    second: what the second has beyond them is never compared. *)
Theorem Motif_eq_compares_a_prefix (m1 m2 : Motif) :
  (List.length (comp m1) <= List.length (comp m2))%nat ->
  exists b, Motif_eq m1 m2 = Some b /\
            (b = true <->
             get_identifier m1 = get_identifier m2 /\
             score_ m1 = score_ m2 /\
             reversed_ m1 = reversed_ m2 /\
             map pos (comp m1) = map pos (firstn (List.length (comp m1)) (comp m2))).
Proof.
  intro Hlen. unfold Motif_eq.
  destruct (String.eqb_spec (get_identifier m1) (get_identifier m2)) as [Ei|Ei]; cbn [negb];
    [|exists false; split; [reflexivity|]; split; [discriminate|]; intros [H _]; contradiction].
  destruct (Z.eqb_spec (score_ m1) (score_ m2)) as [Es|Es]; cbn [negb];
    [|exists false; split; [reflexivity|]; split; [discriminate|]; intros [_ [H _]]; contradiction].
  destruct (Bool.eqb (reversed_ m1) (reversed_ m2)) eqn:Er; cbn [negb].
  - apply Bool.eqb_prop in Er.
    destruct (@Motif_eq_loop_spec (comp m1) (comp m2) (List.length (comp m1)) 0%nat
                ltac:(lia) Hlen) as [b [Hb Hiff]].
    exists b. split; [exact Hb|]. rewrite Hiff, (@prefix_positions (comp m1) (comp m2) Hlen).
    split; [intro H; repeat split; assumption|intros [_ [_ [_ H]]]; exact H].
  - exists false. split; [reflexivity|]. split; [discriminate|].
    intros [_ [_ [H _]]]. rewrite H in Er. rewrite Bool.eqb_reflx in Er. discriminate.
Qed.

(** ** [stoi] stops at the first character that is no digit *)

Lemma stoi_skip (s : string) : stoi s = stoi_from (skip_ws s).
Proof. reflexivity. Qed.

Lemma read_digits_stop (d y : string) (c : ascii) :
  digit_of c = None ->
  forall acc, read_digits (d ++ String c y) acc = read_digits d acc.
Proof.
  intro Hc. induction d as [|a d IH]; intro acc; cbn [append read_digits].
  - rewrite Hc. reflexivity.
  - destruct (digit_of a); [apply IH|reflexivity].
Qed.

Lemma read_digits_stop_cons (a : ascii) (d y : string) (c : ascii) :
  digit_of c = None ->
  forall acc, read_digits (String a (d ++ String c y)) acc = read_digits (String a d) acc.
Proof. intros Hc acc. apply (@read_digits_stop (String a d) y c Hc). Qed.

Lemma skip_ws_stop (x y : string) :
  skip_ws (x ++ String ";" y) = skip_ws x ++ String ";" y.
Proof.
  induction x as [|a x IH]; cbn [append skip_ws]; [reflexivity|].
  destruct (isspace a); [exact IH|reflexivity].
Qed.

Lemma stoi_from_stop (s1 y : string) :
  stoi_from (s1 ++ String ";" y) = stoi_from s1.
Proof.
  assert (Hsemi : digit_of ";" = None) by reflexivity.
  destruct s1 as [|a z]; [reflexivity|].
  destruct a as [[] [] [] [] [] [] [] []]; cbn [append]; unfold stoi_from;
    rewrite ?(@read_digits_stop z y ";" Hsemi),
            ?(@read_digits_stop_cons _ z y ";" Hsemi); reflexivity.
Qed.

Lemma stoi_stop (x y : string) : stoi (x ++ String ";" y) = stoi x.
Proof. rewrite !stoi_skip, skip_ws_stop. apply stoi_from_stop. Qed.

(** ** [Motif::is_valid_RIN] *)
Local Open Scope Z_scope.

Lemma take_upto_stop (k seq : string) (c : Z) :
  Z.of_nat (String.length k) <= c ->
  take_upto c (k ++ String ";" seq) = k \/
  exists y, take_upto c (k ++ String ";" seq) = k ++ String ";" y.
Proof.
  revert c. induction k as [|a k IH]; intros c Hc; cbn [append take_upto String.length] in *.
  - destruct (0 <? c); [right; eexists; reflexivity|left; reflexivity].
  - replace (0 <? c) with true by (symmetry; apply Z.ltb_lt; lia).
    destruct (IH (c - 1)) as [->|[y ->]]; [lia|left; reflexivity|right; eexists; reflexivity].
Qed.

Lemma rin_line_length_field (p k seq : string) :
  find p ";" = None -> find k ";" = None ->
  Z.of_nat (String.length p + String.length k) + 1 < 2 ^ 32 ->
  rin_line_length (p ++ String ";" (k ++ String ";" seq)) = stoi k.
Proof.
  intros Hp Hk Hlen. unfold rin_line_length. cbv zeta.
  rewrite (@find_app_sep p (k ++ String ";" seq) ";" Hp). cbn [succ_size_t].
  unfold find_from, substr. rewrite drop_app_sep.
  rewrite (@find_app_sep k seq ";" Hk). cbn [to_uint].
  rewrite wrap32_small by lia.
  destruct (@take_upto_stop k seq (Z.of_nat (S (String.length p) + String.length k)))
    as [->|[y ->]]; [lia|reflexivity|apply stoi_stop].
Qed.

(** What the loop leaves in [motif_length] on lines [pos;k;seq] whose
    second fields read as the integers [ks]. *)
Lemma rin_motif_length_sum (lines : list string) (ks : list Z) :
  Forall2 (fun line kz => exists p k seq,
             line = p ++ String ";" (k ++ String ";" seq) /\
             find p ";" = None /\ find k ";" = None /\
             Z.of_nat (String.length p + String.length k) + 1 < 2 ^ 32 /\
             stoi k = Some kz) lines ks ->
  forall acc, 0 <= acc < 2 ^ 32 ->
  rin_motif_length lines acc = Some (wrap32 (acc + fold_right Z.add 0 ks)).
Proof.
  induction 1 as [|line kz lines ks (p & k & seq & -> & Hp & Hk & Hlen & Hs) _ IH];
    intros acc Hacc; cbn [rin_motif_length fold_right].
  - rewrite Z.add_0_r, wrap32_small by lia. reflexivity.
  - assert (Hne : (p ++ String ";" (k ++ String ";" seq) =? String "010" "")%string = false).
    { apply String.eqb_neq. intro E.
      pose proof (@find_app_sep p (k ++ String ";" seq) ";" Hp) as F.
      rewrite E in F. discriminate. }
    rewrite Hne, (@rin_line_length_field p k seq Hp Hk Hlen), Hs.
    rewrite IH by (unfold wrap32; apply Z.mod_pos_bound; lia).
    f_equal. unfold wrap32. rewrite Zplus_mod_idemp_l. f_equal. lia.
Qed.

(** X9: on component lines [pos;k;seq], [is_valid_RIN] adds up the
    integers [k] (modulo 2^32) and answers ['l'] when the total is below
    5, else ['x'] when the links line holds no [';'], else 0.  The count
    given to [substr] is a position, so the substring runs past the
    field; [stoi] stops at the [';'] all the same. *)
Theorem is_valid_RIN_verdict (links_line : string) (lines : list string) (ks : list Z) :
  Forall2 (fun line kz => exists p k seq,
             line = p ++ String ";" (k ++ String ";" seq) /\
             find p ";" = None /\ find k ";" = None /\
             Z.of_nat (String.length p + String.length k) + 1 < 2 ^ 32 /\
             stoi k = Some kz) lines ks ->
  is_valid_RIN links_line lines
  = Some (if wrap32 (fold_right Z.add 0 ks) <? 5 then "l"%char
          else if wrap32 (Z.of_nat (count ";" links_line)) =? 0 then "x"%char
          else "000"%char).
Proof.
  intro H. unfold is_valid_RIN. cbv zeta.
  rewrite (@rin_motif_length_sum lines ks H 0) by lia. rewrite Z.add_0_l.
  destruct (_ <? 5); [reflexivity|]. destruct (_ =? 0); reflexivity.
Qed.

Local Open Scope string_scope.
Local Close Scope Z_scope.

(** ** Instances *)

Unset Implicit Arguments.

Lemma Motif_eq_compares_a_prefix_witness :
  (List.length (comp motif_one_component) <= List.length (comp motif_two_components))%nat /\
  exists b, Motif_eq motif_one_component motif_two_components = Some b /\
            (b = true <->
             get_identifier motif_one_component = get_identifier motif_two_components /\
             score_ motif_one_component = score_ motif_two_components /\
             reversed_ motif_one_component = reversed_ motif_two_components /\
             map pos (comp motif_one_component)
             = map pos (firstn (List.length (comp motif_one_component))
                               (comp motif_two_components))).
Proof.
  assert (H : (List.length (comp motif_one_component)
               <= List.length (comp motif_two_components))%nat) by (simpl; lia).
  split; [exact H|].
  exact (@Motif_eq_compares_a_prefix motif_one_component motif_two_components H).
Defined.

Lemma read_link_fields_witness :
  read_link ("1" ++ "," ++ "2" ++ "," ++ "True" ++ ";" ++ "3,4,False;")
  = match stoi "1", stoi "2" with
    | Some x, Some y => Some (mkLink (x, y) ("True" =? "True"), "3,4,False;")
    | _, _ => None
    end.
Proof.
  exact (@read_link_fields "1" "2" "True" "3,4,False;"
           eq_refl eq_refl eq_refl eq_refl eq_refl).
Defined.

Lemma read_component_fields_witness :
  read_component ("0" ++ "," ++ "1" ++ ";" ++ "2" ++ ";" ++ "GU")
  = match stoi "0", stoi "1", stoi "2" with
    | Some first, Some second, Some k' => Built (mkComponent (first, second) k' "GU")
    | _, _, _ => Thrown
    end.
Proof.
  exact (@read_component_fields "0" "1" "2" "GU" eq_refl eq_refl eq_refl eq_refl).
Defined.

Lemma rin_blank_line_throws_witness :
  In "" (getlines ("0,1;2;GU" ++ String "010" (String "010" "5,6;1;A"))) /\
  read_components (getlines ("0,1;2;GU" ++ String "010" (String "010" "5,6;1;A"))) [] = Thrown.
Proof.
  assert (H : In "" (getlines ("0,1;2;GU" ++ String "010" (String "010" "5,6;1;A"))))
    by (vm_compute; right; left; reflexivity).
  split; [exact H|].
  exact (@rin_blank_line_throws ("0,1;2;GU" ++ String "010" (String "010" "5,6;1;A")) [] H).
Defined.

Lemma csv_identifier_is_first_field_witness :
  Motif_of_csv false "IL_0001,12,3,8,7,2"
  = Built (mkMotif [Component_of_pos (3, 8)%Z] [] "IL_0001" "" "" 12 false true RNAMOTIFATLAS) /\
  get_identifier (mkMotif [Component_of_pos (3, 8)%Z] [] "IL_0001" "" "" 12 false true
                          RNAMOTIFATLAS)
  = substr0 "IL_0001,12,3,8,7,2" (find "IL_0001,12,3,8,7,2" ",").
Proof.
  assert (H : Motif_of_csv false "IL_0001,12,3,8,7,2"
              = Built (mkMotif [Component_of_pos (3, 8)%Z] [] "IL_0001" "" "" 12 false true
                               RNAMOTIFATLAS)) by (vm_compute; reflexivity).
  split; [exact H|].
  exact (@csv_identifier_is_first_field false "IL_0001,12,3,8,7,2" _ H).
Defined.

Lemma csv_bayespairing_components_witness :
  find_str "True" "rna3dmotif.1,9,3,8,20,25,4" = None /\
  find_str "False" "rna3dmotif.1,9,3,8,20,25,4" = None /\
  Motif_of_csv true "rna3dmotif.1,9,3,8,20,25,4"
  = Built (mkMotif [Component_of_pos (3, 8)%Z; Component_of_pos (20, 25)%Z] []
                   "" "rna3dmotif.1" "" 9 true false RNA3DMOTIF) /\
  Forall (fun c => (fst (pos c) < snd (pos c))%Z)
         [Component_of_pos (3, 8)%Z; Component_of_pos (20, 25)%Z] /\
  (2 * 2 + 2 <= List.length (split "," "rna3dmotif.1,9,3,8,20,25,4"))%nat /\
  true = true /\ @nil Link = [].
Proof.
  assert (H1 : find_str "True" "rna3dmotif.1,9,3,8,20,25,4" = None) by (vm_compute; reflexivity).
  assert (H2 : find_str "False" "rna3dmotif.1,9,3,8,20,25,4" = None) by (vm_compute; reflexivity).
  assert (H3 : Motif_of_csv true "rna3dmotif.1,9,3,8,20,25,4"
               = Built (mkMotif [Component_of_pos (3, 8)%Z; Component_of_pos (20, 25)%Z] []
                                "" "rna3dmotif.1" "" 9 true false RNA3DMOTIF))
    by (vm_compute; reflexivity).
  split; [exact H1|]. split; [exact H2|]. split; [exact H3|].
  exact (@csv_bayespairing_components true "rna3dmotif.1,9,3,8,20,25,4" _ H1 H2 H3).
Defined.

Lemma csv_without_comma_out_of_range_witness :
  find "IL_0001" "," = None /\ Motif_of_csv false "IL_0001" = OutOfRange.
Proof.
  split; [reflexivity|].
  exact (@csv_without_comma_out_of_range false "IL_0001" eq_refl).
Defined.

Lemma rin_component_line_ok (p k seq : string) (kz : Z) :
  find p ";" = None -> find k ";" = None ->
  (Z.of_nat (String.length p + String.length k) + 1 < 2 ^ 32)%Z ->
  stoi k = Some kz ->
  exists p' k' seq',
    p ++ String ";" (k ++ String ";" seq) = p' ++ String ";" (k' ++ String ";" seq') /\
    find p' ";" = None /\ find k' ";" = None /\
    (Z.of_nat (String.length p' + String.length k') + 1 < 2 ^ 32)%Z /\
    stoi k' = Some kz.
Proof. intros Hp Hk Hl Hs. exists p, k, seq. repeat split; assumption. Qed.

Lemma is_valid_RIN_verdict_witness :
  is_valid_RIN "0,1,True;" ["0,1;2;GU"; "5,6;1;A"]
  = Some (if (wrap32 (fold_right Z.add 0 [2; 1]) <? 5)%Z then "l"%char
          else if (wrap32 (Z.of_nat (count ";" "0,1,True;")) =? 0)%Z then "x"%char
          else "000"%char).
Proof.
  apply (@is_valid_RIN_verdict "0,1,True;" ["0,1;2;GU"; "5,6;1;A"] [2; 1]%Z).
  constructor; [|constructor; [|constructor]].
  - apply (@rin_component_line_ok "0,1" "2" "GU" 2%Z); reflexivity.
  - apply (@rin_component_line_ok "5,6" "1" "A" 1%Z); reflexivity.
Defined.

Set Implicit Arguments.

End MotifFacts.
(* ================================================================== *)
(** * Facts about the thermodynamic engine *)
(* ================================================================== *)

Module RNAFacts.

Import Loop LoopFacts RNAModel.
Local Open Scope Z_scope.

(** ** The poly-C test of [GHL] *)

Lemma base_type_C (c : ascii) :
  base_type c = BASE_C -> c = "c"%char \/ c = "C"%char.
Proof.
  unfold base_type.
  destruct (Ascii.eqb c "a" || Ascii.eqb c "A")%bool; [discriminate|].
  destruct (Ascii.eqb c "c" || Ascii.eqb c "C")%bool eqn:E.
  - intros _. apply orb_true_iff in E. destruct E as [E|E];
      apply Ascii.eqb_eq in E; [left|right]; exact E.
  - destruct (Ascii.eqb c "g" || Ascii.eqb c "G")%bool; [discriminate|].
    destruct (Ascii.eqb c "u" || Ascii.eqb c "U")%bool; discriminate.
Qed.

(** Where the constructor recorded a C, the sequence holds the letter
    'c' or 'C'. *)
Lemma bseq_C_letter (prm : energy_params) (seq : string) :
  forall k : nat,
    nth k (bseq_of seq) BASE_N = BASE_C ->
    String.get k seq = Some "c"%char \/ String.get k seq = Some "C"%char.
Proof.
  induction seq as [|c s IH]; intros k H.
  - destruct k; discriminate.
  - destruct k as [|k]; simpl in H |- *.
    + destruct (Ascii.eqb c "T" || Ascii.eqb c "t")%bool eqn:E.
      * discriminate.
      * apply base_type_C in H. destruct H as [->| ->]; [left|right]; reflexivity.
    + apply IH. exact H.
Qed.

(** The test [seq_[k] != BASE_C] compares a letter with an enumerator:
    where the nucleotide is C, it finds them different. *)
Lemma seq_at_C (hdr : Header) (prm : energy_params) (seq : string) (k : Z) :
  base_codes_fit hdr ->
  0 <= k ->
  bseq (RNA_of prm seq) k = BASE_C ->
  (seq_at (RNA_of prm seq) k =? base_code hdr BASE_C) = false.
Proof.
  intros Hfit Hk HC. unfold bseq, RNA_of in HC. cbn [bseq_] in HC.
  unfold seq_at, RNA_of. cbn [seq_].
  destruct (bseq_C_letter prm seq _ HC) as [-> | ->];
    pose proof (Hfit BASE_C) as Hc; apply Z.eqb_neq;
    unfold char_code; simpl; lia.
Qed.

Lemma polyC_false_at (hdr : Header) (rna : RNA) (i j k : Z) :
  i < k < j ->
  (seq_at rna k =? base_code hdr BASE_C) = false ->
  polyC hdr rna i j = false.
Proof.
  intros Hk Hne. unfold polyC.
  destruct (forallb _ _) eqn:E; [|reflexivity].
  rewrite forallb_forall in E.
  rewrite (E k) in Hne by (apply zrange_In; lia). discriminate.
Qed.

Lemma GHL_without_polyC (hdr : Header) (rna : RNA) (i j : Z) :
  polyC hdr rna i j = false -> GHL hdr rna i j = GHL_plain hdr rna i j.
Proof.
  intro H. unfold GHL, GHL_plain. rewrite H. reflexivity.
Qed.

Lemma GHL_with_polyC (hdr : Header) (rna : RNA) (i j : Z) :
  polyC hdr rna i j = true ->
  GHL hdr rna i j = (GHL_plain hdr rna i j + polyC_term rna (j - i - 1))%R.
Proof.
  intro H. unfold GHL, GHL_plain, polyC_term. rewrite H.
  destruct (j - i - 1 =? 3); [|destruct (j - i - 1 =? 4)]; cbv zeta;
    try match goal with |- context [if ?b then _ else _] => destruct b end; ring.
Qed.

(** C8, what the code does: for a sequence read by the constructor and a
    hairpin closed at (i, j) with at least three loop nucleotides, all of
    them C, the test of [GHL] compares the letters of [seq_] with the
    enumerator [BASE_C], finds them different, and no poly-C term is
    added: [GHL] returns the energy without it. *)
Theorem GHL_all_C_loop_gets_no_polyC
        (hdr : Header) (prm : energy_params) (seq : string) (i j : Z) :
  base_codes_fit hdr ->
  0 <= i ->
  3 <= j - i - 1 ->
  (forall k, i < k < j -> bseq (RNA_of prm seq) k = BASE_C) ->
  polyC hdr (RNA_of prm seq) i j = false /\
  GHL hdr (RNA_of prm seq) i j = GHL_plain hdr (RNA_of prm seq) i j.
Proof.
  intros Hfit Hi Hsize HC.
  assert (Hp : polyC hdr (RNA_of prm seq) i j = false).
  { apply (@polyC_false_at hdr _ i j (i + 1)); [lia|].
    apply seq_at_C; [exact Hfit|lia|apply HC; lia]. }
  split; [exact Hp|apply GHL_without_polyC; exact Hp].
Qed.

(** ** Signs of the partition functions *)

Local Open Scope R_scope.

Lemma good_weaken (S S' : Z -> Z -> Prop) (M : Matrix) :
  (forall a b, S' a b -> S a b) -> good S M -> good S' M.
Proof. intros Hs [Hn Hp]. split; [exact Hn|]. intros a b H. apply Hp, Hs, H. Qed.

Lemma good_nonneg (S : Z -> Z -> Prop) (M : Matrix) : good S M -> nonneg M.
Proof. intros [Hn _]. exact Hn. Qed.

Lemma nonneg_good (M : Matrix) : nonneg M -> good (fun _ _ => False) M.
Proof. intro H. split; [exact H|]. intros a b []. Qed.

Lemma nonneg_mzero : nonneg mzero.
Proof. intros a b. unfold mzero. apply Rle_refl. Qed.

Lemma mset_same (M : Matrix) (i j : Z) (v : R) : mset M i j v i j = v.
Proof. unfold mset. rewrite !Z.eqb_refl. reflexivity. Qed.

Lemma mset_cases (M : Matrix) (i j : Z) (v : R) (a b : Z) :
  (a = i /\ b = j /\ mset M i j v a b = v) \/ mset M i j v a b = M a b.
Proof.
  unfold mset. destruct (Z.eqb_spec a i); destruct (Z.eqb_spec b j); simpl; auto.
Qed.

(** Writing a positive number keeps a matrix good and makes the entry
    positive. *)
Lemma good_mset (S : Z -> Z -> Prop) (M : Matrix) (i j : Z) (v : R) :
  good S M -> 0 < v ->
  good (fun a b => S a b \/ (a = i /\ b = j)) (mset M i j v).
Proof.
  intros [Hn Hp] Hv. split.
  - intros a b. destruct (mset_cases M i j v a b) as [[_ [_ ->]]| ->];
      [left; exact Hv|apply Hn].
  - intros a b Hab. destruct (mset_cases M i j v a b) as [[_ [_ ->]]| E];
      [exact Hv|].
    rewrite E. destruct Hab as [Hab|[-> ->]]; [apply Hp, Hab|].
    rewrite mset_same in E. rewrite <- E. exact Hv.
Qed.

Lemma good_mset_keep (S : Z -> Z -> Prop) (M : Matrix) (i j : Z) (v : R) :
  good S M -> 0 < v -> good S (mset M i j v).
Proof.
  intros H Hv. eapply good_weaken; [|apply good_mset; eassumption].
  intros a b Hab. left. exact Hab.
Qed.

Lemma nonneg_mset (M : Matrix) (i j : Z) (v : R) :
  nonneg M -> 0 <= v -> nonneg (mset M i j v).
Proof.
  intros Hn Hv a b. destruct (mset_cases M i j v a b) as [[_ [_ ->]]| ->];
    [exact Hv|apply Hn].
Qed.

(** Adding a non-negative number keeps a matrix good. *)
Lemma good_madd (S : Z -> Z -> Prop) (M : Matrix) (i j : Z) (v : R) :
  good S M -> 0 <= v -> good S (madd M i j v).
Proof.
  intros [Hn Hp] Hv. unfold madd. split.
  - intros a b. destruct (mset_cases M i j (M i j + v) a b) as [[_ [_ ->]]| ->];
      [|apply Hn]. pose proof (Hn i j). lra.
  - intros a b Hab.
    destruct (mset_cases M i j (M i j + v) a b) as [[-> [-> ->]]| ->];
      [|apply Hp, Hab]. pose proof (Hp i j Hab). lra.
Qed.

(** Adding a positive number makes the entry positive. *)
Lemma good_madd_pos (S : Z -> Z -> Prop) (M : Matrix) (i j : Z) (v : R) :
  good S M -> 0 < v ->
  good (fun a b => S a b \/ (a = i /\ b = j)) (madd M i j v).
Proof.
  intros [Hn Hp] Hv. unfold madd. split.
  - intros a b. destruct (mset_cases M i j (M i j + v) a b) as [[_ [_ ->]]| ->];
      [|apply Hn]. pose proof (Hn i j). lra.
  - intros a b Hab.
    destruct (mset_cases M i j (M i j + v) a b) as [[-> [-> ->]]| E].
    + pose proof (Hn i j). lra.
    + rewrite E. destruct Hab as [Hab|[-> ->]]; [apply Hp, Hab|].
      unfold mset in E. rewrite !Z.eqb_refl in E. simpl in E.
      pose proof (Hn i j). lra.
Qed.

Lemma nonneg_madd (M : Matrix) (i j : Z) (v : R) :
  nonneg M -> 0 <= v -> nonneg (madd M i j v).
Proof.
  intros Hn Hv. apply (@good_nonneg (fun _ _ => False)).
  apply good_madd; [apply nonneg_good; exact Hn|exact Hv].
Qed.

Lemma exp_nonneg (x : R) : 0 <= exp x.
Proof. left. apply exp_pos. Qed.

Ltac signs :=
  repeat first
    [ apply Rmult_le_pos
    | apply exp_nonneg
    | match goal with
      | H : nonneg ?M |- 0 <= ?M _ _ => apply H
      | H : good _ ?M |- 0 <= ?M _ _ => apply (good_nonneg H)
      end ].

Lemma Q_seed_nonneg (rna : RNA) : nonneg (Q_seed rna).
Proof.
  unfold Q_seed.
  apply (for_inv nonneg).
  - apply (for_inv nonneg); [apply nonneg_mzero|].
    intros i M _ HM. apply nonneg_mset; [exact HM|lra].
  - intros l M _ HM. apply (for_inv nonneg); [exact HM|].
    intros i M' _ HM'. apply nonneg_mset; [exact HM'|lra].
Qed.

Section EngineSigns.

Variable hdr : Header.
Variable rna : RNA.

#[local] Abbreviation n := (n_ rna).

(** *** The O(N^4) engine *)

Lemma ON4_Qb_good (S : Z -> Z -> Prop) (Qm Qb : Matrix) (i j l : Z) :
  nonneg Qm -> good S Qb ->
  good (fun a b => S a b \/ (a = i /\ b = j)) (ON4_Qb hdr rna Qm i j l Qb).
Proof.
  intros Hm Hb. unfold ON4_Qb.
  assert (H0 : good (fun a b => S a b \/ (a = i /\ b = j))
                    (mset Qb i j (exp (- GHL hdr rna i j / RT hdr))))
    by (apply good_mset; [exact Hb|apply exp_pos]).
  destruct (7 <=? l)%Z; [|exact H0].
  apply for_inv; [exact H0|]. intros d M _ HM.
  apply for_inv; [exact HM|]. intros e M' _ HM'.
  assert (H1 : good (fun a b => S a b \/ (a = i /\ b = j))
                    (madd M' i j (M' d e * exp (- GIL hdr rna i d e j false / RT hdr))))
    by (apply good_madd; [exact HM'|signs]).
  destruct (2 <=? d - i)%Z; [|exact H1].
  apply good_madd; [exact H1|signs].
Qed.

Lemma ON4_Qm_good (S : Z -> Z -> Prop) (Qb Qm : Matrix) (i j : Z) :
  nonneg Qb -> good S Qm -> (i + 4 <= j)%Z -> 0 < Qb i j ->
  good (fun a b => S a b \/ (a = i /\ b = j)) (ON4_Qm hdr rna Qb i j Qm).
Proof.
  intros Hb Hm Hij Hpos. unfold ON4_Qm.
  set (S' := fun a b => S a b \/ (a = i /\ b = j)).
  set (bodyE := fun d e (Qm : Matrix) =>
                  let Qm := madd Qm i j (Qb d e * exp (- (a2 (nrjp_ rna) + a3 (nrjp_ rna) * IZR (d - i + j - e)) / RT hdr)) in
                  if (0 <? d - i)%Z
                  then madd Qm i j (Qb d e * Qm i (d - 1)%Z
                                    * exp (- (a2 (nrjp_ rna) + a3 (nrjp_ rna) * IZR (j - e)) / RT hdr))
                  else Qm).
  assert (Hstep : forall T d e M, good T M -> good T (bodyE d e M)).
  { intros T d e M HM. unfold bodyE. cbv zeta.
    assert (H1 : good T (madd M i j (Qb d e * exp (- (a2 (nrjp_ rna) + a3 (nrjp_ rna) * IZR (d - i + j - e)) / RT hdr))))
      by (apply good_madd; [exact HM|signs]).
    destruct (0 <? d - i)%Z; [|exact H1].
    apply good_madd; [exact H1|signs]. }
  change (good S' (for_ i (j - 4) (fun d Qm => for_ (d + 4) j (bodyE d) Qm) Qm)).
  rewrite for_first by lia.
  apply for_inv.
  - rewrite for_last by lia.
    assert (Hin : good S (for_ (i + 4) (j - 1) (bodyE i) Qm))
      by (apply for_inv; [exact Hm|intros e M _; apply Hstep]).
    unfold bodyE at 1. cbv zeta.
    replace (0 <? i - i)%Z with false by (symmetry; apply Z.ltb_ge; lia).
    apply good_madd_pos; [exact Hin|].
    apply Rmult_lt_0_compat; [exact Hpos|apply exp_pos].
  - intros d M _ HM. apply for_inv; [exact HM|]. intros e M' _. apply Hstep.
Qed.

Lemma ON4_Q_good (S : Z -> Z -> Prop) (Qb Q : Matrix) (i j : Z) :
  nonneg Qb -> good S Q ->
  good (fun a b => S a b \/ (a = i /\ b = j)) (ON4_Q Qb i j Q).
Proof.
  intros Hb HQ. unfold ON4_Q.
  apply for_inv; [apply good_mset; [exact HQ|lra]|].
  intros d M _ HM. apply for_inv; [exact HM|]. intros e M' _ HM'.
  destruct (0 <? d - i)%Z; apply good_madd; try exact HM'; signs.
Qed.

Lemma PF_good_weaken (S S' : Z -> Z -> Prop) (st : PF) :
  (forall a b, S' a b -> S a b) -> PF_good S st -> PF_good S' st.
Proof.
  intros Hs [H1 [H2 H3]]. repeat split; eapply good_weaken; eauto.
Qed.

Lemma ON4_cell_good (S : Z -> Z -> Prop) (l i : Z) (st : PF) :
  (5 <= l)%Z ->
  PF_good S st ->
  PF_good (fun a b => S a b \/ (a = i /\ b = i + l - 1)%Z) (ON4_cell hdr rna l i st).
Proof.
  intros Hl [HQ [Hb Hm]]. unfold ON4_cell. cbv zeta.
  pose proof (@ON4_Qb_good S (pfQm st) (pfQb st) i (i + l - 1) l (good_nonneg Hm) Hb) as Hb'.
  assert (Hpos : 0 < ON4_Qb hdr rna (pfQm st) i (i + l - 1) l (pfQb st) i (i + l - 1)%Z)
    by (apply Hb'; right; split; reflexivity).
  split; [|split]; cbn [pfQ pfQb pfQm].
  - apply ON4_Q_good; [exact (good_nonneg Hb')|exact HQ].
  - exact Hb'.
  - apply ON4_Qm_good; [exact (good_nonneg Hb')|exact Hm|lia|exact Hpos].
Qed.

Lemma cells_start (m a b : Z) : cells m 5 0 a b -> False.
Proof. unfold cells. lia. Qed.

Lemma cells_next (m l i a b : Z) :
  cells m l (i + 1) a b -> cells m l i a b \/ (a = i /\ b = i + l - 1)%Z.
Proof. unfold cells. lia. Qed.

Lemma cells_row_done (m l a b : Z) :
  cells m (l + 1) 0 a b -> cells m l (m - l + 1) a b.
Proof. unfold cells. lia. Qed.

Lemma cells_all (m a b : Z) :
  (0 <= a)%Z -> (a + 4 <= b)%Z -> (b < m)%Z -> cells m (m + 1) 0 a b.
Proof. unfold cells. lia. Qed.

(** Both engines leave [Q], [Qb] and [Qm] non-negative everywhere and
    positive on every subsequence of at least five nucleotides. *)
Lemma ON4_good :
  PF_good (fun a b => 0 <= a /\ a + 4 <= b /\ b < n)%Z
          (compute_partition_function_noPK_ON4 hdr rna).
Proof.
  unfold compute_partition_function_noPK_ON4.
  assert (H0 : PF_good (cells n 5 0) (mkPF (Q_seed rna) mzero mzero)).
  { repeat split; cbn [pfQ pfQb pfQm]; try apply Q_seed_nonneg; try apply nonneg_mzero;
      intros a b Hc; destruct (cells_start Hc). }
  destruct (Z_lt_le_dec n 5) as [Hn|Hn].
  - rewrite for_empty by lia.
    eapply PF_good_weaken; [|exact H0]. intros a b Hab. lia.
  - eapply PF_good_weaken; [intros a b [H1 [H2 H3]]; apply (cells_all H1 H2 H3)|].
    apply (for_ind (fun l st => PF_good (cells n l 0) st)); [lia|exact H0|].
    intros l st Hl Hst.
    eapply PF_good_weaken; [intros a b; apply cells_row_done|].
    apply (for_ind (fun i st => PF_good (cells n l i) st)); [lia|exact Hst|].
    intros i st' Hi Hst'.
    eapply PF_good_weaken; [intros a b; apply cells_next|].
    apply ON4_cell_good; [lia|exact Hst'].
Qed.

(** *** The O(N^3) engine *)

Lemma Qx_term_nonneg (Qb : Matrix) (d e L1 L2 : Z) :
  nonneg Qb -> 0 <= Qx_term hdr rna Qb d e L1 L2.
Proof. intro H. unfold Qx_term. signs. Qed.

Lemma ON3_Qx_good (S : Z -> Z -> Prop) (l i j : Z) (st : PF3) :
  PF3_good S st -> PF3_good S (ON3_Qx hdr rna l i j st).
Proof.
  intro H. unfold ON3_Qx.
  destruct (15 <=? l)%Z; [|exact H].
  destruct H as [HQ [Hb [Hm [Hs [Hms [Hx [Hx1 Hx2]]]]]]]. cbv zeta.
  assert (Hqx : nonneg
    (for_ (i + 6) (j - 5 - 4)
       (fun d qx => madd qx i (d - i - 1 + (j - (j - 5) - 1))
                         (Qx_term hdr rna (Qb3 st) d (j - 5) (d - i - 1) (j - (j - 5) - 1)))
       (for_ (i + 5 + 4) (j - 5)
          (fun e qx => madd qx i (i + 5 - i - 1 + (j - e - 1))
                            (Qx_term hdr rna (Qb3 st) (i + 5) e (i + 5 - i - 1) (j - e - 1)))
          (Qx st)))).
  { apply (for_inv nonneg).
    - apply (for_inv nonneg); [exact Hx|].
      intros e M _ HM. apply nonneg_madd; [exact HM|].
      apply Qx_term_nonneg. exact (good_nonneg Hb).
    - intros d M _ HM. apply nonneg_madd; [exact HM|].
      apply Qx_term_nonneg. exact (good_nonneg Hb). }
  split; [|split; [|split; [|split; [|split; [|split; [|split]]]]]];
    cbn [Q3 Qb3 Qm3 Qs3 Qms3 Qx Qx1 Qx2]; try assumption.
  destruct ((0 <? i) && negb (j =? n))%Z%bool; [|exact Hx2].
  apply (for_inv nonneg); [exact Hx2|].
  intros s M _ HM. apply nonneg_mset; [exact HM|]. signs.
Qed.

Lemma ON3_Qb_good (S : Z -> Z -> Prop) (Qm Qms qx Qb : Matrix) (l i j : Z) :
  nonneg Qm -> nonneg Qms -> nonneg qx -> good S Qb ->
  good (fun a b => S a b \/ (a = i /\ b = j)) (ON3_Qb hdr rna Qm Qms qx l i j Qb).
Proof.
  intros Hm Hms Hx Hb. unfold ON3_Qb. cbv zeta.
  apply for_inv; [|intros d M _ HM; apply good_madd; [exact HM|signs]].
  apply for_inv;
    [|intros e M _ HM; apply for_inv; [exact HM|];
      intros d M' _ HM'; apply good_madd; [exact HM'|signs]].
  apply for_inv;
    [|intros d M _ HM; apply for_inv; [exact HM|];
      intros e M' _ HM'; apply good_madd; [exact HM'|signs]].
  apply for_inv;
    [|intros d M _ HM; apply for_inv; [exact HM|];
      intros e M' _ HM'; apply good_madd; [exact HM'|signs]].
  apply for_inv; [|intros s M _ HM; apply good_madd; [exact HM|signs]].
  apply good_mset; [exact Hb|apply exp_pos].
Qed.

Lemma ON3_Qs_nonneg (Qb Qs : Matrix) (i j : Z) :
  nonneg Qb -> nonneg Qs -> nonneg (ON3_Qs Qb i j Qs).
Proof.
  intros Hb Hs. unfold ON3_Qs. apply (for_inv nonneg); [exact Hs|].
  intros d M _ HM. apply nonneg_madd; [exact HM|apply Hb].
Qed.

Lemma ON3_Qms_good (S : Z -> Z -> Prop) (Qb Qms : Matrix) (i j : Z) :
  nonneg Qb -> good S Qms -> (i + 4 <= j)%Z -> 0 < Qb i j ->
  good (fun a b => S a b \/ (a = i /\ b = j)) (ON3_Qms hdr rna Qb i j Qms).
Proof.
  intros Hb Hms Hij Hpos. unfold ON3_Qms.
  rewrite for_last by lia.
  apply good_madd_pos.
  - apply for_inv; [exact Hms|]. intros d M _ HM. apply good_madd; [exact HM|signs].
  - apply Rmult_lt_0_compat; [exact Hpos|apply exp_pos].
Qed.

Lemma ON3_Qm_good (S : Z -> Z -> Prop) (Qms Qm : Matrix) (i j : Z) :
  nonneg Qms -> good S Qm -> (i + 4 <= j)%Z -> 0 < Qms i j ->
  good (fun a b => S a b \/ (a = i /\ b = j)) (ON3_Qm hdr rna Qms i j Qm).
Proof.
  intros Hms Hm Hij Hpos. unfold ON3_Qm.
  rewrite for_first by lia.
  apply for_inv.
  - cbv zeta.
    replace (0 <? i - i)%Z with false by (symmetry; apply Z.ltb_ge; lia).
    apply good_madd_pos; [exact Hm|].
    apply Rmult_lt_0_compat; [exact Hpos|apply exp_pos].
  - intros d M _ HM. cbv zeta.
    assert (H1 : good (fun a b => S a b \/ (a = i /\ b = j))
               (madd M i j (Qms d j * exp (- a3 (nrjp_ rna) * IZR (d - i) / RT hdr))))
      by (apply good_madd; [exact HM|signs]).
    destruct (0 <? d - i)%Z; [|exact H1].
    apply good_madd; [exact H1|signs].
Qed.

Lemma ON3_Q_good (S : Z -> Z -> Prop) (Qs Q : Matrix) (i j : Z) :
  nonneg Qs -> good S Q ->
  good (fun a b => S a b \/ (a = i /\ b = j)) (ON3_Q Qs i j Q).
Proof.
  intros Hs HQ. unfold ON3_Q.
  apply for_inv; [apply good_mset; [exact HQ|lra]|].
  intros d M _ HM.
  destruct (0 <? d - i)%Z; apply good_madd; try exact HM; signs.
Qed.

Lemma PF3_good_weaken (S S' : Z -> Z -> Prop) (st : PF3) :
  (forall a b, S' a b -> S a b) -> PF3_good S st -> PF3_good S' st.
Proof.
  intros Hs [H1 [H2 [H3 [H4 [H5 H6]]]]].
  split; [|split; [|split; [|split; [|split]]]];
    try (eapply good_weaken; [exact Hs|assumption]); assumption.
Qed.

Lemma ON3_cell_good (S : Z -> Z -> Prop) (l i : Z) (st : PF3) :
  (5 <= l)%Z ->
  PF3_good S st ->
  PF3_good (fun a b => S a b \/ (a = i /\ b = i + l - 1)%Z) (ON3_cell hdr rna l i st).
Proof.
  intros Hl Hst. unfold ON3_cell. cbv zeta.
  pose proof (@ON3_Qx_good S l i (i + l - 1) st Hst) as Hst1.
  set (st1 := ON3_Qx hdr rna l i (i + l - 1) st) in *.
  destruct Hst1 as [HQ [Hb [Hm [Hs [Hms [Hx [Hx1 Hx2]]]]]]].
  pose proof (@ON3_Qb_good S (Qm3 st1) (Qms3 st1) (Qx st1) (Qb3 st1) l i (i + l - 1)
                (good_nonneg Hm) (good_nonneg Hms) Hx Hb) as Hb'.
  set (Qb' := ON3_Qb hdr rna (Qm3 st1) (Qms3 st1) (Qx st1) l i (i + l - 1) (Qb3 st1)) in *.
  assert (Hpos : 0 < Qb' i (i + l - 1)%Z) by (apply Hb'; right; split; reflexivity).
  pose proof (@ON3_Qms_good S Qb' (Qms3 st1) i (i + l - 1)
                (good_nonneg Hb') Hms ltac:(lia) Hpos) as Hms'.
  set (Qms' := ON3_Qms hdr rna Qb' i (i + l - 1) (Qms3 st1)) in *.
  assert (Hpos' : 0 < Qms' i (i + l - 1)%Z) by (apply Hms'; right; split; reflexivity).
  pose proof (@ON3_Qs_nonneg Qb' (Qs3 st1) i (i + l - 1) (good_nonneg Hb') Hs) as Hs'.
  split; [|split; [|split; [|split; [|split; [|split; [|split]]]]]];
    cbn [Q3 Qb3 Qm3 Qs3 Qms3 Qx Qx1 Qx2].
  - apply ON3_Q_good; [exact Hs'|exact HQ].
  - exact Hb'.
  - apply ON3_Qm_good; [exact (good_nonneg Hms')|exact Hm|lia|exact Hpos'].
  - exact Hs'.
  - exact Hms'.
  - exact Hx.
  - exact Hx1.
  - exact Hx2.
Qed.

Lemma ON3_shift_good (S : Z -> Z -> Prop) (st : PF3) :
  PF3_good S st -> PF3_good S (ON3_shift st).
Proof.
  intros [HQ [Hb [Hm [Hs [Hms [Hx [Hx1 Hx2]]]]]]]. unfold ON3_shift.
  split; [|split; [|split; [|split; [|split; [|split; [|split]]]]]];
    cbn [Q3 Qb3 Qm3 Qs3 Qms3 Qx Qx1 Qx2]; try assumption.
  apply nonneg_mzero.
Qed.

Lemma ON3_good :
  PF_good (fun a b => 0 <= a /\ a + 4 <= b /\ b < n)%Z
          (compute_partition_function_noPK_ON3 hdr rna).
Proof.
  assert (H : PF3_good (fun a b => 0 <= a /\ a + 4 <= b /\ b < n)%Z (ON3_run hdr rna)).
  { unfold ON3_run.
    assert (H0 : PF3_good (cells n 5 0)
                   (mkPF3 (Q_seed rna) mzero mzero mzero mzero mzero mzero mzero)).
    { split; [|split; [|split; [|split; [|split; [|split; [|split]]]]]];
        cbn [Q3 Qb3 Qm3 Qs3 Qms3 Qx Qx1 Qx2]; try apply nonneg_mzero;
        (split; [try apply Q_seed_nonneg; try apply nonneg_mzero
                |intros a b Hc; destruct (cells_start Hc)]). }
    destruct (Z_lt_le_dec n 5) as [Hn|Hn].
    - rewrite for_empty by lia.
      eapply PF3_good_weaken; [|exact H0]. intros a b Hab. lia.
    - eapply PF3_good_weaken; [intros a b [H1 [H2 H3]]; apply (cells_all H1 H2 H3)|].
      apply (for_ind (fun l st => PF3_good (cells n l 0) st)); [lia|exact H0|].
      intros l st Hl Hst.
      eapply PF3_good_weaken; [intros a b; apply cells_row_done|].
      replace (n - l + 1 - 1)%Z with (n - l)%Z by lia.
      apply (for_ind (fun i st => PF3_good (cells n l i) st));
        [lia|apply ON3_shift_good; exact Hst|].
      intros i st' Hi Hst'.
      eapply PF3_good_weaken; [intros a b; apply cells_next|].
      apply ON3_cell_good; [lia|exact Hst']. }
  destruct H as [HQ [Hb [Hm _]]].
  unfold compute_partition_function_noPK_ON3. cbv zeta.
  split; [exact HQ|split; [exact Hb|exact Hm]].
Qed.

End EngineSigns.

(** ** The back-recursion *)

Lemma fold_bind_None {S : Type} (body : Z -> S -> option S) (l : list Z) :
  fold_left (fun s k => bind s (body k)) l None = None.
Proof. induction l as [|k l IH]; simpl; [reflexivity|exact IH]. Qed.

Lemma forM_empty {S : Type} (a b : Z) (body : Z -> S -> option S) (s : S) :
  (b < a)%Z -> forM a b body s = Some s.
Proof. intro H. unfold forM. rewrite zrange_empty by exact H. reflexivity. Qed.

Lemma forM_first {S : Type} (a b : Z) (body : Z -> S -> option S) (s : S) :
  (a <= b)%Z -> forM a b body s = bind (body a s) (forM (a + 1) b body).
Proof.
  intro H. unfold forM. rewrite zrange_cons by exact H. cbn [fold_left bind].
  destruct (body a s) as [s'|]; [reflexivity|apply fold_bind_None].
Qed.

Lemma forM_last {S : Type} (a b : Z) (body : Z -> S -> option S) (s : S) :
  (a <= b)%Z -> forM a b body s = bind (forM a (b - 1) body s) (body b).
Proof.
  intro H. unfold forM. rewrite zrange_snoc by exact H.
  rewrite fold_left_app. reflexivity.
Qed.

Lemma forM_down_first {S : Type} (a b : Z) (body : Z -> S -> option S) (s : S) :
  (a <= b)%Z -> forM_down b a body s = bind (body b s) (forM_down (b - 1) a body).
Proof.
  intro H. unfold forM_down. rewrite zrange_snoc by exact H.
  rewrite rev_app_distr. cbn [rev app fold_left bind].
  destruct (body b s) as [s'|]; [reflexivity|apply fold_bind_None].
Qed.

Lemma fold_bind_inv {S : Type} (I : S -> Prop) (body : Z -> S -> option S) (l : list Z) :
  (forall k s, In k l -> I s -> exists s', body k s = Some s' /\ I s') ->
  forall s, I s ->
    exists s', fold_left (fun s k => bind s (body k)) l (Some s) = Some s' /\ I s'.
Proof.
  induction l as [|k l IH]; intros Hstep s Hs.
  - exists s. split; [reflexivity|exact Hs].
  - cbn [fold_left bind].
    destruct (Hstep k s (or_introl eq_refl) Hs) as [s1 [-> H1]].
    apply IH; [|exact H1]. intros k' s' Hin. apply Hstep. right. exact Hin.
Qed.

(** A loop whose iterations all succeed and keep a property succeeds
    and keeps it. *)
Lemma forM_inv {S : Type} (I : S -> Prop) (a b : Z) (body : Z -> S -> option S) (s : S) :
  I s ->
  (forall k s, (a <= k <= b)%Z -> I s -> exists s', body k s = Some s' /\ I s') ->
  exists s', forM a b body s = Some s' /\ I s'.
Proof.
  intros Hs Hstep. unfold forM. apply fold_bind_inv; [|exact Hs].
  intros k s0 Hin. apply Hstep. apply zrange_In. exact Hin.
Qed.

Lemma forM_down_inv {S : Type} (I : S -> Prop) (a b : Z) (body : Z -> S -> option S) (s : S) :
  I s ->
  (forall k s, (a <= k <= b)%Z -> I s -> exists s', body k s = Some s' /\ I s') ->
  exists s', forM_down b a body s = Some s' /\ I s'.
Proof.
  intros Hs Hstep. unfold forM_down. apply fold_bind_inv; [|exact Hs].
  intros k s0 Hin. apply Hstep. apply zrange_In. apply in_rev. exact Hin.
Qed.

Lemma fdiv_pos (x y : R) : 0 < y -> fdiv x y = Some (x / y).
Proof.
  intro H. unfold fdiv. destruct (Req_dec_T y 0) as [E|E]; [lra|reflexivity].
Qed.

Lemma div_nonneg (x y : R) : 0 <= x -> 0 < y -> 0 <= x / y.
Proof.
  intros Hx Hy. unfold Rdiv. apply Rmult_le_pos; [exact Hx|].
  left. apply Rinv_0_lt_compat. exact Hy.
Qed.

Lemma div_pos (x y : R) : 0 < x -> 0 < y -> 0 < x / y.
Proof.
  intros Hx Hy. unfold Rdiv. apply Rmult_lt_0_compat; [exact Hx|].
  apply Rinv_0_lt_compat. exact Hy.
Qed.

Section Posterior.

Variable hdr : Header.
Variable rna : RNA.
Variable pf : PF.

#[local] Abbreviation n := (n_ rna).

(** What the back-recursion needs of the partition functions. *)
Hypothesis pf_good : PF_good (fun a b => 0 <= a /\ a + 4 <= b /\ b < n)%Z pf.

Let HQ : nonneg (pfQ pf) := good_nonneg (proj1 pf_good).
Let HQb : nonneg (pfQb pf) := good_nonneg (proj1 (proj2 pf_good)).
Let HQm : nonneg (pfQm pf) := good_nonneg (proj2 (proj2 pf_good)).

Ltac psigns :=
  repeat first
    [ apply div_nonneg
    | apply Rmult_le_pos
    | apply exp_nonneg
    | apply HQ | apply HQb | apply HQm
    | match goal with
      | H : nonneg ?M |- 0 <= ?M _ _ => apply H
      | H : good _ ?M |- 0 <= ?M _ _ => apply (good_nonneg H)
      end ].

(** One pair of the [P], [Pm] recursion, on a subsequence of at least
    five nucleotides: both divisions have a positive denominator, and
    only non-negative numbers are added. *)
Lemma post_step1_good (SP SB : Z -> Z -> Prop) (i j d e : Z) (st : Post) :
  (0 <= i)%Z -> (i + 4 <= j)%Z -> (j < n)%Z ->
  Post_good SP SB st ->
  exists st', post_step1 hdr rna pf i j d e st = Some st' /\ Post_good SP SB st'.
Proof.
  intros Hi Hij Hj [HP [HPb HPm]].
  assert (HQpos : 0 < pfQ pf i j) by (apply (proj1 pf_good); lia).
  assert (HQmpos : 0 < pfQm pf i j) by (apply (proj2 (proj2 pf_good)); lia).
  destruct st as [P0 Pb0 Pm0]. cbn [P Pb Pm] in HP, HPb, HPm.
  unfold post_step1. cbv zeta. rewrite !(fdiv_pos _ HQpos), !(fdiv_pos _ HQmpos).
  destruct (i <? d)%Z; cbn [bind]; eexists; (split; [reflexivity|]);
    (split; [|split]); cbn [P Pb Pm];
    repeat (apply good_madd || apply nonneg_madd); try assumption; psigns;
    assumption.
Qed.

(** The pair (0, n-1) seen from the whole strand: its increment is
    positive. *)
Lemma post_step1_whole (SP SB : Z -> Z -> Prop) (st : Post) :
  (5 <= n)%Z ->
  SP 0%Z (n - 1)%Z ->
  Post_good SP SB st ->
  exists st', post_step1 hdr rna pf 0 (n - 1) 0 (n - 1) st = Some st' /\
              Post_good SP (fun a b => SB a b \/ (a = 0 /\ b = n - 1)%Z) st'.
Proof.
  intros Hn Hsp [HP [HPb HPm]].
  assert (HQpos : 0 < pfQ pf 0%Z (n - 1)%Z) by (apply (proj1 pf_good); lia).
  assert (HQbpos : 0 < pfQb pf 0%Z (n - 1)%Z) by (apply (proj1 (proj2 pf_good)); lia).
  assert (HQmpos : 0 < pfQm pf 0%Z (n - 1)%Z) by (apply (proj2 (proj2 pf_good)); lia).
  destruct st as [P0 Pb0 Pm0]. cbn [P Pb Pm] in HP, HPb, HPm.
  assert (HPpos : 0 < P0 0%Z (n - 1)%Z) by (apply HP, Hsp).
  unfold post_step1. cbv zeta. rewrite !(fdiv_pos _ HQpos), !(fdiv_pos _ HQmpos).
  replace (0 <? 0)%Z with false by reflexivity. cbn [bind].
  eexists. split; [reflexivity|].
  split; [|split]; cbn [P Pb Pm]; try assumption.
  apply good_madd; [apply good_madd; [apply good_madd_pos; [exact HPb|]|]|];
    try (psigns; assumption).
  apply div_pos; [|exact HQpos]. apply Rmult_lt_0_compat; assumption.
Qed.

(** One pair of the [Pb] recursion: the divisions are guarded. *)
Lemma post_step2_good (SP SB : Z -> Z -> Prop) (i j d e : Z) (st : Post) :
  Post_good SP SB st ->
  exists st', post_step2 hdr rna pf i j d e st = Some st' /\ Post_good SP SB st'.
Proof.
  intros [HP [HPb HPm]].
  destruct st as [P0 Pb0 Pm0]. cbn [P Pb Pm] in HP, HPb, HPm.
  unfold post_step2. cbv zeta.
  destruct (Rlt_dec 0 (pfQb pf i j)) as [Hpos|Hneg].
  - rewrite (fdiv_pos _ Hpos). cbn [bind]. rewrite (fdiv_pos _ Hpos). cbn [bind].
    eexists. split; [reflexivity|].
    assert (Hb1 : good SB (madd Pb0 d e
              (Pb0 i j * pfQb pf d e * exp (- GIL hdr rna i d e j false / RT hdr)
               / pfQb pf i j)))
      by (apply good_madd; [exact HPb|psigns; exact Hpos]).
    split; [|split]; cbn [P Pb Pm]; [exact HP| |].
    + apply good_madd; [exact Hb1|]. psigns. exact Hpos.
    + apply nonneg_madd; [exact HPm|]. psigns. exact Hpos.
  - exists (mkPost P0 Pb0 Pm0). split; [reflexivity|].
    split; [|split]; assumption.
Qed.

Lemma post_cell_good (SP SB : Z -> Z -> Prop) (l i : Z) (st : Post) :
  (0 <= i)%Z -> (i + l - 1 < n)%Z ->
  Post_good SP SB st ->
  exists st', post_cell hdr rna pf l i st = Some st' /\ Post_good SP SB st'.
Proof.
  intros Hi Hj Hst. unfold post_cell. cbv zeta.
  destruct (@forM_inv _ (Post_good SP SB) i (i + l - 1 - 4)
              (fun d st => forM (d + 4) (i + l - 1)
                             (fun e st => post_step1 hdr rna pf i (i + l - 1) d e st) st)
              st Hst) as [st1 [-> H1]].
  { intros d s Hd Hs. apply forM_inv; [exact Hs|].
    intros e s' He Hs'. apply post_step1_good; [lia|lia|lia|exact Hs']. }
  cbn [bind]. apply forM_inv; [exact H1|].
  intros d s Hd Hs. apply forM_inv; [exact Hs|].
  intros e s' He Hs'. apply post_step2_good. exact Hs'.
Qed.

(** The cell of the whole strand makes [Pb(0, n-1)] positive. *)
Lemma post_cell_whole (SP SB : Z -> Z -> Prop) (st : Post) :
  (5 <= n)%Z ->
  SP 0%Z (n - 1)%Z ->
  Post_good SP SB st ->
  exists st', post_cell hdr rna pf n 0 st = Some st' /\
              Post_good SP (fun a b => SB a b \/ (a = 0 /\ b = n - 1)%Z) st'.
Proof.
  intros Hn Hsp Hst. unfold post_cell. cbv zeta.
  replace (0 + n - 1)%Z with (n - 1)%Z by lia.
  set (SB' := fun a b => SB a b \/ (a = 0 /\ b = n - 1)%Z).
  assert (Hrow : exists st1,
             forM (0 + 4) (n - 1)
                  (fun e st => post_step1 hdr rna pf 0 (n - 1) 0 e st) st = Some st1 /\
             Post_good SP SB' st1).
  { rewrite forM_last by lia.
    destruct (@forM_inv _ (Post_good SP SB) (0 + 4) (n - 1 - 1)
                (fun e st => post_step1 hdr rna pf 0 (n - 1) 0 e st) st Hst)
      as [st0 [-> H0]].
    { intros e s He Hs. apply post_step1_good; [lia|lia|lia|exact Hs]. }
    cbn [bind]. apply post_step1_whole; assumption. }
  destruct Hrow as [st1 [Hrow H1]].
  assert (Hfirst : exists st2,
             forM 0 (n - 1 - 4)
               (fun d st => forM (d + 4) (n - 1)
                              (fun e st => post_step1 hdr rna pf 0 (n - 1) d e st) st) st
             = Some st2 /\ Post_good SP SB' st2).
  { rewrite forM_first by lia. rewrite Hrow. cbn [bind].
    apply forM_inv; [exact H1|].
    intros d s Hd Hs. apply forM_inv; [exact Hs|].
    intros e s' He Hs'. apply post_step1_good; [lia|lia|lia|exact Hs']. }
  destruct Hfirst as [st2 [-> H2]]. cbn [bind].
  apply forM_inv; [exact H2|].
  intros d s Hd Hs. apply forM_inv; [exact Hs|].
  intros e s' He Hs'. apply post_step2_good. exact Hs'.
Qed.

Lemma Post_start_good :
  Post_good (fun a b => a = 0 /\ b = n - 1)%Z (fun _ _ => False)
            (mkPost (mset mzero 0 (n - 1) 1) mzero mzero).
Proof.
  split; [|split]; cbn [P Pb Pm].
  - eapply good_weaken; [|apply (@good_mset (fun _ _ => False)) ;
                           [apply nonneg_good, nonneg_mzero|lra]].
    intros a b H. right. exact H.
  - apply nonneg_good, nonneg_mzero.
  - apply nonneg_mzero.
Qed.

(** The back-recursion meets no zero denominator. *)
Lemma posterior_of_defined : exists p, posterior_of hdr rna pf = Some p.
Proof.
  unfold posterior_of.
  destruct (@forM_down_inv _
              (Post_good (fun a b => a = 0 /\ b = n - 1)%Z (fun _ _ => False))
              1 n (fun l st => forM 0 (n - l) (post_cell hdr rna pf l) st)
              _ Post_start_good) as [st [-> _]].
  { intros l s Hl Hs. apply forM_inv; [exact Hs|].
    intros i s' Hi Hs'. apply post_cell_good; [lia|lia|exact Hs']. }
  cbn [bind]. eexists. reflexivity.
Qed.

(** The probability it gives the two ends of a strand of at least five
    nucleotides is positive. *)
Lemma posterior_of_ends_positive :
  (5 <= n)%Z ->
  exists p, posterior_of hdr rna pf = Some p /\ 0 < p 0%Z (n - 1)%Z.
Proof.
  intro Hn. unfold posterior_of.
  set (SP := (fun a b => a = 0 /\ b = n - 1)%Z).
  set (SB := fun a b : Z => False \/ (a = 0 /\ b = n - 1)%Z).
  rewrite forM_down_first by lia.
  replace (n - n)%Z with 0%Z by lia.
  rewrite forM_first by lia.
  destruct (@post_cell_whole SP (fun _ _ => False) _ Hn (conj eq_refl eq_refl)
              Post_start_good) as [st1 [-> H1]].
  cbn [bind]. rewrite forM_empty by lia. cbn [bind].
  destruct (@forM_down_inv _ (Post_good SP SB) 1 (n - 1)
              (fun l st => forM 0 (n - l) (post_cell hdr rna pf l) st) st1 H1)
    as [st [-> [_ [Hb _]]]].
  { intros l s Hl Hs. apply forM_inv; [exact Hs|].
    intros i s' Hi Hs'. apply post_cell_good; [lia|lia|exact Hs']. }
  cbn [bind]. eexists. split; [reflexivity|].
  apply Hb. right. split; reflexivity.
Qed.

End Posterior.

(** ** The claims about the engine *)

Lemma engine_good (hdr : Header) (rna : RNA) (fast : bool) :
  PF_good (fun a b => 0 <= a /\ a + 4 <= b /\ b < n_ rna)%Z
          (if fast then compute_partition_function_noPK_ON3 hdr rna
           else compute_partition_function_noPK_ON4 hdr rna).
Proof. destruct fast; [apply ON3_good|apply ON4_good]. Qed.

(** In exact arithmetic, whatever the sequence, the parameters and the
    engine chosen, the back-recursion never divides by zero: each
    division by [Q(i,j)] and by [Qm(i,j)] is made on a subsequence of at
    least five nucleotides, where both engines leave a positive number,
    and the divisions by [Qb(i,j)] are guarded by [Qb(i,j) > 0].  This
    says nothing of the [float]s of the program, which can overflow: see
    the back-recursion in floating point, below. *)
Lemma posterior_divisions_defined (hdr : Header) (rna : RNA) (fast : bool) :
  exists p, compute_posterior_noPK_ON4 hdr rna fast = Some p.
Proof.
  unfold compute_posterior_noPK_ON4.
  apply posterior_of_defined. apply engine_good.
Qed.

(** C4, what the code does: [RNA::allowed_basepair] only looks at
    distances, so [Qb(i,j)] gets the weight of a hairpin whatever the two
    nucleotides are, and the probability that the two ends of a strand
    of at least five nucleotides pair comes out positive for every
    sequence, also when they are not one of the six pairs. *)
Theorem posterior_ends_positive
        (hdr : Header) (prm : energy_params) (seq : string) (fast : bool) :
  (5 <= Z.of_nat (String.length seq))%Z ->
  exists p,
    compute_posterior_noPK_ON4 hdr (RNA_of prm seq) fast = Some p /\
    (0 < p 0%Z (Z.of_nat (String.length seq) - 1)%Z)%R.
Proof.
  intro Hn. unfold compute_posterior_noPK_ON4.
  apply (@posterior_of_ends_positive hdr (RNA_of prm seq)); [apply engine_good|exact Hn].
Qed.

(** ** Loops that may fail: what a result tells *)

Lemma fold_bind_partial {S : Type} (I : S -> Prop) (body : Z -> S -> option S) (l : list Z) :
  (forall k s s', In k l -> I s -> body k s = Some s' -> I s') ->
  forall s s', I s ->
    fold_left (fun s k => bind s (body k)) l (Some s) = Some s' -> I s'.
Proof.
  induction l as [|k l IH]; intros Hstep s s' Hs H.
  - inversion H; subst. exact Hs.
  - cbn [fold_left bind] in H.
    destruct (body k s) as [s1|] eqn:E.
    + apply (IH (fun k' s0 s0' Hin => Hstep k' s0 s0' (or_intror Hin)) s1 s');
        [|exact H].
      apply (Hstep k s s1); [left; reflexivity|exact Hs|exact E].
    + rewrite fold_bind_None in H. discriminate.
Qed.

(** A property kept by every iteration that succeeds holds of the result
    of a loop that succeeds. *)
Lemma forM_partial {S : Type} (I : S -> Prop) (a b : Z) (body : Z -> S -> option S) (s s' : S) :
  I s ->
  (forall k s s', (a <= k <= b)%Z -> I s -> body k s = Some s' -> I s') ->
  forM a b body s = Some s' -> I s'.
Proof.
  intros Hs Hstep H. unfold forM in H.
  apply (@fold_bind_partial _ I body (zrange a b)
           (fun k s0 s0' Hin => Hstep k s0 s0' (proj1 (zrange_In a b k) Hin)) s s' Hs H).
Qed.

Lemma forM_down_partial {S : Type} (I : S -> Prop) (a b : Z) (body : Z -> S -> option S)
      (s s' : S) :
  I s ->
  (forall k s s', (a <= k <= b)%Z -> I s -> body k s = Some s' -> I s') ->
  forM_down b a body s = Some s' -> I s'.
Proof.
  intros Hs Hstep H. unfold forM_down in H.
  apply (@fold_bind_partial _ I body (rev (zrange a b))
           (fun k s0 s0' Hin =>
              Hstep k s0 s0' (proj1 (zrange_In a b k) (proj2 (in_rev _ _) Hin)))
           s s' Hs H).
Qed.

(** ** Assertions and aborts of the energy functions *)

Local Open Scope Z_scope.

(** X12: with [i < h] and [m < j], [GIL] reaches none of its three
    [assert(!...); exit(...)] branches: the cases on the two sides of
    the loop cover every pair of non-negative sizes. *)
Theorem GIL_never_aborts (i h m j : Z) :
  i < h -> m < j -> GIL_aborts i h m j = false.
Proof.
  intros Hih Hmj. unfold GIL_aborts. cbv zeta.
  repeat match goal with
  | |- context [if ?b then _ else _] =>
      let E := fresh "E" in destruct b eqn:E; try reflexivity
  end; lia.
Qed.

(** X13: the two assertions of [GHL] hold at every cell [(i, i+l-1)] the
    engines evaluate, [5 <= l <= n] and [0 <= i <= n - l]. *)
Theorem GHL_asserts_on_cells (rna : RNA) (l i : Z) :
  5 <= l <= n_ rna -> 0 <= i <= n_ rna - l ->
  GHL_asserts rna i (i + l - 1) = true.
Proof.
  intros Hl Hi. unfold GHL_asserts, allowed_basepair. cbv zeta.
  apply andb_true_iff. split; [apply Z.leb_le; lia|].
  replace (i <? i + l - 1) with true by (symmetry; apply Z.ltb_lt; lia).
  repeat match goal with
  | |- context [if ?b then _ else _] =>
      let E := fresh "E" in destruct b eqn:E
  end; try reflexivity; lia.
Qed.

(** X14: for a sequence of at least 4 nucleotides, [RNA::allowed_basepair]
    holds exactly for two positions below [n_] at distance at least 4:
    the test [a >= n_ - 4] never decides. *)
Theorem RNA_allowed_basepair_iff (rna : RNA) (u v : Z) :
  4 <= n_ rna -> 0 <= u -> 0 <= v ->
  (allowed_basepair rna u v = true <->
   4 <= Z.abs (u - v) /\ u < n_ rna /\ v < n_ rna).
Proof.
  intros Hn Hu Hv. unfold allowed_basepair. cbv zeta.
  destruct (u <? v) eqn:Euv;
  repeat match goal with
  | |- context [if ?b then _ else _] =>
      let E := fresh "E" in destruct b eqn:E
  end; split; intro H; try discriminate; try reflexivity; try lia.
Qed.

(** ** The back-recursion in floating point *)

Lemma fmadd_other (ops : float_ops) (M : FMatrix ops) (i j : Z) (v : num ops) (a b : Z) :
  (a <> i \/ b <> j) -> fmadd M i j v a b = M a b.
Proof.
  intro H. unfold fmadd, fmset.
  destruct (Z.eqb_spec a i); destruct (Z.eqb_spec b j); simpl; try reflexivity.
  exfalso. destruct H; contradiction.
Qed.

(** A loop fails when one of its iterations does, on every state that
    has a property the iterations before it keep. *)
Lemma forM_fails {S : Type} (I : S -> Prop) (a b k : Z) (body : Z -> S -> option S) :
  (forall k' s s', a <= k' < k -> I s -> body k' s = Some s' -> I s') ->
  (forall s, I s -> body k s = None) ->
  k <= b ->
  forall m a' s, m = Z.to_nat (k - a') -> a <= a' <= k -> I s -> forM a' b body s = None.
Proof.
  intros Hkeep Hfail Hkb. induction m as [|m IH]; intros a' s Hm Ha Hs.
  - assert (a' = k) by lia. subst a'.
    rewrite forM_first by lia. rewrite (Hfail s Hs). reflexivity.
  - rewrite forM_first by lia.
    destruct (body a' s) as [s'|] eqn:E; [|reflexivity]. cbn [bind].
    apply IH; [lia|lia|]. apply (Hkeep a' s s'); [lia|exact Hs|exact E].
Qed.

(** A loop takes a state with [I] to a state with [J] when one of its
    iterations does, those before it keep [I] and those after it [J]. *)
Lemma forM_through {S : Type} (I J : S -> Prop) (a b k : Z) (body : Z -> S -> option S) :
  (forall k' s s', a <= k' < k -> I s -> body k' s = Some s' -> I s') ->
  (forall s s', I s -> body k s = Some s' -> J s') ->
  (forall k' s s', k < k' <= b -> J s -> body k' s = Some s' -> J s') ->
  k <= b ->
  forall m a' s s', m = Z.to_nat (k - a') -> a <= a' <= k -> I s ->
    forM a' b body s = Some s' -> J s'.
Proof.
  intros Hbefore Hat Hafter Hkb. induction m as [|m IH]; intros a' s s' Hm Ha Hs H.
  - assert (a' = k) by lia. subst a'.
    rewrite forM_first in H by lia.
    destruct (body k s) as [s1|] eqn:E; [|discriminate]. cbn [bind] in H.
    revert H. apply (@forM_partial _ J); [apply (Hat s s1 Hs E)|].
    intros k' s0 s0' Hk'. apply Hafter. lia.
  - rewrite forM_first in H by lia.
    destruct (body a' s) as [s1|] eqn:E; [|discriminate]. cbn [bind] in H.
    apply (IH (a' + 1) s1 s'); [lia|lia| |exact H].
    apply (Hbefore a' s s1); [lia|exact Hs|exact E].
Qed.

Section FloatFacts.

Variable ops : float_ops.
Variable n : Z.
Variables a1 a2 a3 RT : num ops.
Variable GIL_f : Z -> Z -> Z -> Z -> num ops.
Variable pf : FPF ops.

#[local] Abbreviation step1 asserts := (post_step1_float a2 a3 RT asserts pf).
#[local] Abbreviation step2 asserts := (post_step2_float a1 a2 a3 RT GIL_f asserts pf).
#[local] Abbreviation cell asserts := (post_cell_float a1 a2 a3 RT GIL_f asserts pf).
#[local] Abbreviation run asserts := (posterior_float n a1 a2 a3 RT GIL_f asserts pf).

(** *** Entries the back-recursion never writes *)

#[local] Abbreviation band st := (forall a b, b < a + 4 -> fPb st a b = f_zero ops).

Lemma post_step1_float_band (asserts : bool) (i j d e : Z) (st st' : FPost ops) :
  d + 4 <= e -> band st -> step1 asserts i j d e st = Some st' -> band st'.
Proof.
  intros Hde Hst H. destruct st as [P0 Pb0 Pm0].
  unfold post_step1_float in H. cbv zeta in H.
  destruct (i <? d); cbv beta iota zeta in H;
    destruct (asserts && _); try discriminate; inversion H; subst; clear H;
    intros a b Hab; cbn [fPb]; rewrite !fmadd_other by lia; apply (Hst a b Hab).
Qed.

Lemma post_step2_float_band (asserts : bool) (i j d e : Z) (st st' : FPost ops) :
  d + 4 <= e -> band st -> step2 asserts i j d e st = Some st' -> band st'.
Proof.
  intros Hde Hst H. destruct st as [P0 Pb0 Pm0].
  unfold post_step2_float in H. cbv zeta in H.
  destruct (f_gt0 ops _); cbv beta iota zeta in H.
  - destruct (asserts && _); try discriminate. inversion H; subst; clear H.
    intros a b Hab; cbn [fPb]; rewrite !fmadd_other by lia; apply (Hst a b Hab).
  - inversion H; subst. exact Hst.
Qed.

Lemma post_cell_float_band (asserts : bool) (l i : Z) (st st' : FPost ops) :
  band st -> cell asserts l i st = Some st' -> band st'.
Proof.
  intros Hst H. unfold post_cell_float in H. cbv zeta in H.
  destruct (forM i (i + l - 1 - 4) _ st) as [st1|] eqn:E1; [|discriminate].
  cbn [bind] in H.
  assert (H1 : band st1).
  { revert E1. apply (@forM_partial _ (fun st => band st)); [exact Hst|].
    intros d s s' Hd Hs. apply (@forM_partial _ (fun st => band st)); [exact Hs|].
    intros e s0 s0' He Hs0. apply post_step1_float_band; [lia|exact Hs0]. }
  revert H. apply (@forM_partial _ (fun st => band st)); [exact H1|].
  intros d s s' Hd Hs. apply (@forM_partial _ (fun st => band st)); [exact Hs|].
  intros e s0 s0' He Hs0. apply post_step2_float_band; [lia|exact Hs0].
Qed.

Lemma posterior_float_band (asserts : bool) (p : FMatrix ops) :
  run asserts = Some p -> forall i j, j < i + 4 -> p i j = f_zero ops.
Proof.
  unfold posterior_float. cbv zeta. intro H.
  destruct (forM_down _ _ _ _) as [st|] eqn:E; [|discriminate].
  cbn [bind] in H. inversion H; subst. clear H.
  revert E. apply (@forM_down_partial _ (fun st => band st)).
  - intros a b _. reflexivity.
  - intros l s s' Hl Hs. apply (@forM_partial _ (fun st => band st)); [exact Hs|].
    intros i s0 s0' Hi Hs0. apply post_cell_float_band. exact Hs0.
Qed.

(** *** Without the assertions every step goes through *)

Lemma posterior_float_returns : exists p, run false = Some p.
Proof.
  unfold posterior_float. cbv zeta.
  destruct (@forM_down_inv _ (fun _ : FPost ops => True) 1 n
              (fun l st => forM 0 (n - l) (cell false l) st)
              (mkFPost (fmset (fmzero ops) 0 (n - 1) (f_one ops)) (fmzero ops) (fmzero ops)) I)
    as [st [-> _]].
  - intros l s _ _.
    apply (@forM_inv _ (fun _ => True)); [exact I|]. intros i s0 _ _.
    unfold post_cell_float. cbv zeta.
    destruct (@forM_inv _ (fun _ : FPost ops => True) i (i + l - 1 - 4)
                (fun d st => forM (d + 4) (i + l - 1)
                                  (fun e st => step1 false i (i + l - 1) d e st) st) s0 I)
      as [s1 [-> _]].
    + intros d s1 _ _. apply (@forM_inv _ (fun _ => True)); [exact I|].
      intros e [P0 Pb0 Pm0] _ _. unfold post_step1_float. cbv zeta.
      destruct (i <? d); cbv beta iota zeta; cbn [andb]; eexists;
        (split; [reflexivity|exact I]).
    + cbn [bind].
      apply (@forM_inv _ (fun _ => True)); [exact I|]. intros d s2 _ _.
      apply (@forM_inv _ (fun _ => True)); [exact I|].
      intros e [P0 Pb0 Pm0] _ _. unfold post_step2_float. cbv zeta.
      destruct (f_gt0 ops _); cbv beta iota zeta; cbn [andb]; eexists;
        (split; [reflexivity|exact I]).
  - cbn [bind]. eexists. reflexivity.
Qed.

(** *** An infinite entry of [Qb] makes the assertion fail *)

Section Overflow.

Variables is_zero is_inf : num ops -> bool.
Hypothesis rules : ieee_rules ops is_zero is_inf.

(** [Pm(0, n-1)] is the zero it starts as, all along the first cell. *)
#[local] Abbreviation top_zero st := (fPm st 0 (n - 1) = f_zero ops).

Lemma post_step1_float_top (asserts : bool) (d e : Z) (st st' : FPost ops) :
  d <= n - 1 -> top_zero st -> step1 asserts 0 (n - 1) d e st = Some st' -> top_zero st'.
Proof.
  intros Hd Hst H. destruct st as [P0 Pb0 Pm0]. cbn [fPm] in Hst.
  unfold post_step1_float in H. cbv zeta in H.
  destruct (0 <? d); cbv beta iota zeta in H;
    destruct (asserts && _); try discriminate; inversion H; subst; clear H;
    cbn [fPm]; rewrite ?fmadd_other by lia; exact Hst.
Qed.

Lemma post_step1_float_nan (d e : Z) (st : FPost ops) :
  top_zero st -> is_inf (fQb pf d e) = true -> step1 true 0 (n - 1) d e st = None.
Proof.
  intros Hst Hinf. destruct st as [P0 Pb0 Pm0]. cbn [fPm] in Hst.
  assert (Hz : is_zero (Pm0 0 (n - 1)) = true) by (rewrite Hst; apply (zero_is_zero rules)).
  unfold post_step1_float. cbv zeta.
  destruct (0 <? d); cbv beta iota zeta; cbn [andb].
  - match goal with
    | |- (if f_isnan ops ?x then _ else _) = _ => assert (Hn : f_isnan ops x = true)
    end.
    { apply (nan_div rules), (nan_mul rules).
      destruct (zero_mul rules (Pm0 0 (n - 1)) (fQm pf 0 (d - 1)) Hz) as [Hz'|Hn'].
      - apply (zero_mul_inf rules); assumption.
      - apply (nan_mul rules). exact Hn'. }
    rewrite Hn. reflexivity.
  - match goal with
    | |- (if f_isnan ops ?x then _ else _) = _ => assert (Hn : f_isnan ops x = true)
    end.
    { apply (nan_div rules), (nan_mul rules), (zero_mul_inf rules); assumption. }
    rewrite Hn. reflexivity.
Qed.

(** Once [Pb(d, e)] is a NaN it stays one. *)
#[local] Abbreviation nan_at d e st := (f_isnan ops (fPb st d e) = true).

Lemma fmadd_nan (M : FMatrix ops) (i j : Z) (v : num ops) (d e : Z) :
  f_isnan ops (M d e) = true -> f_isnan ops (fmadd M i j v d e) = true.
Proof.
  intro H. unfold fmadd, fmset.
  destruct (Z.eqb_spec d i); destruct (Z.eqb_spec e j); simpl; try exact H.
  subst. apply (nan_add_l rules). exact H.
Qed.

Lemma post_step1_float_keeps_nan (asserts : bool) (i j d' e' d e : Z) (st st' : FPost ops) :
  nan_at d e st -> step1 asserts i j d' e' st = Some st' -> nan_at d e st'.
Proof.
  intros Hst H. destruct st as [P0 Pb0 Pm0]. cbn [fPb] in Hst.
  unfold post_step1_float in H. cbv zeta in H.
  destruct (i <? d'); cbv beta iota zeta in H;
    destruct (asserts && _); try discriminate; inversion H; subst; clear H;
    cbn [fPb]; repeat apply fmadd_nan; exact Hst.
Qed.

Lemma post_step2_float_keeps_nan (asserts : bool) (i j d' e' d e : Z) (st st' : FPost ops) :
  nan_at d e st -> step2 asserts i j d' e' st = Some st' -> nan_at d e st'.
Proof.
  intros Hst H. destruct st as [P0 Pb0 Pm0]. cbn [fPb] in Hst.
  unfold post_step2_float in H. cbv zeta in H.
  destruct (f_gt0 ops _); cbv beta iota zeta in H.
  - destruct (asserts && _); try discriminate. inversion H; subst; clear H.
    cbn [fPb]. repeat apply fmadd_nan. exact Hst.
  - inversion H; subst. exact Hst.
Qed.

Lemma post_cell_float_keeps_nan (asserts : bool) (l i d e : Z) (st st' : FPost ops) :
  nan_at d e st -> cell asserts l i st = Some st' -> nan_at d e st'.
Proof.
  intros Hst H. unfold post_cell_float in H. cbv zeta in H.
  destruct (forM i (i + l - 1 - 4) _ st) as [st1|] eqn:E1; [|discriminate].
  cbn [bind] in H.
  assert (H1 : nan_at d e st1).
  { revert E1. apply (@forM_partial _ (fun st => nan_at d e st)); [exact Hst|].
    intros d' s s' Hd Hs. apply (@forM_partial _ (fun st => nan_at d e st)); [exact Hs|].
    intros e' s0 s0' He' Hs0. apply post_step1_float_keeps_nan. exact Hs0. }
  revert H. apply (@forM_partial _ (fun st => nan_at d e st)); [exact H1|].
  intros d' s s' Hd Hs. apply (@forM_partial _ (fun st => nan_at d e st)); [exact Hs|].
  intros e' s0 s0' He' Hs0. apply post_step2_float_keeps_nan. exact Hs0.
Qed.

(** The step at [(d, e)] of the first cell stores a NaN in [Pb(d, e)]. *)
Lemma post_step1_float_stores_nan (d e : Z) (st st' : FPost ops) :
  top_zero st -> is_inf (fQb pf d e) = true ->
  step1 false 0 (n - 1) d e st = Some st' -> nan_at d e st'.
Proof.
  intros Hst Hinf H. destruct st as [P0 Pb0 Pm0]. cbn [fPm] in Hst.
  assert (Hz : is_zero (Pm0 0 (n - 1)) = true) by (rewrite Hst; apply (zero_is_zero rules)).
  unfold post_step1_float in H. cbv zeta in H.
  destruct (0 <? d); cbv beta iota zeta in H; cbn [andb] in H;
    inversion H; subst; clear H; cbn [fPb];
    unfold fmadd at 1; unfold fmset; rewrite !Z.eqb_refl; cbn [andb];
    apply (nan_add_r rules), (nan_div rules), (nan_mul rules).
  - destruct (zero_mul rules (Pm0 0 (n - 1)) (fQm pf 0 (d - 1)) Hz) as [Hz'|Hn'].
    + apply (zero_mul_inf rules); assumption.
    + apply (nan_mul rules). exact Hn'.
  - apply (zero_mul_inf rules); assumption.
Qed.

Lemma posterior_float_stores_nan (d e : Z) (p : FMatrix ops) :
  0 <= d -> d + 4 <= e -> e <= n - 1 ->
  is_inf (fQb pf d e) = true ->
  run false = Some p -> f_isnan ops (p d e) = true.
Proof.
  intros Hd Hde He Hinf. unfold posterior_float. cbv zeta. intro H.
  destruct (forM_down _ _ _ _) as [st|] eqn:E; [|discriminate].
  cbn [bind] in H. inversion H; subst. clear H.
  rewrite forM_down_first in E by lia.
  replace (n - n) with 0 in E by lia. rewrite forM_first in E by lia.
  destruct (cell false n 0 _) as [st1|] eqn:Ecell; [|discriminate]. cbn [bind] in E.
  assert (H1 : nan_at d e st1).
  { unfold post_cell_float in Ecell. cbv zeta in Ecell.
    replace (0 + n - 1) with (n - 1) in Ecell by lia.
    destruct (forM 0 (n - 1 - 4) _ _) as [st0|] eqn:E0; [|discriminate].
    cbn [bind] in Ecell.
    assert (H0 : nan_at d e st0).
    { revert E0.
      apply (@forM_through _ (fun st => top_zero st) (fun st => nan_at d e st) 0 (n - 1 - 4) d
               (fun d st => forM (d + 4) (n - 1)
                                 (fun e st => step1 false 0 (n - 1) d e st) st))
        with (m := Z.to_nat (d - 0)); try reflexivity; try lia.
      - intros d' s s' Hd' Hs. apply (@forM_partial _ (fun st => top_zero st)); [exact Hs|].
        intros e' s0 s0' He' Hs0. apply post_step1_float_top; [lia|exact Hs0].
      - intros s s' Hs.
        apply (@forM_through _ (fun st => top_zero st) (fun st => nan_at d e st)
                 (d + 4) (n - 1) e (fun e st => step1 false 0 (n - 1) d e st))
          with (m := Z.to_nat (e - (d + 4))); try reflexivity; try lia; try exact Hs.
        + intros e' s0 s0' He' Hs0. apply post_step1_float_top; [lia|exact Hs0].
        + intros s0 s0' Hs0. apply post_step1_float_stores_nan; assumption.
        + intros e' s0 s0' He' Hs0. apply post_step1_float_keeps_nan. exact Hs0.
      - intros d' s s' Hd' Hs. apply (@forM_partial _ (fun st => nan_at d e st)); [exact Hs|].
        intros e' s0 s0' He' Hs0. apply post_step1_float_keeps_nan. exact Hs0. }
    revert Ecell. apply (@forM_partial _ (fun st => nan_at d e st)); [exact H0|].
    intros d' s s' Hd' Hs. apply (@forM_partial _ (fun st => nan_at d e st)); [exact Hs|].
    intros e' s0 s0' He' Hs0. apply post_step2_float_keeps_nan. exact Hs0. }
  rewrite forM_empty in E by lia. cbn [bind] in E.
  revert E. apply (@forM_down_partial _ (fun st => nan_at d e st)); [exact H1|].
  intros l s s' Hl Hs. apply (@forM_partial _ (fun st => nan_at d e st)); [exact Hs|].
  intros i s0 s0' Hi Hs0. apply post_cell_float_keeps_nan. exact Hs0.
Qed.

Lemma posterior_float_overflow (d e : Z) :
  0 <= d -> d + 4 <= e -> e <= n - 1 ->
  is_inf (fQb pf d e) = true ->
  run true = None.
Proof.
  intros Hd Hde He Hinf. unfold posterior_float. cbv zeta.
  rewrite forM_down_first by lia.
  replace (n - n) with 0 by lia. rewrite forM_first by lia.
  assert (Hcell : forall st, top_zero st -> cell true n 0 st = None).
  { intros st Hst. unfold post_cell_float. cbv zeta.
    replace (0 + n - 1) with (n - 1) by lia.
    rewrite (@forM_fails _ (fun st => top_zero st) 0 (n - 1 - 4) d
               (fun d st => forM (d + 4) (n - 1)
                                 (fun e st => step1 true 0 (n - 1) d e st) st)
               ) with (m := Z.to_nat (d - 0)); try reflexivity; try lia; try exact Hst.
    - intros d' s s' Hd' Hs. apply (@forM_partial _ (fun st => top_zero st)); [exact Hs|].
      intros e' s0 s0' He' Hs0. apply post_step1_float_top; [lia|exact Hs0].
    - intros s Hs.
      apply (@forM_fails _ (fun st => top_zero st) (d + 4) (n - 1) e
               (fun e st => step1 true 0 (n - 1) d e st)) with (m := Z.to_nat (e - (d + 4)));
        try reflexivity; try lia; try exact Hs.
      + intros e' s0 s0' He' Hs0. apply post_step1_float_top; [lia|exact Hs0].
      + intros s0 Hs0. apply post_step1_float_nan; assumption. }
  rewrite Hcell by reflexivity. reflexivity.
Qed.

End Overflow.

End FloatFacts.

(** *** The arithmetic without rounding follows the rules *)

Lemma FLT_MAX_pos : (0 < FLT_MAX)%R.
Proof.
  unfold FLT_MAX. apply Rmult_lt_0_compat; [|apply pow_lt; lra].
  assert (H : (/ 2 ^ 23 < 1)%R).
  { rewrite <- Rinv_1. apply Rinv_lt_contravar; [|].
    - rewrite Rmult_1_l. apply pow_lt. lra.
    - apply Rlt_pow_R1; [lra|lia]. }
  lra.
Qed.

Lemma xround_0 : xround 0 = XFin 0.
Proof.
  pose proof FLT_MAX_pos as H. unfold xround.
  destruct (Rlt_dec FLT_MAX 0); [lra|]. destruct (Rlt_dec 0 (- FLT_MAX)); [lra|reflexivity].
Qed.

Lemma xreal_rules : ieee_rules xreal_ops xiszero xisinf.
Proof.
  constructor; cbn [xreal_ops f_zero f_mul f_div f_add f_isnan].
  - cbn [xiszero]. destruct (Req_dec_T 0 0) as [_|H]; [reflexivity|exfalso; apply H; reflexivity].
  - intros [a| |] y Hx; cbn [xiszero] in Hx; try discriminate.
    destruct (Req_dec_T a 0) as [->|]; [|discriminate].
    destruct y as [b|s|]; cbn [xmul].
    + left. rewrite Rmult_0_l, xround_0. cbn [xiszero].
      destruct (Req_dec_T 0 0) as [_|H]; [reflexivity|exfalso; apply H; reflexivity].
    + right. destruct (Req_dec_T 0 0) as [_|H]; [reflexivity|exfalso; apply H; reflexivity].
    + right. reflexivity.
  - intros [a| |] y Hx Hy; cbn [xiszero] in Hx; try discriminate.
    destruct (Req_dec_T a 0) as [->|]; [|discriminate].
    destruct y as [b|s|]; cbn [xisinf] in Hy; try discriminate. cbn [xmul].
    destruct (Req_dec_T 0 0) as [_|H]; [reflexivity|exfalso; apply H; reflexivity].
  - intros [a| |] y Hx; cbn [xisnan] in Hx; try discriminate. destruct y; reflexivity.
  - intros [a| |] y Hx; cbn [xisnan] in Hx; try discriminate. destruct y; reflexivity.
  - intros [a| |] y Hx; cbn [xisnan] in Hx; try discriminate. destruct y; reflexivity.
  - intros x [b| |] Hy; cbn [xisnan] in Hy; try discriminate. destruct x; reflexivity.
Qed.

(** X1: in floating point, whatever the arithmetic, the matrices of the
    engine and the parameters, the back-recursion returns a matrix when
    the assertions are compiled out, and every matrix it returns, with
    the assertions or without, holds the zero it started with at every
    (i, j) with [j < i + 4], so wherever |i - j| < 4: only entries
    [(d, e)] with [e >= d + 4] are ever written. *)
Theorem posterior_zero_near_diagonal
        (ops : float_ops) (n : Z) (a1 a2 a3 RT : num ops)
        (GIL_f : Z -> Z -> Z -> Z -> num ops) (pf : FPF ops) :
  (exists p, posterior_float n a1 a2 a3 RT GIL_f false pf = Some p) /\
  (forall asserts p,
     posterior_float n a1 a2 a3 RT GIL_f asserts pf = Some p ->
     forall i j, j < i + 4 -> p i j = f_zero ops).
Proof.
  split.
  - apply posterior_float_returns.
  - intros asserts p H. apply (@posterior_float_band ops n a1 a2 a3 RT GIL_f pf asserts p H).
Qed.

(** C7, what the code does: when an entry [Qb(d, e)] the back-recursion
    reads for the whole strand is infinite, as an overflow of the
    partition function leaves it, the increment
    [dP = Pm(0,n-1) * ... * Qb(d,e) * ... / Qm(0,n-1)] is [0 * inf], a
    NaN, whatever the denominators are: with the assertions the run ends
    on [assert(!std::isnan(dP))] and returns no matrix; without them it
    returns a matrix whose entry [(d, e)] is a NaN. *)
Theorem posterior_nan_on_overflow
        (ops : float_ops) (is_zero is_inf : num ops -> bool) (n : Z) (a1 a2 a3 RT : num ops)
        (GIL_f : Z -> Z -> Z -> Z -> num ops) (pf : FPF ops) (d e : Z) :
  ieee_rules ops is_zero is_inf ->
  0 <= d -> d + 4 <= e -> e <= n - 1 ->
  is_inf (fQb pf d e) = true ->
  posterior_float n a1 a2 a3 RT GIL_f true pf = None /\
  exists p, posterior_float n a1 a2 a3 RT GIL_f false pf = Some p /\
            f_isnan ops (p d e) = true.
Proof.
  intros rules Hd Hde He Hinf. split.
  - apply (@posterior_float_overflow ops n a1 a2 a3 RT GIL_f pf is_zero is_inf rules d e
             Hd Hde He Hinf).
  - destruct (@posterior_float_returns ops n a1 a2 a3 RT GIL_f pf) as [p Hp].
    exists p. split; [exact Hp|].
    apply (@posterior_float_stores_nan ops n a1 a2 a3 RT GIL_f pf is_zero is_inf rules d e p
             Hd Hde He Hinf Hp).
Qed.

Local Open Scope R_scope.

Unset Implicit Arguments.

Lemma usual_header_fits : base_codes_fit usual_header.
Proof. intros [ | | | | ]; simpl; lia. Qed.

Lemma posterior_ends_positive_witness :
  (5 <= Z.of_nat (String.length "AAAAA"%string))%Z /\
  pair_type (RNA_of example_params "AAAAA"%string) 0 4 = PAIR_OTHER /\
  exists p,
    compute_posterior_noPK_ON4 usual_header (RNA_of example_params "AAAAA"%string) true = Some p /\
    (0 < p 0%Z (Z.of_nat (String.length "AAAAA"%string) - 1)%Z)%R.
Proof.
  assert (H : (5 <= Z.of_nat (String.length "AAAAA"%string))%Z) by (simpl; lia).
  split; [exact H|]. split; [reflexivity|].
  exact (@posterior_ends_positive usual_header example_params "AAAAA"%string true H).
Defined.

Lemma GHL_all_C_loop_gets_no_polyC_witness :
  base_codes_fit usual_header /\
  (0 <= 0)%Z /\ (3 <= 4 - 0 - 1)%Z /\
  (forall k, (0 < k < 4)%Z -> bseq (RNA_of example_params "GCCCC"%string) k = BASE_C) /\
  polyC usual_header (RNA_of example_params "GCCCC"%string) 0 4 = false /\
  GHL usual_header (RNA_of example_params "GCCCC"%string) 0 4
  = GHL_plain usual_header (RNA_of example_params "GCCCC"%string) 0 4.
Proof.
  assert (H1 : (0 <= 0)%Z) by lia.
  assert (H2 : (3 <= 4 - 0 - 1)%Z) by lia.
  assert (H3 : forall k, (0 < k < 4)%Z -> bseq (RNA_of example_params "GCCCC"%string) k = BASE_C).
  { intros k Hk. assert (Hc : k = 1%Z \/ k = 2%Z \/ k = 3%Z) by lia.
    destruct Hc as [-> |[-> | ->]]; reflexivity. }
  split; [exact usual_header_fits|]. split; [exact H1|]. split; [exact H2|].
  split; [exact H3|].
  exact (@GHL_all_C_loop_gets_no_polyC usual_header example_params "GCCCC"%string 0 4
           usual_header_fits H1 H2 H3).
Defined.

(** The value at the failing input of C8: a triloop hairpin G-CCC-C gets
    the hairpin, terminal and triloop terms and nothing for its three
    C's. *)
Example GHL_GCCCC (prm : energy_params) :
  GHL usual_header (RNA_of prm "GCCCC"%string) 0 4
  = (0 + hairpin37 prm 2 + 0 + triloop37 prm 2 1 1 1 1)%R.
Proof. reflexivity. Qed.

Local Open Scope Z_scope.

Lemma GIL_never_aborts_witness : GIL_aborts 0 3 7 12 = false.
Proof. apply (@GIL_never_aborts 0 3 7 12); lia. Defined.

Lemma GHL_asserts_on_cells_witness :
  GHL_asserts (RNA_of example_params "GCCCCAAG"%string) 1 (1 + 6 - 1) = true.
Proof.
  apply (@GHL_asserts_on_cells (RNA_of example_params "GCCCCAAG"%string) 6 1);
    vm_compute; split; discriminate.
Defined.

Lemma RNA_allowed_basepair_iff_witness :
  allowed_basepair (RNA_of example_params "GCCCCAAG"%string) 7 2 = true <->
  4 <= Z.abs (7 - 2) /\ 7 < n_ (RNA_of example_params "GCCCCAAG"%string)
  /\ 2 < n_ (RNA_of example_params "GCCCCAAG"%string).
Proof.
  apply (@RNA_allowed_basepair_iff (RNA_of example_params "GCCCCAAG"%string) 7 2);
    [vm_compute; discriminate|lia|lia].
Defined.

Lemma posterior_nan_on_overflow_witness :
  ieee_rules xreal_ops xiszero xisinf /\
  xisinf (fQb overflowed_pf 0 4) = true /\
  xiszero (fQ overflowed_pf 0 4) = false /\
  xiszero (fQm overflowed_pf 0 4) = false /\
  posterior_float 5 (XFin 0 : num xreal_ops) (XFin 0) (XFin 0) (XFin 1)
                  (fun _ _ _ _ => XFin 0) true overflowed_pf = None /\
  exists p, posterior_float 5 (XFin 0 : num xreal_ops) (XFin 0) (XFin 0) (XFin 1)
                            (fun _ _ _ _ => XFin 0) false overflowed_pf = Some p /\
            xisnan (p 0 4) = true.
Proof.
  assert (H1 : 0 <= 0) by lia. assert (H2 : 0 + 4 <= 4) by lia. assert (H3 : 4 <= 5 - 1) by lia.
  assert (H4 : xisinf (fQb overflowed_pf 0 4) = true) by reflexivity.
  split; [exact xreal_rules|]. split; [exact H4|].
  split; [reflexivity|]. split; [reflexivity|].
  exact (@posterior_nan_on_overflow xreal_ops xiszero xisinf 5 (XFin 0) (XFin 0) (XFin 0)
           (XFin 1) (fun _ _ _ _ => XFin 0) overflowed_pf 0 4 xreal_rules H1 H2 H3 H4).
Defined.

Local Open Scope R_scope.

Set Implicit Arguments.

End RNAFacts.

(* ================================================================== *)
(** * Facts about the integer program and the Pareto walker *)
(* ================================================================== *)

Module MOIPFacts.

Import Loop LoopFacts MotifModel MOIPModel.
Local Open Scope Z_scope.

(** ** The Pareto set *)

Lemma dominates_irrefl (s : SecondaryStructure) : dominates s s = false.
Proof.
  unfold dominates.
  destruct (Qle_bool (get_objective_score s 1) (get_objective_score s 1)) eqn:E1;
    [|reflexivity].
  destruct (Qle_bool (get_objective_score s 2) (get_objective_score s 2)) eqn:E2;
    reflexivity.
Qed.

Lemma erase_app_length (pre l : list SecondaryStructure) (p : SecondaryStructure) :
  erase (pre ++ p :: l) (List.length pre) = pre ++ l.
Proof. induction pre as [|q pre IH]; simpl; [reflexivity|]. rewrite IH. reflexivity. Qed.

(** Erasing, from the last to the first, the positions that
    [to_remove_from] lists leaves the structures that [s] does not
    dominate. *)
Lemma erase_to_remove (s : SecondaryStructure) (l : list SecondaryStructure) :
  forall pre,
    fold_left erase (rev (to_remove_from s l (List.length pre))) (pre ++ l)
    = pre ++ filter (fun p => negb (dominates s p)) l.
Proof.
  induction l as [|p l IH]; intro pre; simpl.
  - reflexivity.
  - specialize (IH (pre ++ [p])).
    rewrite length_app, Nat.add_1_r, <- app_assoc in IH. simpl in IH.
    destruct (dominates s p); simpl.
    + rewrite fold_left_app, IH. simpl.
      rewrite <- app_assoc. simpl. apply erase_app_length.
    + rewrite IH, <- app_assoc. reflexivity.
Qed.

(** The countdown of [add_solution] erases the positions
    [to_remove[i0]], ..., [to_remove[1]], in this order. *)
Lemma erase_down_fold (t0 : nat) (rest : list nat) :
  forall i0 l,
    (i0 <= List.length rest)%nat ->
    erase_down (t0 :: rest) i0 l = fold_left erase (rev (firstn i0 rest)) l.
Proof.
  induction i0 as [|i IH]; intros l Hi.
  - reflexivity.
  - cbn [erase_down]. rewrite IH by lia.
    assert (Hf : firstn (S i) rest = firstn i rest ++ [nth i rest O]).
    { clear -Hi. revert i Hi. induction rest as [|r rest IHr]; intros i Hi.
      - simpl in Hi. lia.
      - destruct i as [|i]; [reflexivity|].
        rewrite !firstn_cons. cbn [nth]. rewrite (IHr i) by (simpl in Hi; lia). reflexivity. }
    rewrite Hf, rev_app_distr. reflexivity.
Qed.

(** [add_solution] drops what [s] dominates and appends [s]. *)
Lemma add_solution_pareto (st : MOIP) (s : SecondaryStructure) :
  pareto_ (add_solution st s)
  = filter (fun p => negb (dominates s p)) (pareto_ st) ++ [s].
Proof.
  unfold add_solution. cbn [pareto_ set_pareto]. f_equal.
  pose proof (erase_to_remove s (pareto_ st) []) as H. simpl in H.
  destruct (to_remove_from s (pareto_ st) 0) as [|t0 rest] eqn:E.
  - simpl. simpl in H. exact H.
  - cbn [List.length Nat.eqb negb nth].
    replace (S (List.length rest) - 1)%nat with (List.length rest) by lia.
    rewrite erase_down_fold by lia. rewrite firstn_all.
    rewrite <- H. simpl. rewrite fold_left_app. reflexivity.
Qed.

(** The step of the invariant: a structure that nothing in the set
    dominates can be added. *)
Lemma add_solution_ok (st : MOIP) (s : SecondaryStructure) :
  pareto_ok (pareto_ st) ->
  is_undominated_yet st s = true ->
  pareto_ok (pareto_ (add_solution st s)).
Proof.
  intros Hok Hund. rewrite add_solution_pareto.
  unfold is_undominated_yet in Hund. rewrite forallb_forall in Hund.
  intros a b Ha Hb.
  apply in_app_or in Ha. apply in_app_or in Hb.
  destruct Ha as [Ha|[<-|[]]]; destruct Hb as [Hb|[<-|[]]].
  - apply filter_In in Ha. apply filter_In in Hb. apply Hok; tauto.
  - apply filter_In in Ha. destruct Ha as [Ha _].
    specialize (Hund a Ha). destruct (dominates a s); [discriminate|reflexivity].
  - apply filter_In in Hb. destruct Hb as [_ Hb].
    destruct (dominates s b); [discriminate|reflexivity].
  - apply dominates_irrefl.
Qed.

Section WalkerFacts.

Variable cplex_solve : list IloExtractable -> option Assignment.

Lemma model_add_pareto (st : MOIP) (e : IloExtractable) :
  pareto_ (fst (model_add st e)) = pareto_ st.
Proof. reflexivity. Qed.

Lemma fold_model_remove_pareto (hs : list nat) :
  forall st, pareto_ (fold_left model_remove hs st) = pareto_ st.
Proof. induction hs as [|h hs IH]; intro st; simpl; [reflexivity|]. rewrite IH. reflexivity. Qed.

(** [solve_objective] leaves the Pareto set alone. *)
Lemma solve_objective_pareto (o : Z) (mn mx : Q) (st : MOIP) :
  pareto_ (snd (solve_objective cplex_solve o mn mx st)) = pareto_ st.
Proof.
  unfold solve_objective.
  destruct (o =? 1); [|destruct (o =? 2)]; cbn [model_add fst snd];
    match goal with |- context [cplex_solve ?m] => destruct (cplex_solve m) end;
    cbn [snd]; rewrite ?fold_model_remove_pareto; reflexivity.
Qed.

(** C1: along any run of [extend_pareto] that starts from a Pareto set in
    which no structure dominates another (the empty set of a fresh
    [MOIP], for one), the set is in that state after every call of
    [add_solution], and so is the set the run leaves at its end. *)
Theorem extend_pareto_keeps_pareto_ok (fuel : nat) :
  forall (lambdaMin lambdaMax : Q) (st : MOIP),
    pareto_ok (pareto_ st) ->
    let r := extend_pareto cplex_solve fuel lambdaMin lambdaMax st in
    (forall s p, In (s, p) (calls r) -> pareto_ok p) /\
    pareto_ok (pareto_ (final r)).
Proof.
  induction fuel as [|fuel IH]; intros lmin lmax st Hok; cbn zeta.
  - simpl. split; [intros s p []|exact Hok].
  - cbn [extend_pareto].
    pose proof (solve_objective_pareto 2 lmin lmax st) as Hp.
    destruct (solve_objective cplex_solve 2 lmin lmax st) as [[s oa] st1].
    cbn [snd] in Hp.
    destruct (is_empty_structure s); cbn [negb].
    + cbn [calls final]. split; [intros ? ? []|]. rewrite Hp. exact Hok.
    + destruct (is_undominated_yet st1 s) eqn:Hund.
      * assert (Hok2 : pareto_ok (pareto_ (add_solution st1 s))).
        { apply add_solution_ok; [rewrite Hp; exact Hok|exact Hund]. }
        destruct (IH (get_objective_score s 1) lmax _ Hok2) as [Hc Hf].
        cbn [calls final]. split; [|exact Hf].
        intros s' p [Heq|Hin].
        -- inversion Heq; subst. exact Hok2.
        -- eapply Hc. exact Hin.
      * cbn [calls final]. split; [intros ? ? []|]. rewrite Hp. exact Hok.
Qed.

(** ** What [solve_objective] does to the object *)

Lemma elements_app (m1 m2 : list (nat * IloExtractable)) :
  elements (m1 ++ m2) = elements m1 ++ elements m2.
Proof. apply map_app. Qed.

Lemma constraints_app (m1 m2 : list IloExtractable) :
  constraints (m1 ++ m2) = constraints m1 ++ constraints m2.
Proof.
  induction m1 as [|e m1 IH]; simpl; [reflexivity|].
  destruct e; simpl; rewrite IH; reflexivity.
Qed.

Lemma filter_fresh (m : list (nat * IloExtractable)) (h n : nat) :
  (forall h' e, In (h', e) m -> (h' < n)%nat) -> (n <= h)%nat ->
  filter (fun p => negb (Nat.eqb (fst p) h)) m = m.
Proof.
  intros Hm Hh. induction m as [|[h' e] m IH]; simpl; [reflexivity|].
  assert (h' < n)%nat by (apply (Hm h' e); left; reflexivity).
  destruct (Nat.eqb_spec h' h); [lia|]. simpl. f_equal.
  apply IH. intros h'' e' Hin. apply (Hm h'' e'). right. exact Hin.
Qed.

Lemma remove_two (m : list (nat * IloExtractable)) (n : nat) (e1 e2 e3 : IloExtractable) :
  (forall h e, In (h, e) m -> (h < n)%nat) ->
  filter (fun p => negb (Nat.eqb (fst p) (S n)))
         (filter (fun p => negb (Nat.eqb (fst p) n))
                 ((m ++ [(n, e1); (S n, e2)]) ++ [(S (S n), e3)]))
  = m ++ [(S (S n), e3)].
Proof.
  intro Hm.
  rewrite !filter_app, !(@filter_fresh m _ n) by (try exact Hm; lia).
  assert (E1 : Nat.eqb (S n) n = false) by (apply Nat.eqb_neq; lia).
  assert (E2 : Nat.eqb (S (S n)) n = false) by (apply Nat.eqb_neq; lia).
  assert (E3 : Nat.eqb (S (S n)) (S n) = false) by (apply Nat.eqb_neq; lia).
  repeat (cbn [filter fst negb app]; rewrite ?Nat.eqb_refl, ?E1, ?E2, ?E3).
  rewrite app_nil_r. reflexivity.
Qed.

Lemma fresh_after (m extra : list (nat * IloExtractable)) (n n' : nat) :
  (forall h e, In (h, e) m -> (h < n)%nat) ->
  (forall h e, In (h, e) extra -> (h < n')%nat) ->
  (n <= n')%nat ->
  forall h e, In (h, e) (m ++ extra) -> (h < n')%nat.
Proof.
  intros Hm He Hn h e Hin. apply in_app_or in Hin. destruct Hin as [Hin|Hin].
  - apply Hm in Hin. lia.
  - eapply He. exact Hin.
Qed.

(** The object after [solve_objective]: the solver saw [solver_input];
    when it answered, the model gained exactly the forbidding clause of
    the assignment read, and the structure returned is the one built
    from it; when it did not, the empty structure is returned. *)
Lemma solve_objective_spec (o : Z) (mn mx : Q) (st : MOIP) :
  handles_fresh st ->
  match solve_objective cplex_solve o mn mx st with
  | (s, oa, st') =>
      oa = cplex_solve (solver_input o mn mx st) /\
      handles_fresh st' /\
      insertion_dv_size st' = insertion_dv_size st /\
      basepair_dv_size st' = basepair_dv_size st /\
      obj1 st' = obj1 st /\
      match oa with
      | Some a =>
          s = build_structure st a /\
          exists h, model_ st' = model_ st ++ [(h, Constraint (forbid_clause st a))]
      | None =>
          s = SecondaryStructure_empty /\
          exists extra, model_ st' = model_ st ++ extra
      end
  end.
Proof.
  intro Hwf. unfold handles_fresh in Hwf.
  assert (Htwo : forall e3 : IloExtractable,
             let n := next_handle st in
             forall h e, In (h, e) (model_ st ++ [(S (S n), e3)]) -> (h < S (S (S n)))%nat).
  { intros e3 n. apply (@fresh_after _ _ n); [exact Hwf| |lia].
    intros h e [Hin|[]]. inversion Hin. lia. }
  assert (Hadd2 : forall e1 e2 : IloExtractable,
             let n := next_handle st in
             forall h e, In (h, e) (model_ st ++ [(n, e1); (S n, e2)]) -> (h < S (S n))%nat).
  { intros e1 e2 n. apply (@fresh_after _ _ n); [exact Hwf| |lia].
    intros h e [Hin|[Hin|[]]]; inversion Hin; lia. }
  unfold solve_objective, solver_input.
  destruct (o =? 1); [|destruct (o =? 2)]; cbn [model_add fst snd].
  - unfold elements at 1. cbn [model_]. rewrite <- app_assoc, map_app. cbn [app map snd].
    fold (elements (model_ st)).
    destruct (cplex_solve _) as [a|]; cbn [fst snd].
    + split; [reflexivity|]. split; [|split; [reflexivity|split; [reflexivity|split;
        [reflexivity|split; [reflexivity|]]]]].
      * unfold handles_fresh.
        cbn [fold_left model_remove model_ next_handle].
        rewrite remove_two by exact Hwf.
        exact (Htwo _).
      * exists (S (S (next_handle st))).
        cbn [fold_left model_remove model_ next_handle].
        exact (@remove_two _ _ _ _ _ Hwf).
    + split; [reflexivity|]. split; [|split; [reflexivity|split; [reflexivity|split;
        [reflexivity|split; [reflexivity|]]]]].
      * unfold handles_fresh. cbn [model_ next_handle]. apply Hadd2.
      * eexists. cbn [model_]. reflexivity.
  - unfold elements at 1. cbn [model_]. rewrite <- app_assoc, map_app. cbn [app map snd].
    fold (elements (model_ st)).
    destruct (cplex_solve _) as [a|]; cbn [fst snd].
    + split; [reflexivity|]. split; [|split; [reflexivity|split; [reflexivity|split;
        [reflexivity|split; [reflexivity|]]]]].
      * unfold handles_fresh.
        cbn [fold_left model_remove model_ next_handle].
        rewrite remove_two by exact Hwf.
        exact (Htwo _).
      * exists (S (S (next_handle st))).
        cbn [fold_left model_remove model_ next_handle].
        exact (@remove_two _ _ _ _ _ Hwf).
    + split; [reflexivity|]. split; [|split; [reflexivity|split; [reflexivity|split;
        [reflexivity|split; [reflexivity|]]]]].
      * unfold handles_fresh. cbn [model_ next_handle]. apply Hadd2.
      * eexists. cbn [model_]. reflexivity.
  - rewrite app_nil_r.
    destruct (cplex_solve _) as [a|]; cbn [fst snd].
    + split; [reflexivity|]. split; [|split; [reflexivity|split; [reflexivity|split;
        [reflexivity|split; [reflexivity|]]]]].
      * unfold handles_fresh. cbn [fold_left model_ next_handle].
        apply (@fresh_after _ _ (next_handle st)); [exact Hwf| |lia].
        intros h e [Hin|[]]. inversion Hin. lia.
      * eexists. reflexivity.
    + split; [reflexivity|]. split; [exact Hwf|].
      split; [reflexivity|split; [reflexivity|split; [reflexivity|split;
        [reflexivity|exists []; rewrite app_nil_r; reflexivity]]]].
Qed.

(** ** The forbidding clause *)

Lemma sum_terms_app (a : Assignment) (l1 l2 : list (Q * IloNumVar)) :
  (sum_terms a (l1 ++ l2) == sum_terms a l1 + sum_terms a l2)%Q.
Proof.
  induction l1 as [|[q x] l1 IH]; simpl.
  - ring.
  - rewrite IH. ring.
Qed.

(** Each step of the two loops adds, under an assignment [b], one when
    [b] differs from [a] at the variable and zero when it agrees. *)
Lemma eval_forbid_step (a b : Assignment) (x : IloNumVar) (c : IloExpr) :
  (eval b (forbid_step a x c) ==
   eval b c + (if Bool.eqb (a x) (b x) then 0 else 1))%Q.
Proof.
  assert (H1 : above_half 1 = true) by reflexivity.
  assert (H0 : above_half 0 = false) by reflexivity.
  unfold forbid_step, getValue at 1.
  destruct (a x); cbv beta iota; [rewrite H1|rewrite H0];
    unfold eval, plus_one_minus_var, plus_var, plus_term; cbn [constant terms];
    rewrite sum_terms_app; cbn [sum_terms]; unfold getValue;
    destruct (b x); cbn [Bool.eqb]; ring.
Qed.

(** The number of variables of [xs] at which two assignments differ. *)
Lemma eval_forbid_fold (a b : Assignment) (xs : list IloNumVar) :
  forall c,
    (eval b (fold_left (fun c x => forbid_step a x c) xs c) ==
     eval b c + inject_Z (Z.of_nat (List.length
                  (filter (fun x => negb (Bool.eqb (a x) (b x))) xs))))%Q.
Proof.
  induction xs as [|x xs IH]; intro c; cbn [fold_left filter].
  - simpl. ring.
  - rewrite IH, eval_forbid_step.
    destruct (Bool.eqb (a x) (b x)); cbn [negb List.length].
    + ring.
    + rewrite Nat2Z.inj_succ. unfold Z.succ. rewrite inject_Z_plus. ring.
Qed.

Lemma fold_left_map {A B S : Type} (f : S -> B -> S) (g : A -> B) (l : list A) :
  forall s, fold_left f (map g l) s = fold_left (fun s x => f s (g x)) l s.
Proof. induction l as [|x l IH]; intro s; simpl; [reflexivity|apply IH]. Qed.

Lemma forbid_expr_fold (st : MOIP) (a : Assignment) :
  forbid_expr st a = fold_left (fun c x => forbid_step a x c) (all_dvs st) expr_empty.
Proof.
  unfold forbid_expr, all_dvs, for_. rewrite fold_left_app, !fold_left_map. reflexivity.
Qed.

Lemma is_dv_all_dvs (st : MOIP) (x : IloNumVar) : is_dv st x <-> In x (all_dvs st).
Proof.
  unfold all_dvs, is_dv. rewrite in_app_iff, !in_map_iff. split.
  - destruct x as [d|d]; intro H; [left|right]; exists d;
      (split; [reflexivity|apply zrange_In; lia]).
  - intros [[d [<- Hd]]|[d [<- Hd]]]; apply zrange_In in Hd; lia.
Qed.

(** The clause is violated by the assignments that agree with [a] on
    every decision variable, and by no other. *)
Lemma forbid_clause_violated (st : MOIP) (a b : Assignment) :
  holds b (forbid_clause st a) = false <-> same_assignment st a b.
Proof.
  unfold forbid_clause, holds, same_assignment.
  rewrite forbid_expr_fold.
  set (n := List.length (filter (fun x => negb (Bool.eqb (a x) (b x))) (all_dvs st))).
  assert (Hev : (eval b (fold_left (fun c x => forbid_step a x c) (all_dvs st) expr_empty)
                 == inject_Z (Z.of_nat n))%Q).
  { rewrite eval_forbid_fold. unfold eval, expr_empty. simpl. fold n. ring. }
  assert (Hone : (eval b (expr_const 1) == 1)%Q) by (unfold eval; simpl; ring).
  split.
  - intros Hf x Hx.
    assert (Hn : n = 0%nat).
    { destruct n as [|n'] eqn:En; [reflexivity|]. exfalso.
      assert (Hle : Qle_bool (eval b (expr_const 1))
                 (eval b (fold_left (fun c x => forbid_step a x c) (all_dvs st) expr_empty))
                    = true).
      { apply Qle_bool_iff. rewrite Hev, Hone.
        change 1%Q with (inject_Z 1). rewrite <- Zle_Qle. lia. }
      rewrite Hle in Hf. discriminate. }
    apply is_dv_all_dvs in Hx.
    destruct (Bool.eqb (a x) (b x)) eqn:E.
    + apply Bool.eqb_prop in E. symmetry. exact E.
    + exfalso.
      assert (Hin : In x (filter (fun x => negb (Bool.eqb (a x) (b x))) (all_dvs st))).
      { apply filter_In. split; [exact Hx|]. rewrite E. reflexivity. }
      subst n. destruct (filter _ (all_dvs st)); [destruct Hin|discriminate].
  - intro Hsame.
    assert (Hn : n = 0%nat).
    { subst n. destruct (filter _ (all_dvs st)) as [|x l] eqn:E; [reflexivity|].
      exfalso.
      assert (Hin : In x (filter (fun x => negb (Bool.eqb (a x) (b x))) (all_dvs st)))
        by (rewrite E; left; reflexivity).
      apply filter_In in Hin. destruct Hin as [Hin Hneq].
      apply is_dv_all_dvs in Hin. rewrite (Hsame x Hin) in Hneq.
      rewrite Bool.eqb_reflx in Hneq. discriminate. }
    destruct (Qle_bool _ _) eqn:Hle; [|reflexivity].
    apply Qle_bool_iff in Hle. rewrite Hev, Hone, Hn in Hle.
    change 1%Q with (inject_Z 1) in Hle. rewrite <- Zle_Qle in Hle. simpl in Hle. lia.
Qed.

(** ** Along the life of the object *)

Lemma add_solution_model (st : MOIP) (s : SecondaryStructure) :
  model_ (add_solution st s) = model_ st /\
  next_handle (add_solution st s) = next_handle st.
Proof. split; reflexivity. Qed.

(** Constraints are never withdrawn: what the model holds at some point
    it holds ever after. *)
Lemma later_keeps (st st' : MOIP) :
  handles_fresh st -> later cplex_solve st st' ->
  handles_fresh st' /\
  forall c, In c (constraints (elements (model_ st))) ->
            In c (constraints (elements (model_ st'))).
Proof.
  intros Hwf Hl. induction Hl as [|st1 o mn mx Hl IH|st1 s Hl IH].
  - split; [exact Hwf|tauto].
  - destruct IH as [Hwf1 Hc].
    pose proof (solve_objective_spec o mn mx Hwf1) as Hs.
    destruct (solve_objective cplex_solve o mn mx st1) as [[s oa] st2].
    cbn [snd]. destruct Hs as [_ [Hwf2 [_ [_ [_ Hm]]]]].
    split; [exact Hwf2|].
    intros c Hin. apply Hc in Hin.
    assert (Hex : exists extra, model_ st2 = model_ st1 ++ extra).
    { destruct oa; destruct Hm as [_ [x Hx]]; eexists; exact Hx. }
    destruct Hex as [extra ->].
    rewrite elements_app, constraints_app. apply in_or_app. left. exact Hin.
  - destruct IH as [Hwf1 Hc]. split; [exact Hwf1|exact Hc].
Qed.

Lemma solver_input_constraints (o : Z) (mn mx : Q) (st : MOIP) (c : IloConstraint) :
  In c (constraints (elements (model_ st))) ->
  In c (constraints (solver_input o mn mx st)).
Proof.
  intro H. unfold solver_input. rewrite constraints_app. apply in_or_app. left. exact H.
Qed.

Lemma build_structure_obj1 (st : MOIP) (a : Assignment) :
  get_objective_score (build_structure st a) 1 = eval a (obj1 st).
Proof. reflexivity. Qed.

Lemma build_structure_not_empty (st : MOIP) (a : Assignment) :
  is_empty_structure (build_structure st a) = false.
Proof.
  unfold build_structure. cbn [set_objective_score sort is_empty_structure].
  set (f := fun u ss => for_ (u + 4) _ _ ss).
  apply (for_inv (fun ss => is_empty_structure ss = false)).
  - assert (H0 : is_empty_structure SecondaryStructure_new = false) by reflexivity.
    revert H0. generalize SecondaryStructure_new.
    induction (inserted_sites st a) as [|i l IH]; intros ss Hss; simpl; [exact Hss|].
    apply IH. exact Hss.
  - intros u ss _ Hss. unfold f.
    apply (for_inv (fun ss => is_empty_structure ss = false)); [exact Hss|].
    intros v ss' _ Hss'.
    destruct (allowed_basepair _ _ u v); [|exact Hss'].
    destruct (above_half _); [exact Hss'|exact Hss'].
Qed.

(** C3: when [solve_objective] has read an assignment [a] from the
    solver, (1) the model has gained exactly one element, the constraint
    [forbid_expr >= 1] built over every [insertion_dv_[d]] and every
    [basepair_dv_[d]]; (2) an assignment violates this constraint iff it
    agrees with [a] on all these variables; (3) whatever is done with the
    object afterwards, a solver that respects the constraints it is given
    never hands [solve_objective] an assignment that agrees with [a]. *)
Theorem forbid_clause_effect
        (o : Z) (min max : Q) (st st' : MOIP) (s : SecondaryStructure) (a : Assignment) :
  solver_sound cplex_solve ->
  handles_fresh st ->
  solve_objective cplex_solve o min max st = (s, Some a, st') ->
  (exists h, model_ st' = model_ st ++ [(h, Constraint (forbid_clause st a))]) /\
  (forall b, holds b (forbid_clause st a) = false <-> same_assignment st a b) /\
  (forall st'' o' min' max' s' b st3,
      later cplex_solve st' st'' ->
      solve_objective cplex_solve o' min' max' st'' = (s', Some b, st3) ->
      ~ same_assignment st a b).
Proof.
  intros Hsound Hwf Hsolve.
  pose proof (solve_objective_spec o min max Hwf) as Hs.
  rewrite Hsolve in Hs. destruct Hs as [_ [Hwf' [_ [_ [_ [_ Hm]]]]]].
  split; [exact Hm|]. split; [intro b; apply forbid_clause_violated|].
  intros st'' o' mn' mx' s' b st3 Hl Hsolve' Hsame.
  destruct (later_keeps Hwf' Hl) as [Hwf'' Hkeep].
  pose proof (solve_objective_spec o' mn' mx' Hwf'') as Hs'.
  rewrite Hsolve' in Hs'. destruct Hs' as [Hb _].
  assert (Hin : In (forbid_clause st a) (constraints (elements (model_ st')))).
  { destruct Hm as [h ->]. rewrite elements_app, constraints_app.
    apply in_or_app. right. left. reflexivity. }
  apply Hkeep in Hin. apply (solver_input_constraints o' mn' mx') in Hin.
  symmetry in Hb. apply Hsound in Hb. specialize (Hb _ Hin).
  apply forbid_clause_violated in Hsame. congruence.
Qed.

(** ** Monotone discovery *)

(** What [solve_objective] returns: the structure built from the
    solver's answer on [solver_input], or the empty structure. *)
Lemma solve_objective_answer (o : Z) (mn mx : Q) (st : MOIP) :
  match solve_objective cplex_solve o mn mx st with
  | (s, oa, _) =>
      oa = cplex_solve (solver_input o mn mx st) /\
      match oa with
      | Some a => s = build_structure st a
      | None => s = SecondaryStructure_empty
      end
  end.
Proof.
  unfold solve_objective, solver_input.
  destruct (o =? 1); [|destruct (o =? 2)]; cbn [model_add fst snd].
  - unfold elements at 1. cbn [model_]. rewrite <- app_assoc, map_app. cbn [app map snd].
    fold (elements (model_ st)).
    destruct (cplex_solve _) as [a|]; split; reflexivity.
  - unfold elements at 1. cbn [model_]. rewrite <- app_assoc, map_app. cbn [app map snd].
    fold (elements (model_ st)).
    destruct (cplex_solve _) as [a|]; split; reflexivity.
  - rewrite app_nil_r.
    destruct (cplex_solve _) as [a|]; split; reflexivity.
Qed.

(** With a solver that respects the constraints it is given, a structure
    that [solve_objective(2, lambdaMin, lambdaMax)] returns has an [obj1]
    of at least [lambdaMin]. *)
Lemma solve_objective_obj1_lower (lmin lmax : Q) (st st1 : MOIP)
      (s : SecondaryStructure) (oa : option Assignment) :
  solver_sound cplex_solve ->
  solve_objective cplex_solve 2 lmin lmax st = (s, oa, st1) ->
  is_empty_structure s = false ->
  (lmin <= get_objective_score s 1)%Q.
Proof.
  intros Hsound H Hempty.
  pose proof (solve_objective_answer 2 lmin lmax st) as Hs. rewrite H in Hs.
  destruct Hs as [Hoa Hsa].
  destruct oa as [a|]; [|rewrite Hsa in Hempty; discriminate].
  symmetry in Hoa. apply Hsound in Hoa.
  assert (Hin : In (IloRange lmin (obj1 st) lmax)
                   (constraints (solver_input 2 lmin lmax st))).
  { unfold solver_input. rewrite constraints_app. apply in_or_app. right.
    simpl. left. reflexivity. }
  specialize (Hoa _ Hin). simpl in Hoa.
  apply andb_true_iff in Hoa. destruct Hoa as [Hlo _].
  apply Qle_bool_iff in Hlo. rewrite Hsa, build_structure_obj1. exact Hlo.
Qed.

(** The [obj1] values of the structures passed to [add_solution] are at
    least [lambdaMin] and never decrease. *)
Lemma extend_pareto_passed (fuel : nat) :
  forall (lambdaMin lambdaMax : Q) (st : MOIP),
    solver_sound cplex_solve ->
    let passed := map (fun c => get_objective_score (fst c) 1)
                      (calls (extend_pareto cplex_solve fuel lambdaMin lambdaMax st)) in
    Forall (fun v => (lambdaMin <= v)%Q) passed /\
    StronglySorted Qle passed.
Proof.
  induction fuel as [|fuel IH]; intros lmin lmax st Hsound; cbn zeta.
  - simpl. split; constructor.
  - cbn [extend_pareto].
    pose proof (@solve_objective_obj1_lower lmin lmax st) as Hlower.
    destruct (solve_objective cplex_solve 2 lmin lmax st) as [[s oa] st1].
    destruct (is_empty_structure s) eqn:Hempty; cbn [negb];
      [simpl; split; constructor|].
    destruct (is_undominated_yet st1 s); [|simpl; split; constructor].
    cbn [calls map fst].
    assert (Hlo : (lmin <= get_objective_score s 1)%Q)
      by (apply (Hlower st1 s oa Hsound eq_refl Hempty)).
    destruct (IH (get_objective_score s 1) lmax (add_solution st1 s) Hsound)
      as [Hall Hsorted].
    split.
    + constructor; [exact Hlo|].
      eapply Forall_impl; [|exact Hall].
      intros v Hv. cbv beta in Hv. eapply Qle_trans; eassumption.
    + constructor; [exact Hsorted|exact Hall].
Qed.

(** C2: with a solver that respects the constraints it is given, every
    structure that a run of [extend_pareto] passes to [add_solution] has
    an [obj1] of at least [lambdaMin], and the [obj1] values of the
    structures passed, in the order of the calls, never decrease.  The
    recursion raises [lambdaMin] to [obj1(s)]: when [solve_objective]
    returns a structure [s] that is kept, the run is the call of
    [add_solution(s)] followed by the run of
    [extend_pareto(obj1(s), lambdaMax)] on the object that call leaves,
    and every structure this next run passes has an [obj1] of at least
    [obj1(s)]. *)
Theorem extend_pareto_obj1_monotone (fuel : nat) :
  forall (lambdaMin lambdaMax : Q) (st : MOIP),
    solver_sound cplex_solve ->
    let obj1_of r := map (fun c => get_objective_score (fst c) 1) (calls r) in
    let passed := obj1_of (extend_pareto cplex_solve fuel lambdaMin lambdaMax st) in
    Forall (fun v => (lambdaMin <= v)%Q) passed /\
    StronglySorted Qle passed /\
    forall s oa st1,
      solve_objective cplex_solve 2 lambdaMin lambdaMax st = (s, oa, st1) ->
      is_empty_structure s = false ->
      is_undominated_yet st1 s = true ->
      let next := extend_pareto cplex_solve fuel (get_objective_score s 1) lambdaMax
                                (add_solution st1 s) in
      (lambdaMin <= get_objective_score s 1)%Q /\
      extend_pareto cplex_solve (S fuel) lambdaMin lambdaMax st
      = mkRun (final next) ((s, pareto_ (add_solution st1 s)) :: calls next) (returned next) /\
      Forall (fun v => (get_objective_score s 1 <= v)%Q) (obj1_of next).
Proof.
  intros lmin lmax st Hsound. cbv zeta.
  destruct (@extend_pareto_passed fuel lmin lmax st Hsound) as [Hall Hsorted].
  split; [exact Hall|]. split; [exact Hsorted|].
  intros s oa st1 Hsolve Hempty Hund. split; [|split].
  - apply (@solve_objective_obj1_lower lmin lmax st st1 s oa Hsound Hsolve Hempty).
  - cbn [extend_pareto]. rewrite Hsolve, Hempty, Hund. reflexivity.
  - apply (@extend_pareto_passed fuel (get_objective_score s 1) lmax (add_solution st1 s)
             Hsound).
Qed.

End WalkerFacts.

(** ** The constraints of the model *)

Lemma for_split {S : Type} (a b k : Z) (body : Z -> S -> S) (s : S) :
  a <= k <= b + 1 ->
  for_ a b body s = for_ k b body (for_ a (k - 1) body s).
Proof.
  intro H.
  remember (Z.to_nat (b + 1 - k)) as m eqn:Hm.
  revert b H Hm. induction m as [|m IH]; intros b H Hm.
  - assert (k = b + 1) by lia. subst k.
    rewrite (@for_empty _ (b + 1) b) by lia. f_equal. lia.
  - rewrite (@for_last _ a b) by lia. rewrite (@for_last _ k b) by lia.
    f_equal. apply IH; lia.
Qed.

(** A loop whose body only appends keeps what the list held. *)
Lemma for_incl {A : Type} (a b : Z) (body : Z -> list A -> list A) (m : list A) :
  (forall k m, incl m (body k m)) -> incl m (for_ a b body m).
Proof.
  intro Hb. apply (for_inv (fun m' => incl m m')).
  - apply incl_refl.
  - intros k m' _ Hm. eapply incl_tran; [exact Hm|apply Hb].
Qed.

(** What iteration [k] of an appending loop adds is in the result. *)
Lemma for_In {A : Type} (a b k : Z) (body : Z -> list A -> list A) (m : list A) (c : A) :
  a <= k <= b ->
  (forall k m, incl m (body k m)) ->
  (forall m, In c (body k m)) ->
  In c (for_ a b body m).
Proof.
  intros Hk Hb Hc.
  rewrite (@for_split _ a b k) by lia. rewrite for_first by lia.
  apply for_incl; [exact Hb|]. apply Hc.
Qed.

Lemma constraints_with_handles (cs : list IloConstraint) :
  forall h, constraints (elements (with_handles h cs)) = cs.
Proof.
  induction cs as [|c cs IH]; intro h; simpl; [reflexivity|].
  f_equal. apply IH.
Qed.

Lemma with_handles_fresh (cs : list IloConstraint) :
  forall h0 h e, In (h, e) (with_handles h0 cs) -> (h < h0 + List.length cs)%nat.
Proof.
  induction cs as [|c cs IH]; intros h0 h e Hin; simpl in Hin; [destruct Hin|].
  destruct Hin as [Hin|Hin].
  - inversion Hin. simpl. lia.
  - apply IH in Hin. simpl. lia.
Qed.

(** A freshly built object has its handles in order, its Pareto set
    empty, and the constraints of [define_problem_constraints]. *)
Lemma MOIP_new_spec (rna : RNAData) (sites : list Motif) (theta : Q) :
  let st := MOIP_new rna sites theta in
  handles_fresh st /\ pareto_ st = [] /\
  insertion_sites_ st = sites /\
  constraints (elements (model_ st))
  = define_problem_constraints (get_RNA_length rna) sites (index_of_yuv_ st) (index_of_Cxip_ st) /\
  (index_of_first_components st, index_of_Cxip_ st, insertion_dv_size st) = build_Cxip sites.
Proof.
  unfold MOIP_new.
  destruct (build_yuv rna theta) as [yuv c].
  destruct (build_Cxip sites) as [[firsts Cxip] i].
  cbn [model_ pareto_ index_of_yuv_ index_of_Cxip_ insertion_sites_
       index_of_first_components insertion_dv_size].
  split; [|split; [reflexivity|split; [reflexivity|split;
    [apply constraints_with_handles|reflexivity]]]].
  unfold handles_fresh. cbn [model_ next_handle].
  intros h e Hin. apply with_handles_fresh in Hin. lia.
Qed.

Section K6Facts.

Variable n : Z.
Variable sites : list Motif.
Variable yuv : list (list Z).
Variable Cxip : list (list Z).

Lemma K6_closing_In (m : list IloConstraint) (i : Z) :
  0 <= i < Z.of_nat (List.length sites) ->
  In (K6_closing n sites yuv Cxip i) (K6 n sites yuv Cxip m).
Proof.
  intro Hi. unfold K6. apply (for_In (k := i)); [lia| |].
  - intros k m'. destruct (comp_size (site sites k) =? 1).
    + apply incl_appl, incl_refl.
    + eapply incl_tran; [apply incl_appl, incl_refl|].
      apply for_incl. intros j m''. apply incl_appl, incl_refl.
  - intro m'. destruct (comp_size (site sites i) =? 1).
    + apply in_or_app. right. left. reflexivity.
    + apply for_incl; [intros j m''; apply incl_appl, incl_refl|].
      apply in_or_app. right. left. reflexivity.
Qed.

Lemma K6_between_In (m : list IloConstraint) (i j : Z) :
  0 <= i < Z.of_nat (List.length sites) ->
  0 <= j -> j + 1 < comp_size (site sites i) ->
  In (K6_between n sites yuv Cxip i j) (K6 n sites yuv Cxip m).
Proof.
  intros Hi Hj Hj'. unfold K6. apply (for_In (k := i)); [lia| |].
  - intros k m'. destruct (comp_size (site sites k) =? 1).
    + apply incl_appl, incl_refl.
    + eapply incl_tran; [apply incl_appl, incl_refl|].
      apply for_incl. intros j' m''. apply incl_appl, incl_refl.
  - intro m'. destruct (Z.eqb_spec (comp_size (site sites i)) 1) as [E|E]; [lia|].
    apply (for_In (k := j)).
    + unfold size_pred. destruct (Z.eqb_spec (comp_size (site sites i)) 0); lia.
    + intros j' m''. apply incl_appl, incl_refl.
    + intro m''. apply in_or_app. right. left. reflexivity.
Qed.

End K6Facts.

(** A variable bounded by the empty sum is zero. *)
Lemma holds_le_empty (a : Assignment) (x : IloNumVar) :
  holds a (Le (expr_var x) expr_empty) = true -> a x = false.
Proof.
  unfold holds, eval, expr_var, expr_empty, getValue. cbn [constant terms sum_terms].
  unfold getValue. destruct (a x); [discriminate|reflexivity].
Qed.

Lemma Cxip_row_closed (cs : list Component) :
  forall row i,
    fold_left (fun '(row, i) (_ : Component) => (row ++ [i], i + 1)) cs (row, i)
    = (row ++ map (fun k => i + Z.of_nat k) (seq 0 (List.length cs)),
       i + Z.of_nat (List.length cs)).
Proof.
  induction cs as [|c cs IH]; intros row i.
  - simpl. rewrite app_nil_r. f_equal. lia.
  - cbn [fold_left List.length seq map]. rewrite IH, <- app_assoc.
    f_equal.
    + f_equal. cbn [app]. f_equal; [f_equal; lia|].
      rewrite <- seq_shift, map_map. apply map_ext. intro k. lia.
    + lia.
Qed.

(** The tables of the C variables in closed form. *)
Lemma build_Cxip_closed (sites : list Motif) :
  forall firsts0 table0 i0,
    fold_left (fun '(firsts, table, i) m =>
                 let '(row, i') :=
                   fold_left (fun '(row, i) (_ : Component) => (row ++ [i], i + 1))
                             (comp m) ([], i) in
                 (firsts ++ [i], table ++ [row], i'))
              sites (firsts0, table0, i0)
    = (firsts0 ++ map fst (Cxip_rows i0 sites),
       table0 ++ map snd (Cxip_rows i0 sites),
       fold_left (fun i m => i + Z.of_nat (List.length (comp m))) sites i0).
Proof.
  induction sites as [|m sites IH]; intros firsts0 table0 i0.
  - simpl. rewrite !app_nil_r. reflexivity.
  - cbn [fold_left Cxip_rows map fst snd]. rewrite Cxip_row_closed. cbn [app].
    rewrite IH, <- !app_assoc. reflexivity.
Qed.

Lemma Cxip_rows_first (sites : list Motif) :
  forall (i0 : Z) (x : nat),
    (x < List.length sites)%nat ->
    comp (nth x sites (mkMotif [] [] "" "" "" 0 false false RNA3DMOTIF)) <> [] ->
    nth 0 (nth x (map snd (Cxip_rows i0 sites)) []) 0
    = nth x (map fst (Cxip_rows i0 sites)) 0.
Proof.
  induction sites as [|m sites IH]; intros i0 x Hx Hne; simpl in Hx; [lia|].
  destruct x as [|x]; cbn [Cxip_rows map nth fst snd].
  - cbn [nth] in Hne. destruct (comp m); [congruence|]. simpl. f_equal. lia.
  - apply IH; [lia|exact Hne].
Qed.

(** In a fresh object, the entry of a site in [index_of_first_components]
    is the rank of its component 0. *)
Lemma MOIP_new_first_component (rna : RNAData) (sites : list Motif) (theta : Q) (i : Z) :
  let st := MOIP_new rna sites theta in
  0 <= i < Z.of_nat (List.length sites) ->
  1 <= comp_size (site sites i) ->
  nth (Z.to_nat i) (index_of_first_components st) 0
  = get_Cpxi_index (index_of_Cxip_ st) i 0.
Proof.
  intros st Hi Hc.
  destruct (MOIP_new_spec rna sites theta) as [_ [_ [_ [_ Ht]]]]. fold st in Ht.
  unfold build_Cxip in Ht. rewrite build_Cxip_closed in Ht. cbn [app] in Ht.
  inversion Ht as [[Hf Hx Hs]]. clear Ht.
  unfold get_Cpxi_index, at2. change (Z.to_nat 0) with 0%nat.
  symmetry. rewrite Hf, Hx. apply Cxip_rows_first; [lia|].
  unfold comp_size, site in Hc. intro E. rewrite E in Hc. simpl in Hc. lia.
Qed.

(** C6: in the model a fresh [MOIP] holds, a candidate site [i] whose
    closing pair (first position of component 0, last position of the
    last component) is not allowed gets the constraint [C(i,0) <= 0]
    (an empty right-hand sum); every assignment feasible for the model
    then has C(i,0) = 0, and [solve_objective], reading it, does not
    insert the site.  Likewise, when the pair between the end of
    component [j] and the start of component [j+1] is not allowed, the
    model holds [C(i,j) <= 0] and every feasible assignment has
    C(i,j) = 0. *)
Theorem K6_forbids_unclosed_sites
        (rna : RNAData) (sites : list Motif) (theta : Q) (i : Z) :
  let st := MOIP_new rna sites theta in
  let n := get_RNA_length rna in
  let x := site sites i in
  let allowed := allowed_basepair n (index_of_yuv_ st) in
  let Cv := C (index_of_Cxip_ st) in
  let cs := constraints (elements (model_ st)) in
  0 <= i < Z.of_nat (List.length sites) ->
  1 <= comp_size x ->
  (allowed (fst (pos (component x 0))) (snd (pos (comp_back x))) = false ->
   In (Le (expr_var (Cv i 0)) expr_empty) cs /\
   forall a, feasible (elements (model_ st)) a ->
             a (Cv i 0) = false /\ ~ In i (inserted_sites st a)) /\
  (forall j, 0 <= j -> j + 1 < comp_size x ->
     allowed (snd (pos (component x j))) (fst (pos (component x (j + 1)))) = false ->
     In (Le (expr_var (Cv i j)) expr_empty) cs /\
     forall a, feasible (elements (model_ st)) a -> a (Cv i j) = false).
Proof.
  intros st n x allowed Cv cs Hi Hx.
  destruct (MOIP_new_spec rna sites theta) as [_ [_ [Hsites [Hcs _]]]].
  fold st in Hsites, Hcs. fold cs in Hcs. fold n in Hcs.
  split.
  - intro Hna.
    assert (Hin : In (Le (expr_var (Cv i 0)) expr_empty) cs).
    { rewrite Hcs. unfold define_problem_constraints.
      pose proof (@K6_closing_In n sites (index_of_yuv_ st) (index_of_Cxip_ st)
                    (K5 sites (index_of_Cxip_ st)
                      (K4 n sites (index_of_Cxip_ st)
                        (K3 n sites (index_of_yuv_ st) (index_of_Cxip_ st)
                          (K2p n (index_of_yuv_ st)
                            (K2 n (index_of_yuv_ st) (K1 n (index_of_yuv_ st) []))))))
                    i Hi) as H.
      unfold K6_closing in H. fold x in H. fold allowed in H. rewrite Hna in H.
      exact H. }
    split; [exact Hin|].
    intros a Hfeas.
    assert (Ha : a (Cv i 0) = false) by (apply holds_le_empty, Hfeas, Hin).
    split; [exact Ha|].
    unfold inserted_sites. rewrite filter_In. intros [_ Hsel].
    pose proof (@MOIP_new_first_component rna sites theta i Hi Hx) as Hf.
    cbv zeta in Hf. fold st in Hf. rewrite Hf in Hsel.
    unfold Cv, C in Ha. unfold getValue in Hsel. rewrite Ha in Hsel. discriminate.
  - intros j Hj Hj' Hna.
    assert (Hin : In (Le (expr_var (Cv i j)) expr_empty) cs).
    { rewrite Hcs. unfold define_problem_constraints.
      pose proof (@K6_between_In n sites (index_of_yuv_ st) (index_of_Cxip_ st)
                    (K5 sites (index_of_Cxip_ st)
                      (K4 n sites (index_of_Cxip_ st)
                        (K3 n sites (index_of_yuv_ st) (index_of_Cxip_ st)
                          (K2p n (index_of_yuv_ st)
                            (K2 n (index_of_yuv_ st) (K1 n (index_of_yuv_ st) []))))))
                    i j Hi Hj Hj') as H.
      unfold K6_between in H. fold x in H. fold allowed in H. rewrite Hna in H.
      exact H. }
    split; [exact Hin|].
    intros a Hfeas. apply holds_le_empty, Hfeas, Hin.
Qed.

(** ** The table of the y variables *)

Lemma put_row {A : Type} (rows : list (list A)) :
  forall (u : nat) (x : A), (u < List.length rows)%nat ->
    let rows' := firstn u rows ++ [nth u rows [] ++ [x]] ++ skipn (S u) rows in
    List.length rows' = List.length rows /\
    forall u', nth u' rows' [] = if Nat.eqb u' u then nth u rows [] ++ [x] else nth u' rows [].
Proof.
  induction rows as [|r rows IH]; intros u x Hu; simpl in Hu; [lia|].
  destruct u as [|u].
  - cbn. split; [reflexivity|]. intros [|u']; reflexivity.
  - destruct (IH u x ltac:(lia)) as [Hl Hn]. cbn zeta in *.
    cbn [firstn nth skipn app List.length] in *. split; [now rewrite Hl|].
    intros [|u']; [reflexivity|]. cbn [nth Nat.eqb]. apply Hn.
Qed.

Lemma build_yuv_upto (rna : RNAData) (theta : Q) :
  let n := get_RNA_length rna in
  6 <= n < 2 ^ 16 ->
  yuv_upto n (likely rna theta) (n - 6) (n - 6 + 4) (build_yuv rna theta).
Proof.
  intros n Hn. unfold build_yuv. fold n.
  rewrite (wrap32_small (z := n - 6)) by lia.
  match goal with
  | |- yuv_upto _ _ _ _ (for_ 0 _ ?body ?init) =>
      pose proof (@for_ind _ (fun u st => yuv_upto n (likely rna theta) u (u + 4) st)
                    0 (n - 6 - 1) body init) as H
  end.
  replace (n - 6 - 1 + 1) with (n - 6) in H by lia.
  apply H; clear H; [lia| |].
  - (* start *)
    unfold yuv_upto. rewrite repeat_length. split; [reflexivity|]. split; [lia|].
    split; [|split].
    + intros u' Hu'. rewrite nth_repeat. simpl.
      destruct (Z.ltb_spec u' 0); [lia|]. destruct (Z.eqb_spec u' 0); lia.
    + intros u' v' Hu' Hv' Hs. unfold seen in Hs. lia.
    + intros u1 v1 u2 v2 _ _ H2 H2' Hs. unfold seen in Hs. lia.
  - (* one row *)
    intros u st Hu Hst.
    assert (Hrow : yuv_upto n (likely rna theta) u (n - 1 + 1)
              (for_ (u + 4) (n - 1)
                 (fun v '(rows, c) =>
                    let row := nth (Z.to_nat u) rows [] in
                    let put x := firstn (Z.to_nat u) rows ++ [row ++ [x]]
                                 ++ skipn (S (Z.to_nat u)) rows in
                    if negb (Qle_bool (get_pij rna u v) theta)
                    then (put c, c + 1) else (put (no_yuv n), c)) st)).
    { apply (for_ind (fun v st => yuv_upto n (likely rna theta) u v st)); [lia|exact Hst|].
      clear st Hst. intros v [rows c] Hv [Hlen [Hc [Hrows [Hval Hmono]]]].
      assert (Hnm : no_yuv n = n * n + 1)
        by (unfold no_yuv; apply wrap32_small; assert (n * n <= 65535 * 65535) by nia; lia).
      pose proof (Hrows u ltac:(lia)) as Hru.
      rewrite Z.ltb_irrefl, Z.eqb_refl in Hru.
      assert (Hput : forall x c',
                 0 <= c' <= u * n + (v + 1 - u - 4) -> c <= c' ->
                 (if likely rna theta u v then 0 <= x < c' else x = n * n + 1) ->
                 (likely rna theta u v = true -> x = c) ->
                 yuv_upto n (likely rna theta) u (v + 1)
                   (firstn (Z.to_nat u) rows ++ [nth (Z.to_nat u) rows [] ++ [x]]
                    ++ skipn (S (Z.to_nat u)) rows, c')).
      { intros x c' Hc' Hcc Hx Hxc.
        destruct (@put_row _ rows (Z.to_nat u) x ltac:(lia)) as [Hl Hn'].
        cbv zeta in Hl, Hn'.
        assert (Hat : forall u' k, 0 <= u' < n - 6 -> 0 <= k ->
                   at2 (firstn (Z.to_nat u) rows ++ [nth (Z.to_nat u) rows [] ++ [x]]
                        ++ skipn (S (Z.to_nat u)) rows) u' k
                   = if (u' =? u) && (k =? v - u - 4) then x
                     else if (u' =? u) && (v - u - 4 <? k) then 0
                     else at2 rows u' k).
        { intros u' k Hu' Hk. unfold at2. rewrite Hn'.
          destruct (Nat.eqb_spec (Z.to_nat u') (Z.to_nat u)) as [E|E].
          - assert (u' = u) by lia. subst u'. rewrite Z.eqb_refl. cbn [andb].
            destruct (Z.eqb_spec k (v - u - 4)) as [Ek|Ek].
            + rewrite app_nth2 by lia.
              replace (Z.to_nat k - List.length (nth (Z.to_nat u) rows []))%nat with 0%nat by lia.
              reflexivity.
            + destruct (Z.ltb_spec (v - u - 4) k) as [Ek'|Ek'].
              * rewrite nth_overflow; [reflexivity|]. rewrite length_app. simpl. lia.
              * rewrite app_nth1 by lia. reflexivity.
          - destruct (Z.eqb_spec u' u); [lia|]. reflexivity. }
        unfold yuv_upto. split; [rewrite Hl; exact Hlen|]. split; [exact Hc'|].
        split; [|split].
        - intros u' Hu'. rewrite Hn'.
          destruct (Nat.eqb_spec (Z.to_nat u') (Z.to_nat u)) as [E|E].
          + assert (u' = u) by lia. subst u'. rewrite Z.ltb_irrefl, Z.eqb_refl.
            rewrite length_app. simpl. lia.
          + rewrite (Hrows u' Hu'). destruct (Z.ltb_spec u' u); [reflexivity|].
            destruct (Z.eqb_spec u' u); [lia|reflexivity].
        - intros u' v' Hu' Hv' Hs. rewrite Hat by lia.
          destruct (Z.eqb_spec u' u) as [Eu|Eu]; cbn [andb].
          + subst u'. destruct (Z.eqb_spec (v' - 4 - u) (v - u - 4)) as [Ev|Ev].
            * assert (v' = v) by lia. subst v'. exact Hx.
            * destruct (Z.ltb_spec (v - u - 4) (v' - 4 - u)); [unfold seen in Hs; lia|].
              pose proof (Hval u v' Hu' Hv') as Hv0. unfold seen in *.
              specialize (Hv0 ltac:(lia)). destruct (likely rna theta u v'); lia.
          + pose proof (Hval u' v' Hu' Hv') as Hv0. unfold seen in *.
            specialize (Hv0 ltac:(lia)). destruct (likely rna theta u' v'); lia.
        - intros u1 v1 u2 v2 H1 H1' H2 H2' Hs2 Hs12 Ha1 Ha2.
          rewrite !Hat by lia. unfold seen in *.
          assert (E1 : (u1 =? u) && (v1 - 4 - u1 =? v - u - 4) = false).
          { apply andb_false_iff.
            destruct (Z.eqb_spec u1 u); [right; apply Z.eqb_neq; lia|left; reflexivity]. }
          assert (E1' : (u1 =? u) && (v - u - 4 <? v1 - 4 - u1) = false).
          { apply andb_false_iff.
            destruct (Z.eqb_spec u1 u); [right; apply Z.ltb_ge; lia|left; reflexivity]. }
          rewrite E1, E1'.
          destruct ((u2 =? u) && (v2 - 4 - u2 =? v - u - 4)) eqn:E2.
          + apply andb_true_iff in E2. destruct E2 as [Eu Ev].
            apply Z.eqb_eq in Eu, Ev. assert (Evv : v2 = v) by lia. subst u2 v2.
            rewrite (Hxc Ha2).
            pose proof (Hval u1 v1 H1 H1' ltac:(unfold seen; lia)) as Hv0.
            rewrite Ha1 in Hv0. lia.
          + assert (E2' : (u2 =? u) && (v - u - 4 <? v2 - 4 - u2) = false).
            { apply andb_false_iff.
              destruct (Z.eqb_spec u2 u); [right; apply Z.ltb_ge; lia|left; reflexivity]. }
            rewrite E2'. apply Hmono; try assumption; unfold seen; lia. }
      cbv beta iota zeta. fold (likely rna theta u v).
      destruct (likely rna theta u v) eqn:El.
      - apply Hput; first [lia|reflexivity].
      - rewrite Hnm. apply Hput; first [lia|discriminate]. }
    clear Hst. destruct (for_ (u + 4) (n - 1) _ st) as [rows c].
    replace (n - 1 + 1) with n in Hrow by lia.
    destruct Hrow as [Hlen [Hc [Hrows [Hval Hmono]]]].
    unfold yuv_upto. split; [exact Hlen|]. split; [nia|]. split; [|split].
    + intros u' Hu'. rewrite (Hrows u' Hu').
      destruct (Z.ltb_spec u' u); destruct (Z.ltb_spec u' (u + 1));
        destruct (Z.eqb_spec u' u); destruct (Z.eqb_spec u' (u + 1)); lia.
    + intros u' v' Hu' Hv' Hs. apply Hval; [exact Hu'|exact Hv'|]. unfold seen in *. lia.
    + intros u1 v1 u2 v2 H1 H1' H2 H2' Hs2 Hs12. apply Hmono; try assumption.
      unfold seen in *. lia.
Qed.

Lemma MOIP_new_yuv (rna : RNAData) (sites : list Motif) (theta : Q) :
  let st := MOIP_new rna sites theta in
  (index_of_yuv_ st, basepair_dv_size st) = build_yuv rna theta /\
  rna_ st = rna /\ theta_ st = theta.
Proof.
  unfold MOIP_new.
  destruct (build_yuv rna theta) as [yuv c].
  destruct (build_Cxip sites) as [[firsts Cxip] i].
  cbn. repeat split.
Qed.

Lemma likely_Qlt (rna : RNAData) (theta : Q) (u v : Z) :
  likely rna theta u v = true <-> (theta < get_pij rna u v)%Q.
Proof.
  unfold likely. rewrite negb_true_iff. split.
  - intro H. apply Qnot_le_lt. intro Hle. apply Qle_bool_iff in Hle. congruence.
  - intro H. destruct (Qle_bool (get_pij rna u v) theta) eqn:E; [|reflexivity].
    apply Qle_bool_iff in E. exfalso. exact (Qlt_not_le _ _ H E).
Qed.

(** [allowed_basepair] and [get_yuv_index] do not depend on the order of
    their arguments. *)
Lemma get_yuv_index_sym (yuv : list (list Z)) (u v : Z) :
  get_yuv_index yuv u v = get_yuv_index yuv v u.
Proof.
  unfold get_yuv_index.
  destruct (Z.ltb_spec u v); destruct (Z.ltb_spec v u); try lia; try reflexivity.
  assert (u = v) by lia. subst. reflexivity.
Qed.

Lemma allowed_basepair_sym (n : Z) (yuv : list (list Z)) (u v : Z) :
  allowed_basepair n yuv u v = allowed_basepair n yuv v u.
Proof.
  unfold allowed_basepair.
  destruct (Z.ltb_spec u v); destruct (Z.ltb_spec v u); try lia; try reflexivity.
  assert (u = v) by lia. subst. reflexivity.
Qed.

Lemma allowed_basepair_range (n : Z) (yuv : list (list Z)) (u v : Z) :
  allowed_basepair n yuv u v = true ->
  Z.min u v + 4 <= Z.max u v /\ Z.max u v < n.
Proof.
  unfold allowed_basepair. cbv zeta.
  destruct (Z.ltb_spec u v);
    repeat match goal with
           | |- context [if ?b then _ else _] => destruct b eqn:?
           end; intro; try discriminate; lia.
Qed.

Lemma allowed_iff_likely
        (rna : RNAData) (sites : list Motif) (theta : Q) (u v : Z) :
  let st := MOIP_new rna sites theta in
  let n := get_RNA_length rna in
  6 <= n < 2 ^ 16 -> 0 <= u -> 0 <= v ->
  (allowed_basepair n (index_of_yuv_ st) u v = true <->
   Z.min u v + 4 <= Z.max u v /\ Z.min u v < n - 6 /\ Z.max u v < n /\
   (theta < get_pij rna (Z.min u v) (Z.max u v))%Q).
Proof.
  intros st n Hn Hu Hv.
  destruct (MOIP_new_yuv rna sites theta) as [Hy _]. fold st in Hy.
  pose proof (@build_yuv_upto rna theta Hn) as Hinv. fold n in Hinv.
  rewrite <- Hy in Hinv. destruct Hinv as [_ [Hc [_ [Hval _]]]].
  rewrite <- likely_Qlt.
  assert (Hmark : no_yuv n = n * n + 1)
    by (unfold no_yuv; apply wrap32_small; assert (n * n <= 65535 * 65535) by nia; lia).
  assert (Hord : forall a b, 0 <= a -> a + 4 <= b ->
            (allowed_basepair n (index_of_yuv_ st) a b = true <->
             a < n - 6 /\ b < n /\ likely rna theta a b = true)).
  { intros a b Ha Hab. unfold allowed_basepair. cbv zeta.
    replace (a <? b) with true by (symmetry; apply Z.ltb_lt; lia).
    rewrite (wrap32_small (z := n - 6)) by lia. rewrite Hmark.
    destruct (Z.ltb_spec (b - a) 4); [lia|].
    destruct (Z.leb_spec (n - 6) a); [split; [discriminate|lia]|].
    destruct (Z.leb_spec n b); [split; [discriminate|lia]|].
    unfold get_yuv_index.
    replace (a <? b) with true by (symmetry; apply Z.ltb_lt; lia).
    replace (b <? a) with false by (symmetry; apply Z.ltb_ge; lia).
    pose proof (Hval a b ltac:(lia) ltac:(lia) ltac:(unfold seen; lia)) as Hab'.
    destruct (likely rna theta a b).
    - destruct (Z.eqb_spec (at2 (index_of_yuv_ st) a (b - 4 - a)) (n * n + 1)) as [E|E];
        [nia|]. split; [intros _; repeat split; lia|reflexivity].
    - rewrite Hab', Z.eqb_refl. split; [discriminate|intros [_ [_ H']]; discriminate]. }
  destruct (Z.le_gt_cases u v) as [Huv|Huv].
  - rewrite Z.min_l, Z.max_r by lia. split.
    + intro H. pose proof (allowed_basepair_range _ _ _ _ H) as Hr.
      rewrite Z.min_l, Z.max_r in Hr by lia.
      apply Hord in H; [|lia|lia]. split; [lia|exact H].
    + intros [H1 H2]. apply Hord; [lia|lia|exact H2].
  - rewrite Z.min_r, Z.max_l by lia. rewrite allowed_basepair_sym. split.
    + intro H. pose proof (allowed_basepair_range _ _ _ _ H) as Hr.
      rewrite Z.min_l, Z.max_r in Hr by lia.
      apply Hord in H; [|lia|lia]. split; [lia|exact H].
    + intros [H1 H2]. apply Hord; [lia|lia|exact H2].
Qed.

(** X15: after the constructor, a pair is allowed exactly when its two
    nucleotides are at least 4 apart, the smaller one is below [n - 6],
    the larger one below [n], and its probability is above the
    threshold. *)
Theorem allowed_basepair_iff_threshold
        (rna : RNAData) (sites : list Motif) (theta : Q) (u v : Z) :
  let st := MOIP_new rna sites theta in
  let n := get_RNA_length rna in
  6 <= n < 2 ^ 16 -> 0 <= u -> 0 <= v ->
  (allowed_basepair n (index_of_yuv_ st) u v = true <->
   Z.min u v + 4 <= Z.max u v /\ Z.min u v < n - 6 /\ Z.max u v < n /\
   (theta < get_pij rna (Z.min u v) (Z.max u v))%Q).
Proof. apply allowed_iff_likely. Qed.

(** X16: after the constructor, the variable of an allowed pair is inside
    [basepair_dv_], and two different allowed pairs have different
    variables. *)
Theorem basepair_variables_distinct
        (rna : RNAData) (sites : list Motif) (theta : Q) (u v u' v' : Z) :
  let st := MOIP_new rna sites theta in
  let n := get_RNA_length rna in
  6 <= n < 2 ^ 16 -> 0 <= u < v -> 0 <= u' < v' ->
  allowed_basepair n (index_of_yuv_ st) u v = true ->
  allowed_basepair n (index_of_yuv_ st) u' v' = true ->
  (exists d, y (index_of_yuv_ st) u v = basepair_dv d /\ 0 <= d < basepair_dv_size st) /\
  (y (index_of_yuv_ st) u v = y (index_of_yuv_ st) u' v' -> u = u' /\ v = v').
Proof.
  intros st n Hn Hu Hu' Ha Ha'.
  pose proof (proj1 (@allowed_iff_likely rna sites theta u v Hn
                       ltac:(lia) ltac:(lia)) Ha) as H1.
  pose proof (proj1 (@allowed_iff_likely rna sites theta u' v' Hn
                       ltac:(lia) ltac:(lia)) Ha') as H2.
  rewrite Z.min_l, Z.max_r in H1, H2 by lia.
  destruct H1 as [H1a [H1b [H1c H1d]]]. destruct H2 as [H2a [H2b [H2c H2d]]].
  apply likely_Qlt in H1d, H2d.
  destruct (MOIP_new_yuv rna sites theta) as [Hy _]. fold st in Hy.
  pose proof (@build_yuv_upto rna theta Hn) as Hinv. fold n in Hinv.
  rewrite <- Hy in Hinv. destruct Hinv as [_ [Hc [_ [Hval Hmono]]]].
  assert (Hidx : forall a b, a < b -> get_yuv_index (index_of_yuv_ st) a b
                                      = at2 (index_of_yuv_ st) a (b - 4 - a)).
  { intros a b Hab. unfold get_yuv_index.
    replace (a <? b) with true by (symmetry; apply Z.ltb_lt; lia).
    replace (b <? a) with false by (symmetry; apply Z.ltb_ge; lia). reflexivity. }
  unfold y. rewrite !Hidx by lia. split.
  - eexists. split; [reflexivity|].
    pose proof (Hval u v ltac:(lia) ltac:(lia) ltac:(unfold seen; lia)) as Hv.
    rewrite H1d in Hv. exact Hv.
  - intro E. inversion E as [E']. clear E.
    destruct (Z.lt_trichotomy u u') as [Hlt|[Heq|Hgt]].
    + pose proof (Hmono u v u' v' ltac:(lia) ltac:(lia) ltac:(lia) ltac:(lia)
                    ltac:(unfold seen; lia) ltac:(unfold seen; lia) H1d H2d). lia.
    + subst u'. destruct (Z.lt_trichotomy v v') as [Hlt|[Heq|Hgt]].
      * pose proof (Hmono u v u v' ltac:(lia) ltac:(lia) ltac:(lia) ltac:(lia)
                      ltac:(unfold seen; lia) ltac:(unfold seen; lia) H1d H2d). lia.
      * split; [reflexivity|exact Heq].
      * pose proof (Hmono u v' u v ltac:(lia) ltac:(lia) ltac:(lia) ltac:(lia)
                      ltac:(unfold seen; lia) ltac:(unfold seen; lia) H2d H1d). lia.
    + pose proof (Hmono u' v' u v ltac:(lia) ltac:(lia) ltac:(lia) ltac:(lia)
                    ltac:(unfold seen; lia) ltac:(unfold seen; lia) H2d H1d). lia.
Qed.

(** ** Sums of 0/1 variables *)

Section Counting.

Variable A : Type.
Variable a : Assignment.
Variable X : A -> IloNumVar.

Lemma count_set_nil : count_set a X [] = 0.
Proof. reflexivity. Qed.

Lemma count_set_cons (v : A) (L : list A) :
  count_set a X (v :: L) = (if a (X v) then 1 else 0) + count_set a X L.
Proof.
  unfold count_set. cbn [filter]. destruct (a (X v)); cbn [List.length]; lia.
Qed.

Lemma count_set_app (L1 L2 : list A) :
  count_set a X (L1 ++ L2) = count_set a X L1 + count_set a X L2.
Proof. unfold count_set. rewrite filter_app, length_app. lia. Qed.

Lemma count_set_bounds (L : list A) :
  0 <= count_set a X L <= Z.of_nat (List.length L).
Proof.
  unfold count_set. pose proof (filter_length_le (fun v => a (X v)) L). lia.
Qed.

Lemma count_set_one (L : list A) (v : A) :
  In v L -> a (X v) = true -> 1 <= count_set a X L.
Proof.
  induction L as [|x L IH]; intros Hin Ha; [destruct Hin|].
  rewrite count_set_cons. pose proof (count_set_bounds L).
  destruct Hin as [->|Hin].
  - rewrite Ha. lia.
  - specialize (IH Hin Ha). destruct (a (X x)); lia.
Qed.

Lemma count_set_two (L : list A) (v1 v2 : A) :
  In v1 L -> In v2 L -> v1 <> v2 -> a (X v1) = true -> a (X v2) = true ->
  2 <= count_set a X L.
Proof.
  induction L as [|x L IH]; intros H1 H2 Hne Ha1 Ha2; [destruct H1|].
  rewrite count_set_cons. pose proof (count_set_bounds L).
  destruct H1 as [->|H1]; destruct H2 as [->|H2]; try congruence.
  - rewrite Ha1. pose proof (@count_set_one L v2 H2 Ha2). lia.
  - rewrite Ha2. pose proof (@count_set_one L v1 H1 Ha1). lia.
  - specialize (IH H1 H2 Hne Ha1 Ha2). destruct (a (X x)); lia.
Qed.

Lemma count_set_zero (L : list A) (v : A) :
  count_set a X L <= 0 -> In v L -> a (X v) = false.
Proof.
  intros H0 Hin. destruct (a (X v)) eqn:E; [|reflexivity].
  pose proof (@count_set_one L v Hin E). lia.
Qed.

Lemma count_set_pos (L : list A) :
  1 <= count_set a X L -> exists v, In v L /\ a (X v) = true.
Proof.
  induction L as [|x L IH]; intro H; [rewrite count_set_nil in H; lia|].
  rewrite count_set_cons in H. destruct (a (X x)) eqn:E.
  - exists x. split; [left; reflexivity|exact E].
  - destruct (IH ltac:(lia)) as [v [Hv Ha]]. exists v. split; [right; exact Hv|exact Ha].
Qed.

Lemma count_set_full (L : list A) (v : A) :
  Z.of_nat (List.length L) <= count_set a X L -> In v L -> a (X v) = true.
Proof.
  induction L as [|x L IH]; intros H Hin; [destruct Hin|].
  rewrite count_set_cons in H. cbn [List.length] in H.
  pose proof (count_set_bounds L).
  destruct Hin as [->|Hin].
  - destruct (a (X v)); [reflexivity|lia].
  - apply IH; [|exact Hin]. destruct (a (X x)); lia.
Qed.

(** The value of a sum of variables that all carry the weight [q]. *)
Lemma sum_terms_weighted (q : Q) (L : list A) :
  (sum_terms a (map (fun v => (q, X v)) L) == q * inject_Z (count_set a X L))%Q.
Proof.
  induction L as [|x L IH].
  - cbn. ring.
  - cbn [map sum_terms]. rewrite IH, count_set_cons, inject_Z_plus.
    unfold getValue. destruct (a (X x)); ring.
Qed.

End Counting.

Lemma zrange_length (a b : Z) : a <= b + 1 -> Z.of_nat (List.length (zrange a b)) = b - a + 1.
Proof. intro H. unfold zrange. rewrite length_map, length_seq. lia. Qed.

(** A loop that adds the variables chosen by [P] with weight [q] and
    counts them. *)
Lemma acc_loop_closed (P : Z -> bool) (X : Z -> IloNumVar) (q : Q) (a b : Z)
      (e0 : IloExpr) (c0 : Z) :
  for_ a b (fun v '(e, cnt) => if P v then (plus_term e q (X v), cnt + 1) else (e, cnt))
       (e0, c0)
  = (mkExpr (constant e0) (terms e0 ++ map (fun v => (q, X v)) (filter P (zrange a b))),
     c0 + Z.of_nat (List.length (filter P (zrange a b)))).
Proof.
  unfold for_. generalize (zrange a b). intro L. revert e0 c0.
  induction L as [|x L IH]; intros e0 c0.
  - cbn. rewrite app_nil_r. destruct e0. f_equal. lia.
  - cbn [fold_left filter]. destruct (P x).
    + rewrite IH. cbn [plus_term constant terms map List.length].
      rewrite <- app_assoc. f_equal. lia.
    + apply IH.
Qed.

(** The same without a count. *)
Lemma sum_loop_closed (P : Z -> bool) (X : Z -> IloNumVar) (q : Q) (a b : Z) (e0 : IloExpr) :
  for_ a b (fun v e => if P v then plus_term e q (X v) else e) e0
  = mkExpr (constant e0) (terms e0 ++ map (fun v => (q, X v)) (filter P (zrange a b))).
Proof.
  unfold for_. generalize (zrange a b). intro L. revert e0.
  induction L as [|x L IH]; intros e0.
  - cbn. rewrite app_nil_r. destruct e0. reflexivity.
  - cbn [fold_left filter]. destruct (P x).
    + rewrite IH. cbn [plus_term constant terms map]. rewrite <- app_assoc. reflexivity.
    + apply IH.
Qed.

(** The same without a test. *)
Lemma all_loop_closed (X : Z -> IloNumVar) (q : Q) (a b : Z) (e0 : IloExpr) :
  for_ a b (fun v e => plus_term e q (X v)) e0
  = mkExpr (constant e0) (terms e0 ++ map (fun v => (q, X v)) (zrange a b)).
Proof.
  unfold for_. generalize (zrange a b). intro L. revert e0.
  induction L as [|x L IH]; intros e0.
  - cbn. rewrite app_nil_r. destruct e0. reflexivity.
  - cbn [fold_left]. rewrite IH. cbn [plus_term constant terms map].
    rewrite <- app_assoc. reflexivity.
Qed.

Lemma chosen_In (P : Z -> Z -> bool) (a b : Z) (lo hi : Z -> Z) (i j : Z) :
  In (i, j) (chosen P a b lo hi) <-> a <= i <= b /\ lo i <= j <= hi i /\ P i j = true.
Proof.
  unfold chosen. rewrite in_flat_map. split.
  - intros [i' [Hi' Hin]]. apply in_map_iff in Hin. destruct Hin as [j' [E Hj']].
    inversion E; subst. apply filter_In in Hj'. destruct Hj' as [Hj' HP].
    apply zrange_In in Hi', Hj'. auto.
  - intros [Hi [Hj HP]]. exists i. split; [apply zrange_In; exact Hi|].
    apply in_map. apply filter_In. split; [apply zrange_In; exact Hj|exact HP].
Qed.

(** Two nested loops that add the variables chosen by [P] and count
    them. *)
Lemma acc_loop2_closed (P : Z -> Z -> bool) (X : Z -> Z -> IloNumVar) (q : Q)
      (a b : Z) (lo hi : Z -> Z) (e0 : IloExpr) (c0 : Z) :
  for_ a b (fun i acc =>
    for_ (lo i) (hi i)
         (fun j '(e, cnt) => if P i j then (plus_term e q (X i j), cnt + 1) else (e, cnt))
         acc) (e0, c0)
  = (mkExpr (constant e0)
            (terms e0 ++ map (fun p => (q, X (fst p) (snd p))) (chosen P a b lo hi)),
     c0 + Z.of_nat (List.length (chosen P a b lo hi))).
Proof.
  unfold for_ at 1, chosen. generalize (zrange a b). intro L. revert e0 c0.
  induction L as [|i L IH]; intros e0 c0.
  - cbn. rewrite app_nil_r. destruct e0. f_equal. lia.
  - cbn [fold_left flat_map].
    rewrite (acc_loop_closed (P i) (X i) q (lo i) (hi i) e0 c0).
    rewrite IH. cbn [constant terms]. rewrite map_app, length_app, map_map, length_map.
    cbn [fst snd]. rewrite <- app_assoc. f_equal. lia.
Qed.

Section K1Facts.

Variable n : Z.
Variable yuv : list (list Z).

#[local] Abbreviation allowed := (allowed_basepair n yuv).
#[local] Abbreviation yv := (y yuv).

Lemma y_sym (u v : Z) : yv u v = yv v u.
Proof. unfold y. f_equal. apply get_yuv_index_sym. Qed.

Lemma K1_In (m : list IloConstraint) (u : Z) :
  0 <= u <= n - 1 ->
  1 < Z.of_nat (List.length (partners n yuv u)) ->
  In (Le (mkExpr 0 (map (fun v => (1%Q, yv u v)) (partners n yuv u))) (expr_const 1))
     (K1 n yuv m).
Proof.
  intros Hu Hcount. unfold K1. apply (for_In (k := u)); [lia| |].
  - intros k m'. cbv zeta.
    match goal with |- context [let '(_, _) := ?t in _] => destruct t as [c1 count] end.
    destruct (1 <? count); [apply incl_appl|]; apply incl_refl.
  - intro m'. cbv zeta.
    change (fun v '(c1, count) =>
              if allowed v u then (plus_var c1 (yv v u), count + 1) else (c1, count))
      with (fun v '(c1, count) =>
              if allowed v u then (plus_term c1 1 (yv v u), count + 1) else (c1, count)).
    change (fun v '(c1, count) =>
              if allowed u v then (plus_var c1 (yv u v), count + 1) else (c1, count))
      with (fun v '(c1, count) =>
              if allowed u v then (plus_term c1 1 (yv u v), count + 1) else (c1, count)).
    rewrite (acc_loop_closed (fun v => allowed v u) (fun v => yv v u) 1).
    rewrite (acc_loop_closed (fun v => allowed u v) (fun v => yv u v) 1).
    cbn [constant terms expr_empty app].
    unfold partners in Hcount. rewrite length_app in Hcount.
    replace (1 <? _) with true by (symmetry; apply Z.ltb_lt; lia).
    apply in_or_app. right. left. unfold partners. rewrite map_app.
    f_equal. f_equal. f_equal.
    apply map_ext. intro v. f_equal. apply y_sym.
Qed.

Lemma partners_In (u v : Z) :
  0 <= u -> 0 <= v -> allowed u v = true -> In v (partners n yuv u).
Proof.
  intros Hu Hv Ha. pose proof (allowed_basepair_range _ _ _ _ Ha) as Hr.
  unfold partners. apply in_or_app.
  destruct (Z.lt_ge_cases v u).
  - left. apply filter_In. split; [apply zrange_In; lia|].
    rewrite allowed_basepair_sym. exact Ha.
  - right. apply filter_In. split; [apply zrange_In; lia|exact Ha].
Qed.

End K1Facts.

(** ** Every block of constraints only adds to the model *)

Ltac appends :=
  intros; cbv zeta;
  repeat match goal with
         | |- context [let '(_, _) := ?t in _] => destruct t
         end;
  repeat match goal with
         | |- incl _ (if ?b then _ else _) => destruct b
         end;
  try apply incl_appl; apply incl_refl.

Section Blocks.

Variable n : Z.
Variable sites : list Motif.
Variable yuv : list (list Z).
Variable Cxip : list (list Z).

Lemma K1_incl (m : list IloConstraint) : incl m (K1 n yuv m).
Proof. unfold K1. apply for_incl. appends. Qed.

Lemma K2_incl (m : list IloConstraint) : incl m (K2 n yuv m).
Proof. unfold K2. apply for_incl. appends. Qed.

Lemma K2p_incl (m : list IloConstraint) : incl m (K2p n yuv m).
Proof. unfold K2p. apply for_incl. appends. Qed.

Lemma K3_incl (m : list IloConstraint) : incl m (K3 n sites yuv Cxip m).
Proof. unfold K3. apply for_incl. intros i m'. cbv zeta. apply for_incl. appends. Qed.

Lemma K4_incl (m : list IloConstraint) : incl m (K4 n sites Cxip m).
Proof. unfold K4. apply for_incl. appends. Qed.

Lemma K5_incl (m : list IloConstraint) : incl m (K5 sites Cxip m).
Proof. unfold K5. apply for_incl. appends. Qed.

Lemma K6_incl (m : list IloConstraint) : incl m (K6 n sites yuv Cxip m).
Proof.
  unfold K6. apply for_incl. intros i m'. cbv zeta.
  destruct (comp_size (site sites i) =? 1).
  - apply incl_appl, incl_refl.
  - eapply incl_tran; [apply incl_appl, incl_refl|].
    apply for_incl. intros j m''. apply incl_appl, incl_refl.
Qed.

(** What each block adds is in the model. *)
Lemma in_K1 (c : IloConstraint) :
  In c (K1 n yuv []) -> In c (define_problem_constraints n sites yuv Cxip).
Proof.
  intro H. unfold define_problem_constraints.
  apply K6_incl, K5_incl, K4_incl, K3_incl, K2p_incl, K2_incl, H.
Qed.

Lemma in_K2 (c : IloConstraint) :
  (forall m, In c (K2 n yuv m)) -> In c (define_problem_constraints n sites yuv Cxip).
Proof.
  intro H. unfold define_problem_constraints.
  apply K6_incl, K5_incl, K4_incl, K3_incl, K2p_incl, H.
Qed.

Lemma in_K2p (c : IloConstraint) :
  (forall m, In c (K2p n yuv m)) -> In c (define_problem_constraints n sites yuv Cxip).
Proof.
  intro H. unfold define_problem_constraints.
  apply K6_incl, K5_incl, K4_incl, K3_incl, H.
Qed.

Lemma in_K3 (c : IloConstraint) :
  (forall m, In c (K3 n sites yuv Cxip m)) ->
  In c (define_problem_constraints n sites yuv Cxip).
Proof.
  intro H. unfold define_problem_constraints. apply K6_incl, K5_incl, K4_incl, H.
Qed.

Lemma in_K4 (c : IloConstraint) :
  (forall m, In c (K4 n sites Cxip m)) ->
  In c (define_problem_constraints n sites yuv Cxip).
Proof.
  intro H. unfold define_problem_constraints. apply K6_incl, K5_incl, H.
Qed.

Lemma in_K5 (c : IloConstraint) :
  (forall m, In c (K5 sites Cxip m)) ->
  In c (define_problem_constraints n sites yuv Cxip).
Proof.
  intro H. unfold define_problem_constraints. apply K6_incl, H.
Qed.

(** In an assignment that satisfies the constraints of the first block,
    two partners of one nucleotide are not both paired with it. *)
Lemma K1_exclusive (a : Assignment) (u v1 v2 : Z) :
  (forall c, In c (define_problem_constraints n sites yuv Cxip) -> holds a c = true) ->
  0 <= u -> 0 <= v1 -> 0 <= v2 -> v1 <> v2 ->
  allowed_basepair n yuv u v1 = true -> allowed_basepair n yuv u v2 = true ->
  a (y yuv u v1) = true -> a (y yuv u v2) = false.
Proof.
  intros Hfeas Hu Hv1 Hv2 Hne Ha1 Ha2 Hy1.
  destruct (a (y yuv u v2)) eqn:Hy2; [exfalso|reflexivity].
  pose proof (@partners_In n yuv u v1 Hu Hv1 Ha1) as Hp1.
  pose proof (@partners_In n yuv u v2 Hu Hv2 Ha2) as Hp2.
  pose proof (@count_set_two _ a (fun v => y yuv u v) (partners n yuv u) v1 v2 Hp1 Hp2 Hne Hy1 Hy2)
    as Hcnt.
  pose proof (@count_set_bounds _ a (fun v => y yuv u v) (partners n yuv u)) as Hb.
  pose proof (allowed_basepair_range _ _ _ _ Ha1) as Hr.
  assert (Hin : In (Le (mkExpr 0 (map (fun v => (1%Q, y yuv u v)) (partners n yuv u)))
                       (expr_const 1))
                   (define_problem_constraints n sites yuv Cxip)).
  { apply in_K1. apply K1_In; lia. }
  apply Hfeas in Hin. unfold holds, eval in Hin. cbn [constant terms expr_const] in Hin.
  apply Qle_bool_iff in Hin.
  rewrite (@sum_terms_weighted _ a (fun v => y yuv u v) 1) in Hin.
  cbn [sum_terms] in Hin.
  assert (Hq : (inject_Z (count_set a (fun v => y yuv u v) (partners n yuv u)) <= inject_Z 1)%Q).
  { eapply Qle_trans; [|eapply Qle_trans; [exact Hin|]].
    - apply Qle_lteq. right. ring.
    - apply Qle_lteq. right. reflexivity. }
  rewrite <- Zle_Qle in Hq. lia.
Qed.

End Blocks.

Lemma Qle_inject (x y : Z) : (inject_Z x <= inject_Z y)%Q -> x <= y.
Proof. intro H. rewrite Zle_Qle. exact H. Qed.

Section Blocks2.

Variable n : Z.
Variable sites : list Motif.
Variable yuv : list (list Z).
Variable Cxip : list (list Z).
Variable a : Assignment.

#[local] Abbreviation allowed := (allowed_basepair n yuv).
#[local] Abbreviation yv := (y yuv).
#[local] Abbreviation Cv := (C Cxip).
#[local] Abbreviation nsites := (Z.of_nat (List.length sites)).

Hypothesis feas :
  forall c, In c (define_problem_constraints n sites yuv Cxip) -> holds a c = true.

(** *** Component completeness *)

Lemma K5_In (m : list IloConstraint) (i : Z) :
  0 <= i < nsites ->
  comp_size (site sites i) <> 1 ->
  In (EqC (mkExpr 0 (map (fun j => (1%Q, Cv i j)) (zrange 1 (comp_size (site sites i) - 1))))
          (expr_scaled (inject_Z (size_pred (comp_size (site sites i)))) (Cv i 0)))
     (K5 sites Cxip m).
Proof.
  intros Hi Hne. unfold K5. apply (for_In (k := i)); [lia| |].
  - intros k m'. cbv zeta. destruct (comp_size (site sites k) =? 1);
      [apply incl_refl|apply incl_appl, incl_refl].
  - intro m'. cbv zeta.
    destruct (Z.eqb_spec (comp_size (site sites i)) 1) as [E|_]; [contradiction|].
    apply in_or_app. right. left.
    rewrite (all_loop_closed (fun j => Cv i j) 1). reflexivity.
Qed.

Lemma K5_all_or_none (i j : Z) :
  0 <= i < nsites -> 2 <= comp_size (site sites i) ->
  0 <= j < comp_size (site sites i) ->
  a (Cv i j) = a (Cv i 0).
Proof.
  intros Hi Hsz Hj.
  destruct (Z.eq_dec j 0) as [->|Hj0]; [reflexivity|].
  pose proof (@K5_In (K4 n sites Cxip (K3 n sites yuv Cxip (K2p n yuv (K2 n yuv (K1 n yuv [])))))
                i Hi ltac:(lia)) as Hin.
  apply (@K6_incl n sites yuv Cxip) in Hin. apply feas in Hin.
  unfold holds, eval, expr_scaled in Hin. cbn [constant terms sum_terms] in Hin.
  apply Qeq_bool_iff in Hin.
  rewrite (@sum_terms_weighted _ a (fun j => Cv i j) 1) in Hin.
  assert (Hsp : size_pred (comp_size (site sites i)) = comp_size (site sites i) - 1).
  { unfold size_pred. destruct (Z.eqb_spec (comp_size (site sites i)) 0); [lia|reflexivity]. }
  rewrite Hsp in Hin.
  set (L := zrange 1 (comp_size (site sites i) - 1)) in *.
  assert (HjL : In j L) by (apply zrange_In; lia).
  assert (Hlen : Z.of_nat (List.length L) = comp_size (site sites i) - 1)
    by (unfold L; rewrite zrange_length; lia).
  unfold getValue in Hin. destruct (a (Cv i 0)) eqn:E0.
  - apply (@count_set_full _ a (fun j => Cv i j) L j); [|exact HjL].
    rewrite Hlen. apply Qle_inject. apply Qle_lteq. right. rewrite <- Hlen.
    rewrite Hlen.
    transitivity (0 + 1 * inject_Z (count_set a (fun j0 : Z => Cv i j0) L))%Q; [|ring].
    rewrite Hin. ring.
  - apply (@count_set_zero _ a (fun j => Cv i j) L j); [|exact HjL].
    apply Qle_inject. apply Qle_lteq. right.
    transitivity (0 + 1 * inject_Z (count_set a (fun j0 : Z => Cv i j0) L))%Q; [ring|].
    rewrite Hin. ring.
Qed.

(** *** Closing pairs *)

Lemma K6_closing_set (i : Z) :
  0 <= i < nsites ->
  a (Cv i 0) = true ->
  let first := fst (pos (component (site sites i) 0)) in
  let last := snd (pos (comp_back (site sites i))) in
  allowed first last = true /\ a (yv first last) = true.
Proof.
  intros Hi Ha first last.
  pose proof (@K6_closing_In n sites yuv Cxip
                (K5 sites Cxip (K4 n sites Cxip (K3 n sites yuv Cxip
                   (K2p n yuv (K2 n yuv (K1 n yuv [])))))) i Hi) as Hin.
  apply feas in Hin. unfold K6_closing in Hin. cbv zeta in Hin.
  fold first in Hin. fold last in Hin.
  unfold holds, eval, expr_var in Hin. cbn [constant terms sum_terms] in Hin.
  unfold getValue in Hin at 1. rewrite Ha in Hin.
  destruct (allowed first last).
  - split; [reflexivity|]. cbn in Hin. unfold getValue in Hin.
    destruct (a (yv first last)); [reflexivity|discriminate].
  - cbn in Hin. discriminate.
Qed.

Lemma K6_between_set (i j : Z) :
  0 <= i < nsites -> 0 <= j -> j + 1 < comp_size (site sites i) ->
  a (Cv i j) = true ->
  let second := snd (pos (component (site sites i) j)) in
  let first := fst (pos (component (site sites i) (j + 1))) in
  allowed second first = true /\ a (yv second first) = true.
Proof.
  intros Hi Hj Hj' Ha second first.
  pose proof (@K6_between_In n sites yuv Cxip
                (K5 sites Cxip (K4 n sites Cxip (K3 n sites yuv Cxip
                   (K2p n yuv (K2 n yuv (K1 n yuv [])))))) i j Hi Hj Hj') as Hin.
  apply feas in Hin. unfold K6_between in Hin. cbv zeta in Hin.
  fold first in Hin. fold second in Hin.
  unfold holds, eval, expr_var in Hin. cbn [constant terms sum_terms] in Hin.
  unfold getValue in Hin at 1. rewrite Ha in Hin.
  destruct (allowed second first).
  - split; [reflexivity|]. cbn in Hin. unfold getValue in Hin.
    destruct (a (yv second first)); [reflexivity|discriminate].
  - cbn in Hin. discriminate.
Qed.

(** *** Component overlap *)

#[local] Abbreviation covering u :=
  (chosen (covers sites u) 0 (nsites - 1) (fun _ => 0)
          (fun i => comp_size (site sites i) - 1)).

Lemma K4_In (m : list IloConstraint) (u : Z) :
  0 <= u <= n - 1 ->
  1 < Z.of_nat (List.length (covering u)) ->
  In (Le (mkExpr 0 (map (fun p => (1%Q, Cv (fst p) (snd p))) (covering u))) (expr_const 1))
     (K4 n sites Cxip m).
Proof.
  intros Hu Hcount. unfold K4. apply (for_In (k := u)); [lia| |].
  - intros k m'. cbv zeta.
    match goal with |- context [let '(_, _) := ?t in _] => destruct t as [c4 nterms] end.
    destruct (1 <? nterms); [apply incl_appl|]; apply incl_refl.
  - intro m'. cbv zeta.
    match goal with
    | |- context [for_ 0 (nsites - 1) ?body (expr_empty, 0)] =>
        change (for_ 0 (nsites - 1) body (expr_empty, 0))
          with (for_ 0 (nsites - 1)
                  (fun i acc =>
                     for_ 0 (comp_size (site sites i) - 1)
                       (fun j '(e, cnt) =>
                          if covers sites u i j
                          then (plus_term e 1 (Cv i j), cnt + 1)
                          else (e, cnt)) acc) (expr_empty, 0))
    end.
    rewrite (acc_loop2_closed (covers sites u) (fun i j => Cv i j) 1 0 (nsites - 1)
               (fun _ => 0) (fun i => comp_size (site sites i) - 1) expr_empty 0).
    cbn [constant terms expr_empty app].
    replace (1 <? _) with true by (symmetry; apply Z.ltb_lt; lia).
    apply in_or_app. right. left. reflexivity.
Qed.

Lemma K4_exclusive (u i1 j1 i2 j2 : Z) :
  0 <= u <= n - 1 ->
  0 <= i1 < nsites -> 0 <= j1 < comp_size (site sites i1) ->
  0 <= i2 < nsites -> 0 <= j2 < comp_size (site sites i2) ->
  (i1, j1) <> (i2, j2) ->
  covers sites u i1 j1 = true -> covers sites u i2 j2 = true ->
  a (Cv i1 j1) = true -> a (Cv i2 j2) = false.
Proof.
  intros Hu Hi1 Hj1 Hi2 Hj2 Hne Hc1 Hc2 Ha1.
  destruct (a (Cv i2 j2)) eqn:Ha2; [exfalso|reflexivity].
  assert (Hp1 : In (i1, j1) (covering u)) by (apply chosen_In; repeat split; try lia; exact Hc1).
  assert (Hp2 : In (i2, j2) (covering u)) by (apply chosen_In; repeat split; try lia; exact Hc2).
  pose proof (@count_set_two _ a (fun p => Cv (fst p) (snd p)) (covering u)
                (i1, j1) (i2, j2) Hp1 Hp2 Hne Ha1 Ha2) as Hcnt.
  pose proof (@count_set_bounds _ a (fun p => Cv (fst p) (snd p)) (covering u)) as Hb.
  pose proof (@K4_In (K3 n sites yuv Cxip (K2p n yuv (K2 n yuv (K1 n yuv [])))) u Hu
                ltac:(lia)) as Hin.
  apply (@K5_incl sites Cxip), (@K6_incl n sites yuv Cxip), feas in Hin.
  unfold holds, eval in Hin. cbn [constant terms expr_const sum_terms] in Hin.
  apply Qle_bool_iff in Hin.
  rewrite (@sum_terms_weighted _ a (fun p => Cv (fst p) (snd p)) 1) in Hin.
  assert (Hq : (inject_Z (count_set a (fun p => Cv (fst p) (snd p)) (covering u))
                <= inject_Z 1)%Q).
  { eapply Qle_trans; [|eapply Qle_trans; [exact Hin|]].
    - apply Qle_lteq. right. ring.
    - apply Qle_lteq. right. reflexivity. }
  apply Qle_inject in Hq. lia.
Qed.

End Blocks2.

Section Blocks3.

Variable n : Z.
Variable sites : list Motif.
Variable yuv : list (list Z).
Variable Cxip : list (list Z).
Variable a : Assignment.

#[local] Abbreviation allowed := (allowed_basepair n yuv).
#[local] Abbreviation yv := (y yuv).
#[local] Abbreviation Cv := (C Cxip).
#[local] Abbreviation nsites := (Z.of_nat (List.length sites)).

Hypothesis feas :
  forall c, In c (define_problem_constraints n sites yuv Cxip) -> holds a c = true.

(** *** Lonely pairs *)

Lemma K2_In (m : list IloConstraint) (u : Z) :
  0 <= u <= n - 1 ->
  let L1 := filter (fun v => allowed (wrap32 (u - 1)) v) (zrange u (n - 1)) in
  let L2 := filter (fun v => allowed u v) (zrange (u + 1) (n - 1)) in
  let L3 := filter (fun v => allowed (u + 1) v) (zrange (u + 2) (n - 1)) in
  L2 <> [] ->
  In (Ge (mkExpr 0 ((map (fun v => (1%Q, yv (wrap32 (u - 1)) v)) L1
                     ++ map (fun v => ((-1)%Q, yv u v)) L2)
                    ++ map (fun v => (1%Q, yv (u + 1) v)) L3))
         (expr_const 0))
     (K2 n yuv m).
Proof.
  intros Hu L1 L2 L3 Hne. unfold K2. apply (for_In (k := u)); [lia| |].
  - intros k m'. cbv zeta.
    match goal with |- context [let '(_, _) := ?t in _] => destruct t as [c2 count] end.
    destruct (negb (count =? 0)); [apply incl_appl|]; apply incl_refl.
  - intro m'. cbv zeta.
    change (for_ u (n - 1)
              (fun v c2 => if allowed (wrap32 (u - 1)) v
                           then plus_var c2 (yv (wrap32 (u - 1)) v) else c2) expr_empty)
      with (for_ u (n - 1)
              (fun v c2 => if allowed (wrap32 (u - 1)) v
                           then plus_term c2 1 (yv (wrap32 (u - 1)) v) else c2) expr_empty).
    rewrite (sum_loop_closed (fun v => allowed (wrap32 (u - 1)) v)
                             (fun v => yv (wrap32 (u - 1)) v) 1).
    change (fun v '(c2, count) =>
              if allowed u v then (minus_var c2 (yv u v), count + 1) else (c2, count))
      with (fun v '(c2, count) =>
              if allowed u v then (plus_term c2 (-1) (yv u v), count + 1) else (c2, count)).
    rewrite (acc_loop_closed (fun v => allowed u v) (fun v => yv u v) (-1)).
    change (fun v c2 => if allowed (u + 1) v then plus_var c2 (yv (u + 1) v) else c2)
      with (fun v c2 => if allowed (u + 1) v then plus_term c2 1 (yv (u + 1) v) else c2).
    rewrite (sum_loop_closed (fun v => allowed (u + 1) v) (fun v => yv (u + 1) v) 1).
    cbn [constant terms expr_empty app]. fold L1 L2 L3.
    destruct L2 as [|x L2'] eqn:E2; [contradiction|].
    replace (0 + Z.of_nat (List.length (x :: L2')) =? 0) with false
      by (symmetry; apply Z.eqb_neq; cbn [List.length]; lia).
    cbn [negb]. apply in_or_app. right. left. reflexivity.
Qed.

Lemma K2p_In (m : list IloConstraint) (v : Z) :
  2 <= v <= n - 1 ->
  let L1 := filter (fun u => allowed u (v - 1)) (zrange 0 (v - 2)) in
  let L2 := filter (fun u => allowed u v) (zrange 0 (v - 1)) in
  let L3 := filter (fun u => allowed u (v + 1)) (zrange 0 v) in
  L2 <> [] ->
  In (Ge (mkExpr 0 ((map (fun u => (1%Q, yv u (v - 1))) L1
                     ++ map (fun u => ((-1)%Q, yv u v)) L2)
                    ++ map (fun u => (1%Q, yv u (v + 1))) L3))
         (expr_const 0))
     (K2p n yuv m).
Proof.
  intros Hv L1 L2 L3 Hne. unfold K2p. apply (for_In (k := v)); [lia| |].
  - intros k m'. cbv zeta.
    match goal with |- context [let '(_, _) := ?t in _] => destruct t as [c2 count] end.
    destruct (negb (count =? 0)); [apply incl_appl|]; apply incl_refl.
  - intro m'. cbv zeta.
    change (for_ 0 (v - 2)
              (fun u c2p => if allowed u (v - 1) then plus_var c2p (yv u (v - 1)) else c2p)
              expr_empty)
      with (for_ 0 (v - 2)
              (fun u c2p => if allowed u (v - 1) then plus_term c2p 1 (yv u (v - 1)) else c2p)
              expr_empty).
    rewrite (sum_loop_closed (fun u => allowed u (v - 1)) (fun u => yv u (v - 1)) 1).
    change (fun u '(c2p, count) =>
              if allowed u v then (minus_var c2p (yv u v), count + 1) else (c2p, count))
      with (fun u '(c2p, count) =>
              if allowed u v then (plus_term c2p (-1) (yv u v), count + 1) else (c2p, count)).
    rewrite (acc_loop_closed (fun u => allowed u v) (fun u => yv u v) (-1)).
    change (fun u c2p => if allowed u (v + 1) then plus_var c2p (yv u (v + 1)) else c2p)
      with (fun u c2p => if allowed u (v + 1) then plus_term c2p 1 (yv u (v + 1)) else c2p).
    rewrite (sum_loop_closed (fun u => allowed u (v + 1)) (fun u => yv u (v + 1)) 1).
    cbn [constant terms expr_empty app]. fold L1 L2 L3.
    destruct L2 as [|x L2'] eqn:E2; [contradiction|].
    replace (0 + Z.of_nat (List.length (x :: L2')) =? 0) with false
      by (symmetry; apply Z.eqb_neq; cbn [List.length]; lia).
    cbn [negb]. apply in_or_app. right. left. reflexivity.
Qed.

(** A constraint [sum1 - sum2 + sum3 >= 0] over 0/1 variables: when a
    variable of the middle sum is set, one of the outer sums holds a set
    variable too. *)
Lemma three_sums (A : Type) (X1 X2 X3 : A -> IloNumVar) (L1 L2 L3 : list A) (x : A) :
  holds a (Ge (mkExpr 0 ((map (fun v => (1%Q, X1 v)) L1 ++ map (fun v => ((-1)%Q, X2 v)) L2)
                         ++ map (fun v => (1%Q, X3 v)) L3))
              (expr_const 0)) = true ->
  In x L2 -> a (X2 x) = true ->
  (exists w, In w L1 /\ a (X1 w) = true) \/ (exists w, In w L3 /\ a (X3 w) = true).
Proof.
  intros H Hx Ha. unfold holds, eval in H. cbn [constant terms expr_const sum_terms] in H.
  apply Qle_bool_iff in H.
  rewrite !sum_terms_app in H.
  rewrite (@sum_terms_weighted _ a X1 1), (@sum_terms_weighted _ a X2 (-1)),
    (@sum_terms_weighted _ a X3 1) in H.
  pose proof (@count_set_one _ a X2 L2 x Hx Ha) as H2.
  assert (Hz : 0 <= count_set a X1 L1 - count_set a X2 L2 + count_set a X3 L3).
  { apply Qle_inject. unfold Z.sub. rewrite !inject_Z_plus, inject_Z_opp.
    eapply Qle_trans; [|eapply Qle_trans; [exact H|]]; apply Qle_lteq; right.
    - reflexivity.
    - ring. }
  destruct (Z_le_gt_dec 1 (count_set a X1 L1)) as [H1|H1].
  - left. apply count_set_pos. exact H1.
  - right. apply count_set_pos. lia.
Qed.

Lemma K2_neighbour (u v : Z) :
  n < 2 ^ 32 -> 0 <= u -> u < v ->
  allowed u v = true -> a (yv u v) = true ->
  exists w, u < w /\
    ((1 <= u /\ allowed (u - 1) w = true /\ a (yv (u - 1) w) = true) \/
     (allowed (u + 1) w = true /\ a (yv (u + 1) w) = true)).
Proof.
  intros Hn Hu Huv Hal Ha.
  pose proof (allowed_basepair_range _ _ _ _ Hal) as Hr.
  assert (HvL : In v (filter (fun v => allowed u v) (zrange (u + 1) (n - 1))))
    by (apply filter_In; split; [apply zrange_In; lia|exact Hal]).
  assert (Hin : In (Ge (mkExpr 0
                    ((map (fun v => (1%Q, yv (wrap32 (u - 1)) v))
                          (filter (fun v => allowed (wrap32 (u - 1)) v) (zrange u (n - 1)))
                      ++ map (fun v => ((-1)%Q, yv u v))
                             (filter (fun v => allowed u v) (zrange (u + 1) (n - 1))))
                     ++ map (fun v => (1%Q, yv (u + 1) v))
                            (filter (fun v => allowed (u + 1) v) (zrange (u + 2) (n - 1)))))
                  (expr_const 0))
             (define_problem_constraints n sites yuv Cxip)).
  { apply in_K2. intro m. apply (@K2_In m u); [lia|].
    intro E; rewrite E in HvL; destruct HvL. }
  apply feas in Hin.
  destruct (three_sums _ _ _ _ _ _ v Hin HvL Ha) as [[w [Hw Haw]]|[w [Hw Haw]]].
  - apply filter_In in Hw. destruct Hw as [Hw Hwal]. apply zrange_In in Hw.
    pose proof (allowed_basepair_range _ _ _ _ Hwal) as Hr'.
    destruct (Z.eq_dec u 0) as [->|Hu0].
    + exfalso. change (wrap32 (0 - 1)) with (2 ^ 32 - 1) in Hr'. lia.
    + rewrite wrap32_small in Hwal, Haw, Hr' by lia.
      exists w. split; [lia|]. left. repeat split; [lia|exact Hwal|exact Haw].
  - apply filter_In in Hw. destruct Hw as [Hw Hwal]. apply zrange_In in Hw.
    exists w. split; [lia|]. right. split; [exact Hwal|exact Haw].
Qed.

Lemma K2p_neighbour (u v : Z) :
  0 <= u -> u < v ->
  allowed u v = true -> a (yv u v) = true ->
  exists w, 0 <= w < v /\
    ((allowed w (v - 1) = true /\ a (yv w (v - 1)) = true) \/
     (allowed w (v + 1) = true /\ a (yv w (v + 1)) = true)).
Proof.
  intros Hu Huv Hal Ha.
  pose proof (allowed_basepair_range _ _ _ _ Hal) as Hr.
  assert (HuL : In u (filter (fun u => allowed u v) (zrange 0 (v - 1))))
    by (apply filter_In; split; [apply zrange_In; lia|exact Hal]).
  assert (Hin : In (Ge (mkExpr 0
                    ((map (fun u => (1%Q, yv u (v - 1)))
                          (filter (fun u => allowed u (v - 1)) (zrange 0 (v - 2)))
                      ++ map (fun u => ((-1)%Q, yv u v))
                             (filter (fun u => allowed u v) (zrange 0 (v - 1))))
                     ++ map (fun u => (1%Q, yv u (v + 1)))
                            (filter (fun u => allowed u (v + 1)) (zrange 0 v))))
                  (expr_const 0))
             (define_problem_constraints n sites yuv Cxip)).
  { apply in_K2p. intro m. apply (@K2p_In m v); [lia|].
    intro E; rewrite E in HuL; destruct HuL. }
  apply feas in Hin.
  destruct (three_sums _ _ _ _ _ _ u Hin HuL Ha) as [[w [Hw Haw]]|[w [Hw Haw]]].
  - apply filter_In in Hw. destruct Hw as [Hw Hwal]. apply zrange_In in Hw.
    exists w. split; [lia|]. left. split; [exact Hwal|exact Haw].
  - apply filter_In in Hw. destruct Hw as [Hw Hwal]. apply zrange_In in Hw.
    pose proof (allowed_basepair_range _ _ _ _ Hwal) as Hr'.
    exists w. split; [lia|]. right. split; [exact Hwal|exact Haw].
Qed.

End Blocks3.

Section Blocks4.

Variable n : Z.
Variable sites : list Motif.
Variable yuv : list (list Z).
Variable Cxip : list (list Z).
Variable a : Assignment.

#[local] Abbreviation allowed := (allowed_basepair n yuv).
#[local] Abbreviation yv := (y yuv).
#[local] Abbreviation Cv := (C Cxip).
#[local] Abbreviation nsites := (Z.of_nat (List.length sites)).

Hypothesis feas :
  forall c, In c (define_problem_constraints n sites yuv Cxip) -> holds a c = true.

(** *** Pairs inside a component *)



End Blocks4.

(** ** What never changes after the constructor *)

Section Later.

Variable cplex_solve : list IloExtractable -> option Assignment.

Lemma solve_objective_tables (o : Z) (mn mx : Q) (st : MOIP) :
  tables (snd (solve_objective cplex_solve o mn mx st)) = tables st.
Proof.
  unfold solve_objective.
  destruct (o =? 1); [|destruct (o =? 2)]; cbn [model_add fst snd];
    destruct (cplex_solve _); reflexivity.
Qed.

Lemma later_tables (st0 st : MOIP) : later cplex_solve st0 st -> tables st = tables st0.
Proof.
  intro Hl. induction Hl as [|st1 o mn mx Hl IH|st1 s Hl IH].
  - reflexivity.
  - rewrite solve_objective_tables. exact IH.
  - exact IH.
Qed.

Lemma build_structure_tables (st st0 : MOIP) (a : Assignment) :
  tables st = tables st0 -> build_structure st a = build_structure st0 a.
Proof.
  unfold tables. intro H. inversion H as [[H1 H2 H3 H4 H5 H6 H7 H8 H9 H10]].
  unfold build_structure, inserted_sites. rewrite H1, H2, H6, H7, H9, H10. reflexivity.
Qed.

(** Every assignment a constraint-respecting solver returns, at any call
    made on the object, satisfies the constraints the constructor put in
    the model. *)
Lemma later_feasible (st0 st st' : MOIP) (o : Z) (mn mx : Q)
      (s : SecondaryStructure) (a : Assignment) :
  solver_sound cplex_solve ->
  handles_fresh st0 ->
  later cplex_solve st0 st ->
  solve_objective cplex_solve o mn mx st = (s, Some a, st') ->
  feasible (elements (model_ st0)) a /\ s = build_structure st0 a.
Proof.
  intros Hsound Hwf Hl Hsolve.
  pose proof (solve_objective_answer cplex_solve o mn mx st) as Hs.
  rewrite Hsolve in Hs. destruct Hs as [Hoa Hsa].
  split.
  - intros c Hc. symmetry in Hoa. apply Hsound in Hoa. apply Hoa.
    apply solver_input_constraints. apply (proj2 (later_keeps Hwf Hl)). exact Hc.
  - rewrite Hsa. apply build_structure_tables. apply later_tables. exact Hl.
Qed.

End Later.

(** ** The structure read from an assignment *)

Lemma above_half_getValue (a : Assignment) (x : IloNumVar) :
  above_half (getValue a x) = a x.
Proof. unfold getValue. destruct (a x); reflexivity. Qed.

(** Two nested loops with a test are a fold over the index pairs that
    pass it. *)
Lemma for2_chosen {S : Type} (P : Z -> Z -> bool) (a b : Z) (lo hi : Z -> Z)
      (f : Z -> Z -> S -> S) (s : S) :
  for_ a b (fun u s => for_ (lo u) (hi u) (fun v s => if P u v then f u v s else s) s) s
  = fold_left (fun s p => f (fst p) (snd p) s) (chosen P a b lo hi) s.
Proof.
  unfold for_ at 1, chosen. generalize (zrange a b). intro L. revert s.
  induction L as [|u L IH]; intro s; [reflexivity|].
  cbn [fold_left flat_map]. rewrite fold_left_app, IH. f_equal.
  unfold for_. generalize (zrange (lo u) (hi u)). intro M. revert s.
  induction M as [|v M IHM]; intro s; [reflexivity|].
  cbn [fold_left filter map]. destruct (P u v); cbn [fold_left map fst snd]; apply IHM.
Qed.

Lemma insert_pair_In (p q : Z * Z) (l : list (Z * Z)) :
  In q (insert_pair p l) <-> q = p \/ In q l.
Proof.
  induction l as [|x l IH]; cbn [insert_pair].
  - cbn. intuition.
  - destruct (pair_leb p x); cbn [In].
    + intuition.
    + rewrite IH. intuition.
Qed.

Lemma sorted_In (q : Z * Z) (l : list (Z * Z)) :
  In q (fold_right insert_pair [] l) <-> In q l.
Proof.
  induction l as [|x l IH]; cbn [fold_right]; [tauto|].
  rewrite insert_pair_In, IH. cbn [In]. intuition.
Qed.

Lemma fold_insert_motif (sites : list Motif) (L : list Z) :
  forall ss,
    let ss' := fold_left (fun ss i => insert_motif ss (site sites i)) L ss in
    motif_info_ ss' = motif_info_ ss ++ map (site sites) L /\
    basepairs_ ss' = basepairs_ ss.
Proof.
  induction L as [|i L IH]; intro ss; cbn zeta.
  - cbn. rewrite app_nil_r. split; reflexivity.
  - cbn [fold_left map]. destruct (IH (insert_motif ss (site sites i))) as [H1 H2].
    cbv zeta in H1, H2. rewrite H1, H2. cbn [insert_motif motif_info_ basepairs_].
    rewrite <- app_assoc. split; reflexivity.
Qed.

Lemma fold_set_basepair (T : Z -> Z -> bool) (L : list (Z * Z)) :
  forall ss,
    let ss' := fold_left (fun ss p => if T (fst p) (snd p)
                                      then set_basepair ss (fst p) (snd p) else ss) L ss in
    motif_info_ ss' = motif_info_ ss /\
    basepairs_ ss' = basepairs_ ss ++ filter (fun p => T (fst p) (snd p)) L.
Proof.
  induction L as [|[u v] L IH]; intro ss; cbn zeta.
  - cbn. rewrite app_nil_r. split; reflexivity.
  - cbn [fold_left filter fst snd]. destruct (T u v).
    + destruct (IH (set_basepair ss u v)) as [H1 H2]. cbv zeta in H1, H2.
      rewrite H1, H2. cbn [set_basepair motif_info_ basepairs_].
      rewrite <- app_assoc. split; reflexivity.
    + apply IH.
Qed.

Lemma build_structure_content (st : MOIP) (a : Assignment) :
  let s := build_structure st a in
  motif_info_ s = map (site (insertion_sites_ st)) (inserted_sites st a) /\
  basepairs_ s = fold_right insert_pair [] (pairs_set st a).
Proof.
  cbv zeta. unfold build_structure. cbv zeta.
  cbn [set_objective_score sort motif_info_ basepairs_].
  set (n := get_RNA_length (rna_ st)).
  rewrite (for2_chosen (allowed_basepair n (index_of_yuv_ st)) 0 (wrap32 (n - 6) - 1)
             (fun u => u + 4) (fun _ => n - 1)
             (fun u v ss => if above_half (getValue a (y (index_of_yuv_ st) u v))
                            then set_basepair ss u v else ss)).
  destruct (fold_set_basepair
              (fun u v => above_half (getValue a (y (index_of_yuv_ st) u v)))
              (chosen (allowed_basepair n (index_of_yuv_ st)) 0 (wrap32 (n - 6) - 1)
                      (fun u => u + 4) (fun _ => n - 1))
              (fold_left (fun ss i => insert_motif ss (site (insertion_sites_ st) i))
                         (inserted_sites st a) SecondaryStructure_new)) as [H1 H2].
  cbv zeta in H1, H2. rewrite H1, H2.
  destruct (fold_insert_motif (insertion_sites_ st) (inserted_sites st a)
              SecondaryStructure_new) as [H3 H4].
  cbv zeta in H3, H4. rewrite H3, H4. cbn [SecondaryStructure_new motif_info_ basepairs_ app].
  split; [reflexivity|]. unfold pairs_set. fold n. f_equal.
  apply filter_ext. intro p. apply above_half_getValue.
Qed.

Lemma pairs_set_In (st : MOIP) (a : Assignment) (u v : Z) :
  let n := get_RNA_length (rna_ st) in
  In (u, v) (pairs_set st a) <->
  0 <= u <= wrap32 (n - 6) - 1 /\ u + 4 <= v <= n - 1 /\
  allowed_basepair n (index_of_yuv_ st) u v = true /\
  a (y (index_of_yuv_ st) u v) = true.
Proof.
  cbv zeta. unfold pairs_set. cbv zeta. rewrite filter_In, chosen_In. cbn [fst snd]. tauto.
Qed.

Lemma allowed_basepair_low (n : Z) (yuv : list (list Z)) (u v : Z) :
  allowed_basepair n yuv u v = true -> Z.min u v < wrap32 (n - 6).
Proof.
  unfold allowed_basepair. cbv zeta.
  destruct (Z.ltb_spec u v);
    repeat match goal with
           | |- context [if ?b then _ else _] => destruct b eqn:?
           end; intro; try discriminate; lia.
Qed.

Section Solved.

Variable cplex_solve : list IloExtractable -> option Assignment.
Variable rna : RNAData.
Variable sites : list Motif.
Variable theta : Q.

#[local] Abbreviation st0 := (MOIP_new rna sites theta).
#[local] Abbreviation n := (get_RNA_length rna).

Hypothesis sound : solver_sound cplex_solve.

Variable st st' : MOIP.
Variable o : Z.
Variable mn mx : Q.
Variable s : SecondaryStructure.
Variable a : Assignment.

Hypothesis Hlater : later cplex_solve st0 st.
Hypothesis Hsolve : solve_objective cplex_solve o mn mx st = (s, Some a, st').

Lemma solved_feasible :
  (forall c, In c (define_problem_constraints n sites (index_of_yuv_ st0) (index_of_Cxip_ st0))
             -> holds a c = true) /\
  s = build_structure st0 a.
Proof.
  destruct (MOIP_new_spec rna sites theta) as [Hwf [_ [_ [Hcs _]]]].
  destruct (@later_feasible _ _ _ _ _ _ _ _ _ sound Hwf Hlater Hsolve) as [Hf Hs].
  split; [|exact Hs]. intros c Hc. apply Hf. rewrite Hcs. exact Hc.
Qed.

Lemma solved_pair (u v : Z) :
  In (u, v) (basepairs_ s) <->
  0 <= u <= wrap32 (n - 6) - 1 /\ u + 4 <= v <= n - 1 /\
  allowed_basepair n (index_of_yuv_ st0) u v = true /\
  a (y (index_of_yuv_ st0) u v) = true.
Proof.
  destruct solved_feasible as [_ Hs]. rewrite Hs.
  destruct (build_structure_content st0 a) as [_ Hb]. rewrite Hb, sorted_In.
  pose proof (pairs_set_In st0 a u v) as H. cbv zeta in H.
  destruct (MOIP_new_yuv rna sites theta) as [_ [Hr _]]. rewrite Hr in H. exact H.
Qed.

Lemma solved_matching (u v u' v' : Z) :
  In (u, v) (basepairs_ s) -> In (u', v') (basepairs_ s) ->
  (u = u' \/ u = v' \/ v = u' \/ v = v') -> (u, v) = (u', v').
Proof.
  intros H1 H2 Hshare.
  apply solved_pair in H1, H2.
  destruct H1 as [Hu [Hv [Hal Ha]]]. destruct H2 as [Hu' [Hv' [Hal' Ha']]].
  destruct solved_feasible as [Hf _].
  pose proof (fun w p q => @K1_exclusive n sites (index_of_yuv_ st0) (index_of_Cxip_ st0)
                             a w p q Hf) as K.
  assert (Hsym : forall p q, allowed_basepair n (index_of_yuv_ st0) p q
                             = allowed_basepair n (index_of_yuv_ st0) q p)
    by (intros; apply allowed_basepair_sym).
  assert (Hys : forall p q, y (index_of_yuv_ st0) p q = y (index_of_yuv_ st0) q p)
    by (intros; apply y_sym).
  destruct (Z.eq_dec u u') as [Euu|Nuu]; [destruct (Z.eq_dec v v') as [Evv|Nvv]|].
  - subst. reflexivity.
  - subst u'. exfalso.
    pose proof (K u v v' ltac:(lia) ltac:(lia) ltac:(lia) Nvv Hal Hal' Ha). congruence.
  - exfalso. destruct Hshare as [E|[E|[E|E]]]; [contradiction| | |].
    + subst u.
      pose proof (K v' v u' ltac:(lia) ltac:(lia) ltac:(lia) ltac:(lia) Hal
                    ltac:(rewrite Hsym; exact Hal') Ha) as H.
      rewrite Hys in H. congruence.
    + subst v.
      pose proof (K u' u v' ltac:(lia) ltac:(lia) ltac:(lia) ltac:(lia)
                    ltac:(rewrite Hsym; exact Hal) Hal'
                    ltac:(rewrite Hys; exact Ha)) as H.
      congruence.
    + subst v'.
      pose proof (K v u u' ltac:(lia) ltac:(lia) ltac:(lia) Nuu
                    ltac:(rewrite Hsym; exact Hal) ltac:(rewrite Hsym; exact Hal')
                    ltac:(rewrite Hys; exact Ha)) as H.
      rewrite Hys in H. congruence.
Qed.

End Solved.

(** ** Objective values of a solved structure *)

Lemma fold_plus_term (A : Type) (w : A -> Q) (X : A -> IloNumVar) (L : list A) :
  forall e0,
    fold_left (fun e p => plus_term e (w p) (X p)) L e0
    = mkExpr (constant e0) (terms e0 ++ map (fun p => (w p, X p)) L).
Proof.
  induction L as [|p L IH]; intro e0.
  - cbn. rewrite app_nil_r. destruct e0. reflexivity.
  - cbn [fold_left]. rewrite IH. cbn [plus_term constant terms map].
    rewrite <- app_assoc. reflexivity.
Qed.

(** The sum of the weights of the variables an assignment sets. *)
Lemma sum_terms_filter (A : Type) (a : Assignment) (w : A -> Q) (X : A -> IloNumVar)
      (L : list A) :
  (sum_terms a (map (fun p => (w p, X p)) L)
   == fold_right (fun p acc => w p + acc) 0 (filter (fun p => a (X p)) L))%Q.
Proof.
  induction L as [|p L IH]; cbn [map sum_terms filter]; [reflexivity|].
  unfold getValue. destruct (a (X p)); cbn [fold_right]; rewrite IH; ring.
Qed.

Lemma sum_insert_pair (f : Z * Z -> Q) (p : Z * Z) (l : list (Z * Z)) :
  (fold_right (fun q acc => f q + acc) 0 (insert_pair p l)
   == f p + fold_right (fun q acc => f q + acc) 0 l)%Q.
Proof.
  induction l as [|x l IH]; cbn [insert_pair fold_right]; [reflexivity|].
  destruct (pair_leb p x); cbn [fold_right]; [reflexivity|]. rewrite IH. ring.
Qed.

Lemma sum_sorted (f : Z * Z -> Q) (l : list (Z * Z)) :
  (fold_right (fun q acc => f q + acc) 0 (fold_right insert_pair [] l)
   == fold_right (fun q acc => f q + acc) 0 l)%Q.
Proof.
  induction l as [|x l IH]; cbn [fold_right]; [reflexivity|].
  rewrite sum_insert_pair, IH. reflexivity.
Qed.

Lemma fold_right_map (A B : Type) (f : A -> B) (g : B -> Q) (L : list A) :
  fold_right (fun m acc => g m + acc)%Q 0%Q (map f L)
  = fold_right (fun i acc => g (f i) + acc)%Q 0%Q L.
Proof. induction L as [|i L IH]; cbn [map fold_right]; [reflexivity|]. now rewrite IH. Qed.

Lemma MOIP_new_objs (rna : RNAData) (sites : list Motif) (theta : Q) :
  let st := MOIP_new rna sites theta in
  obj1 st = build_obj1 sites (index_of_first_components st) /\
  obj2 st = build_obj2 (get_RNA_length rna) (index_of_yuv_ st) (get_pij rna).
Proof.
  unfold MOIP_new.
  destruct (build_yuv rna theta) as [yuv c].
  destruct (build_Cxip sites) as [[firsts Cxip] i].
  cbn. split; reflexivity.
Qed.

Lemma eval_obj1 (rna : RNAData) (sites : list Motif) (theta : Q) (a : Assignment) :
  let st := MOIP_new rna sites theta in
  (eval a (obj1 st)
   == fold_right (fun m acc => inject_Z (score_ m) + acc) 0
                 (map (site sites) (inserted_sites st a)))%Q.
Proof.
  intro st. destruct (MOIP_new_objs rna sites theta) as [H1 _]. fold st in H1.
  destruct (MOIP_new_spec rna sites theta) as [_ [_ [Hs _]]]. fold st in Hs.
  rewrite H1. unfold build_obj1, for_.
  rewrite (fold_plus_term (fun i => inject_Z (score_ (site sites i)))
             (fun i => insertion_dv (nth (Z.to_nat i) (index_of_first_components st) 0))).
  unfold eval. cbn [constant terms expr_empty app].
  rewrite sum_terms_filter. unfold inserted_sites. rewrite Hs.
  rewrite (filter_ext
             (fun i => above_half (getValue a (insertion_dv
                          (nth (Z.to_nat i) (index_of_first_components st) 0))))
             (fun i => a (insertion_dv (nth (Z.to_nat i) (index_of_first_components st) 0))))
    by (intro i; apply above_half_getValue).
  rewrite fold_right_map. apply Qplus_0_l.
Qed.

Lemma eval_obj2 (rna : RNAData) (sites : list Motif) (theta : Q) (a : Assignment) :
  let st := MOIP_new rna sites theta in
  (eval a (obj2 st)
   == fold_right (fun p acc => get_pij rna (fst p) (snd p) + acc) 0 (pairs_set st a))%Q.
Proof.
  intro st. destruct (MOIP_new_objs rna sites theta) as [_ H2]. fold st in H2.
  destruct (MOIP_new_yuv rna sites theta) as [_ [Hr _]]. fold st in Hr.
  rewrite H2. unfold build_obj2.
  rewrite (for2_chosen (allowed_basepair (get_RNA_length rna) (index_of_yuv_ st))
             0 (wrap32 (get_RNA_length rna - 6) - 1) (fun u => u + 4)
             (fun _ => get_RNA_length rna - 1)
             (fun u v e => plus_term e (get_pij rna u v) (y (index_of_yuv_ st) u v))).
  rewrite (fold_plus_term (fun p => get_pij rna (fst p) (snd p))
                          (fun p => y (index_of_yuv_ st) (fst p) (snd p))).
  unfold eval. cbn [constant terms expr_empty app].
  rewrite sum_terms_filter. unfold pairs_set. rewrite Hr. ring.
Qed.

Section Solved2.

Variable cplex_solve : list IloExtractable -> option Assignment.
Variable rna : RNAData.
Variable sites : list Motif.
Variable theta : Q.

#[local] Abbreviation st0 := (MOIP_new rna sites theta).
#[local] Abbreviation n := (get_RNA_length rna).

Hypothesis sound : solver_sound cplex_solve.

Variable st st' : MOIP.
Variable o : Z.
Variable mn mx : Q.
Variable s : SecondaryStructure.
Variable a : Assignment.

Hypothesis Hlater : later cplex_solve st0 st.
Hypothesis Hsolve : solve_objective cplex_solve o mn mx st = (s, Some a, st').

Let Hfeas := proj1 (@solved_feasible cplex_solve rna sites theta sound st st' o mn mx s a
                      Hlater Hsolve).
Let Hs := proj2 (@solved_feasible cplex_solve rna sites theta sound st st' o mn mx s a
                   Hlater Hsolve).

Lemma solved_obj1 :
  (get_objective_score s 1
   == fold_right (fun m acc => inject_Z (score_ m) + acc) 0 (motif_info_ s))%Q.
Proof.
  rewrite Hs. destruct (build_structure_content st0 a) as [Hm _]. rewrite Hm.
  destruct (MOIP_new_spec rna sites theta) as [_ [_ [Hsites _]]]. rewrite Hsites.
  rewrite build_structure_obj1. apply eval_obj1.
Qed.

Lemma solved_obj2 :
  (get_objective_score s 2
   == fold_right (fun p acc => get_pij rna (fst p) (snd p) + acc) 0 (basepairs_ s))%Q.
Proof.
  rewrite Hs. destruct (build_structure_content st0 a) as [_ Hb]. rewrite Hb.
  rewrite sum_sorted.
  change (get_objective_score (build_structure st0 a) 2) with (eval a (obj2 st0)).
  apply eval_obj2.
Qed.

Lemma solved_site (x : Motif) :
  In x (motif_info_ s) ->
  exists i, 0 <= i < Z.of_nat (List.length sites) /\ x = site sites i /\
            (1 <= comp_size x -> a (C (index_of_Cxip_ st0) i 0) = true).
Proof.
  rewrite Hs. destruct (build_structure_content st0 a) as [Hm _]. rewrite Hm.
  destruct (MOIP_new_spec rna sites theta) as [_ [_ [Hsites _]]]. rewrite Hsites.
  intro Hin. apply in_map_iff in Hin. destruct Hin as [i [Hx Hi]].
  unfold inserted_sites in Hi. rewrite Hsites in Hi. apply filter_In in Hi.
  destruct Hi as [Hi Hsel]. apply zrange_In in Hi. rewrite above_half_getValue in Hsel.
  exists i. split; [lia|]. split; [symmetry; exact Hx|].
  intro Hc. subst x.
  pose proof (@MOIP_new_first_component rna sites theta i ltac:(lia) Hc) as Hf.
  cbv zeta in Hf. rewrite Hf in Hsel. exact Hsel.
Qed.

Lemma solved_pair_In (u v : Z) :
  0 <= u -> 0 <= v ->
  allowed_basepair n (index_of_yuv_ st0) u v = true ->
  a (y (index_of_yuv_ st0) u v) = true ->
  In (Z.min u v, Z.max u v) (basepairs_ s).
Proof.
  intros Hu Hv Hal Ha.
  pose proof (allowed_basepair_range _ _ _ _ Hal) as Hr.
  pose proof (allowed_basepair_low _ _ _ _ Hal) as Hlow.
  apply (@solved_pair cplex_solve rna sites theta sound st st' o mn mx s a Hlater Hsolve).
  split; [lia|]. split; [lia|].
  destruct (Z.le_gt_cases u v).
  - rewrite Z.min_l, Z.max_r by lia. split; assumption.
  - rewrite Z.min_r, Z.max_l by lia.
    rewrite allowed_basepair_sym, y_sym. split; assumption.
Qed.

Lemma solved_closed (x : Motif) :
  (forall c, In c (comp x) -> 0 <= fst (pos c) /\ 0 <= snd (pos c)) ->
  In x (motif_info_ s) ->
  (1 <= comp_size x ->
   In (Z.min (fst (pos (component x 0))) (snd (pos (comp_back x))),
       Z.max (fst (pos (component x 0))) (snd (pos (comp_back x))))
      (basepairs_ s)) /\
  (forall j, 0 <= j -> j + 1 < comp_size x ->
     In (Z.min (snd (pos (component x j))) (fst (pos (component x (j + 1)))),
         Z.max (snd (pos (component x j))) (fst (pos (component x (j + 1)))))
        (basepairs_ s)).
Proof.
  intros Hpos Hin. destruct (@solved_site x Hin) as [i [Hi [Hx HC]]].
  assert (Hc : forall j, 0 <= j < comp_size x ->
                         0 <= fst (pos (component x j)) /\ 0 <= snd (pos (component x j))).
  { intros j Hj. apply Hpos. unfold component. apply nth_In. unfold comp_size in Hj. lia. }
  split.
  - intro Hsz. specialize (HC Hsz).
    destruct (@K6_closing_set n sites (index_of_yuv_ st0) (index_of_Cxip_ st0) a Hfeas i Hi HC)
      as [Hal Ha].
    rewrite <- Hx in Hal, Ha.
    apply solved_pair_In; try assumption.
    + apply (Hc 0). lia.
    + unfold comp_back. apply (Hc (comp_size x - 1)). lia.
  - intros j Hj Hj'. specialize (HC ltac:(lia)).
    assert (HCj : a (C (index_of_Cxip_ st0) i j) = true).
    { rewrite (@K5_all_or_none n sites (index_of_yuv_ st0) (index_of_Cxip_ st0) a Hfeas i j Hi);
        [exact HC| |]; rewrite <- Hx; lia. }
    destruct (@K6_between_set n sites (index_of_yuv_ st0) (index_of_Cxip_ st0) a Hfeas i j
                Hi Hj ltac:(rewrite <- Hx; exact Hj') HCj) as [Hal Ha].
    rewrite <- Hx in Hal, Ha.
    apply solved_pair_In; try assumption.
    + apply (Hc j). lia.
    + apply (Hc (j + 1)). lia.
Qed.

End Solved2.

(** ** The table of the C variables *)

Lemma fold_sizes_le (sites : list Motif) :
  forall i0, i0 <= fold_left (fun i m => i + Z.of_nat (List.length (comp m))) sites i0.
Proof.
  induction sites as [|m sites IH]; intro i0; cbn [fold_left]; [lia|].
  specialize (IH (i0 + Z.of_nat (List.length (comp m)))). lia.
Qed.

Lemma Cxip_rows_rank (d : Motif) (sites : list Motif) :
  forall (i0 : Z) (x i : nat),
    (x < List.length sites)%nat -> (i < List.length (comp (nth x sites d)))%nat ->
    i0 <= nth i (nth x (map snd (Cxip_rows i0 sites)) []) 0
       < fold_left (fun i m => i + Z.of_nat (List.length (comp m))) sites i0.
Proof.
  induction sites as [|m sites IH]; intros i0 x i Hx Hi; simpl in Hx; [lia|].
  cbn [Cxip_rows map snd fold_left]. destruct x as [|x]; cbn [nth] in *.
  - rewrite (nth_indep _ 0 (i0 + Z.of_nat 0)) by (rewrite length_map, length_seq; exact Hi).
    rewrite (map_nth (fun k => i0 + Z.of_nat k)), seq_nth by exact Hi.
    pose proof (fold_sizes_le sites (i0 + Z.of_nat (List.length (comp m)))). lia.
  - specialize (IH (i0 + Z.of_nat (List.length (comp m))) x i ltac:(lia) Hi). lia.
Qed.

Lemma Cxip_rows_mono (d : Motif) (sites : list Motif) :
  forall (i0 : Z) (x i x' i' : nat),
    (x < List.length sites)%nat -> (i < List.length (comp (nth x sites d)))%nat ->
    (x' < List.length sites)%nat -> (i' < List.length (comp (nth x' sites d)))%nat ->
    (x < x' \/ (x = x' /\ i < i'))%nat ->
    nth i (nth x (map snd (Cxip_rows i0 sites)) []) 0
    < nth i' (nth x' (map snd (Cxip_rows i0 sites)) []) 0.
Proof.
  induction sites as [|m sites IH]; intros i0 x i x' i' Hx Hi Hx' Hi' Hlt; simpl in Hx; [lia|].
  cbn [Cxip_rows map snd]. destruct x as [|x]; destruct x' as [|x']; cbn [nth] in *.
  - rewrite (nth_indep _ 0 (i0 + Z.of_nat 0)) by (rewrite length_map, length_seq; exact Hi).
    rewrite (nth_indep _ 0 (i0 + Z.of_nat 0)) by (rewrite length_map, length_seq; exact Hi').
    rewrite !(map_nth (fun k => i0 + Z.of_nat k)), !seq_nth by assumption. lia.
  - rewrite (nth_indep _ 0 (i0 + Z.of_nat 0)) by (rewrite length_map, length_seq; exact Hi).
    rewrite (map_nth (fun k => i0 + Z.of_nat k)), seq_nth by exact Hi.
    pose proof (@Cxip_rows_rank d sites (i0 + Z.of_nat (List.length (comp m))) x' i'
                  ltac:(simpl in Hx'; lia) Hi'). lia.
  - lia.
  - apply IH; try assumption; simpl in Hx'; lia.
Qed.

Lemma C_ranks (rna : RNAData) (sites : list Motif) (theta : Q) (x i x' i' : Z) :
  let st := MOIP_new rna sites theta in
  0 <= x < Z.of_nat (List.length sites) -> 0 <= i < comp_size (site sites x) ->
  0 <= x' < Z.of_nat (List.length sites) -> 0 <= i' < comp_size (site sites x') ->
  0 <= get_Cpxi_index (index_of_Cxip_ st) x i < insertion_dv_size st /\
  (get_Cpxi_index (index_of_Cxip_ st) x i = get_Cpxi_index (index_of_Cxip_ st) x' i' ->
   x = x' /\ i = i').
Proof.
  intros st Hx Hi Hx' Hi'.
  destruct (MOIP_new_spec rna sites theta) as [_ [_ [_ [_ Ht]]]]. fold st in Ht.
  unfold build_Cxip in Ht. rewrite build_Cxip_closed in Ht. cbn [app] in Ht.
  inversion Ht as [[Hf Ht' Hs]]. clear Ht.
  unfold get_Cpxi_index, at2. unfold comp_size, site in Hi, Hi'.
  set (d := mkMotif [] [] "" "" "" 0 false false RNA3DMOTIF) in *.
  rewrite Ht', Hs. split.
  - apply (@Cxip_rows_rank d sites 0 (Z.to_nat x) (Z.to_nat i)); lia.
  - intro E.
    destruct (Z.lt_trichotomy x x') as [Hlt|[Heq|Hgt]].
    + pose proof (@Cxip_rows_mono d sites 0 (Z.to_nat x) (Z.to_nat i) (Z.to_nat x')
                    (Z.to_nat i') ltac:(lia) ltac:(lia) ltac:(lia) ltac:(lia) ltac:(lia)). lia.
    + subst x'. destruct (Z.lt_trichotomy i i') as [Hlt|[Heq|Hgt]].
      * pose proof (@Cxip_rows_mono d sites 0 (Z.to_nat x) (Z.to_nat i) (Z.to_nat x)
                      (Z.to_nat i') ltac:(lia) ltac:(lia) ltac:(lia) ltac:(lia) ltac:(lia)). lia.
      * split; [reflexivity|exact Heq].
      * pose proof (@Cxip_rows_mono d sites 0 (Z.to_nat x) (Z.to_nat i') (Z.to_nat x)
                      (Z.to_nat i) ltac:(lia) ltac:(lia) ltac:(lia) ltac:(lia) ltac:(lia)). lia.
    + pose proof (@Cxip_rows_mono d sites 0 (Z.to_nat x') (Z.to_nat i') (Z.to_nat x)
                    (Z.to_nat i) ltac:(lia) ltac:(lia) ltac:(lia) ltac:(lia) ltac:(lia)). lia.
Qed.


(** ** What the model and the solved structures guarantee *)

(** X17: after the constructor, the variable of a component of a site is
    inside [insertion_dv_], and two different components (of one site or
    of two) have different variables. *)
Theorem insertion_variables_distinct
        (rna : RNAData) (sites : list Motif) (theta : Q) (x i x' i' : Z) :
  let st := MOIP_new rna sites theta in
  0 <= x < Z.of_nat (List.length sites) -> 0 <= i < comp_size (site sites x) ->
  0 <= x' < Z.of_nat (List.length sites) -> 0 <= i' < comp_size (site sites x') ->
  (exists d, C (index_of_Cxip_ st) x i = insertion_dv d /\ 0 <= d < insertion_dv_size st) /\
  (C (index_of_Cxip_ st) x i = C (index_of_Cxip_ st) x' i' -> x = x' /\ i = i').
Proof.
  intros st Hx Hi Hx' Hi'.
  destruct (@C_ranks rna sites theta x i x' i' Hx Hi Hx' Hi') as [Hr Hinj].
  split.
  - eexists. split; [reflexivity|exact Hr].
  - unfold C. intro E. inversion E as [E']. apply Hinj. exact E'.
Qed.

(** X19: [add_solution] keeps, in their order, the structures the new one
    does not dominate, and appends the new one. *)
Theorem add_solution_is_filter (st : MOIP) (s : SecondaryStructure) :
  pareto_ (add_solution st s)
  = filter (fun p => negb (dominates s p)) (pareto_ st) ++ [s].
Proof. apply add_solution_pareto. Qed.

(** X20: when the solver finds nothing, [solve_objective] returns the
    empty structure and leaves in [model_] the objective and the range
    constraint it has added: they are removed on the success path only. *)
Theorem solve_objective_failure_keeps_objective
        (cplex_solve : list IloExtractable -> option Assignment)
        (o : Z) (mn mx : Q) (st : MOIP) :
  o = 1 \/ o = 2 ->
  cplex_solve (solver_input o mn mx st) = None ->
  let r := solve_objective cplex_solve o mn mx st in
  fst (fst r) = SecondaryStructure_empty /\
  snd (fst r) = None /\
  elements (model_ (snd r)) = solver_input o mn mx st.
Proof.
  intros Ho Hnone. cbv zeta.
  assert (Hin : elements (model_ st ++
                   (if o =? 1
                    then [(next_handle st, IloMaximize (obj1 st));
                          (S (next_handle st), Constraint (IloRange mn (obj2 st) mx))]
                    else [(next_handle st, IloMaximize (obj2 st));
                          (S (next_handle st), Constraint (IloRange mn (obj1 st) mx))]))
                = solver_input o mn mx st).
  { unfold solver_input, elements. rewrite map_app.
    destruct Ho as [-> | ->]; reflexivity. }
  unfold solve_objective.
  destruct Ho as [-> | ->]; cbn [Z.eqb Pos.eqb model_add fst snd model_ next_handle obj1 obj2];
    cbn [Z.eqb Pos.eqb] in Hin; rewrite <- app_assoc; cbn [app];
    rewrite Hin, Hnone; cbn [fst snd model_]; repeat split; exact Hin.
Qed.

Section SolvedEntries.

Variable cplex_solve : list IloExtractable -> option Assignment.
Variable rna : RNAData.
Variable sites : list Motif.
Variable theta : Q.
Variable st st' : MOIP.
Variable o : Z.
Variable mn mx : Q.
Variable s : SecondaryStructure.
Variable a : Assignment.

(** X21: in a structure returned by [solve_objective], at any point of a
    run and for a solver that respects the constraints, two base pairs
    that share a nucleotide are the same pair. *)
Theorem solved_pairs_form_a_matching :
  solver_sound cplex_solve ->
  later cplex_solve (MOIP_new rna sites theta) st ->
  solve_objective cplex_solve o mn mx st = (s, Some a, st') ->
  forall u v u' v',
    In (u, v) (basepairs_ s) -> In (u', v') (basepairs_ s) ->
    (u = u' \/ u = v' \/ v = u' \/ v = v') -> (u, v) = (u', v').
Proof.
  intros Hsound Hl Hsolve u v u' v'.
  apply (@solved_matching cplex_solve rna sites theta Hsound st st' o mn mx s a Hl Hsolve).
Qed.

(** X22: every base pair [(u, v)] of a structure returned by
    [solve_objective] has [u + 4 <= v < n], [u < n - 6] and a probability
    above the threshold. *)
Theorem solved_pairs_are_likely :
  solver_sound cplex_solve ->
  later cplex_solve (MOIP_new rna sites theta) st ->
  solve_objective cplex_solve o mn mx st = (s, Some a, st') ->
  6 <= get_RNA_length rna < 2 ^ 16 ->
  forall u v,
    In (u, v) (basepairs_ s) ->
    0 <= u /\ u + 4 <= v /\ u < get_RNA_length rna - 6 /\ v < get_RNA_length rna /\
    (theta < get_pij rna u v)%Q.
Proof.
  intros Hsound Hl Hsolve Hn u v Hin.
  apply (@solved_pair cplex_solve rna sites theta Hsound st st' o mn mx s a Hl Hsolve) in Hin.
  destruct Hin as [Hu [Hv [Hal _]]].
  apply (@allowed_iff_likely rna sites theta u v Hn) in Hal; [|lia|lia].
  rewrite Z.min_l, Z.max_r in Hal by lia. repeat split; try lia. apply Hal.
Qed.

(** X23: for every base pair [(u, v)] of a structure returned by
    [solve_objective], the structure holds a pair that starts at [u - 1]
    or [u + 1] and a pair that ends at [v - 1] or [v + 1]. *)
Theorem solved_pairs_are_not_lonely :
  solver_sound cplex_solve ->
  later cplex_solve (MOIP_new rna sites theta) st ->
  solve_objective cplex_solve o mn mx st = (s, Some a, st') ->
  get_RNA_length rna < 2 ^ 32 ->
  forall u v,
    In (u, v) (basepairs_ s) ->
    (exists w, In (u - 1, w) (basepairs_ s) \/ In (u + 1, w) (basepairs_ s)) /\
    (exists w, In (w, v - 1) (basepairs_ s) \/ In (w, v + 1) (basepairs_ s)).
Proof.
  intros Hsound Hl Hsolve Hn u v Hin.
  destruct (@solved_feasible cplex_solve rna sites theta Hsound st st' o mn mx s a Hl Hsolve)
    as [Hfeas _].
  pose proof (@solved_pair_In cplex_solve rna sites theta Hsound st st' o mn mx s a Hl Hsolve)
    as Hput.
  apply (@solved_pair cplex_solve rna sites theta Hsound st st' o mn mx s a Hl Hsolve) in Hin.
  destruct Hin as [Hu [Hv [Hal Ha]]].
  split.
  - destruct (@K2_neighbour _ sites _ (index_of_Cxip_ (MOIP_new rna sites theta)) a Hfeas
                u v Hn ltac:(lia) ltac:(lia) Hal Ha) as [w [Hw [[H1 [H2 H3]]|[H2 H3]]]];
      exists w.
    + left. pose proof (Hput (u - 1) w ltac:(lia) ltac:(lia) H2 H3) as H.
      rewrite Z.min_l, Z.max_r in H by lia. exact H.
    + right. pose proof (Hput (u + 1) w ltac:(lia) ltac:(lia) H2 H3) as H.
      pose proof (allowed_basepair_range _ _ _ _ H2).
      rewrite Z.min_l, Z.max_r in H by lia. exact H.
  - destruct (@K2p_neighbour _ sites _ (index_of_Cxip_ (MOIP_new rna sites theta)) a Hfeas
                u v ltac:(lia) ltac:(lia) Hal Ha) as [w [Hw [[H2 H3]|[H2 H3]]]];
      exists w.
    + left. pose proof (Hput w (v - 1) ltac:(lia) ltac:(lia) H2 H3) as H.
      pose proof (allowed_basepair_range _ _ _ _ H2).
      rewrite Z.min_l, Z.max_r in H by lia. exact H.
    + right. pose proof (Hput w (v + 1) ltac:(lia) ltac:(lia) H2 H3) as H.
      rewrite Z.min_l, Z.max_r in H by lia. exact H.
Qed.

(** X24: for every motif inserted in a structure returned by
    [solve_objective], the structure holds the pair that closes the
    motif (start of the first component, end of the last) and the pair
    between the end of each component and the start of the next. *)
Theorem solved_motifs_are_closed :
  solver_sound cplex_solve ->
  later cplex_solve (MOIP_new rna sites theta) st ->
  solve_objective cplex_solve o mn mx st = (s, Some a, st') ->
  forall x,
    In x (motif_info_ s) ->
    (forall c, In c (comp x) -> 0 <= fst (pos c) /\ 0 <= snd (pos c)) ->
    (1 <= comp_size x ->
     In (Z.min (fst (pos (component x 0))) (snd (pos (comp_back x))),
         Z.max (fst (pos (component x 0))) (snd (pos (comp_back x))))
        (basepairs_ s)) /\
    (forall j, 0 <= j -> j + 1 < comp_size x ->
       In (Z.min (snd (pos (component x j))) (fst (pos (component x (j + 1)))),
           Z.max (snd (pos (component x j))) (fst (pos (component x (j + 1)))))
          (basepairs_ s)).
Proof.
  intros Hsound Hl Hsolve x Hin Hpos.
  apply (@solved_closed cplex_solve rna sites theta Hsound st st' o mn mx s a Hl Hsolve x
           Hpos Hin).
Qed.

(** X25: the first objective score of a structure returned by
    [solve_objective] is the sum of the scores of its motifs. *)
Theorem solved_obj1_is_sum_of_scores :
  solver_sound cplex_solve ->
  later cplex_solve (MOIP_new rna sites theta) st ->
  solve_objective cplex_solve o mn mx st = (s, Some a, st') ->
  (get_objective_score s 1
   == fold_right (fun m acc => inject_Z (score_ m) + acc) 0 (motif_info_ s))%Q.
Proof.
  intros Hsound Hl Hsolve.
  apply (@solved_obj1 cplex_solve rna sites theta Hsound st st' o mn mx s a Hl Hsolve).
Qed.

(** X26: the second objective score of a structure returned by
    [solve_objective] is the sum of the probabilities of its pairs. *)
Theorem solved_obj2_is_sum_of_probabilities :
  solver_sound cplex_solve ->
  later cplex_solve (MOIP_new rna sites theta) st ->
  solve_objective cplex_solve o mn mx st = (s, Some a, st') ->
  (get_objective_score s 2
   == fold_right (fun p acc => get_pij rna (fst p) (snd p) + acc) 0 (basepairs_ s))%Q.
Proof.
  intros Hsound Hl Hsolve.
  apply (@solved_obj2 cplex_solve rna sites theta Hsound st st' o mn mx s a Hl Hsolve).
Qed.

End SolvedEntries.

Section FeasibleEntries.

Variable rna : RNAData.
Variable sites : list Motif.
Variable theta : Q.
Variable a : Assignment.

#[local] Abbreviation st0 := (MOIP_new rna sites theta).
#[local] Abbreviation n := (get_RNA_length rna).

Lemma feasible_constraints :
  feasible (elements (model_ st0)) a ->
  forall c, In c (define_problem_constraints n sites (index_of_yuv_ st0) (index_of_Cxip_ st0))
            -> holds a c = true.
Proof.
  intros Hf c Hc. apply Hf.
  rewrite (proj1 (proj2 (proj2 (proj2 (MOIP_new_spec rna sites theta))))). exact Hc.
Qed.

(** X27: under an assignment that satisfies the model of the constructor,
    every component of a site with two components or more has the value
    of the first. *)
Theorem components_all_or_none (i j : Z) :
  feasible (elements (model_ st0)) a ->
  0 <= i < Z.of_nat (List.length sites) ->
  2 <= comp_size (site sites i) ->
  0 <= j < comp_size (site sites i) ->
  a (C (index_of_Cxip_ st0) i j) = a (C (index_of_Cxip_ st0) i 0).
Proof.
  intros Hf Hi Hsz Hj.
  apply (@K5_all_or_none n sites (index_of_yuv_ st0) (index_of_Cxip_ st0) a
           (feasible_constraints Hf) i j Hi Hsz Hj).
Qed.

(** X28: under an assignment that satisfies the model of the constructor,
    two different components that contain one nucleotide are not both
    inserted. *)
Theorem no_overlapping_components (u i1 j1 i2 j2 : Z) :
  feasible (elements (model_ st0)) a ->
  0 <= u <= n - 1 ->
  0 <= i1 < Z.of_nat (List.length sites) -> 0 <= j1 < comp_size (site sites i1) ->
  0 <= i2 < Z.of_nat (List.length sites) -> 0 <= j2 < comp_size (site sites i2) ->
  (i1, j1) <> (i2, j2) ->
  covers sites u i1 j1 = true -> covers sites u i2 j2 = true ->
  a (C (index_of_Cxip_ st0) i1 j1) = true -> a (C (index_of_Cxip_ st0) i2 j2) = false.
Proof.
  intros Hf. apply (@K4_exclusive n sites (index_of_yuv_ st0) (index_of_Cxip_ st0) a
                      (feasible_constraints Hf)).
Qed.


End FeasibleEntries.

(** ** The small instance *)

Unset Implicit Arguments.

Lemma first_feasible_sound (candidates : list Assignment) :
  solver_sound (first_feasible candidates).
Proof.
  intros m a H. unfold first_feasible in H. apply find_some in H.
  destruct H as [_ H]. unfold holds_all in H. rewrite forallb_forall in H.
  intros c Hc. apply H. exact Hc.
Qed.

Lemma example_moip_fresh : handles_fresh example_moip.
Proof. exact (proj1 (MOIP_new_spec example_rna example_sites (1 # 100)%Q)). Qed.

(** The walk over the instance calls [add_solution] twice: first with the
    stem alone, then with the stem and the hairpin motif, which replaces
    it. *)
Example example_walk :
  let r := extend_pareto example_solver 10 (- (1000 # 1))%Q (1000 # 1)%Q example_moip in
  map (fun c => objective_scores_ (fst c)) (calls r)
  = [(0, 33000 # 10000)%Q; (10, 33000 # 10000)%Q] /\
  map objective_scores_ (pareto_ (final r)) = [(10, 33000 # 10000)%Q] /\
  returned r = true.
Proof. vm_compute. repeat split. Qed.

Lemma extend_pareto_keeps_pareto_ok_witness :
  pareto_ok (pareto_ example_moip) /\
  (forall s p,
      In (s, p) (calls (extend_pareto example_solver 10 (- (1000 # 1))%Q (1000 # 1)%Q
                                      example_moip)) ->
      pareto_ok p) /\
  pareto_ok (pareto_ (final (extend_pareto example_solver 10 (- (1000 # 1))%Q (1000 # 1)%Q
                                           example_moip))).
Proof.
  assert (H : pareto_ok (pareto_ example_moip)).
  { rewrite (proj1 (proj2 (MOIP_new_spec example_rna example_sites (1 # 100)%Q))).
    intros s t []. }
  split; [exact H|].
  exact (@extend_pareto_keeps_pareto_ok example_solver 10 (- (1000 # 1))%Q (1000 # 1)%Q
                                        example_moip H).
Defined.

Lemma extend_pareto_obj1_monotone_witness :
  solver_sound example_solver /\
  Forall (fun v => (- (1000 # 1) <= v)%Q)
         (map (fun c => get_objective_score (fst c) 1)
              (calls (extend_pareto example_solver 10 (- (1000 # 1))%Q (1000 # 1)%Q
                                    example_moip))) /\
  StronglySorted Qle
         (map (fun c => get_objective_score (fst c) 1)
              (calls (extend_pareto example_solver 10 (- (1000 # 1))%Q (1000 # 1)%Q
                                    example_moip))) /\
  forall s oa st1,
    solve_objective example_solver 2 (- (1000 # 1))%Q (1000 # 1)%Q example_moip = (s, oa, st1) ->
    is_empty_structure s = false ->
    is_undominated_yet st1 s = true ->
    (- (1000 # 1) <= get_objective_score s 1)%Q /\
    extend_pareto example_solver 11 (- (1000 # 1))%Q (1000 # 1)%Q example_moip
    = mkRun (final (extend_pareto example_solver 10 (get_objective_score s 1) (1000 # 1)%Q
                                  (add_solution st1 s)))
            ((s, pareto_ (add_solution st1 s))
               :: calls (extend_pareto example_solver 10 (get_objective_score s 1) (1000 # 1)%Q
                                       (add_solution st1 s)))
            (returned (extend_pareto example_solver 10 (get_objective_score s 1) (1000 # 1)%Q
                                     (add_solution st1 s))) /\
    Forall (fun v => (get_objective_score s 1 <= v)%Q)
           (map (fun c => get_objective_score (fst c) 1)
                (calls (extend_pareto example_solver 10 (get_objective_score s 1) (1000 # 1)%Q
                                      (add_solution st1 s)))).
Proof.
  split; [apply first_feasible_sound|].
  exact (@extend_pareto_obj1_monotone example_solver 10 (- (1000 # 1))%Q (1000 # 1)%Q
           example_moip (first_feasible_sound example_candidates)).
Defined.

Lemma forbid_clause_effect_witness :
  let st := example_moip in
  let a := assignment_of [] [0; 1; 2; 3] in
  let r := solve_objective example_solver 2 (- (1000 # 1))%Q (1000 # 1)%Q st in
  r = (fst (fst r), Some a, snd r) /\
  (exists h, model_ (snd r) = model_ st ++ [(h, Constraint (forbid_clause st a))]) /\
  (forall b, holds b (forbid_clause st a) = false <-> same_assignment st a b) /\
  (forall st'' o' min' max' s' b st3,
      later example_solver (snd r) st'' ->
      solve_objective example_solver o' min' max' st'' = (s', Some b, st3) ->
      ~ same_assignment st a b).
Proof.
  cbv zeta.
  assert (H : solve_objective example_solver 2 (- (1000 # 1))%Q (1000 # 1)%Q example_moip
              = (fst (fst (solve_objective example_solver 2 (- (1000 # 1))%Q (1000 # 1)%Q
                                           example_moip)),
                 Some (assignment_of [] [0; 1; 2; 3]),
                 snd (solve_objective example_solver 2 (- (1000 # 1))%Q (1000 # 1)%Q
                                      example_moip)))
    by (vm_compute; reflexivity).
  split; [exact H|].
  exact (@forbid_clause_effect example_solver 2 (- (1000 # 1))%Q (1000 # 1)%Q
           example_moip _ _ _ (first_feasible_sound example_candidates)
           example_moip_fresh H).
Defined.

Lemma K6_forbids_unclosed_sites_witness :
  let st := example_moip in
  (0 <= 1 < Z.of_nat (List.length example_sites)) /\
  1 <= comp_size (site example_sites 1) /\
  In (Le (expr_var (C (index_of_Cxip_ st) 1 0)) expr_empty)
     (constraints (elements (model_ st))) /\
  forall a, feasible (elements (model_ st)) a ->
            a (C (index_of_Cxip_ st) 1 0) = false /\ ~ In 1 (inserted_sites st a).
Proof.
  cbv zeta.
  assert (H1 : 0 <= 1 < Z.of_nat (List.length example_sites))
    by (unfold example_sites; simpl; lia).
  assert (H2 : 1 <= comp_size (site example_sites 1)) by (vm_compute; discriminate).
  split; [exact H1|]. split; [exact H2|].
  assert (H3 : allowed_basepair (get_RNA_length example_rna)
                 (index_of_yuv_ (MOIP_new example_rna example_sites (1 # 100)%Q))
                 (fst (pos (component (site example_sites 1) 0)))
                 (snd (pos (comp_back (site example_sites 1)))) = false)
    by (vm_compute; reflexivity).
  exact (proj1 (@K6_forbids_unclosed_sites example_rna example_sites (1 # 100)%Q 1 H1 H2)
               H3).
Defined.

(** ** The second instance *)

Lemma holds_all_feasible (m : list IloExtractable) (a : Assignment) :
  holds_all m a = true -> feasible m a.
Proof.
  unfold holds_all. rewrite forallb_forall. intros H c Hc. apply H. exact Hc.
Qed.

Lemma example_length : 6 <= get_RNA_length example_rna < 2 ^ 16.
Proof. simpl. lia. Qed.

Lemma loop_inserted_feasible :
  feasible (elements (model_ (MOIP_new loop_rna loop_sites (1 # 100)%Q))) loop_inserted.
Proof. apply holds_all_feasible. vm_compute. reflexivity. Qed.


Lemma example_solved :
  solve_objective example_solver 2 (- (1000 # 1))%Q (1000 # 1)%Q example_moip
  = (fst (fst (solve_objective example_solver 2 (- (1000 # 1))%Q (1000 # 1)%Q example_moip)),
     Some (assignment_of [] [0; 1; 2; 3]),
     snd (solve_objective example_solver 2 (- (1000 # 1))%Q (1000 # 1)%Q example_moip)).
Proof. vm_compute. reflexivity. Qed.

Lemma loop_solved :
  solve_objective (first_feasible [loop_inserted]) 2 (- (1000 # 1))%Q (1000 # 1)%Q
                  (MOIP_new loop_rna loop_sites (1 # 100)%Q)
  = (fst (fst (solve_objective (first_feasible [loop_inserted]) 2 (- (1000 # 1))%Q (1000 # 1)%Q
                               (MOIP_new loop_rna loop_sites (1 # 100)%Q))),
     Some loop_inserted,
     snd (solve_objective (first_feasible [loop_inserted]) 2 (- (1000 # 1))%Q (1000 # 1)%Q
                          (MOIP_new loop_rna loop_sites (1 # 100)%Q))).
Proof. vm_compute. reflexivity. Qed.

Lemma allowed_basepair_iff_threshold_witness :
  6 <= get_RNA_length example_rna < 2 ^ 16 /\ 0 <= 0 /\ 0 <= 11 /\
  (allowed_basepair (get_RNA_length example_rna) (index_of_yuv_ example_moip) 0 11 = true <->
   Z.min 0 11 + 4 <= Z.max 0 11 /\ Z.min 0 11 < get_RNA_length example_rna - 6 /\
   Z.max 0 11 < get_RNA_length example_rna /\
   (1 # 100 < get_pij example_rna (Z.min 0 11) (Z.max 0 11))%Q).
Proof.
  assert (H1 : 0 <= 0) by lia. assert (H2 : 0 <= 11) by lia.
  split; [exact example_length|]. split; [exact H1|]. split; [exact H2|].
  exact (@allowed_basepair_iff_threshold example_rna example_sites (1 # 100)%Q 0 11
           example_length H1 H2).
Defined.

Lemma basepair_variables_distinct_witness :
  6 <= get_RNA_length example_rna < 2 ^ 16 /\ 0 <= 0 < 11 /\ 0 <= 1 < 10 /\
  allowed_basepair (get_RNA_length example_rna) (index_of_yuv_ example_moip) 0 11 = true /\
  allowed_basepair (get_RNA_length example_rna) (index_of_yuv_ example_moip) 1 10 = true /\
  (exists d, y (index_of_yuv_ example_moip) 0 11 = basepair_dv d /\
             0 <= d < basepair_dv_size example_moip) /\
  (y (index_of_yuv_ example_moip) 0 11 = y (index_of_yuv_ example_moip) 1 10 ->
   0 = 1 /\ 11 = 10).
Proof.
  assert (H1 : 0 <= 0 < 11) by lia. assert (H2 : 0 <= 1 < 10) by lia.
  assert (H3 : allowed_basepair (get_RNA_length example_rna) (index_of_yuv_ example_moip) 0 11
               = true) by (vm_compute; reflexivity).
  assert (H4 : allowed_basepair (get_RNA_length example_rna) (index_of_yuv_ example_moip) 1 10
               = true) by (vm_compute; reflexivity).
  split; [exact example_length|]. split; [exact H1|]. split; [exact H2|].
  split; [exact H3|]. split; [exact H4|].
  exact (@basepair_variables_distinct example_rna example_sites (1 # 100)%Q 0 11 1 10
           example_length H1 H2 H3 H4).
Defined.

Lemma insertion_variables_distinct_witness :
  0 <= 0 < Z.of_nat (List.length loop_sites) /\ 0 <= 1 < comp_size (site loop_sites 0) /\
  0 <= 1 < Z.of_nat (List.length loop_sites) /\ 0 <= 0 < comp_size (site loop_sites 1) /\
  (exists d, C (index_of_Cxip_ (MOIP_new loop_rna loop_sites (1 # 100)%Q)) 0 1 = insertion_dv d /\
             0 <= d < insertion_dv_size (MOIP_new loop_rna loop_sites (1 # 100)%Q)) /\
  (C (index_of_Cxip_ (MOIP_new loop_rna loop_sites (1 # 100)%Q)) 0 1
   = C (index_of_Cxip_ (MOIP_new loop_rna loop_sites (1 # 100)%Q)) 1 0 -> 0 = 1 /\ 1 = 0).
Proof.
  assert (H1 : 0 <= 0 < Z.of_nat (List.length loop_sites)) by (simpl; lia).
  assert (H2 : 0 <= 1 < comp_size (site loop_sites 0)) by (vm_compute; split; congruence).
  assert (H3 : 0 <= 1 < Z.of_nat (List.length loop_sites)) by (simpl; lia).
  assert (H4 : 0 <= 0 < comp_size (site loop_sites 1)) by (vm_compute; split; congruence).
  split; [exact H1|]. split; [exact H2|]. split; [exact H3|]. split; [exact H4|].
  exact (@insertion_variables_distinct loop_rna loop_sites (1 # 100)%Q 0 1 1 0 H1 H2 H3 H4).
Defined.

Lemma solve_objective_failure_keeps_objective_witness :
  (2 = 1 \/ 2 = 2) /\
  no_solver (solver_input 2 (- (1000 # 1))%Q (1000 # 1)%Q example_moip) = None /\
  fst (fst (solve_objective no_solver 2 (- (1000 # 1))%Q (1000 # 1)%Q example_moip))
  = SecondaryStructure_empty /\
  snd (fst (solve_objective no_solver 2 (- (1000 # 1))%Q (1000 # 1)%Q example_moip)) = None /\
  elements (model_ (snd (solve_objective no_solver 2 (- (1000 # 1))%Q (1000 # 1)%Q
                                         example_moip)))
  = solver_input 2 (- (1000 # 1))%Q (1000 # 1)%Q example_moip.
Proof.
  assert (H1 : 2 = 1 \/ 2 = 2) by (right; reflexivity).
  assert (H2 : no_solver (solver_input 2 (- (1000 # 1))%Q (1000 # 1)%Q example_moip) = None)
    by reflexivity.
  split; [exact H1|]. split; [exact H2|].
  exact (@solve_objective_failure_keeps_objective no_solver 2 (- (1000 # 1))%Q (1000 # 1)%Q
           example_moip H1 H2).
Defined.

Lemma solved_pairs_form_a_matching_witness :
  solver_sound example_solver /\
  later example_solver example_moip example_moip /\
  forall u v u' v',
    In (u, v) (basepairs_ (fst (fst (solve_objective example_solver 2 (- (1000 # 1))%Q
                                                     (1000 # 1)%Q example_moip)))) ->
    In (u', v') (basepairs_ (fst (fst (solve_objective example_solver 2 (- (1000 # 1))%Q
                                                       (1000 # 1)%Q example_moip)))) ->
    (u = u' \/ u = v' \/ v = u' \/ v = v') -> (u, v) = (u', v').
Proof.
  split; [apply first_feasible_sound|]. split; [apply later_here|].
  exact (@solved_pairs_form_a_matching example_solver example_rna example_sites (1 # 100)%Q
           example_moip _ 2 (- (1000 # 1))%Q (1000 # 1)%Q _ _
           (first_feasible_sound example_candidates) (later_here _ _) example_solved).
Defined.

Lemma solved_pairs_are_likely_witness :
  solver_sound example_solver /\
  later example_solver example_moip example_moip /\
  6 <= get_RNA_length example_rna < 2 ^ 16 /\
  forall u v,
    In (u, v) (basepairs_ (fst (fst (solve_objective example_solver 2 (- (1000 # 1))%Q
                                                     (1000 # 1)%Q example_moip)))) ->
    0 <= u /\ u + 4 <= v /\ u < get_RNA_length example_rna - 6 /\
    v < get_RNA_length example_rna /\ (1 # 100 < get_pij example_rna u v)%Q.
Proof.
  split; [apply first_feasible_sound|]. split; [apply later_here|].
  split; [exact example_length|].
  exact (@solved_pairs_are_likely example_solver example_rna example_sites (1 # 100)%Q
           example_moip _ 2 (- (1000 # 1))%Q (1000 # 1)%Q _ _
           (first_feasible_sound example_candidates) (later_here _ _) example_solved
           example_length).
Defined.

Lemma solved_pairs_are_not_lonely_witness :
  solver_sound example_solver /\
  later example_solver example_moip example_moip /\
  get_RNA_length example_rna < 2 ^ 32 /\
  forall u v,
    In (u, v) (basepairs_ (fst (fst (solve_objective example_solver 2 (- (1000 # 1))%Q
                                                     (1000 # 1)%Q example_moip)))) ->
    (exists w,
        In (u - 1, w) (basepairs_ (fst (fst (solve_objective example_solver 2
                                               (- (1000 # 1))%Q (1000 # 1)%Q example_moip))))
        \/ In (u + 1, w) (basepairs_ (fst (fst (solve_objective example_solver 2
                                               (- (1000 # 1))%Q (1000 # 1)%Q example_moip)))))
    /\
    (exists w,
        In (w, v - 1) (basepairs_ (fst (fst (solve_objective example_solver 2
                                               (- (1000 # 1))%Q (1000 # 1)%Q example_moip))))
        \/ In (w, v + 1) (basepairs_ (fst (fst (solve_objective example_solver 2
                                               (- (1000 # 1))%Q (1000 # 1)%Q example_moip))))).
Proof.
  assert (H : get_RNA_length example_rna < 2 ^ 32) by (simpl; lia).
  split; [apply first_feasible_sound|]. split; [apply later_here|]. split; [exact H|].
  exact (@solved_pairs_are_not_lonely example_solver example_rna example_sites (1 # 100)%Q
           example_moip _ 2 (- (1000 # 1))%Q (1000 # 1)%Q _ _
           (first_feasible_sound example_candidates) (later_here _ _) example_solved H).
Defined.

Lemma solved_motifs_are_closed_witness :
  solver_sound (first_feasible [loop_inserted]) /\
  later (first_feasible [loop_inserted]) (MOIP_new loop_rna loop_sites (1 # 100)%Q)
        (MOIP_new loop_rna loop_sites (1 # 100)%Q) /\
  forall x,
    In x (motif_info_ (fst (fst (solve_objective (first_feasible [loop_inserted]) 2
                                   (- (1000 # 1))%Q (1000 # 1)%Q
                                   (MOIP_new loop_rna loop_sites (1 # 100)%Q))))) ->
    (forall c, In c (comp x) -> 0 <= fst (pos c) /\ 0 <= snd (pos c)) ->
    (1 <= comp_size x ->
     In (Z.min (fst (pos (component x 0))) (snd (pos (comp_back x))),
         Z.max (fst (pos (component x 0))) (snd (pos (comp_back x))))
        (basepairs_ (fst (fst (solve_objective (first_feasible [loop_inserted]) 2
                                 (- (1000 # 1))%Q (1000 # 1)%Q
                                 (MOIP_new loop_rna loop_sites (1 # 100)%Q)))))) /\
    (forall j, 0 <= j -> j + 1 < comp_size x ->
       In (Z.min (snd (pos (component x j))) (fst (pos (component x (j + 1)))),
           Z.max (snd (pos (component x j))) (fst (pos (component x (j + 1)))))
          (basepairs_ (fst (fst (solve_objective (first_feasible [loop_inserted]) 2
                                   (- (1000 # 1))%Q (1000 # 1)%Q
                                   (MOIP_new loop_rna loop_sites (1 # 100)%Q)))))).
Proof.
  split; [apply first_feasible_sound|]. split; [apply later_here|].
  exact (@solved_motifs_are_closed (first_feasible [loop_inserted]) loop_rna loop_sites
           (1 # 100)%Q (MOIP_new loop_rna loop_sites (1 # 100)%Q) _ 2
           (- (1000 # 1))%Q (1000 # 1)%Q _ _
           (first_feasible_sound [loop_inserted]) (later_here _ _) loop_solved).
Defined.

Lemma solved_obj1_is_sum_of_scores_witness :
  solver_sound (first_feasible [loop_inserted]) /\
  later (first_feasible [loop_inserted]) (MOIP_new loop_rna loop_sites (1 # 100)%Q)
        (MOIP_new loop_rna loop_sites (1 # 100)%Q) /\
  (get_objective_score
     (fst (fst (solve_objective (first_feasible [loop_inserted]) 2
                  (- (1000 # 1))%Q (1000 # 1)%Q (MOIP_new loop_rna loop_sites (1 # 100)%Q)))) 1
   == fold_right (fun m acc => inject_Z (score_ m) + acc) 0
        (motif_info_
           (fst (fst (solve_objective (first_feasible [loop_inserted]) 2
                        (- (1000 # 1))%Q (1000 # 1)%Q
                        (MOIP_new loop_rna loop_sites (1 # 100)%Q))))))%Q.
Proof.
  split; [apply first_feasible_sound|]. split; [apply later_here|].
  exact (@solved_obj1_is_sum_of_scores (first_feasible [loop_inserted]) loop_rna loop_sites
           (1 # 100)%Q (MOIP_new loop_rna loop_sites (1 # 100)%Q) _ 2
           (- (1000 # 1))%Q (1000 # 1)%Q _ _
           (first_feasible_sound [loop_inserted]) (later_here _ _) loop_solved).
Defined.

Lemma solved_obj2_is_sum_of_probabilities_witness :
  solver_sound example_solver /\
  later example_solver example_moip example_moip /\
  (get_objective_score
     (fst (fst (solve_objective example_solver 2 (- (1000 # 1))%Q (1000 # 1)%Q example_moip))) 2
   == fold_right (fun p acc => get_pij example_rna (fst p) (snd p) + acc) 0
        (basepairs_
           (fst (fst (solve_objective example_solver 2 (- (1000 # 1))%Q (1000 # 1)%Q
                                      example_moip)))))%Q.
Proof.
  split; [apply first_feasible_sound|]. split; [apply later_here|].
  exact (@solved_obj2_is_sum_of_probabilities example_solver example_rna example_sites
           (1 # 100)%Q example_moip _ 2 (- (1000 # 1))%Q (1000 # 1)%Q _ _
           (first_feasible_sound example_candidates) (later_here _ _) example_solved).
Defined.

Lemma components_all_or_none_witness :
  feasible (elements (model_ (MOIP_new loop_rna loop_sites (1 # 100)%Q))) loop_inserted /\
  0 <= 0 < Z.of_nat (List.length loop_sites) /\
  2 <= comp_size (site loop_sites 0) /\
  0 <= 1 < comp_size (site loop_sites 0) /\
  loop_inserted (C (index_of_Cxip_ (MOIP_new loop_rna loop_sites (1 # 100)%Q)) 0 1)
  = loop_inserted (C (index_of_Cxip_ (MOIP_new loop_rna loop_sites (1 # 100)%Q)) 0 0).
Proof.
  assert (H1 : 0 <= 0 < Z.of_nat (List.length loop_sites)) by (simpl; lia).
  assert (H2 : 2 <= comp_size (site loop_sites 0)) by (vm_compute; congruence).
  assert (H3 : 0 <= 1 < comp_size (site loop_sites 0)) by (vm_compute; split; congruence).
  split; [exact loop_inserted_feasible|]. split; [exact H1|]. split; [exact H2|].
  split; [exact H3|].
  exact (@components_all_or_none loop_rna loop_sites (1 # 100)%Q loop_inserted 0 1
           loop_inserted_feasible H1 H2 H3).
Defined.

Lemma no_overlapping_components_witness :
  feasible (elements (model_ (MOIP_new loop_rna loop_sites (1 # 100)%Q))) loop_inserted /\
  0 <= 5 <= get_RNA_length loop_rna - 1 /\
  0 <= 0 < Z.of_nat (List.length loop_sites) /\ 0 <= 0 < comp_size (site loop_sites 0) /\
  0 <= 2 < Z.of_nat (List.length loop_sites) /\ 0 <= 0 < comp_size (site loop_sites 2) /\
  (0, 0) <> (2, 0) /\
  covers loop_sites 5 0 0 = true /\ covers loop_sites 5 2 0 = true /\
  loop_inserted (C (index_of_Cxip_ (MOIP_new loop_rna loop_sites (1 # 100)%Q)) 0 0) = true /\
  loop_inserted (C (index_of_Cxip_ (MOIP_new loop_rna loop_sites (1 # 100)%Q)) 2 0) = false.
Proof.
  assert (H1 : 0 <= 5 <= get_RNA_length loop_rna - 1) by (simpl; lia).
  assert (H2 : 0 <= 0 < Z.of_nat (List.length loop_sites)) by (simpl; lia).
  assert (H3 : 0 <= 0 < comp_size (site loop_sites 0)) by (vm_compute; split; congruence).
  assert (H4 : 0 <= 2 < Z.of_nat (List.length loop_sites)) by (simpl; lia).
  assert (H5 : 0 <= 0 < comp_size (site loop_sites 2)) by (vm_compute; split; congruence).
  assert (H6 : (0, 0) <> (2, 0)) by congruence.
  assert (H7 : covers loop_sites 5 0 0 = true) by (vm_compute; reflexivity).
  assert (H8 : covers loop_sites 5 2 0 = true) by (vm_compute; reflexivity).
  assert (H9 : loop_inserted (C (index_of_Cxip_ (MOIP_new loop_rna loop_sites (1 # 100)%Q)) 0 0)
               = true) by (vm_compute; reflexivity).
  split; [exact loop_inserted_feasible|].
  split; [exact H1|]. split; [exact H2|]. split; [exact H3|]. split; [exact H4|].
  split; [exact H5|]. split; [exact H6|]. split; [exact H7|]. split; [exact H8|].
  split; [exact H9|].
  exact (@no_overlapping_components loop_rna loop_sites (1 # 100)%Q loop_inserted 5 0 0 2 0
           loop_inserted_feasible H1 H2 H3 H4 H5 H6 H7 H8 H9).
Defined.


End MOIPFacts.
